(** * Koine: a shallow embedding of [koine/parser.py]

    The development follows the sections of the Python module: the
    position finder, the stateful lexer, the grammar-to-PEG transpiler,
    the always-empty lint, the AST builder and the parse driver.  Python
    integers are [Z], Python [str] is [string] (one [ascii] per code
    point), lists are [list] and dictionaries are insertion-ordered
    association lists with unique keys. *)

From Stdlib Require Import ZArith List String Ascii Bool Lia Arith DecimalString Sorted.
From Stdlib Require PrimFloat.
From Stdlib Require DecimalZ.
From Equations Require Import Equations.
Import ListNotations.

Set Warnings "-register-all".

Open Scope string_scope.
Open Scope Z_scope.

(** ** Exceptions and outcomes *)

(** What the matcher says it expected at a failure: the expression of a
    grammar rule, a literal, or something else. *)
Inductive peg_expr : Type :=
| RuleExpr (name : string)
| LiteralExpr (literal : string)
| AnyExpr.

(** The exception classes that the modelled code raises or catches. *)
Inductive exn : Type :=
| ValueError (msg : string)
| SyntaxError (msg : string)
| IndentationError (msg : string)
| ParseError (pos : Z) (exprs : list peg_expr)
| IncompleteParseError (pos : Z) (exprs : list peg_expr)
| VisitationError (cause : exn)
| KeyError (key : string)
| IndexError
| TypeError
| AttributeError.

(** A computation either returns or raises. *)
Inductive outcome (A : Type) : Type :=
| Ok (a : A)
| Raise (e : exn).
Arguments Ok {A} a.
Arguments Raise {A} e.

Definition bind {A B : Type} (m : outcome A) (k : A -> outcome B) : outcome B :=
  match m with
  | Ok a => k a
  | Raise e => Raise e
  end.

Notation "x <- m ;; k" := (bind m (fun x => k))
  (at level 61, m at next level, right associativity).

(** ** Python sequences *)

Definition len {A : Type} (l : list A) : Z := Z.of_nat (List.length l).

Definition str_len (s : string) : Z := Z.of_nat (String.length s).

(** [l[i]] with Python's negative indices. *)
Definition py_index {A : Type} (l : list A) (i : Z) : outcome A :=
  let j := if i <? 0 then i + len l else i in
  if j <? 0 then Raise IndexError
  else match nth_error l (Z.to_nat j) with
       | Some a => Ok a
       | None => Raise IndexError
       end.

Definition newline : ascii := Ascii.ascii_of_nat 10.

(** ** 2. Position finder *)

Module LineColumnFinder.

(** The loop of [__init__]: [i] is the index of the head of [text]. *)
Fixpoint scan (i : Z) (text : string) : list Z :=
  match text with
  | EmptyString => []
  | String c rest =>
      if Ascii.eqb c newline then (i + 1) :: scan (i + 1) rest
      else scan (i + 1) rest
  end.

Definition line_starts (text : string) : list Z := 0 :: scan 0 text.

(** [(lo + hi) // 2] *)
Definition midpoint (lo hi : nat) : nat := ((lo + hi) / 2)%nat.

Lemma midpoint_bounds (lo hi : nat) :
  (lo < hi)%nat -> (lo <= midpoint lo hi < hi)%nat.
Proof.
  intros H. unfold midpoint.
  pose proof (Nat.div_mod_eq (lo + hi) 2) as Hdiv.
  pose proof (Nat.mod_upper_bound (lo + hi) 2) as Hmod. lia.
Qed.

(** [bisect.bisect_right(a, x)] on the window [lo, hi). *)
Equations? bisect_loop (a : list Z) (x : Z) (lo hi : nat) : nat
  by wf (hi - lo)%nat lt :=
  bisect_loop a x lo hi with lt_dec lo hi => {
    | left _ =>
        if x <? nth (midpoint lo hi) a 0 then bisect_loop a x lo (midpoint lo hi)
        else bisect_loop a x (S (midpoint lo hi)) hi;
    | right _ => lo }.
Proof.
  all: pose proof (midpoint_bounds lo hi); lia.
Qed.

Definition bisect_right (a : list Z) (x : Z) : nat :=
  bisect_loop a x 0 (List.length a).

Definition clamp (text : string) (offset : Z) : Z :=
  let offset := if offset <? 0 then 0 else offset in
  if offset >? str_len text then str_len text else offset.

Definition find (text : string) (offset : Z) : outcome (Z * Z) :=
  let offset := clamp text offset in
  let line_num := Z.of_nat (bisect_right (line_starts text) offset) in
  start <- py_index (line_starts text) (line_num - 1) ;;
  Ok (line_num, offset - start + 1).

End LineColumnFinder.

(** ** Python string helpers *)

(** [s.count('\n')] *)
Fixpoint count_newlines (s : string) : Z :=
  match s with
  | EmptyString => 0
  | String c rest => (if Ascii.eqb c newline then 1 else 0) + count_newlines rest
  end.

(** [s.rfind('\n')]: the highest index of a newline, or [-1]. *)
Fixpoint rfind_newline (s : string) : Z :=
  match s with
  | EmptyString => -1
  | String c rest =>
      let r := rfind_newline rest in
      if 0 <=? r then r + 1
      else if Ascii.eqb c newline then 0 else -1
  end.

(** [text[pos:pos+n]] for non-negative [pos] and [n]. *)
Definition slice (text : string) (pos n : nat) : string := String.substring pos n text.

Definition tab : ascii := Ascii.ascii_of_nat 9.
Definition carriage_return : ascii := Ascii.ascii_of_nat 13.
Definition space : ascii := Ascii.ascii_of_nat 32.

Fixpoint spaces (n : nat) : string :=
  match n with
  | O => EmptyString
  | S k => String space (spaces k)
  end.

(** [str.expandtabs(tabsize)]: [col] is the current column. *)
Fixpoint expandtabs_from (tabsize : Z) (col : Z) (s : string) : string :=
  match s with
  | EmptyString => EmptyString
  | String c rest =>
      if Ascii.eqb c tab then
        if 0 <? tabsize then
          let incr := tabsize - (col mod tabsize) in
          spaces (Z.to_nat incr) ++ expandtabs_from tabsize (col + incr) rest
        else expandtabs_from tabsize col rest
      else if Ascii.eqb c newline || Ascii.eqb c carriage_return then
        String c (expandtabs_from tabsize 0 rest)
      else String c (expandtabs_from tabsize (col + 1) rest)
  end.

Definition expandtabs (tabsize : Z) (s : string) : string := expandtabs_from tabsize 0 s.

(** Decimal rendering of an integer inside an f-string. *)
Definition str_of_Z (z : Z) : string :=
  DecimalString.NilZero.string_of_int (Z.to_int z).

(** ** 0. Lexer *)

Record Token : Type := mkToken {
  tok_type : option string;   (* [None] when the spec has no [token] key *)
  tok_value : string;
  tok_line : Z;
  tok_col : Z
}.

(** A compiled regular expression, seen through [regex.match(text, pos)]:
    [None] when there is no match at [pos], otherwise the length of the
    match, so that [match.end()] is [pos] plus that length. *)
Definition regex : Type := string -> nat -> option nat.

(** One entry of [compiled_specs]: [(regex, action, token)]. *)
Record compiled_spec : Type := mkSpec {
  spec_regex : regex;
  spec_action : option string;
  spec_token : option string
}.

Module StatefulLexer.

Record t : Type := mkLexer {
  compiled_specs : list compiled_spec;
  tab_width : Z
}.

(** [any(spec.get('action') == 'handle_indent' for spec in token_specs)] *)
Definition is_handle_indent (a : option string) : bool :=
  match a with
  | Some s => String.eqb s "handle_indent"
  | None => false
  end.

Definition is_skip (a : option string) : bool :=
  match a with
  | Some s => String.eqb s "skip"
  | None => false
  end.

Definition handles_indentation (lx : t) : bool :=
  existsb (fun spec => is_handle_indent (spec_action spec)) (compiled_specs lx).

(** The current candidate of the selection loop: the matched text, the
    end offset of the match and [best_spec]. *)
Record candidate : Type := mkCand {
  cand_value : string;
  cand_end : nat;
  cand_action : option string;
  cand_token : option string
}.

(** The [for regex, action, token_type in self.compiled_specs] loop,
    started with the candidate [best]. *)
Fixpoint select_from (specs : list compiled_spec) (text : string) (pos : nat)
    (best : option candidate) : option candidate :=
  match specs with
  | [] => best
  | spec :: rest =>
      let best' :=
        match spec_regex spec text pos with
        | Some n =>
            let value := slice text pos n in
            let c := mkCand value (pos + n) (spec_action spec) (spec_token spec) in
            match best with
            | None => Some c
            | Some b => if str_len value >? str_len (cand_value b) then Some c else best
            end
        | None => best
        end in
      select_from rest text pos best'
  end.

Definition select (specs : list compiled_spec) (text : string) (pos : nat) : option candidate :=
  select_from specs text pos None.

Definition INDENT (line : Z) : Token := mkToken (Some "INDENT") "" line 1.
Definition DEDENT (line : Z) : Token := mkToken (Some "DEDENT") "" line 1.

(** [indent_stack[-1]]; the head of the list is the top of the stack. *)
Definition top (stack : list Z) : outcome Z :=
  match stack with
  | [] => Raise IndexError
  | w :: _ => Ok w
  end.

(** [if indent_level > indent_stack[-1]: push, emit INDENT] *)
Definition push_indent (indent_level line : Z) (stack : list Z) (tokens : list Token)
    : outcome (list Z * list Token) :=
  w <- top stack ;;
  if indent_level >? w then Ok (indent_level :: stack, (tokens ++ [INDENT line])%list)
  else Ok (stack, tokens).

(** [while indent_level < indent_stack[-1]: pop, emit DEDENT] *)
Fixpoint pop_dedents (indent_level line : Z) (stack : list Z) (tokens : list Token)
    : outcome (list Z * list Token) :=
  match stack with
  | [] => Raise IndexError
  | w :: rest =>
      if indent_level <? w then pop_dedents indent_level line rest (tokens ++ [DEDENT line])%list
      else Ok (stack, tokens)
  end.

(** The whole [handle_indent] branch for a match [value] seen on line
    [line_num]. *)
Definition handle_indent (value : string) (line_num : Z) (stack : list Z) (tokens : list Token)
    : outcome (list Z * list Token) :=
  let indent_level := str_len value - 1 in
  st <- push_indent indent_level (line_num + 1) stack tokens ;;
  st <- pop_dedents indent_level (line_num + 1) (fst st) (snd st) ;;
  w <- top (fst st) ;;
  if negb (indent_level =? w) then
    Raise (IndentationError ("Indentation error at L" ++ str_of_Z (line_num + 1)))
  else Ok st.

(** [while len(indent_stack) > 1: pop, emit DEDENT] at the end of input. *)
Fixpoint final_dedents (line_num : Z) (stack : list Z) (tokens : list Token) : list Token :=
  match stack with
  | _ :: (_ :: _) as rest => final_dedents line_num rest (tokens ++ [DEDENT line_num])%list
  | _ => tokens
  end.

(** The local variables of [tokenize]. *)
Record state : Type := mkState {
  st_tokens : list Token;
  st_stack : list Z;
  st_line_num : Z;
  st_line_start : Z;
  st_pos : nat
}.

Definition init : state := mkState [] [0] 1 0 0%nat.

Definition char_at (text : string) (pos : nat) : string :=
  match String.get pos text with
  | Some c => String c EmptyString
  | None => EmptyString
  end.

(** One iteration of the main loop, entered with [pos < len(text)]. *)
Definition step (lx : t) (text : string) (st : state) : outcome state :=
  let pos := st_pos st in
  let col := Z.of_nat pos - st_line_start st + 1 in
  match select (compiled_specs lx) text pos with
  | Some m =>
      let value := cand_value m in
      st' <-
        (if is_handle_indent (cand_action m) then
           handle_indent value (st_line_num st) (st_stack st) (st_tokens st)
         else if negb (is_skip (cand_action m)) then
           Ok (st_stack st,
               (st_tokens st ++ [mkToken (cand_token m) value (st_line_num st) col])%list)
         else Ok (st_stack st, st_tokens st)) ;;
      let newlines := count_newlines value in
      let line_num := if newlines >? 0 then st_line_num st + newlines else st_line_num st in
      let line_start :=
        if newlines >? 0 then Z.of_nat pos + rfind_newline value + 1 else st_line_start st in
      Ok (mkState (snd st') (fst st') line_num line_start (cand_end m))
  | None =>
      Raise (SyntaxError ("Unexpected character at L" ++ str_of_Z (st_line_num st)
                          ++ ":C" ++ str_of_Z col ++ ": '" ++ char_at text pos ++ "'"))
  end.

(** The [while pos < len(text)] loop.  A zero-length match leaves [pos]
    where it was and the Python loop does not terminate; the model then
    runs out of [fuel] and answers [None]. *)
Fixpoint loop (fuel : nat) (lx : t) (text : string) (st : state) : option (outcome state) :=
  if (st_pos st <? String.length text)%nat then
    match fuel with
    | O => None
    | S fuel' =>
        match step lx text st with
        | Ok st' => loop fuel' lx text st'
        | Raise e => Some (Raise e)
        end
    end
  else Some (Ok st).

Definition tokenize (fuel : nat) (lx : t) (text : string) : option (outcome (list Token)) :=
  let text := expandtabs (tab_width lx) text in
  match loop fuel lx text init with
  | None => None
  | Some (Raise e) => Some (Raise e)
  | Some (Ok st) =>
      if handles_indentation lx
      then Some (Ok (final_dedents (st_line_num st) (st_stack st) (st_tokens st)))
      else Some (Ok (st_tokens st))
  end.

End StatefulLexer.

(** ** Dynamic values

    Grammar dictionaries and AST nodes are Python objects built from
    [None], booleans, numbers, strings, lists and dictionaries. *)

Inductive value : Type :=
| VNone
| VBool (b : bool)
| VInt (z : Z)
| VFloat (f : PrimFloat.float)
| VStr (s : string)
| VList (l : list value)
| VDict (d : list (string * value)).

Definition dict : Type := list (string * value).

(** Induction on values that reaches into lists and dictionaries. *)
Fixpoint value_nested_ind (P : value -> Prop)
    (HNone : P VNone) (HBool : forall b, P (VBool b)) (HInt : forall z, P (VInt z))
    (HFloat : forall f, P (VFloat f)) (HStr : forall s, P (VStr s))
    (HList : forall l, Forall P l -> P (VList l))
    (HDict : forall d, Forall (fun e => P (snd e)) d -> P (VDict d))
    (v : value) {struct v} : P v :=
  match v with
  | VNone => HNone
  | VBool b => HBool b
  | VInt z => HInt z
  | VFloat f => HFloat f
  | VStr s => HStr s
  | VList l =>
      HList l ((fix each (l : list value) : Forall P l :=
                  match l with
                  | [] => Forall_nil P
                  | x :: rest =>
                      Forall_cons x
                        (value_nested_ind P HNone HBool HInt HFloat HStr HList HDict x)
                        (each rest)
                  end) l)
  | VDict d =>
      HDict d ((fix each (d : dict) : Forall (fun e => P (snd e)) d :=
                  match d with
                  | [] => Forall_nil _
                  | (k, x) :: rest =>
                      Forall_cons (k, x)
                        (value_nested_ind P HNone HBool HInt HFloat HStr HList HDict x)
                        (each rest)
                  end) d)
  end.

(** [key in d] *)
Definition dict_has (k : string) (d : dict) : bool :=
  existsb (fun e => String.eqb (fst e) k) d.

(** [d.get(key)] as an option *)
Fixpoint dict_get (k : string) (d : dict) : option value :=
  match d with
  | [] => None
  | (k', v) :: rest => if String.eqb k' k then Some v else dict_get k rest
  end.

(** [d[key] = v]: an existing key keeps its place, a new key goes last. *)
Fixpoint dict_set (k : string) (v : value) (d : dict) : dict :=
  match d with
  | [] => [(k, v)]
  | (k', v') :: rest =>
      if String.eqb k' k then (k, v) :: rest else (k', v') :: dict_set k v rest
  end.

(** [del d[key]] for a key that may be absent *)
Definition dict_del (k : string) (d : dict) : dict :=
  filter (fun e => negb (String.eqb (fst e) k)) d.

Definition keys (d : dict) : list string := map fst d.

(** [f] applied to the value stored under [k]; [default] when [k] is absent.
    It is [dict_get] in a form that recursive functions on [value] can use. *)
Definition with_entry {A : Type} (k : string) (f : value -> A) (default : A) : dict -> A :=
  fix go (d : dict) : A :=
    match d with
    | [] => default
    | (k', v) :: rest => if String.eqb k' k then f v else go rest
    end.

(** [bool(v)] *)
Definition truthy (v : value) : bool :=
  match v with
  | VNone => false
  | VBool b => b
  | VInt z => negb (z =? 0)
  | VFloat f => negb (PrimFloat.eqb f PrimFloat.zero)
  | VStr s => negb (String.eqb s "")
  | VList l => match l with [] => false | _ => true end
  | VDict d => match d with [] => false | _ => true end
  end.

(** [v == s] for a string literal [s] *)
Definition eq_str (v : value) (s : string) : bool :=
  match v with
  | VStr s' => String.eqb s' s
  | _ => false
  end.

Definition is_dict (v : value) : bool :=
  match v with VDict _ => true | _ => false end.

Definition is_list (v : value) : bool :=
  match v with VList _ => true | _ => false end.

Definition is_none (v : value) : bool :=
  match v with VNone => true | _ => false end.

(** [sub in s] for strings *)
Fixpoint contains (sub s : string) : bool :=
  String.prefix sub s ||
  match s with
  | EmptyString => false
  | String _ rest => contains sub rest
  end.

(** [key in x] where [key] is a string literal and [x] any object:
    substring test on a string, membership in a list, key lookup in a
    dictionary, [TypeError] on anything else. *)
Definition py_in (key : string) (x : value) : outcome bool :=
  match x with
  | VStr s => Ok (contains key s)
  | VList l => Ok (existsb (fun v => eq_str v key) l)
  | VDict d => Ok (dict_has key d)
  | _ => Raise TypeError
  end.

(** [x.get(key, default)]: only dictionaries have [get]. *)
Definition py_get (x : value) (key : string) (default : value) : outcome value :=
  match x with
  | VDict d => Ok (match dict_get key d with Some v => v | None => default end)
  | _ => Raise AttributeError
  end.

(** [x[key]] for a string key *)
Definition py_getitem (x : value) (key : string) : outcome value :=
  match x with
  | VDict d => match dict_get key d with Some v => Ok v | None => Raise (KeyError key) end
  | _ => Raise TypeError
  end.

(** [for item in x]: the items that iteration yields *)
Definition py_iter (x : value) : outcome (list value) :=
  match x with
  | VList l => Ok l
  | VDict d => Ok (map VStr (keys d))
  | VStr s => Ok (map (fun c => VStr (String c EmptyString)) (list_ascii_of_string s))
  | _ => Raise TypeError
  end.

(** [mapM] for [outcome], left to right *)
Fixpoint traverse {A B : Type} (f : A -> outcome B) (l : list A) : outcome (list B) :=
  match l with
  | [] => Ok []
  | a :: rest => b <- f a ;; bs <- traverse f rest ;; Ok (b :: bs)
  end.

(** ** 1. Grammar-to-string transpiler *)

Definition dquote : string := String (Ascii.ascii_of_nat 34) EmptyString.
Definition backslash : string := String (Ascii.ascii_of_nat 92) EmptyString.

(** The PEG no-op, an optional empty literal. *)
Definition no_op : string := "(" ++ dquote ++ dquote ++ ")?".

(** [value.replace('"', '\\"')] *)
Fixpoint escape_quotes (s : string) : string :=
  match s with
  | EmptyString => EmptyString
  | String c rest =>
      if Ascii.eqb c (Ascii.ascii_of_nat 34)
      then backslash ++ dquote ++ escape_quotes rest
      else String c (escape_quotes rest)
  end.

(** [joiner.join(parts)] *)
Fixpoint join (joiner : string) (parts : list string) : string :=
  match parts with
  | [] => ""
  | [p] => p
  | p :: rest => p ++ joiner ++ join joiner rest
  end.

Definition rule_keys : list string :=
  ["literal"; "regex"; "rule"; "choice"; "sequence"; "zero_or_more"; "one_or_more";
   "optional"; "token"; "positive_lookahead"; "negative_lookahead"].

Definition mem (k : string) (l : list string) : bool :=
  existsb (String.eqb k) l.

(** [[key for key in rule_definition if key in rule_keys]] *)
Definition found_keys (d : dict) : list string :=
  filter (fun k => mem k rule_keys) (keys d).

(** A string payload, interpolated or returned as it is.  The grammar
    schema makes the payload of [token] and [rule] a string; the model
    stops with [TypeError] on any other payload. *)
Definition as_str (v : value) : outcome string :=
  match v with
  | VStr s => Ok s
  | _ => Raise TypeError
  end.

(** [value.replace(...)] exists only on strings. *)
Definition replace_quotes (v : value) : outcome string :=
  match v with
  | VStr s => Ok (escape_quotes s)
  | _ => Raise AttributeError
  end.

(** The branch of [transpile_rule] for a [rule] reference [value] inside
    [rule_definition]. *)
Definition transpile_reference (rule_definition : dict) (value : string) : outcome string :=
  ast_config <- match dict_get "ast" rule_definition with
                | Some (VDict a) => Ok a
                | Some _ => Raise AttributeError
                | None => Ok []
                end ;;
  let ast_keys := keys ast_config in
  let is_just_a_name := (len ast_keys =? 1) && mem "name" ast_keys in
  if dict_has "ast" rule_definition && negb is_just_a_name
  then Ok ("(" ++ value ++ " " ++ no_op ++ ")")
  else Ok value.

(** [transpile_rule(rule_definition, is_token_grammar)].  The [rule_name]
    argument of the source only decorates the message of the first
    [ValueError] and is left out, as are the interpolated [repr]s. *)
Fixpoint transpile_rule (rule_definition : value) (is_token_grammar : bool) {struct rule_definition}
    : outcome string :=
  match rule_definition with
  | VDict d =>
      if dict_has "subgrammar" d then Ok no_op
      else
        match found_keys d with
        | [rule_type] =>
            with_entry rule_type
              (fun value =>
                 if String.eqb rule_type "token" then as_str value
                 else if mem rule_type ["literal"; "regex"] && is_token_grammar then
                   Raise (ValueError ("'" ++ rule_type ++
                     "' is not supported when a lexer is defined. Use 'token' instead."))
                 else if String.eqb rule_type "literal" then
                   escaped_value <- replace_quotes value ;;
                   Ok (dquote ++ escaped_value ++ dquote)
                 else if String.eqb rule_type "regex" then
                   escaped_value <- replace_quotes value ;;
                   Ok ("~r" ++ dquote ++ escaped_value ++ dquote)
                 else if String.eqb rule_type "rule" then
                   x <- as_str value ;; transpile_reference d x
                 else if mem rule_type ["choice"; "sequence"] then
                   if negb (truthy value) then
                     if String.eqb rule_type "sequence" then Ok no_op
                     else Raise (ValueError "Choice cannot be empty")
                   else
                     parts <-
                       match value with
                       | VList l => traverse (fun part => transpile_rule part is_token_grammar) l
                       | VStr _ | VDict _ =>
                           (* the first item is a string, not a dictionary *)
                           Raise (ValueError "Rule definition must be a dictionary")
                       | _ => Raise TypeError
                       end ;;
                     let joiner := if String.eqb rule_type "choice" then " / " else " " in
                     let joined_parts := join joiner parts in
                     if String.eqb rule_type "sequence" && (len parts =? 1)
                     then Ok ("(" ++ joined_parts ++ " " ++ no_op ++ ")")
                     else Ok ("(" ++ joined_parts ++ ")")
                 else if mem rule_type ["zero_or_more"; "one_or_more"; "optional"] then
                   inner <- transpile_rule value is_token_grammar ;;
                   let op := if String.eqb rule_type "zero_or_more" then "*"
                             else if String.eqb rule_type "one_or_more" then "+" else "?" in
                   Ok ("(" ++ inner ++ ")" ++ op)
                 else
                   inner <- transpile_rule value is_token_grammar ;;
                   let op := if String.eqb rule_type "positive_lookahead" then "&" else "!" in
                   Ok (op ++ "(" ++ inner ++ ")"))
              (Raise (KeyError rule_type)) d
        | _ => Raise (ValueError "Rule must have exactly one key")
        end
  | _ => Raise (ValueError "Rule definition must be a dictionary")
  end.

Definition newline_str : string := String newline EmptyString.

(** First occurrences of a list of names, standing for a Python [set]
    (whose iteration order the language leaves open). *)
Fixpoint dedup (l : list string) : list string :=
  match l with
  | [] => []
  | x :: rest => x :: filter (fun y => negb (String.eqb x y)) (dedup rest)
  end.

(** [{spec['token'] for spec in grammar_dict['lexer']['tokens'] if 'token' in spec}]
    with [INDENT] and [DEDENT] added. *)
Definition lexer_token_types (grammar_dict : dict) : outcome (list string) :=
  lexer <- py_getitem (VDict grammar_dict) "lexer" ;;
  tokens <- py_getitem lexer "tokens" ;;
  specs <- py_iter tokens ;;
  names <- traverse (fun spec =>
             has <- py_in "token" spec ;;
             if has then (t <- py_getitem spec "token" ;; s <- as_str t ;; Ok [s])
             else Ok []) specs ;;
  Ok (dedup (List.app (List.concat names) ["INDENT"; "DEDENT"])).

Definition transpile_grammar (grammar_dict : dict) : outcome string :=
  if negb (dict_has "rules" grammar_dict) then
    Raise (ValueError "Grammar definition must have a 'rules' key.")
  else
    let is_token_grammar := dict_has "lexer" grammar_dict in
    rules <- match dict_get "rules" grammar_dict with
             | Some (VDict r) => Ok r
             | _ => Raise AttributeError
             end ;;
    grammar_lines <- traverse (fun entry =>
                       rhs <- transpile_rule (snd entry) is_token_grammar ;;
                       Ok (fst entry ++ " = " ++ rhs)) rules ;;
    if is_token_grammar then
      token_types <- lexer_token_types grammar_dict ;;
      Ok (join newline_str
            (List.app grammar_lines
               (map (fun t => t ++ " = ~r" ++ dquote ++ t ++ "\s*" ++ dquote) token_types)))
    else Ok (join newline_str grammar_lines).

(** ** The always-empty lint *)

(** Structural equality, which is Python's [==] on [None], strings and
    integers (token names are strings). *)
Fixpoint value_eqb (a b : value) {struct a} : bool :=
  match a, b with
  | VNone, VNone => true
  | VBool x, VBool y => Bool.eqb x y
  | VInt x, VInt y => x =? y
  | VFloat x, VFloat y => PrimFloat.eqb x y
  | VStr x, VStr y => String.eqb x y
  | VList x, VList y =>
      (fix go (x y : list value) : bool :=
         match x, y with
         | [], [] => true
         | v :: x', w :: y' => value_eqb v w && go x' y'
         | _, _ => false
         end) x y
  | VDict x, VDict y =>
      (fix go (x y : dict) : bool :=
         match x, y with
         | [], [] => true
         | (k, v) :: x', (k', w) :: y' => String.eqb k k' && value_eqb v w && go x' y'
         | _, _ => false
         end) x y
  | _, _ => false
  end.

(** A computation that may also exhaust its fuel ([None]). *)
Definition fueled (A : Type) : Type := option (outcome A).

Definition fbind {A B : Type} (m : fueled A) (k : A -> fueled B) : fueled B :=
  match m with
  | None => None
  | Some (Raise e) => Some (Raise e)
  | Some (Ok a) => k a
  end.

Definition lift {A : Type} (m : outcome A) : fueled A := Some m.
Definition ret {A : Type} (a : A) : fueled A := Some (Ok a).

Notation "x <~ m ;; k" := (fbind m (fun x => k))
  (at level 61, m at next level, right associativity).

(** The memo table of the emptiness predicate: rule name to verdict. *)
Definition memo : Type := list (string * bool).

Fixpoint memo_get (k : string) (m : memo) : option bool :=
  match m with
  | [] => None
  | (k', b) :: rest => if String.eqb k' k then Some b else memo_get k rest
  end.

Fixpoint memo_set (k : string) (b : bool) (m : memo) : memo :=
  match m with
  | [] => [(k, b)]
  | (k', b') :: rest =>
      if String.eqb k' k then (k, b) :: rest else (k', b') :: memo_set k b rest
  end.

(** [all(f(x) for x in l)]: stops at the first falsy verdict. *)
Definition all_with (f : value -> memo -> fueled (bool * memo))
    : list value -> memo -> fueled (bool * memo) :=
  fix go (l : list value) (m : memo) : fueled (bool * memo) :=
    match l with
    | [] => ret (true, m)
    | x :: rest =>
        r <~ f x m ;;
        if fst r then go rest (snd r) else ret (false, snd r)
    end.

(** [any(isinstance(part, dict) and 'name' in part.get('ast', {}) for part in parts)] *)
Fixpoint any_named (parts : list value) : outcome bool :=
  match parts with
  | [] => Ok false
  | part :: rest =>
      named <- (if is_dict part then
                  a <- py_get part "ast" (VDict []) ;; py_in "name" a
                else Ok false) ;;
      if named then Ok true else any_named rest
  end.

(** The token branch of [_is_def_always_empty]: the verdict of the first
    lexer spec whose [token] equals [token_type]. *)
Fixpoint token_spec_empty (token_type : value) (specs : list value) : outcome bool :=
  match specs with
  | [] => Ok false
  | spec :: rest =>
      t <- py_get spec "token" VNone ;;
      if value_eqb t token_type then
        action <- py_get spec "action" VNone ;;
        if eq_str action "skip" then Ok true
        else
          a <- py_get spec "ast" (VDict []) ;;
          discard <- py_get a "discard" (VBool false) ;;
          Ok (truthy discard)
      else token_spec_empty token_type rest
  end.

Section AlwaysEmpty.

Variable grammar_dict : dict.

(** [_is_rule_always_empty] as seen from [_is_def_always_empty]. *)
Variable is_rule : value -> memo -> fueled (bool * memo).

(** [_is_def_always_empty(rule_def, memo, grammar_dict)].  The verdict is
    reduced to its truth value, which is all its callers look at. *)
Fixpoint _is_def_always_empty (rule_def : value) (m : memo) {struct rule_def}
    : fueled (bool * memo) :=
  match rule_def with
  | VDict d =>
      ast_config <~ lift (py_get rule_def "ast" (VDict [])) ;;
      discard <~ lift (py_get ast_config "discard" VNone) ;;
      if truthy discard then ret (true, m)
      else
        has_structure <~ lift (py_in "structure" ast_config) ;;
        if has_structure then ret (false, m)
        else if dict_has "rule" d then
          with_entry "rule" (fun name => is_rule name m) (ret (false, m)) d
        else
          lexer <~ lift (py_get (VDict grammar_dict) "lexer" VNone) ;;
          if truthy lexer && dict_has "token" d then
            token_type <~ lift (py_getitem rule_def "token") ;;
            tokens <~ lift (py_get lexer "tokens" (VList [])) ;;
            specs <~ lift (py_iter tokens) ;;
            r <~ lift (token_spec_empty token_type specs) ;;
            ret (r, m)
          else
            leaf <~ lift (py_get ast_config "leaf" VNone) ;;
            if dict_has "literal" d || dict_has "regex" d || truthy leaf then ret (false, m)
            else if dict_has "positive_lookahead" d || dict_has "negative_lookahead" d then
              ret (true, m)
            else if dict_has "choice" d then
              with_entry "choice"
                (fun alts =>
                   match alts with
                   | VList l => all_with _is_def_always_empty l m
                   | VStr _ | VDict _ =>
                       (* the items are strings, each of them not empty *)
                       ret (negb (truthy alts), m)
                   | _ => lift (Raise TypeError)
                   end)
                (ret (false, m)) d
            else if dict_has "sequence" d then
              with_entry "sequence"
                (fun parts =>
                   match parts with
                   | VList l =>
                       named <~ lift (any_named l) ;;
                       if named then ret (false, m)
                       else all_with _is_def_always_empty l m
                   | VStr _ | VDict _ => ret (negb (truthy parts), m)
                   | _ => lift (Raise TypeError)
                   end)
                (ret (false, m)) d
            else if dict_has "one_or_more" d then
              with_entry "one_or_more" (fun inner => _is_def_always_empty inner m) (ret (false, m)) d
            else if dict_has "zero_or_more" d then
              with_entry "zero_or_more" (fun inner => _is_def_always_empty inner m) (ret (false, m)) d
            else if dict_has "optional" d then
              with_entry "optional" (fun inner => _is_def_always_empty inner m) (ret (false, m)) d
            else ret (false, m)
  | _ => ret (false, m)
  end.

End AlwaysEmpty.

(** [_is_rule_always_empty(rule_name, memo, grammar_dict)]; one unit of
    fuel per rule that is entered. *)
Fixpoint _is_rule_always_empty (fuel : nat) (grammar_dict : dict) (rule_name : value) (m : memo)
    : fueled (bool * memo) :=
  match rule_name with
  | VStr name =>
      match memo_get name m with
      | Some verdict => ret (verdict, m)
      | None =>
          rules <~ lift (py_getitem (VDict grammar_dict) "rules") ;;
          has <~ lift (py_in name rules) ;;
          if negb has then ret (false, m)
          else
            match fuel with
            | O => None
            | S fuel' =>
                let m := memo_set name false m in
                rule_def <~ lift (py_getitem rules name) ;;
                r <~ _is_def_always_empty grammar_dict
                       (_is_rule_always_empty fuel' grammar_dict) rule_def m ;;
                ret (fst r, memo_set name (fst r) (snd r))
            end
      end
  | VList _ | VDict _ => lift (Raise TypeError)   (* unhashable *)
  | _ => ret (false, m)
  end.

Definition is_lookahead_rule (rule_def : dict) : bool :=
  dict_has "positive_lookahead" rule_def || dict_has "negative_lookahead" rule_def.

(** The loop of [_check_for_always_empty_rules] over [rules.items()]. *)
Fixpoint collect_empty (fuel : nat) (grammar_dict : dict) (rules : dict) (m : memo)
    : fueled (list string) :=
  match rules with
  | [] => ret []
  | (rule_name, rule_def) :: rest =>
      a <~ lift (py_get rule_def "ast" (VDict [])) ;;
      discard <~ lift (py_get a "discard" VNone) ;;
      if truthy discard then collect_empty fuel grammar_dict rest m
      else
        positive <~ lift (py_in "positive_lookahead" rule_def) ;;
        negative <~ lift (if positive then Ok true else py_in "negative_lookahead" rule_def) ;;
        if negative then collect_empty fuel grammar_dict rest m
        else
          r <~ _is_rule_always_empty fuel grammar_dict (VStr rule_name) m ;;
          names <~ collect_empty fuel grammar_dict rest (snd r) ;;
          ret (if fst r then rule_name :: names else names)
  end.

(** Insertion sort by code point, for [sorted(implicitly_empty_rules)]. *)
Fixpoint insert_sorted (x : string) (l : list string) : list string :=
  match l with
  | [] => [x]
  | y :: rest => if String.leb x y then x :: l else y :: insert_sorted x rest
  end.

Definition sorted (l : list string) : list string := fold_right insert_sorted [] l.

(** [_check_for_always_empty_rules(grammar_dict)]: returns [None]
    (here [tt]) or raises [ValueError]. *)
Definition _check_for_always_empty_rules (fuel : nat) (grammar_dict : dict) : fueled unit :=
  rules <~ lift (py_getitem (VDict grammar_dict) "rules") ;;
  match rules with
  | VDict rs =>
      implicitly_empty_rules <~ collect_empty fuel grammar_dict rs [] ;;
      match implicitly_empty_rules with
      | [] => ret tt
      | _ =>
          lift (Raise (ValueError
            ("The following rules will always produce an empty AST node, which may be unintentional. "
             ++ "If this is intended, add `ast: { discard: true }` to the rule definition. "
             ++ "Rules: " ++ join ", " (sorted implicitly_empty_rules))))
      end
  | _ => lift (Raise AttributeError)
  end.

(** The exception of the lint for the rules [names]. *)
Definition always_empty_report (names : list string) : exn :=
  ValueError
    ("The following rules will always produce an empty AST node, which may be unintentional. "
     ++ "If this is intended, add `ast: { discard: true }` to the rule definition. "
     ++ "Rules: " ++ join ", " (sorted names)).

(** ** 3. Parse-tree-to-AST visitor *)

(** [len(x)] *)
Definition py_len (x : value) : outcome Z :=
  match x with
  | VList l => Ok (len l)
  | VDict d => Ok (len d)
  | VStr s => Ok (str_len s)
  | _ => Raise TypeError
  end.

(** [x[i]] for an integer index *)
Definition py_getitem_int (x : value) (i : Z) : outcome value :=
  match x with
  | VList l => py_index l i
  | VStr s => c <- py_index (list_ascii_of_string s) i ;; Ok (VStr (String c EmptyString))
  | VDict _ => Raise (KeyError (str_of_Z i))
  | _ => Raise TypeError
  end.

(** [is_wrapped_leaf(rule_def)] *)
Definition is_wrapped_leaf (rule_def : value) : outcome bool :=
  has <- py_in "sequence" rule_def ;;
  if has then
    sequence <- py_getitem rule_def "sequence" ;;
    n <- py_len sequence ;;
    if n =? 1 then
      child <- py_getitem_int sequence 0 ;;
      match child with
      | VDict c =>
          Ok ((dict_has "literal" c || dict_has "regex" c) && negb (dict_has "ast" c))
      | _ => Ok false
      end
    else Ok false
  else Ok false.

(** The expression classes of the matcher that the visitor tells apart. *)
Inductive expr_kind : Type :=
| Literal
| Regex
| Lookahead
| Quantifier (min : Z) (max : option Z)   (* [max = None] is infinity *)
| Sequence
| OneOf
| OtherExpr.

(** A node of the matcher's parse tree: [expr_name], [expr], [text],
    [start] and the child nodes. *)
Inductive Node : Type :=
| mkNode (expr_name : string) (expr : expr_kind) (text : string) (start : Z)
         (children : list Node).

Definition expr_name (n : Node) : string := let 'mkNode x _ _ _ _ := n in x.
Definition expr (n : Node) : expr_kind := let 'mkNode _ x _ _ _ := n in x.
Definition text (n : Node) : string := let 'mkNode _ _ x _ _ := n in x.
Definition start (n : Node) : Z := let 'mkNode _ _ _ x _ := n in x.
Definition node_children (n : Node) : list Node := let 'mkNode _ _ _ _ x := n in x.

(** [[c for c in xs if c is not None]] *)
Definition drop_none (xs : list value) : list value :=
  filter (fun c => negb (is_none c)) xs.

(** The deep flattening loop: nested lists are spliced in order and
    [None] items are dropped.  The source walks an explicit stack; the
    model recurses on the items. *)
Fixpoint flatten (item : value) : list value :=
  match item with
  | VList l => List.concat (map flatten l)
  | VNone => []
  | _ => [item]
  end.

Definition flatten_all (items : list value) : list value := List.concat (map flatten items).

(** [c in (None, [])] *)
Definition is_placeholder (c : value) : bool :=
  match c with
  | VNone => true
  | VList [] => true
  | _ => false
  end.

(** ASCII [str.lower()] *)
Definition lower_ascii (c : ascii) : ascii :=
  let n := Ascii.nat_of_ascii c in
  if ((65 <=? n) && (n <=? 90))%nat then Ascii.ascii_of_nat (n + 32) else c.

Fixpoint lower (s : string) : string :=
  match s with
  | EmptyString => EmptyString
  | String c rest => String (lower_ascii c) (lower rest)
  end.

Definition opt_str (o : option string) : value :=
  match o with
  | Some s => VStr s
  | None => VNone
  end.

(** The binary operator node of both associative structures; [op['line']]
    and [op['col']] are evaluated after [op], [left] and [right]. *)
Definition binary_op (op left right : value) : outcome value :=
  line <- py_getitem op "line" ;;
  col <- py_getitem op "col" ;;
  Ok (VDict [("tag", VStr "binary_op"); ("op", op); ("left", left); ("right", right);
             ("line", line); ("col", col)]).

(** The [for group in children[1]] loop of [left_associative_op]. *)
Fixpoint fold_groups (left : value) (groups : list value) : outcome value :=
  match groups with
  | [] => Ok left
  | group :: rest =>
      items <- py_iter group ;;
      let clean_group := drop_none items in
      match clean_group with
      | [] => fold_groups left rest
      | _ =>
          op <- py_index clean_group 0 ;;
          right <- py_index clean_group 1 ;;
          new_node <- binary_op op left right ;;
          fold_groups new_node rest
      end
  end.

(** [structure: "left_associative_op"] on the surviving children *)
Definition left_associative_op (children : list value) : outcome value :=
  left <- py_index children 0 ;;
  if len children <? 2 then Ok left
  else
    rest <- py_index children 1 ;;
    groups <- py_iter rest ;;
    fold_groups left groups.

(** [structure: "right_associative_op"] on the surviving children *)
Definition right_associative_op (children : list value) : outcome value :=
  left <- py_index children 0 ;;
  if len children <? 2 then Ok left
  else
    rest <- py_index children 1 ;;
    if negb (truthy rest) then Ok left
    else
      items <- py_iter rest ;;
      let op_and_right_list := drop_none items in
      match op_and_right_list with
      | [] => Ok left
      | _ =>
          op <- py_index op_and_right_list 0 ;;
          right <- py_index op_and_right_list 1 ;;
          binary_op op left right
      end.

(** The fall-forward scan of the [map_children] loop: [n] iterations are
    left before [scan_idx] reaches [len(child_nodes)]. *)
Fixpoint scan_forward (child_nodes : value) (scan_idx : Z) (n : nat) : outcome value :=
  match n with
  | O => Ok VNone
  | S n' =>
      cand <- py_getitem_int child_nodes scan_idx ;;
      if negb (is_placeholder cand) then Ok cand
      else scan_forward child_nodes (scan_idx + 1) n'
  end.

(** An index taken from the grammar; the model stops with [TypeError]
    when it is not an integer. *)
Definition as_int (v : value) : outcome Z :=
  match v with
  | VInt z => Ok z
  | VBool b => Ok (if b then 1 else 0)
  | _ => Raise TypeError
  end.

(** The [for name, mapping in map_children_config.items()] loop. *)
Fixpoint map_children (config : dict) (child_nodes : value) (acc : dict) : outcome dict :=
  match config with
  | [] => Ok acc
  | (name, mapping) :: rest =>
      from_child <- py_getitem mapping "from_child" ;;
      idx <- as_int from_child ;;
      n <- py_len child_nodes ;;
      selected <- scan_forward child_nodes idx (Z.to_nat (n - idx)) ;;
      map_children rest child_nodes
        (if negb (is_placeholder selected) then dict_set name selected acc else acc)
  end.

(** The parts of a sequence that produce a child: not a lookahead, not
    discarded by their own [ast] block and, for a rule reference, not a
    reference to a discarded rule.  A part that is not a dictionary stops
    the model with [TypeError] ([transpile_rule] rejects such a grammar). *)
Fixpoint child_producing_parts (grammar_rules : dict) (sequence_def : list value)
    : outcome (list dict) :=
  match sequence_def with
  | [] => Ok []
  | VDict part :: rest =>
      if dict_has "positive_lookahead" part || dict_has "negative_lookahead" part then
        child_producing_parts grammar_rules rest
      else
        own <- (if dict_has "ast" part then
                  a <- py_getitem (VDict part) "ast" ;;
                  discard <- py_get a "discard" VNone ;;
                  Ok (truthy discard)
                else Ok false) ;;
        is_discarded <-
          (if own then Ok true
           else if dict_has "rule" part then
             target <- py_getitem (VDict part) "rule" ;;
             ref_rule_def <- match target with
                             | VStr name =>
                                 Ok (match dict_get name grammar_rules with
                                     | Some r => r
                                     | None => VDict []
                                     end)
                             | VList _ | VDict _ => Raise TypeError
                             | _ => Ok (VDict [])
                             end ;;
             a <- py_get ref_rule_def "ast" (VDict []) ;;
             discard <- py_get a "discard" VNone ;;
             Ok (truthy discard)
           else Ok false) ;;
        parts <- child_producing_parts grammar_rules rest ;;
        Ok (if is_discarded then parts else part :: parts)
  | _ :: _ => Raise TypeError
  end.

(** The [for i, part in enumerate(child_producing_parts)] loop that fills
    [named_children]; [i] is the index of the head of [parts]. *)
Fixpoint name_children (parts : list dict) (i : nat) (children : list value)
    (named_children : dict) : outcome dict :=
  match parts with
  | [] => Ok named_children
  | part :: rest =>
      named <- (if dict_has "ast" part then
                  a <- py_getitem (VDict part) "ast" ;; py_in "name" a
                else Ok false) ;;
      if named then
        a <- py_getitem (VDict part) "ast" ;;
        name <- py_getitem a "name" ;;
        child_name <- as_str name ;;
        name_children rest (S i) children
          (dict_set child_name
             (match nth_error children i with
              | Some child => child
              | None => VList []
              end) named_children)
      else name_children rest (S i) children named_children
  end.

(** Default node creation, from the position already computed. *)
Definition default_node (grammar_rules : dict) (rule_name : string) (rule_def ast_config : value)
    (node_text : string) (line col : value) (children : list value) : outcome value :=
  tag <- py_get ast_config "tag" (VStr rule_name) ;;
  let base_node := [("tag", tag); ("text", VStr node_text); ("line", line); ("col", col)] in
  sequence_def <- py_get rule_def "sequence" (VList []) ;;
  items <- py_iter sequence_def ;;
  parts <- child_producing_parts grammar_rules items ;;
  named_children <- name_children parts 0 children [] ;;
  match named_children with
  | _ :: _ => Ok (VDict (dict_set "children" (VDict named_children) base_node))
  | [] =>
      let unwrapped_children :=
        match children with
        | [VList l] => VList l
        | _ => VList children
        end in
      if negb (truthy unwrapped_children) then
        Ok (VDict (dict_set "children" (VList []) base_node))
      else
        let nodes_to_process :=
          match unwrapped_children with
          | VList l => l
          | other => [other]
          end in
        Ok (VDict (dict_set "children" (VList (flatten_all nodes_to_process)) base_node))
  end.

Section Visitor.

(** Python's [float(text)] followed by [int(val) if val.is_integer() else val];
    [None] when [float] raises [ValueError]. *)
Variable number_of : string -> option value.

Record AstBuilderVisitor : Type := mkVisitor {
  grammar_dict : dict;
  grammar_rules : dict;
  finder : string;                      (* the text of the [LineColumnFinder] *)
  tokens : option (list Token);
  token_rule_names : list string
}.

(** [if self.tokens] *)
Definition has_tokens (self : AstBuilderVisitor) : bool :=
  match tokens self with
  | Some (_ :: _) => true
  | _ => false
  end.

(** [AstBuilderVisitor(grammar_dict, finder, tokens)] *)
Definition new_visitor (grammar_dict : dict) (text : string) (tokens : option (list Token))
    : outcome AstBuilderVisitor :=
  rules <- py_getitem (VDict grammar_dict) "rules" ;;
  match rules with
  | VDict grammar_rules =>
      names <- match tokens with
               | Some (_ :: _) => lexer_token_types grammar_dict
               | _ => Ok []
               end ;;
      Ok (mkVisitor grammar_dict grammar_rules text tokens names)
  | _ => Raise AttributeError
  end.

Definition first_position : list value -> outcome (value * value) :=
  fix go (children : list value) : outcome (value * value) :=
    match children with
    | [] => Ok (VInt 1, VInt 1)
    | VDict child :: rest =>
        if dict_has "line" child then
          line <- py_getitem (VDict child) "line" ;;
          col <- py_getitem (VDict child) "col" ;;
          Ok (line, col)
        else go rest
    | _ :: rest => go rest
    end.

Definition find_position (self : AstBuilderVisitor) (offset : Z) : outcome (value * value) :=
  p <- LineColumnFinder.find (finder self) offset ;;
  Ok (VInt (fst p), VInt (snd p)).

Definition get_pos (self : AstBuilderVisitor) (node : Node) (children : list value)
    : outcome (value * value) :=
  if has_tokens self then first_position children
  else find_position self (start node).

Definition to_number (s : string) : outcome value :=
  match number_of s with
  | Some v => Ok v
  | None => Raise (ValueError "could not convert string to float")
  end.

(** The [ast] block of the lexer spec of a token type: the first spec
    whose [token] equals it, [{}] when there is none. *)
Fixpoint spec_ast_of (token_type : value) (specs : list value) : outcome value :=
  match specs with
  | [] => Ok (VDict [])
  | spec :: rest =>
      t <- py_get spec "token" VNone ;;
      if value_eqb t token_type then py_get spec "ast" (VDict [])
      else spec_ast_of token_type rest
  end.

(** The token branch of [generic_visit] for the token at [token_idx]. *)
Definition visit_token (self : AstBuilderVisitor) (token : Token) : outcome value :=
  lexer <- py_get (VDict (grammar_dict self)) "lexer" (VDict []) ;;
  token_specs <- py_get lexer "tokens" (VList []) ;;
  specs <- py_iter token_specs ;;
  spec_ast <- spec_ast_of (opt_str (tok_type token)) specs ;;
  discard <- py_get spec_ast "discard" VNone ;;
  if truthy discard then Ok VNone
  else
    let base_node := [("tag", opt_str (tok_type token)); ("text", VStr (tok_value token));
                      ("line", VInt (tok_line token)); ("col", VInt (tok_col token))] in
    spec_type <- py_get spec_ast "type" VNone ;;
    v <- (if eq_str spec_type "number" then to_number (tok_value token)
          else if eq_str spec_type "bool" then
            Ok (VBool (String.eqb (lower (tok_value token)) "true"))
          else if eq_str spec_type "null" then Ok VNone
          else Ok (VStr (tok_value token))) ;;
    Ok (VDict (dict_set "value" v base_node)).

(** The branch of [generic_visit] for a node whose name is not a rule. *)
Definition visit_anonymous (self : AstBuilderVisitor) (node : Node)
    (visited_children : list value) : outcome value :=
  let is_lookahead := match expr node with Lookahead => true | _ => false end in
  let no_text := String.eqb (text node) "" in
  if is_lookahead || (no_text && match visited_children with [] => true | _ => false end)
  then Ok VNone
  else
    match expr node with
    | Quantifier _ (Some 1) => py_index visited_children 0
    | _ =>
        let is_literal := match expr node with Literal => true | _ => false end in
        let is_regex := match expr node with Regex => true | _ => false end in
        if (is_literal || is_regex) && negb (has_tokens self) then
          let tag := if is_literal then "literal" else "regex" in
          p <- find_position self (start node) ;;
          if no_text then Ok VNone
          else Ok (VDict [("tag", VStr tag); ("text", VStr (text node));
                          ("line", fst p); ("col", snd p)])
        else Ok (VList (drop_none visited_children))
    end.

(** The leaf branch: [line], [col] and the typed [value]. *)
Definition leaf_node (self : AstBuilderVisitor) (node : Node) (rule_name : string)
    (ast_config : value) (children : list value) : outcome value :=
  p <- get_pos self node children ;;
  tag <- py_get ast_config "tag" (VStr rule_name) ;;
  let base_node := [("tag", tag); ("text", VStr (text node));
                    ("line", fst p); ("col", snd p)] in
  type <- py_get ast_config "type" VNone ;;
  if eq_str type "number" then
    v <- to_number (text node) ;; Ok (VDict (dict_set "value" v base_node))
  else if eq_str type "bool" then
    Ok (VDict (dict_set "value" (VBool (String.eqb (lower (text node)) "true")) base_node))
  else if eq_str type "null" then Ok (VDict (dict_set "value" VNone base_node))
  else Ok (VDict base_node).

(** [isinstance(c, dict) and c.get('tag') == 'literal'] *)
Definition is_literal_node (c : value) : bool :=
  match c with
  | VDict d => match dict_get "tag" d with Some t => eq_str t "literal" | None => false end
  | _ => false
  end.

(** The parent directives applied to a promoted dictionary. *)
Definition apply_directives (ast_config : dict) (promoted_node : dict) : outcome value :=
  let promoted_node :=
    match dict_get "tag" ast_config with
    | Some tag => dict_set "tag" tag promoted_node
    | None => promoted_node
    end in
  let promoted_node :=
    match dict_get "leaf" ast_config with
    | Some (VBool true) => dict_del "children" promoted_node
    | _ => promoted_node
    end in
  match dict_get "type" ast_config with
  | Some new_type =>
      text <- py_getitem (VDict promoted_node) "text" ;;
      if eq_str new_type "number" then
        let v := match text with
                 | VStr s => match number_of s with Some v => v | None => text end
                 | _ => text
                 end in
        Ok (VDict (dict_set "value" v promoted_node))
      else if eq_str new_type "bool" then
        lowered <- match text with
                   | VStr s => Ok (lower s)
                   | _ => Raise AttributeError
                   end ;;
        Ok (VDict (dict_set "value" (VBool (String.eqb lowered "true")) promoted_node))
      else if eq_str new_type "null" then Ok (VDict (dict_set "value" VNone promoted_node))
      else Ok (VDict promoted_node)
  | None => Ok (VDict promoted_node)
  end.

(** The [promote] branch.  The [text] of a promoted node is a string in
    every node the visitor builds; on another [text] the number conversion
    keeps it unchanged. *)
Definition promote (self : AstBuilderVisitor) (node : Node) (rule_def ast_config : dict)
    (children : list value) : outcome value :=
  let children := flatten_all children in
  let parenthesized :=
    match children with
    | [first; _; last] => is_literal_node first && is_literal_node last
    | _ => false
    end in
  promoted_node <-
    (if parenthesized then py_index children 1
     else
       let is_sequence := dict_has "sequence" rule_def in
       let is_quantifier := dict_has "one_or_more" rule_def || dict_has "zero_or_more" rule_def
                            || dict_has "optional" rule_def in
       if is_sequence || is_quantifier then Ok (VList children)
       else if negb (truthy (VList children)) then Ok VNone
       else if len children =? 1 then py_index children 0
       else Ok (VList children)) ;;
  match promoted_node with
  | VNone => Ok VNone
  | VDict d => apply_directives ast_config d
  | VList l =>
      match dict_get "tag" ast_config with
      | Some tag =>
          p <- get_pos self node children ;;
          Ok (VDict [("tag", tag); ("text", VStr (text node)); ("line", fst p);
                     ("col", snd p); ("children", promoted_node)])
      | None => Ok promoted_node
      end
  | _ => Ok promoted_node
  end.

(** The [structure: {tag, map_children}] branch. *)
Definition structure_node (self : AstBuilderVisitor) (node : Node) (rule_name : string)
    (structure_config : value) (visited_children children : list value) : outcome value :=
  p <- get_pos self node children ;;
  tag <- py_get structure_config "tag" (VStr rule_name) ;;
  map_children_config <- py_get structure_config "map_children" (VDict []) ;;
  match map_children_config with
  | VDict config =>
      let child_nodes :=
        match visited_children with
        | [VList l] => VList l
        | _ => VList visited_children
        end in
      mapped <- map_children config child_nodes [] ;;
      Ok (VDict [("tag", tag); ("text", VStr (text node)); ("line", fst p); ("col", snd p);
                 ("children", VDict mapped)])
  | _ => Raise AttributeError
  end.

(** The rule branch of [generic_visit] once [rule_def] and [ast_config]
    are known to be dictionaries. *)
Definition visit_rule (self : AstBuilderVisitor) (node : Node) (rule_name : string)
    (rule_def ast_config : dict) (visited_children : list value) : outcome value :=
  if truthy (match dict_get "discard" ast_config with Some v => v | None => VNone end)
  then Ok VNone
  else
    let children := drop_none visited_children in
    let leaf := match dict_get "leaf" ast_config with Some v => v | None => VNone end in
    is_leaf_rule <-
      (if truthy leaf then Ok true
       else if negb (has_tokens self) && (dict_has "literal" rule_def || dict_has "regex" rule_def)
       then Ok true
       else is_wrapped_leaf (VDict rule_def)) ;;
    if is_leaf_rule then leaf_node self node rule_name (VDict ast_config) children
    else if truthy (match dict_get "promote" ast_config with Some v => v | None => VNone end)
    then promote self node rule_def ast_config children
    else
      let default :=
        p <- get_pos self node children ;;
        default_node (grammar_rules self) rule_name (VDict rule_def) (VDict ast_config)
          (text node) (fst p) (snd p) children in
      match dict_get "structure" ast_config with
      | Some (VStr structure_config) =>
          if String.eqb structure_config "left_associative_op" then left_associative_op children
          else if String.eqb structure_config "right_associative_op"
          then right_associative_op children
          else default
      | Some (VDict structure_config) =>
          structure_node self node rule_name (VDict structure_config) visited_children children
      | _ => default
      end.

(** [generic_visit(node, visited_children)]; [token_idx] is threaded. *)
Definition generic_visit (self : AstBuilderVisitor) (token_idx : nat) (node : Node)
    (visited_children : list value) : outcome (value * nat) :=
  let rule_name := expr_name node in
  if has_tokens self && mem rule_name (token_rule_names self) then
    match nth_error (match tokens self with Some ts => ts | None => [] end) token_idx with
    | Some token => v <- visit_token self token ;; Ok (v, S token_idx)
    | None => Ok (VNone, token_idx)
    end
  else if negb (dict_has rule_name (grammar_rules self)) then
    v <- visit_anonymous self node visited_children ;; Ok (v, token_idx)
  else
    let rule_def := match dict_get rule_name (grammar_rules self) with
                    | Some r => r
                    | None => VDict []
                    end in
    ast_config <- py_get rule_def "ast" (VDict []) ;;
    match rule_def, ast_config with
    | VDict rule_def, VDict ast_config =>
        v <- visit_rule self node rule_name rule_def ast_config visited_children ;;
        Ok (v, token_idx)
    | _, _ => Raise AttributeError
    end.

(** The matcher library wraps whatever a visit method raises. *)
Definition wrap_visitation {A : Type} (m : outcome A) : outcome A :=
  match m with
  | Raise (VisitationError cause) => Raise (VisitationError cause)
  | Raise e => Raise (VisitationError e)
  | Ok a => Ok a
  end.

(** [NodeVisitor.visit] of the matcher library: children first, left to
    right, then [generic_visit] on the node. *)
Fixpoint visit (self : AstBuilderVisitor) (node : Node) (token_idx : nat) {struct node}
    : outcome (value * nat) :=
  match node with
  | mkNode _ _ _ _ kids =>
      r <- (fix visit_all (kids : list Node) (token_idx : nat) : outcome (list value * nat) :=
              match kids with
              | [] => Ok ([], token_idx)
              | kid :: rest =>
                  r <- visit self kid token_idx ;;
                  rs <- visit_all rest (snd r) ;;
                  Ok (fst r :: fst rs, snd rs)
              end) kids token_idx ;;
      wrap_visitation (generic_visit self (snd r) node (fst r))
  end.

End Visitor.

(** ** 5. Parser core *)

(** [isinstance(item, dict) and '__' in item.get('tag', '')] *)
Definition has_internal_tag (item : value) : outcome bool :=
  match item with
  | VDict d => py_in "__" (match dict_get "tag" d with Some t => t | None => VStr "" end)
  | _ => Ok false
  end.

(** The list branch of [_cleanup_ast]: items with an internal tag are
    left out, the others are cleaned by [clean]. *)
Definition clean_items (clean : value -> outcome value) : list value -> outcome (list value) :=
  fix each (l : list value) : outcome (list value) :=
    match l with
    | [] => Ok []
    | item :: rest =>
        internal <- has_internal_tag item ;;
        if internal then each rest
        else
          cleaned <- clean item ;;
          others <- each rest ;;
          Ok (cleaned :: others)
    end.

(** The branch of [_cleanup_ast] for a dictionary of named children. *)
Definition clean_entries (clean : value -> outcome value) : dict -> outcome dict :=
  fix each (d : dict) : outcome dict :=
    match d with
    | [] => Ok []
    | (key, value) :: rest =>
        internal <- has_internal_tag value ;;
        if internal then each rest
        else
          cleaned <- clean value ;;
          others <- each rest ;;
          Ok ((key, cleaned) :: others)
    end.

(** [_cleanup_ast(node)] *)
Fixpoint _cleanup_ast (node : value) {struct node} : outcome value :=
  match node with
  | VList l =>
      new_list <- clean_items _cleanup_ast l ;;
      Ok (VList new_list)
  | VDict d =>
      if dict_has "tag" d then
        with_entry "children"
          (fun children =>
             cleaned <- _cleanup_ast children ;;
             Ok (VDict (dict_set "children" cleaned d)))
          (Ok node) d
      else
        new_dict <- clean_entries _cleanup_ast d ;;
        Ok (VDict new_dict)
  | _ => Ok node
  end.

(** The value that [parse] returns. *)
Definition success (ast : value) : value :=
  VDict [("status", VStr "success"); ("ast", ast)].

Definition error (message : string) : value :=
  VDict [("status", VStr "error"); ("message", VStr message)].

(** [" ".join([t.type for t in tokens])]: a token without a type is
    [None] and [join] rejects it. *)
Definition token_string (tokens : list Token) : outcome string :=
  types <- traverse (fun t => match tok_type t with
                              | Some s => Ok s
                              | None => Raise TypeError
                              end) tokens ;;
  Ok (join " " types).

(** [s[:n]] and [s[n:]] for a non-negative [n] *)
Definition take_str (n : nat) (s : string) : string := String.substring 0 n s.
Definition drop_str (n : nat) (s : string) : string :=
  String.substring n (String.length s - n) s.

(** [s.split('\n')[0]] *)
Fixpoint first_line (s : string) : string :=
  match s with
  | EmptyString => EmptyString
  | String c rest => if Ascii.eqb c newline then EmptyString else String c (first_line rest)
  end.

(** [len(s.split(' ')) - 1] *)
Fixpoint count_spaces (s : string) : nat :=
  match s with
  | EmptyString => O
  | String c rest => ((if Ascii.eqb c space then 1 else 0) + count_spaces rest)%nat
  end.

(** [s[pos:pos+20]] for any integer [pos]; a negative [pos] counts from
    the end as Python slices do. *)
Definition snippet_at (s : string) (pos : Z) : string :=
  let n := str_len s in
  let norm := fun i => if i <? 0 then Z.max 0 (i + n) else Z.min i n in
  let lo := norm pos in
  let hi := norm (pos + 20) in
  first_line (String.substring (Z.to_nat lo) (Z.to_nat (hi - lo)) s).

(** [s[:pos]] for any integer [pos] *)
Definition prefix_to (s : string) (pos : Z) : string :=
  let n := str_len s in
  let hi := if pos <? 0 then Z.max 0 (pos + n) else Z.min pos n in
  take_str (Z.to_nat hi) s.

Section ParserCore.

Variable number_of : string -> option value.

(** [str(e)] for an exception of the matcher. *)
Variable matcher_message : exn -> string.

(** The configuration built by [_compile_grammar_from_dict]. *)
Record grammar_config : Type := mkConfig {
  cfg_grammar_dict : dict;
  cfg_is_token_grammar : bool;
  cfg_lexer : StatefulLexer.t;
  (* [config['grammar'][rule].parse]; no entry means [KeyError] *)
  cfg_grammar : string -> option (string -> outcome Node);
  cfg_start_rule : string
}.

(** [config['grammar'][start_rule].parse(text)] *)
Definition grammar_parse (config : grammar_config) (start_rule text : string) : outcome Node :=
  match cfg_grammar config start_rule with
  | Some parse => parse text
  | None => Raise (KeyError start_rule)
  end.

(** The names the error message lists after "Expected one of". *)
Definition expected_things (config : grammar_config) (exprs : list peg_expr) : list string :=
  let rules := match dict_get "rules" (cfg_grammar_dict config) with
               | Some (VDict r) => keys r
               | _ => []
               end in
  sorted (dedup (List.concat (map (fun e =>
    match e with
    | RuleExpr name => if mem name rules then [name] else []
    | LiteralExpr literal =>
        if negb (String.eqb literal "") then ["literal " ++ dquote ++ literal ++ dquote] else []
    | AnyExpr => []
    end) exprs))).

(** The answer of the [except] clause to a [ParseError] or
    [IncompleteParseError] [e] at [pos]; [tokens] is the local variable
    at the time of the exception. *)
Definition on_parse_error (config : grammar_config) (text : string)
    (tokens : option (list Token)) (e : exn) (incomplete : bool) (pos : Z)
    (exprs : list peg_expr) : outcome value :=
  if cfg_is_token_grammar config then
    match tokens with
    | None => Ok (error (matcher_message e))
    | Some tokens =>
        token_string <- token_string tokens ;;
        let error_token_idx := count_spaces (prefix_to token_string pos) in
        match nth_error tokens error_token_idx with
        | Some error_token =>
            let type := match tok_type error_token with
                        | Some s => s
                        | None => "None"
                        end in
            Ok (error ("Syntax error at L" ++ str_of_Z (tok_line error_token) ++ ":C"
                       ++ str_of_Z (tok_col error_token) ++ " near '"
                       ++ tok_value error_token ++ "'. Unexpected token: " ++ type ++ "."))
        | None => Ok (error "Syntax error at end of input.")
        end
    end
  else
    p <- LineColumnFinder.find text pos ;;
    let snippet := snippet_at text pos in
    let position := "Syntax error at L" ++ str_of_Z (fst p) ++ ":C" ++ str_of_Z (snd p) in
    if incomplete then
      Ok (error (position ++ ". Failed to consume entire input. Unconsumed input begins with: '"
                 ++ snippet ++ "...'"))
    else
      let expected := expected_things config exprs in
      let message := if negb (String.eqb snippet "")
                     then position ++ " near '" ++ snippet ++ "...'" else position in
      let message :=
        match expected with
        | _ :: _ => message ++ ". Expected one of: " ++ join ", " expected ++ "."
        | [] => if String.eqb snippet "" then message ++ ". Unexpected end of input."
                else message
        end in
      Ok (error message).

(** The [except] clause of [_parse_internal]. *)
Definition on_exception (config : grammar_config) (text : string)
    (tokens : option (list Token)) (e : exn) : outcome value :=
  match e with
  | ParseError pos exprs => on_parse_error config text tokens e false pos exprs
  | IncompleteParseError pos exprs => on_parse_error config text tokens e true pos exprs
  | SyntaxError msg => Ok (error msg)
  | IndentationError msg => Ok (error msg)
  | _ => Raise e
  end.

(** [try: ... except (ParseError, IncompleteParseError, SyntaxError,
    IndentationError)] around one step of the body. *)
Definition guarded {A : Type} (config : grammar_config) (text : string)
    (tokens : option (list Token)) (m : outcome A) (k : A -> outcome value) : outcome value :=
  match m with
  | Ok a => k a
  | Raise e => on_exception config text tokens e
  end.

(** [_parse_internal(text, grammar_config, start_rule)] *)
Definition _parse_internal (fuel : nat) (text : string) (config : grammar_config)
    (start_rule : option string) : fueled value :=
  let start_rule := match start_rule with
                    | Some r => r
                    | None => cfg_start_rule config
                    end in
  let finish (tokens : option (list Token)) (visitor : AstBuilderVisitor) (tree : Node)
      : outcome value :=
    guarded config text tokens (visit number_of visitor tree 0) (fun r =>
    guarded config text tokens (_cleanup_ast (fst r)) (fun ast =>
    Ok (success ast))) in
  if cfg_is_token_grammar config then
    toks <~ match StatefulLexer.tokenize fuel (cfg_lexer config) text with
            | None => None
            | Some r => ret r
            end ;;
    lift (guarded config text None toks (fun tokens =>
          guarded config text (Some tokens) (token_string tokens) (fun token_string =>
          guarded config text (Some tokens)
            (new_visitor (cfg_grammar_dict config) text (Some tokens)) (fun visitor =>
          guarded config text (Some tokens)
            (grammar_parse config start_rule token_string) (finish (Some tokens) visitor)))))
  else
    lift (guarded config text None (new_visitor (cfg_grammar_dict config) text None)
            (fun visitor =>
          guarded config text None (grammar_parse config start_rule text)
            (finish None visitor))).

End ParserCore.

(** ** Sample lexer configuration

    The two token specs of the indentation scenario: an identifier
    [[a-z]+] emitted as [NAME], and a newline followed by spaces
    ["\n[ ]*"] with the [handle_indent] action. *)

(** The number of leading characters of [s] that satisfy [p]. *)
Fixpoint span (p : ascii -> bool) (s : string) : nat :=
  match s with
  | EmptyString => O
  | String c rest => if p c then S (span p rest) else O
  end.

Definition is_lower (c : ascii) : bool :=
  let n := Ascii.nat_of_ascii c in ((97 <=? n) && (n <=? 122))%nat.

(** [re.compile("[a-z]+").match(text, pos)] *)
Definition re_identifier : regex := fun text pos =>
  match span is_lower (drop_str pos text) with
  | O => None
  | n => Some n
  end.

(** [re.compile("\n[ ]*").match(text, pos)] *)
Definition re_newline_indent : regex := fun text pos =>
  match drop_str pos text with
  | String c rest =>
      if Ascii.eqb c newline then Some (S (span (Ascii.eqb space) rest)) else None
  | EmptyString => None
  end.

Definition indent_lexer : StatefulLexer.t :=
  StatefulLexer.mkLexer
    [mkSpec re_identifier None (Some "NAME");
     mkSpec re_newline_indent (Some "handle_indent") None]
    8.

(** The text ["a\n  b\n  c\n"]. *)
Definition indent_text : string :=
  "a" ++ newline_str ++ "  b" ++ newline_str ++ "  c" ++ newline_str.

(** ** Specification predicates *)

(** [best] is what the selection loop holds after the specs [seen]: no
    candidate when none of them matches; otherwise the match of the spec
    at some index [i], at least as long as every other match and strictly
    longer than every match at an index before [i]. *)
Definition selected (text : string) (pos : nat) (seen : list compiled_spec)
    (best : option StatefulLexer.candidate) : Prop :=
  match best with
  | None => forall spec, In spec seen -> spec_regex spec text pos = None
  | Some m =>
      exists i spec n,
        nth_error seen i = Some spec /\
        spec_regex spec text pos = Some n /\
        m = StatefulLexer.mkCand (slice text pos n) (pos + n) (spec_action spec) (spec_token spec) /\
        forall j spec' n',
          nth_error seen j = Some spec' ->
          spec_regex spec' text pos = Some n' ->
          str_len (slice text pos n') <= str_len (slice text pos n) /\
          (str_len (slice text pos n') = str_len (slice text pos n) -> (i <= j)%nat)
  end.

(** The PEG text for a reference to [X] that must not be collapsed:
    [X] followed by the no-op, in parentheses. *)
Definition guarded_reference (X : string) : string := "(" ++ X ++ " " ++ no_op ++ ")".

(** A rule definition in which the transpiler meets an empty [choice]:
    the node itself, one of the parts of a [choice] or [sequence], or the
    body of a quantifier or lookahead. *)
Inductive has_empty_choice : value -> Prop :=
| empty_choice_here (d : dict) :
    dict_has "subgrammar" d = false ->
    found_keys d = ["choice"] ->
    dict_get "choice" d = Some (VList []) ->
    has_empty_choice (VDict d)
| empty_choice_in_part (d : dict) (k : string) (parts : list value) (part : value) :
    dict_has "subgrammar" d = false ->
    found_keys d = [k] ->
    k = "choice" \/ k = "sequence" ->
    dict_get k d = Some (VList parts) ->
    In part parts ->
    has_empty_choice part ->
    has_empty_choice (VDict d)
| empty_choice_in_body (d : dict) (k : string) (body : value) :
    dict_has "subgrammar" d = false ->
    found_keys d = [k] ->
    In k ["zero_or_more"; "one_or_more"; "optional"; "positive_lookahead"; "negative_lookahead"] ->
    dict_get k d = Some body ->
    has_empty_choice body ->
    has_empty_choice (VDict d).

(** A grammar with a rule named as the first rule hoisted out of [a]
    will be, and what normalization makes of it. *)
Definition overwritten_grammar : dict :=
  [("start_rule", VStr "a");
   ("rules", VDict
      [("a", VDict [("sequence",
          VList [VDict [("literal", VStr "x"); ("ast", VDict [("tag", VStr "lit")])]])]);
       ("a__1", VDict [("choice", VList [])])])].

Definition overwritten_normalized : dict :=
  [("start_rule", VStr "a");
   ("rules", VDict
      [("a", VDict [("sequence", VList [VDict [("rule", VStr "a__1")]])]);
       ("a__1", VDict [("ast", VDict [("tag", VStr "lit")]);
                       ("sequence", VList [VDict [("literal", VStr "x")]])])])].

(** The grammar of the empty-choice scenario:
    [{start_rule: main, rules: {main: {choice: []}}}]. *)
Definition empty_choice_grammar : dict :=
  [("start_rule", VStr "main");
   ("rules", VDict [("main", VDict [("choice", VList [])])])].

(** A lookahead node without an [ast] block: its only grammar key is
    [positive_lookahead] or [negative_lookahead]. *)
Definition plain_lookahead (part : value) : Prop :=
  exists d,
    part = VDict d /\
    (found_keys d = ["positive_lookahead"] \/ found_keys d = ["negative_lookahead"]) /\
    dict_get "ast" d = None.

(** The memo table does not hold the verdict "not empty" for [name]. *)
Definition never_cleared (name : string) (m : memo) : Prop := memo_get name m <> Some false.

(** A classifier that, when it answers on [x], leaves the memo table
    without the verdict "not empty" for [name]. *)
Definition keeps_memo (name : string) (f : value -> memo -> fueled (bool * memo))
    (x : value) : Prop :=
  forall m res m', never_cleared name m -> f x m = Some (Ok (res, m')) -> never_cleared name m'.

(** A grammar whose start rule is a sequence of two lookaheads:
    [{start_rule: main, rules: {main: {sequence:
       [{positive_lookahead: {literal: "a"}}, {negative_lookahead: {literal: "b"}}]}}}]. *)
Definition lookahead_node : value :=
  VDict [("positive_lookahead", VDict [("literal", VStr "a")])].

Definition lookahead_grammar : dict :=
  [("start_rule", VStr "main");
   ("rules", VDict [("main", VDict [("sequence",
       VList [lookahead_node;
              VDict [("negative_lookahead", VDict [("literal", VStr "b")])]])])])].

(** The left-nested fold of the specification, [((V1 O1 V2) O2 V3) ...]:
    each [binary_op] node takes its [line] and [col] from its operator. *)
Fixpoint left_nested (lhs : value) (pairs : list (dict * value)) : value :=
  match pairs with
  | [] => lhs
  | (op, rhs) :: rest =>
      left_nested
        (VDict [("tag", VStr "binary_op"); ("op", VDict op); ("left", lhs); ("right", rhs);
                ("line", match dict_get "line" op with Some l => l | None => VNone end);
                ("col", match dict_get "col" op with Some c => c | None => VNone end)])
        rest
  end.

(** An operator node carries a position. *)
Definition positioned (op : dict) : Prop :=
  dict_get "line" op <> None /\ dict_get "col" op <> None.

(** A visited group [[O, V]], possibly with [None] placeholders around
    its two items. *)
Definition group_of (group : value) (pair : dict * value) : Prop :=
  exists items, group = VList items /\ drop_none items = [VDict (fst pair); snd pair].

(** A directive of the [ast] block that is absent or falsy. *)
Definition directive_off (k : string) (ast_config : dict) : Prop :=
  truthy (match dict_get k ast_config with Some v => v | None => VNone end) = false.

(** A sequence part whose [ast] block, when present, is a dictionary
    whose [name], when present, is a string. *)
Definition named_ok (part : dict) : Prop :=
  match dict_get "ast" part with
  | None => True
  | Some (VDict a) =>
      match dict_get "name" a with
      | None => True
      | Some (VStr _) => True
      | Some _ => False
      end
  | Some _ => False
  end.

(** The calculator's leaf nodes, for the expression [8 - 2 - 1]. *)
Definition leaf (tag text : string) (col : Z) : dict :=
  [("tag", VStr tag); ("text", VStr text); ("line", VInt 1); ("col", VInt col)].

Definition sample_groups : list (dict * value) :=
  [(leaf "add_op" "-" 3, VDict (leaf "number" "2" 5));
   (leaf "add_op" "-" 7, VDict (leaf "number" "1" 9))].

Definition sample_visited : list value :=
  [VDict (leaf "number" "8" 1);
   VList [VList [VNone; VDict (leaf "add_op" "-" 3); VNone; VDict (leaf "number" "2" 5)];
          VList [VNone; VDict (leaf "add_op" "-" 7); VNone; VDict (leaf "number" "1" 9)]]].

(** The rule [expression] of the calculator and a visitor over it. *)
Definition expression_rule : dict :=
  [("ast", VDict [("structure", VStr "left_associative_op")]);
   ("sequence", VList [VDict [("rule", VStr "term")];
                       VDict [("zero_or_more", VDict [("sequence",
                          VList [VDict [("rule", VStr "_")]; VDict [("rule", VStr "add_op")];
                                 VDict [("rule", VStr "_")]; VDict [("rule", VStr "term")]])])]])].

Definition sample_visitor : AstBuilderVisitor :=
  mkVisitor [("rules", VDict [("expression", VDict expression_rule)])]
            [("expression", VDict expression_rule)] "8 - 2 - 1" None [].

Definition sample_node : Node := mkNode "expression" Sequence "8 - 2 - 1" 0 [].

(** The rule [expression] with another [ast] block, and a visitor over
    it. *)
Definition expression_with (ast_config : dict) : dict :=
  dict_set "ast" (VDict ast_config) expression_rule.

Definition visitor_with (ast_config : dict) : AstBuilderVisitor :=
  mkVisitor [("rules", VDict [("expression", VDict (expression_with ast_config))])]
            [("expression", VDict (expression_with ast_config))] "8 - 2 - 1" None [].

(** [{structure: left_associative_op, discard: true}] and
    [{structure: left_associative_op, leaf: true}]. *)
Definition discarding_ast : dict :=
  [("structure", VStr "left_associative_op"); ("discard", VBool true)].

Definition leaf_ast : dict :=
  [("structure", VStr "left_associative_op"); ("leaf", VBool true)].

(** A sequence rule with an optional named part that did not match:
    [{sequence: [{rule: path, ast: {name: repo}},
                 {optional: {rule: path}, ast: {name: dest}}]}]
    visited with one surviving child. *)
Definition clone_rule : dict :=
  [("sequence", VList [VDict [("rule", VStr "path"); ("ast", VDict [("name", VStr "repo")])];
                       VDict [("optional", VDict [("rule", VStr "path")]);
                              ("ast", VDict [("name", VStr "dest")])]])].

Definition clone_parts : list dict :=
  [[("rule", VStr "path"); ("ast", VDict [("name", VStr "repo")])];
   [("optional", VDict [("rule", VStr "path")]); ("ast", VDict [("name", VStr "dest")])]].

(** The exception classes named in the [except] clause of
    [_parse_internal]. *)
Definition caught (e : exn) : bool :=
  match e with
  | ParseError _ _ | IncompleteParseError _ _ | SyntaxError _ | IndentationError _ => true
  | _ => false
  end.

(** What a call of [parse] may end in: a success or error dictionary, or
    an exception that the [except] clause does not name. *)
Definition settled (r : outcome value) : Prop :=
  match r with
  | Ok v => (exists ast, v = success ast) \/ (exists message, v = error message)
  | Raise e => caught e = false
  end.

(** What the [except] clause may end in: an error dictionary, or an
    exception that it does not name. *)
Definition answers (r : outcome value) : Prop :=
  match r with
  | Ok v => exists message, v = error message
  | Raise e => caught e = false
  end.



(** ** A grammar with hoisted operands

    The user's rule
    [expr: {ast: {structure: left_associative_op},
            sequence: [{regex: "[0-9]+", ast: {leaf: true}},
                       {zero_or_more: {sequence:
                          [{rule: op}, {regex: "[0-9]+", ast: {leaf: true}}]}}]}]
    after normalization: the two inline operands are the rules [expr__1]
    and [expr__2]. *)
Definition hoisted_operand : value :=
  VDict [("ast", VDict [("leaf", VBool true)]);
         ("sequence", VList [VDict [("regex", VStr "[0-9]+")]])].

Definition hoisted_grammar : dict :=
  [("start_rule", VStr "expr");
   ("rules", VDict
      [("expr", VDict
          [("ast", VDict [("structure", VStr "left_associative_op")]);
           ("sequence", VList
              [VDict [("rule", VStr "expr__1")];
               VDict [("zero_or_more", VDict [("sequence",
                  VList [VDict [("rule", VStr "op")]; VDict [("rule", VStr "expr__2")]])])]])]);
       ("op", VDict [("literal", VStr "+")]);
       ("expr__1", hoisted_operand);
       ("expr__2", hoisted_operand)])].

Definition optional_q : expr_kind := Quantifier 0 (Some 1).
Definition star_q : expr_kind := Quantifier 0 None.

(** The matcher's tree for the text [1+2]: [expr] is the sequence of
    [expr__1] and a repetition of the sequence [op expr__2]; [expr__1] and
    [expr__2] are the sequence of a regex and the optional no-op. *)
Definition tree_1_plus_2 : Node :=
  mkNode "expr" Sequence "1+2" 0
    [mkNode "expr__1" Sequence "1" 0
       [mkNode "" Regex "1" 0 [];
        mkNode "" optional_q "" 1 [mkNode "" Literal "" 1 []]];
     mkNode "" star_q "+2" 1
       [mkNode "" Sequence "+2" 1
          [mkNode "op" Literal "+" 1 [];
           mkNode "expr__2" Sequence "2" 2
             [mkNode "" Regex "2" 2 [];
              mkNode "" optional_q "" 3 []]]]].

(** The matcher's tree for the text [1]. *)
Definition tree_1 : Node :=
  mkNode "expr" Sequence "1" 0
    [mkNode "expr__1" Sequence "1" 0
       [mkNode "" Regex "1" 0 [];
        mkNode "" optional_q "" 1 []];
     mkNode "" star_q "" 1 []].

(** The compiled configuration; the matcher is given by its answers on
    the two texts. *)
Definition hoisted_config : grammar_config :=
  mkConfig hoisted_grammar false (StatefulLexer.mkLexer [] 8)
    (fun rule =>
       if String.eqb rule "expr" then
         Some (fun text =>
                 if String.eqb text "1+2" then Ok tree_1_plus_2
                 else if String.eqb text "1" then Ok tree_1
                 else Raise (ParseError 0 []))
       else None)
    "expr".

(** The grammar as the user writes it, with the operands inline. *)
Definition inline_operand : value :=
  VDict [("regex", VStr "[0-9]+"); ("ast", VDict [("leaf", VBool true)])].

Definition inline_grammar : dict :=
  [("start_rule", VStr "expr");
   ("rules", VDict
      [("expr", VDict
          [("ast", VDict [("structure", VStr "left_associative_op")]);
           ("sequence", VList
              [inline_operand;
               VDict [("zero_or_more", VDict [("sequence",
                  VList [VDict [("rule", VStr "op")]; inline_operand])])]])]);
       ("op", VDict [("literal", VStr "+")])])].

(** ** A named child called [tag]

    The user's rule
    [wrap: {ast: {tag: wrap},
            sequence: [{zero_or_more: {literal: "a", ast: {leaf: true}},
                        ast: {name: tag}}]}]
    and its grammar after normalization, where the inline leaf is the
    rule [wrap__1]. *)
Definition named_tag_grammar : dict :=
  [("start_rule", VStr "wrap");
   ("rules", VDict
      [("wrap", VDict
          [("ast", VDict [("tag", VStr "wrap")]);
           ("sequence", VList
              [VDict [("zero_or_more",
                       VDict [("literal", VStr "a"); ("ast", VDict [("leaf", VBool true)])]);
                      ("ast", VDict [("name", VStr "tag")])]])])])].

Definition named_tag_hoisted : dict :=
  [("start_rule", VStr "wrap");
   ("rules", VDict
      [("wrap", VDict
          [("ast", VDict [("tag", VStr "wrap")]);
           ("sequence", VList
              [VDict [("zero_or_more", VDict [("rule", VStr "wrap__1")]);
                      ("ast", VDict [("name", VStr "tag")])]])]);
       ("wrap__1", VDict
          [("ast", VDict [("leaf", VBool true)]);
           ("sequence", VList [VDict [("literal", VStr "a")]])])])].

(** The matcher's tree for the text [aa]: [wrap] is the sequence of a
    repetition of [wrap__1] and the optional no-op, [wrap__1] the
    sequence of a literal and the optional no-op.  The no-op has a child
    where it is tried before the end of the text. *)
Definition tree_aa : Node :=
  mkNode "wrap" Sequence "aa" 0
    [mkNode "" star_q "aa" 0
       [mkNode "wrap__1" Sequence "a" 0
          [mkNode "" Literal "a" 0 [];
           mkNode "" optional_q "" 1 [mkNode "" Literal "" 1 []]];
        mkNode "wrap__1" Sequence "a" 1
          [mkNode "" Literal "a" 1 [];
           mkNode "" optional_q "" 2 []]];
     mkNode "" optional_q "" 2 []].

Definition named_tag_config : grammar_config :=
  mkConfig named_tag_hoisted false (StatefulLexer.mkLexer [] 8)
    (fun rule =>
       if String.eqb rule "wrap" then
         Some (fun text => if String.eqb text "aa" then Ok tree_aa
                           else Raise (ParseError 0 []))
       else None)
    "wrap".

(** A block with a statement that kept an internal tag, and a statement
    with a named child that did. *)
Definition sample_block : value :=
  VDict [("tag", VStr "block");
         ("children", VList
            [VDict [("tag", VStr "stmt__1")];
             VDict [("tag", VStr "stmt");
                    ("children", VDict [("a", VDict [("tag", VStr "x__2")]);
                                        ("b", VDict [("tag", VStr "y")])])]])].

(** The payload types of the grammar schema: a string under [literal],
    [regex], [rule] and [token], a list of rule nodes under [choice] and
    [sequence], a rule node under the quantifiers and lookaheads, a
    dictionary under [ast]. *)
Fixpoint schema_typed (v : value) : bool :=
  match v with
  | VDict d =>
      forallb (fun e =>
        let '(k, x) := e in
        if mem k ["literal"; "regex"; "rule"; "token"] then
          match x with VStr _ => true | _ => false end
        else if mem k ["choice"; "sequence"] then
          match x with VList l => forallb schema_typed l | _ => false end
        else if mem k ["zero_or_more"; "one_or_more"; "optional";
                       "positive_lookahead"; "negative_lookahead"] then schema_typed x
        else if String.eqb k "ast" then is_dict x
        else true) d
  | _ => true
  end.

(** A transpilation that ends with PEG text or with a [ValueError]. *)
Definition text_or_value_error (r : outcome string) : Prop :=
  (exists s, r = Ok s) \/ (exists msg, r = Raise (ValueError msg)).

(** ** States of the lexer loop *)

(** The states that the [while pos < len(text)] loop of [tokenize] passes
    through on [text]: the initial one, and the one after an iteration
    that did not raise. *)
Inductive reached (lx : StatefulLexer.t) (text : string) : StatefulLexer.state -> Prop :=
| reached_init : reached lx text StatefulLexer.init
| reached_step (st st' : StatefulLexer.state) :
    reached lx text st ->
    (StatefulLexer.st_pos st < String.length text)%nat ->
    StatefulLexer.step lx text st = Ok st' ->
    reached lx text st'.

(** The number of tokens of type [ty]. *)
Definition count_type (ty : string) (tokens : list Token) : nat :=
  List.length (filter (fun t => match tok_type t with
                                | Some s => String.eqb s ty
                                | None => false
                                end) tokens).

(** The values of the tokens, one after the other. *)
Fixpoint text_of (tokens : list Token) : string :=
  match tokens with
  | [] => EmptyString
  | t :: rest => tok_value t ++ text_of rest
  end.

(** [re.compile("a*").match(text, pos)] where [text] has no [a] at
    [pos]: the empty match. *)
Definition re_empty : regex := fun _ _ => Some 0%nat.

Definition empty_match_lexer : StatefulLexer.t :=
  StatefulLexer.mkLexer [mkSpec re_empty None (Some "A")] 8.
(** ** Progress of the always-empty lint *)

(** The memo table holds no verdict for the rule [k]. *)
Definition no_verdict (m : memo) (k : string) : bool :=
  match memo_get k m with
  | None => true
  | Some _ => false
  end.

(** The number of rules for which the memo table holds no verdict. *)
Definition unvisited (rules : dict) (m : memo) : nat :=
  List.length (filter (no_verdict m) (keys rules)).

(** [len(grammar_dict['rules'])], zero when there is no rule dictionary. *)
Definition rule_count (grammar_dict : dict) : nat :=
  match dict_get "rules" grammar_dict with
  | Some (VDict rules) => List.length rules
  | _ => O
  end.

(** A memo table that keeps every verdict of another (the verdict itself
    may change). *)
Definition memo_grows (m m' : memo) : Prop :=
  forall k, memo_get k m <> None -> memo_get k m' <> None.

(** A classifier that answers on [x] and [m], keeping the verdicts of [m]. *)
Definition answers_keeping {A : Type} (f : A -> memo -> fueled (bool * memo)) (x : A)
    (m : memo) : Prop :=
  exists r, f x m = Some r /\ forall b m', r = Ok (b, m') -> memo_grows m m'.
(** ** The flattening loop of the visitor *)

(** The size of a value as the flattening loop sees it: one for the
    value, plus the sizes of the items when it is a list. *)
Fixpoint weight (v : value) : nat :=
  match v with
  | VList l =>
      S ((fix sum (l : list value) : nat :=
            match l with
            | [] => O
            | x :: rest => (weight x + sum rest)%nat
            end) l)
  | _ => 1%nat
  end.

Fixpoint stack_weight (stack : list value) : nat :=
  match stack with
  | [] => O
  | x :: rest => (weight x + stack_weight rest)%nat
  end.

Lemma stack_weight_app (a b : list value) :
  stack_weight (a ++ b) = (stack_weight a + stack_weight b)%nat.
Proof.
  induction a as [|x a IH]; cbn [stack_weight List.app]; [reflexivity|]. rewrite IH. lia.
Qed.

(** The loop
    [while stack: item = stack.pop(); if isinstance(item, list):
     stack.extend(reversed(item)) elif item is not None: flat_list.append(item)].
    The head of [stack] is the top of the Python stack, so that the
    initial [list(reversed(children))] is [children] itself and
    [stack.extend(reversed(item))] puts the items of [item] in front. *)
Equations? flatten_stack (stack flat_list : list value) : list value
  by wf (stack_weight stack) lt :=
  flatten_stack [] flat_list := flat_list;
  flatten_stack (VList l :: rest) flat_list := flatten_stack (l ++ rest)%list flat_list;
  flatten_stack (VNone :: rest) flat_list := flatten_stack rest flat_list;
  flatten_stack (item :: rest) flat_list := flatten_stack rest (flat_list ++ [item])%list.
Proof.
  all: try (cbn [stack_weight weight]; lia).
  change (stack_weight (l ++ rest) < S (stack_weight l + stack_weight rest))%nat.
  rewrite stack_weight_app. lia.
Qed.

(** ** Induction on parse trees *)

(** Induction on parse trees that reaches into the child nodes. *)
Fixpoint Node_nested_ind (P : Node -> Prop)
    (Hnode : forall expr_name expr text start children,
        Forall P children -> P (mkNode expr_name expr text start children))
    (n : Node) {struct n} : P n :=
  match n with
  | mkNode expr_name expr text start children =>
      Hnode expr_name expr text start children
        ((fix each (l : list Node) : Forall P l :=
            match l with
            | [] => Forall_nil P
            | x :: rest => Forall_cons x (Node_nested_ind P Hnode x) (each rest)
            end) children)
  end.

(** ** [validate] *)

Section Validate.

Variable number_of : string -> option value.
Variable matcher_message : exn -> string.

(** [validate(text)]: the pair [(True, 'success')] or [(False, message)]. *)
Definition validate (fuel : nat) (text : string) (config : grammar_config) : fueled (bool * value) :=
  result <~ _parse_internal number_of matcher_message fuel text config None ;;
  status <~ lift (py_getitem result "status") ;;
  if eq_str status "success" then ret (true, VStr "success")
  else
    message <~ lift (py_getitem result "message") ;;
    ret (false, message).

End Validate.

(** ** More specification predicates *)

(** A rule definition in which the transpiler meets a [literal] or a
    [regex]: the node itself, one of the parts of a [choice] or
    [sequence], or the body of a quantifier or lookahead. *)
Inductive has_text_match : value -> Prop :=
| text_match_here (d : dict) (k : string) :
    dict_has "subgrammar" d = false ->
    found_keys d = [k] ->
    k = "literal" \/ k = "regex" ->
    has_text_match (VDict d)
| text_match_in_part (d : dict) (k : string) (parts : list value) (part : value) :
    dict_has "subgrammar" d = false ->
    found_keys d = [k] ->
    k = "choice" \/ k = "sequence" ->
    dict_get k d = Some (VList parts) ->
    In part parts ->
    has_text_match part ->
    has_text_match (VDict d)
| text_match_in_body (d : dict) (k : string) (body : value) :
    dict_has "subgrammar" d = false ->
    found_keys d = [k] ->
    In k ["zero_or_more"; "one_or_more"; "optional"; "positive_lookahead"; "negative_lookahead"] ->
    dict_get k d = Some body ->
    has_text_match body ->
    has_text_match (VDict d).

(** The message of the [ValueError] for a [literal] or [regex] under a
    lexer. *)
Definition not_supported (k : string) : string :=
  "'" ++ k ++ "' is not supported when a lexer is defined. Use 'token' instead.".

(** A grammar whose only rule is a number leaf over a regex:
    [{start_rule: n, rules: {n: {regex: "x", ast: {type: number}}}}],
    with a matcher that answers every text with the leaf's node. *)
Definition number_leaf_grammar : dict :=
  [("start_rule", VStr "n");
   ("rules", VDict [("n", VDict [("regex", VStr "x");
                                 ("ast", VDict [("type", VStr "number")])])])].

Definition number_leaf_config : grammar_config :=
  mkConfig number_leaf_grammar false (StatefulLexer.mkLexer [] 8)
    (fun rule => Some (fun text => Ok (mkNode "n" Regex text 0 [])))
    "n".

(** A token grammar with a literal inside a sequence:
    [{lexer: {tokens: []}, rules: {main: {sequence: [{token: A}, {literal: "+"}]}}}]. *)
Definition literal_under_lexer : dict :=
  [("lexer", VDict [("tokens", VList [])]);
   ("rules", VDict [("main", VDict [("sequence",
       VList [VDict [("token", VStr "A")]; VDict [("literal", VStr "+")]])])])].

(** ** The unreachable-rules lint *)

(** Lists and dictionaries cannot be hashed, so they cannot enter a set. *)
Definition hashable (v : value) : bool :=
  match v with
  | VList _ | VDict _ => false
  | _ => true
  end.

(** The loops [for item in rule_def: refs.update(find(item))] and
    [for value in rule_def.values(): refs.update(find(value))]. *)
Definition references_of_items (find : value -> outcome (list value))
    : list value -> outcome (list value) :=
  fix each (items : list value) : outcome (list value) :=
    match items with
    | [] => Ok []
    | item :: rest =>
        found <- find item ;;
        others <- each rest ;;
        Ok (found ++ others)%list
    end.

Definition references_of_values (find : value -> outcome (list value))
    : dict -> outcome (list value) :=
  fix each (entries : dict) : outcome (list value) :=
    match entries with
    | [] => Ok []
    | (_, value) :: rest =>
        found <- find value ;;
        others <- each rest ;;
        Ok (found ++ others)%list
    end.

(** [find_references(rule_def)]: the references in the order in which
    the walk adds them to the set [refs].  Adding an unhashable
    reference raises [TypeError]. *)
Fixpoint find_references (rule_def : value) {struct rule_def} : outcome (list value) :=
  match rule_def with
  | VDict d =>
      own <- match dict_get "rule" d with
             | Some ref => if hashable ref then Ok [ref] else Raise TypeError
             | None => Ok []
             end ;;
      inner <- references_of_values find_references d ;;
      Ok (own ++ inner)%list
  | VList l => references_of_items find_references l
  | _ => Ok []
  end.

(** [ref in reachable] for a hashable [ref]: the set [reachable] holds
    strings only while the loop runs, and no other object equals a
    string. *)
Definition in_set (ref : value) (reachable : list string) : bool :=
  match ref with
  | VStr s => mem s reachable
  | _ => false
  end.

(** What a loop [for ref in references] may rely on, whatever the order of
    the set: it yields only objects that were added, every string that was
    added, and no more objects than were added. *)
Definition set_iteration (iteration : list value -> list value) : Prop :=
  forall added,
    (forall v, In v (iteration added) -> In v added) /\
    (forall s, In (VStr s) added -> In (VStr s) (iteration added)) /\
    (List.length (iteration added) <= List.length added)%nat.

Section Unreachable.

(** The order in which a set is iterated, given the order in which its
    elements were added. *)
Variable iteration : list value -> list value.

(** The loop [while queue: ...] of [_check_for_unreachable_rules], one
    unit of fuel per iteration.  [None] is the early [return] at a
    reference to a rule that does not exist, [Some reachable] the set
    with which the loop ends. *)
Fixpoint reach_loop (fuel : nat) (rules : dict) (queue : list value) (reachable : list string)
    : fueled (option (list string)) :=
  match queue with
  | [] => ret (Some reachable)
  | current_rule :: queue =>
      match fuel with
      | O => None
      | S fuel' =>
          match current_rule with
          | VList _ | VDict _ => lift (Raise TypeError)   (* unhashable *)
          | VStr name =>
              if mem name reachable then reach_loop fuel' rules queue reachable
              else
                let reachable := name :: reachable in
                match dict_get name rules with
                | None => ret None
                | Some rule_definition =>
                    references <~ lift (find_references rule_definition) ;;
                    reach_loop fuel' rules
                      (queue ++ filter (fun ref => negb (in_set ref reachable))
                                  (iteration references))%list
                      reachable
                end
          | _ => ret None   (* hashable, and no key of the rules *)
          end
      end
  end.

(** [grammar_dict.get('start_rule', 'start')] *)
Definition start_rule_of (grammar_dict : dict) : value :=
  match dict_get "start_rule" grammar_dict with
  | Some v => v
  | None => VStr "start"
  end.

(** The rules that the report names: [all_rules - reachable] without the
    names that contain a double underscore. *)
Definition unreachable_rules (rules : dict) (reachable : list string) : list string :=
  filter (fun rule => negb (mem rule reachable) && negb (contains "__" rule))
    (dedup (keys rules)).

(** [_check_for_unreachable_rules(grammar_dict, external_refs)] *)
Definition _check_for_unreachable_rules (fuel : nat) (grammar_dict : dict)
    (external_refs : value) : fueled unit :=
  let external_refs := if is_none external_refs then VList [] else external_refs in
  rules <~ lift (py_getitem (VDict grammar_dict) "rules") ;;
  match rules with
  | VDict rules =>
      match start_rule_of grammar_dict with
      | VList _ | VDict _ => lift (Raise TypeError)   (* unhashable *)
      | VStr start_rule =>
          if negb (mem start_rule (keys rules)) then ret tt
          else
            match external_refs with
            | VList refs =>
                r <~ reach_loop fuel rules (VStr start_rule :: refs) [] ;;
                match r with
                | None => ret tt
                | Some reachable =>
                    match unreachable_rules rules reachable with
                    | [] => ret tt
                    | unreachable =>
                        lift (Raise (ValueError
                          ("Unreachable rules detected: " ++ join ", " (sorted unreachable))))
                    end
                end
            | _ => lift (Raise TypeError)
            end
      | _ => ret tt
      end
  | _ => lift (Raise AttributeError)
  end.

(** The loop of [_lint_grammar] over [rules.items()]. *)
Fixpoint check_directives (items : dict) : outcome unit :=
  match items with
  | [] => Ok tt
  | (rule_name, rule_def) :: rest =>
      ast_config <- py_get rule_def "ast" (VDict []) ;;
      match ast_config with
      | VDict a =>
          let has_promote :=
            match dict_get "promote" a with Some v => v | None => VBool false end in
          let has_structure := dict_has "structure" a in
          let has_discard :=
            match dict_get "discard" a with Some v => v | None => VBool false end in
          if truthy has_promote && has_structure then
            Raise (ValueError ("In rule '" ++ rule_name
              ++ "': 'promote' and 'structure' directives are mutually exclusive."))
          else if truthy has_promote && truthy has_discard then
            Raise (ValueError ("In rule '" ++ rule_name
              ++ "': 'promote: true' is redundant when 'discard: true' is also present."))
          else check_directives rest
      | _ => check_directives rest
      end
  end.

(** [_lint_grammar(grammar_dict, external_refs)] *)
Definition _lint_grammar (fuel : nat) (grammar_dict : dict) (external_refs : value)
    : fueled unit :=
  _ <~ _check_for_unreachable_rules fuel grammar_dict
         (if truthy external_refs then external_refs else VList []) ;;
  _ <~ _check_for_always_empty_rules fuel grammar_dict ;;
  rules <~ lift (py_get (VDict grammar_dict) "rules" (VDict [])) ;;
  match rules with
  | VDict items => lift (check_directives items)
  | _ => lift (Raise AttributeError)
  end.

End Unreachable.

(** The objects that the breadth-first search can come to: the roots, and
    the references found in the definition of a rule it can come to. *)
Inductive reachable_from (rules : dict) (roots : list value) : value -> Prop :=
| reach_root (v : value) : In v roots -> reachable_from rules roots v
| reach_reference (name : string) (rule_definition : value) (references : list value)
    (ref : value) :
    reachable_from rules roots (VStr name) ->
    dict_get name rules = Some rule_definition ->
    find_references rule_definition = Ok references ->
    In ref references ->
    reachable_from rules roots ref.

(** The number of references that [find_references] finds in a
    definition, and in all the definitions of the rules. *)
Definition reference_count (rule_def : value) : nat :=
  match find_references rule_def with
  | Ok references => List.length references
  | Raise _ => O
  end.

Definition total_references (rules : dict) : nat :=
  list_sum (map (fun entry => reference_count (snd entry)) rules).

(** The references of the rules that are not yet in [reachable]. *)
Definition pending (rules : dict) (reachable : list string) : nat :=
  list_sum (map (fun entry => if mem (fst entry) reachable then O
                              else reference_count (snd entry)) rules).

(** The external references as [_check_for_unreachable_rules] reads them. *)
Definition external_list (external_refs : value) : list value :=
  match external_refs with
  | VList refs => refs
  | _ => []
  end.

(** Two rules, of which the start rule does not refer to the other. *)
Definition island_grammar : dict :=
  [("start_rule", VStr "a");
   ("rules", VDict [("a", VDict [("literal", VStr "x")]);
                    ("b", VDict [("literal", VStr "y")])])].

(** A start rule that refers to a rule that is not defined, beside a rule
    that nothing refers to. *)
Definition dangling_grammar : dict :=
  [("start_rule", VStr "a");
   ("rules", VDict [("a", VDict [("rule", VStr "missing")]);
                    ("b", VDict [("literal", VStr "y")])])].

(** A rule with both [promote] and [structure]. *)
Definition conflict_grammar : dict :=
  [("start_rule", VStr "a");
   ("rules", VDict [("a", VDict [("literal", VStr "x");
                                 ("ast", VDict [("promote", VBool true);
                                                ("structure", VStr "left_associative_op")])])])].

(** What the loop keeps between the queue and the set [reachable]:
    the set holds defined rules that the search can come to, the queue
    holds objects that it can come to, every root is in one of the two,
    and so is every name that a rule in the set refers to. *)
Definition reach_invariant (rules : dict) (roots : list value) (queue : list value)
    (reachable : list string) : Prop :=
  (forall s, In s reachable ->
     reachable_from rules roots (VStr s) /\ dict_has s rules = true) /\
  (forall v, In v queue -> reachable_from rules roots v) /\
  (forall v, In v roots -> In v queue \/ exists s, v = VStr s /\ In s reachable) /\
  (forall s rule_definition references t,
     In s reachable -> dict_get s rules = Some rule_definition ->
     find_references rule_definition = Ok references -> In (VStr t) references ->
     In (VStr t) queue \/ In t reachable).
(** ** The leaf and subgrammar lint *)

(** The helper [has_subgrammar_directive(node)] of
    [_lint_leaf_subgrammar_conflict]. *)
Fixpoint has_subgrammar_directive (node : value) {struct node} : bool :=
  match node with
  | VDict d =>
      dict_has "subgrammar" d ||
      (fix each (entries : dict) : bool :=
         match entries with
         | [] => false
         | (key, value) :: rest =>
             (negb (String.eqb key "ast") && has_subgrammar_directive value) || each rest
         end) d
  | VList l =>
      (fix each (items : list value) : bool :=
         match items with
         | [] => false
         | item :: rest => has_subgrammar_directive item || each rest
         end) l
  | _ => false
  end.

(** The loop of [_lint_leaf_subgrammar_conflict] over [rules.items()]. *)
Fixpoint leaf_conflicts (items : dict) : outcome unit :=
  match items with
  | [] => Ok tt
  | (rule_name, rule_def) :: rest =>
      ast_config <- py_get rule_def "ast" (VDict []) ;;
      match ast_config with
      | VDict a =>
          let is_leaf := match dict_get "leaf" a with Some v => v | None => VBool false end in
          if truthy is_leaf && has_subgrammar_directive rule_def then
            Raise (ValueError ("Rule '" ++ rule_name
              ++ "' is defined as a 'leaf' node but contains a 'subgrammar' directive. "
              ++ "These are mutually exclusive."))
          else leaf_conflicts rest
      | _ => leaf_conflicts rest
      end
  end.

(** [_lint_leaf_subgrammar_conflict(grammar_dict)] *)
Definition _lint_leaf_subgrammar_conflict (grammar_dict : dict) : outcome unit :=
  rules <- py_get (VDict grammar_dict) "rules" (VDict []) ;;
  match rules with
  | VDict items => leaf_conflicts items
  | _ => Raise AttributeError
  end.

(** [_get_subgrammar_dependencies(rules_to_scan)] on a grammar that is a
    tree, in which no list or dictionary occurs at two places: the set
    [visited_nodes] then never stops the walk. *)
Fixpoint _get_subgrammar_dependencies (node : value) {struct node} : list value :=
  match node with
  | VList l =>
      (fix each (items : list value) : list value :=
         match items with
         | [] => []
         | item :: rest => (_get_subgrammar_dependencies item ++ each rest)%list
         end) l
  | VDict d =>
      if dict_has "subgrammar" d then [node]
      else
        (fix each (entries : dict) : list value :=
           match entries with
           | [] => []
           | (key, value) :: rest =>
               ((if negb (String.eqb key "ast") then _get_subgrammar_dependencies value else [])
                ++ each rest)%list
           end) d
  | _ => []
  end.

(** A leaf rule over a regex. *)
Definition leaf_grammar : dict :=
  [("rules", VDict [("word", VDict [("regex", VStr "[a-z]+");
                                    ("ast", VDict [("leaf", VBool true)])])])].
(** ** 4. The state paths of the AST-to-string transpiler *)

(** [s.split(sep)] for a separator of one character *)
Fixpoint split (sep : ascii) (s : string) : list string :=
  match s with
  | EmptyString => [EmptyString]
  | String c rest =>
      if Ascii.eqb c sep then EmptyString :: split sep rest
      else match split sep rest with
           | first :: others => String c first :: others
           | [] => [String c EmptyString]
           end
  end.

Definition dot : ascii := Ascii.ascii_of_nat 46.

(** *** Dictionary objects

    The state of the transpiler is a dictionary that [_set_path] writes
    in place, and what [state_set] stores in it are the values of the
    transpiler configuration themselves, not copies: a dictionary that is
    stored under two paths, or stored twice, is one object, and it may
    come to hold itself.  Dictionaries are therefore kept in a store and
    are known by their address; what a dictionary holds under a key, and
    what a list holds, is a plain value or the address of a dictionary.
    The two methods never write into a list, so that lists need no
    address of their own. *)
Inductive stored : Type :=
| SNone
| SBool (b : bool)
| SInt (z : Z)
| SFloat (f : PrimFloat.float)
| SStr (s : string)
| SList (items : list stored)
| SRef (address : nat).

(** A dictionary object, its keys in insertion order. *)
Definition object : Type := list (string * stored).

(** The dictionaries that exist; the address of an object is its index. *)
Definition store : Type := list object.

Fixpoint field_get (k : string) (o : object) : option stored :=
  match o with
  | [] => None
  | (k', v) :: rest => if String.eqb k' k then Some v else field_get k rest
  end.

(** [o[k] = v]: an existing key keeps its place, a new key goes last. *)
Fixpoint field_set (k : string) (v : stored) (o : object) : object :=
  match o with
  | [] => [(k, v)]
  | (k', v') :: rest =>
      if String.eqb k' k then (k, v) :: rest else (k', v') :: field_set k v rest
  end.

(** The store with the object at address [a] replaced by [o]. *)
Fixpoint put (a : nat) (o : object) (h : store) : store :=
  match h, a with
  | [], _ => []
  | _ :: rest, O => o :: rest
  | first :: rest, S a' => first :: put a' o rest
  end.

(** [getitem(x, key)] for a string [key]: a dictionary gives what it
    holds under the key or raises [KeyError]; a list and a string take no
    string as index, and nothing else can be indexed.  An address without
    an object does not arise in a store of the program; it is treated as
    a value that cannot be indexed. *)
Definition getitem (h : store) (x : stored) (key : string) : outcome stored :=
  match x with
  | SRef a =>
      match nth_error h a with
      | Some o =>
          match field_get key o with
          | Some y => Ok y
          | None => Raise (KeyError key)
          end
      | None => Raise TypeError
      end
  | _ => Raise TypeError
  end.

(** [reduce(getitem, keys, x)] *)
Fixpoint reduce_getitem (h : store) (keys : list string) (x : stored) : outcome stored :=
  match keys with
  | [] => Ok x
  | key :: rest => y <- getitem h x key ;; reduce_getitem h rest y
  end.

(** [d.setdefault(key, {})]: a dictionary that has the key gives what it
    holds; in one that has not, a new empty dictionary is stored under
    the key and given; nothing but a dictionary has the method.  The
    empty dictionary that the call builds and drops when the key is there
    is not kept.  A new dictionary gets the next address of the store. *)
Definition setdefault (h : store) (d : stored) (key : string) : store * outcome stored :=
  match d with
  | SRef a =>
      match nth_error h a with
      | Some o =>
          match field_get key o with
          | Some y => (h, Ok y)
          | None =>
              let fresh := List.length h in
              ((put a (field_set key (SRef fresh) o) h ++ [[]])%list, Ok (SRef fresh))
          end
      | None => (h, Raise AttributeError)
      end
  | _ => (h, Raise AttributeError)
  end.

(** [d[key] = value] for a string [key]: only a dictionary takes it. *)
Definition setitem (h : store) (d : stored) (key : string) (v : stored)
    : store * outcome unit :=
  match d with
  | SRef a =>
      match nth_error h a with
      | Some o => (put a (field_set key v o) h, Ok tt)
      | None => (h, Raise TypeError)
      end
  | _ => (h, Raise TypeError)
  end.

Module Transpiler.

(** [_get_path(path)] with the state at the address [state]: [KeyError]
    and [TypeError] are caught and give [None]. *)
Definition _get_path (path : string) (h : store) (state : nat) : outcome stored :=
  match reduce_getitem h (split dot path) (SRef state) with
  | Ok v => Ok v
  | Raise (KeyError _) | Raise TypeError => Ok SNone
  | Raise e => Raise e
  end.

(** The loop of [_set_path]: [d = d.setdefault(key, {})] for every key
    of [keys]. *)
Fixpoint descend (h : store) (d : stored) (keys : list string) : store * outcome stored :=
  match keys with
  | [] => (h, Ok d)
  | key :: rest =>
      match setdefault h d key with
      | (h', Ok d') => descend h' d' rest
      | (h', Raise e) => (h', Raise e)
      end
  end.

(** [_set_path(path, value)]: the loop over [keys[:-1]], then
    [d[keys[-1]] = value].  The result is the store after the call and
    what the call ends in. *)
Definition _set_path (path : string) (v : stored) (h : store) (state : nat)
    : store * outcome unit :=
  let keys := split dot path in
  match descend h (SRef state) (removelast keys) with
  | (h', Ok d) => setitem h' d (last keys EmptyString) v
  | (h', Raise e) => (h', Raise e)
  end.

End Transpiler.

(** What [_get_path] makes of a lookup. *)
Definition or_none (r : outcome stored) : stored :=
  match r with
  | Ok v => v
  | Raise _ => SNone
  end.

(** The entries, each a dictionary and a key, at which the lookup of
    [keys] from [x] looks, in order. *)
Fixpoint steps (h : store) (keys : list string) (x : stored) : list (nat * string) :=
  match keys with
  | [] => []
  | key :: rest =>
      match x with
      | SRef a =>
          (a, key) :: match getitem h x key with
                      | Ok y => steps h rest y
                      | Raise _ => []
                      end
      | _ => []
      end
  end.

(** The entries under which the loop of [_set_path] stores a new
    dictionary. *)
Fixpoint created (h : store) (d : stored) (keys : list string) : list (nat * string) :=
  match keys with
  | [] => []
  | key :: rest =>
      match d, setdefault h d key with
      | SRef a, (h', Ok d') =>
          (match getitem h d key with
           | Ok _ => []
           | Raise _ => [(a, key)]
           end ++ created h' d' rest)%list
      | _, _ => []
      end
  end.

(** The entries that [_set_path(path, value)] assigns: those of the new
    dictionaries, and the entry of the last key in the dictionary that
    the path leads to. *)
Definition assigned (path : string) (h : store) (state : nat) : list (nat * string) :=
  let keys := split dot path in
  (created h (SRef state) (removelast keys) ++
   match Transpiler.descend h (SRef state) (removelast keys) with
   | (_, Ok (SRef a)) => [(a, last keys EmptyString)]
   | _ => []
   end)%list.

(** Two lookups of one entry agree: they give the same, or both raise. *)
Definition same_lookup (r r' : outcome stored) : Prop :=
  r = r' \/ ((exists e, r = Raise e) /\ (exists e', r' = Raise e')).

(** Two stores agree on every entry that is not in [written]. *)
Definition agree_off (written : list (nat * string)) (h h' : store) : Prop :=
  forall a k, ~ In (a, k) written -> same_lookup (getitem h (SRef a) k) (getitem h' (SRef a) k).

(** Every entry of [h] is in [h'] with what it holds. *)
Definition extends (h h' : store) : Prop :=
  forall x k y, getitem h x k = Ok y -> getitem h' x k = Ok y.

(** The state [{p: {x: D}, q: D}] with one dictionary [D] of the
    configuration stored under two paths: the state is at address 0, [D]
    at address 1 and the dictionary under [p] at address 2. *)
Definition shared_store : store :=
  [[("p", SRef 2); ("q", SRef 1)]; []; [("x", SRef 1)]].

(** [isinstance(x, dict)] *)
Definition is_dictionary (x : stored) : bool :=
  match x with
  | SRef _ => true
  | _ => false
  end.

(** [_set_path(path, value)] and then [k], on the store alone. *)
Definition then_set (path : string) (v : stored) (state : nat)
    (k : store -> store * outcome unit) (h : store) : store * outcome unit :=
  match Transpiler._set_path path v h state with
  | (h', Ok _) => k h'
  | (h', Raise e) => (h', Raise e)
  end.

(** ** Grammar normalisation *)

(** The keys of the set [rule_keys] of [is_inline_def_with_ast]. *)
Definition inline_rule_keys : list string :=
  ["literal"; "regex"; "choice"; "sequence"; "zero_or_more"; "one_or_more"; "optional";
   "positive_lookahead"; "negative_lookahead"; "token"].

(** [list(ast.keys()) == ['name']] *)
Definition only_name (ast : dict) : bool :=
  match keys ast with
  | [key] => String.eqb key "name"
  | _ => false
  end.

(** [is_inline_def_with_ast(d)]; only dictionaries have [keys]. *)
Definition is_inline_def_with_ast (d : value) : outcome bool :=
  match d with
  | VDict entries =>
      match dict_get "ast" entries with
      | None => Ok false
      | Some (VDict ast) =>
          if only_name ast then Ok false
          else if dict_has "rule" entries then Ok false
          else Ok (existsb (fun key => dict_has key entries) inline_rule_keys)
      | Some _ => Raise AttributeError
      end
  | _ => Ok false
  end.

(** What the walker changes: the counter, the rules of the grammar, and
    (for the loop around it) the names under which it has stored a rule. *)
Record walk_state : Type := mkWalk {
  ws_counter : Z;
  ws_rules : dict;
  ws_assigned : list string
}.

(** The four statements that move an inline definition into a rule of
    its own.  The result is the reference that takes its place. *)
Definition hoist (item : value) (base_name : string) (st : walk_state)
    : outcome (value * walk_state) :=
  match item with
  | VDict entries =>
      let counter := ws_counter st + 1 in
      let new_rule_name := base_name ++ "__" ++ str_of_Z counter in
      ast_config <- py_getitem item "ast" ;;
      let item := VDict (dict_del "ast" entries) in
      Ok (VDict [("rule", VStr new_rule_name)],
          mkWalk counter
            (dict_set new_rule_name
               (VDict [("ast", ast_config); ("sequence", VList [item])]) (ws_rules st))
            (new_rule_name :: ws_assigned st))
  | _ => Raise AttributeError
  end.

(** [key in ['ast', 'transpile']] *)
Definition skipped (key : string) : bool :=
  String.eqb key "ast" || String.eqb key "transpile".

(** The list branch of [walker]: every item is moved or walked. *)
Definition walk_items (walk : value -> walk_state -> outcome (value * walk_state))
    (base_name : string) : list value -> walk_state -> outcome (list value * walk_state) :=
  fix each (items : list value) (st : walk_state) : outcome (list value * walk_state) :=
    match items with
    | [] => Ok ([], st)
    | item :: rest =>
        inline <- is_inline_def_with_ast item ;;
        r1 <- (if inline then hoist item base_name st else walk item st) ;;
        r2 <- each rest (snd r1) ;;
        Ok (fst r1 :: fst r2, snd r2)
    end.

(** The dictionary branch of [walker]: the values under [ast] and
    [transpile] stay, every other value is moved or walked. *)
Definition walk_entries (walk : value -> walk_state -> outcome (value * walk_state))
    (base_name : string) : dict -> walk_state -> outcome (dict * walk_state) :=
  fix each (entries : dict) (st : walk_state) : outcome (dict * walk_state) :=
    match entries with
    | [] => Ok ([], st)
    | (key, value) :: rest =>
        if skipped key then
          r2 <- each rest st ;;
          Ok ((key, value) :: fst r2, snd r2)
        else
          inline <- is_inline_def_with_ast value ;;
          r1 <- (if inline then hoist value base_name st else walk value st) ;;
          r2 <- each rest (snd r1) ;;
          Ok ((key, fst r1) :: fst r2, snd r2)
    end.

(** [walker(node, base_name, counter)]; the result is [node] after the
    walk. *)
Fixpoint walker (base_name : string) (node : value) (st : walk_state) {struct node}
    : outcome (value * walk_state) :=
  match node with
  | VList l =>
      r <- walk_items (walker base_name) base_name l st ;;
      Ok (VList (fst r), snd r)
  | VDict d =>
      r <- walk_entries (walker base_name) base_name d st ;;
      Ok (VDict (fst r), snd r)
  | _ => Ok (node, st)
  end.

(** The loop [for name, rule_def in rules_to_process.items()].  The walk
    changes [rule_def] in place, and with it the rule of that name,
    unless an earlier walk of this loop has stored another rule under
    the name. *)
Fixpoint process_rules (rules_to_process : dict) (rules : dict)
    (processed_rules assigned : list string) : outcome (dict * list string * list string) :=
  match rules_to_process with
  | [] => Ok (rules, processed_rules, assigned)
  | (name, rule_def) :: rest =>
      r <- walker name rule_def (mkWalk 0 rules assigned) ;;
      let rules := if mem name assigned then ws_rules (snd r)
                   else dict_set name (fst r) (ws_rules (snd r)) in
      process_rules rest rules (name :: processed_rules) (ws_assigned (snd r))
  end.

(** The loop [while True] of [_normalize_grammar], one unit of fuel per
    iteration. *)
Fixpoint normalize_loop (fuel : nat) (rules_map : dict) (processed_rules : list string)
    : fueled dict :=
  let rules_to_process :=
    filter (fun entry => negb (mem (fst entry) processed_rules)) rules_map in
  match rules_to_process with
  | [] => ret rules_map
  | _ =>
      match fuel with
      | O => None
      | S fuel' =>
          r <~ lift (process_rules rules_to_process rules_map processed_rules []) ;;
          normalize_loop fuel' (fst (fst r)) (snd (fst r))
      end
  end.

(** [_normalize_grammar(grammar_dict)]; the copy through JSON changes no
    value of the model. *)
Definition _normalize_grammar (fuel : nat) (grammar_dict : dict) : fueled dict :=
  match dict_get "rules" grammar_dict with
  | None => ret grammar_dict
  | Some (VDict rules) =>
      rules <~ normalize_loop fuel rules [] ;;
      ret (dict_set "rules" (VDict rules) grammar_dict)
  | Some _ => lift (Raise AttributeError)
  end.

(** No definition that the walker would move is left in [node]: at every
    place that the walker looks at, [is_inline_def_with_ast] is false. *)
Definition not_inline (v : value) : bool :=
  match is_inline_def_with_ast v with
  | Ok false => true
  | _ => false
  end.

Fixpoint normalized (node : value) {struct node} : bool :=
  match node with
  | VList l => forallb (fun item => not_inline item && normalized item) l
  | VDict d =>
      forallb (fun entry => skipped (fst entry)
                            || (not_inline (snd entry) && normalized (snd entry))) d
  | _ => true
  end.

(** A rule with an inline definition:
    [{sequence: [{regex: "[0-9]+", ast: {tag: number, leaf: true}}, {rule: rest}]}]. *)
Definition inline_rule : value :=
  VDict [("sequence",
          VList [VDict [("regex", VStr "[0-9]+");
                        ("ast", VDict [("tag", VStr "number"); ("leaf", VBool true)])];
                 VDict [("rule", VStr "rest")]])].

(** A grammar without an inline definition that has an [ast] block of
    its own; the reference with a [name] is none. *)
Definition settled_grammar : dict :=
  [("start_rule", VStr "a");
   ("rules", VDict [("a", VDict [("sequence", VList [VDict [("rule", VStr "b")];
                                                     VDict [("rule", VStr "b");
                                                            ("ast", VDict [("name", VStr "x")])]])]);
                    ("b", VDict [("regex", VStr "[0-9]+");
                                 ("ast", VDict [("leaf", VBool true)])])])].

(** The name [f"{base_name}__{k}"] of the [k]-th rule that a walk with
    the base name [base_name] stores. *)
Definition hoisted_name (base_name : string) (k : Z) : string :=
  base_name ++ "__" ++ str_of_Z k.

(** The shape of a rule that the walker stores: the [ast] block of the
    inline definition, over a sequence of the definition without it. *)
Definition hoisted_rule (rule_def : value) : Prop :=
  exists ast_config item,
    rule_def = VDict [("ast", ast_config); ("sequence", VList [VDict item])] /\
    dict_has "ast" item = false.

(** What a walk with the base name [base_name] does to the counter and
    to the rules: the counter does not go down, the rules under other
    names than those of the counter values passed stay, and under each
    of those names a hoisted rule is stored. *)
Definition walk_effect (base_name : string) (st st' : walk_state) : Prop :=
  ws_counter st <= ws_counter st' /\
  (forall name,
     (forall k, ws_counter st < k <= ws_counter st' -> name <> hoisted_name base_name k) ->
     dict_get name (ws_rules st') = dict_get name (ws_rules st)) /\
  (forall k, ws_counter st < k <= ws_counter st' ->
     exists rule_def,
       dict_get (hoisted_name base_name k) (ws_rules st') = Some rule_def /\
       hoisted_rule rule_def).

(** [is_inline_def_with_ast] returns [True]. *)
Definition hoistable (v : value) : bool :=
  match is_inline_def_with_ast v with
  | Ok true => true
  | _ => false
  end.

(** How deep the definitions that the walker moves are nested in a node:
    the number of passes of the loop of [_normalize_grammar] that the
    node gives work to. *)
Fixpoint nesting (node : value) {struct node} : nat :=
  match node with
  | VList l =>
      list_max (map (fun item => ((if hoistable item then 1 else 0) + nesting item)%nat) l)
  | VDict d =>
      list_max (map (fun entry =>
                       if skipped (fst entry) then O
                       else ((if hoistable (snd entry) then 1 else 0)
                             + nesting (snd entry))%nat) d)
  | _ => O
  end.

(** The deepest nesting in the rules of a grammar. *)
Definition max_nesting (rules : dict) : nat :=
  list_max (map (fun entry => nesting (snd entry)) rules).

(** ** The token cursor of the visitor *)

(** The tokens of a visitor, none when it was made without. *)
Definition tokens_of (self : AstBuilderVisitor) : list Token :=
  match tokens self with
  | Some ts => ts
  | None => []
  end.

(** The nodes of a parse tree that [generic_visit] builds from a token:
    those whose rule name is a token type, when there are tokens. *)
Fixpoint token_nodes (self : AstBuilderVisitor) (node : Node) {struct node} : nat :=
  match node with
  | mkNode name _ _ _ kids =>
      ((if has_tokens self && mem name (token_rule_names self) then 1 else 0)
       + list_sum (map (token_nodes self) kids))%nat
  end.

(** The cursor [token_idx] after [count] token nodes, over [n] tokens. *)
Definition advance (n count token_idx : nat) : nat :=
  Nat.max token_idx (Nat.min (token_idx + count) n).

(** ['_' in s] *)
Fixpoint has_underscore (s : string) : bool :=
  match s with
  | EmptyString => false
  | String c rest => Ascii.eqb c "_" || has_underscore rest
  end.

(** What the loop of [_normalize_grammar] keeps between its passes, on a
    grammar whose rule names hold no double underscore: the names are
    distinct, the processed names are names of rules, the rules of the
    processed names are normalized, and a rule named [X__k] exists only
    when [X] is processed. *)
Definition pass_invariant (rules : dict) (processed_rules : list string) : Prop :=
  NoDup (keys rules) /\
  (forall name, In name processed_rules -> dict_has name rules = true) /\
  (forall name rule_def,
     dict_get name rules = Some rule_def -> In name processed_rules ->
     normalized rule_def = true) /\
  (forall base_name k,
     dict_has (hoisted_name base_name k) rules = true -> In base_name processed_rules).

(** What one pass keeps between its walks: the rules that are still to
    be walked are rules of the grammar that are not processed, and no
    walk of the pass has stored a rule under one of their names. *)
Definition walk_invariant (rules_to_process rules : dict)
    (processed_rules assigned : list string) : Prop :=
  pass_invariant rules processed_rules /\
  NoDup (keys rules_to_process) /\
  (forall name rule_def, In (name, rule_def) rules_to_process ->
     ~ In name processed_rules /\ dict_get name rules = Some rule_def) /\
  (forall name, In name assigned -> ~ In name (keys rules_to_process)).

(** Two levels of inline definitions:
    [{rules: {a: {sequence: [{optional: {regex: "x", ast: {leaf: true}},
                              ast: {tag: opt}}]}}}]. *)
Definition nested_grammar : dict :=
  [("rules",
    VDict [("a", VDict [("sequence",
              VList [VDict [("optional", VDict [("regex", VStr "x");
                                                ("ast", VDict [("leaf", VBool true)])]);
                            ("ast", VDict [("tag", VStr "opt")])]])])])].


(** A visitor over the two tokens of ["a b"] and the parse tree of the
    rule [pair: {sequence: [{token: NAME}, {token: NAME}]}] on them. *)
Definition pair_grammar : dict :=
  [("start_rule", VStr "pair");
   ("lexer", VDict [("tokens", VList [VDict [("regex", VStr "[a-z]+"); ("token", VStr "NAME")]])]);
   ("rules", VDict [("pair", VDict [("sequence", VList [VDict [("token", VStr "NAME")];
                                                        VDict [("token", VStr "NAME")]])])])].

Definition pair_visitor : AstBuilderVisitor :=
  mkVisitor pair_grammar
    [("pair", VDict [("sequence", VList [VDict [("token", VStr "NAME")];
                                         VDict [("token", VStr "NAME")]])])]
    "a b"
    (Some [mkToken (Some "NAME") "a" 1 1; mkToken (Some "NAME") "b" 1 3])
    ["NAME"; "INDENT"; "DEDENT"].

Definition pair_tree : Node :=
  mkNode "pair" Sequence "NAME NAME" 0
    [mkNode "NAME" Regex "NAME " 0 []; mkNode "NAME" Regex "NAME" 5 []].


(** ** The order of the tokens *)

(** The token [a] stands before the position [(line, col)]: on an
    earlier line, or on that line in an earlier column. *)
Definition before_position (line col : Z) (a : Token) : Prop :=
  tok_line a < line \/ (tok_line a = line /\ tok_col a < col).

(** The token [a] stands before the token [b]. *)
Definition stands_before (a b : Token) : Prop :=
  before_position (tok_line b) (tok_col b) a.

(** [re.compile("[ ]+").match(text, pos)] *)
Definition re_spaces : regex := fun text pos =>
  match span (Ascii.eqb space) (drop_str pos text) with
  | O => None
  | n => Some n
  end.

(** A lexer for words between blanks:
    [{tokens: [{regex: "[a-z]+", token: NAME}, {regex: "[ ]+", action: skip}]}]. *)
Definition word_lexer : StatefulLexer.t :=
  StatefulLexer.mkLexer
    [mkSpec re_identifier None (Some "NAME"); mkSpec re_spaces (Some "skip") None] 8.

(** * Properties *)

(** ** Position finder *)

Module LineColumnFinderFacts.
Import LineColumnFinder.

Lemma scan_above (text : string) : forall i s, In s (scan i text) -> i < s.
Proof.
  induction text as [|c rest IH]; intros i s Hin; simpl in Hin.
  - contradiction.
  - destruct (Ascii.eqb c newline).
    + destruct Hin as [<- | Hin]; [lia | apply IH in Hin; lia].
    + apply IH in Hin. lia.
Qed.

Lemma scan_sorted (text : string) : forall i, StronglySorted Z.lt (scan i text).
Proof.
  induction text as [|c rest IH]; intros i; simpl.
  - constructor.
  - destruct (Ascii.eqb c newline); [|apply IH].
    constructor; [apply IH|].
    apply Forall_forall. intros s Hs. now apply scan_above in Hs.
Qed.

Lemma line_starts_sorted (text : string) : StronglySorted Z.lt (line_starts text).
Proof.
  unfold line_starts. constructor; [apply scan_sorted|].
  apply Forall_forall. intros s Hs. now apply scan_above in Hs.
Qed.

Lemma sorted_nth (a : list Z) :
  StronglySorted Z.lt a ->
  forall i j, (i < j)%nat -> (j < List.length a)%nat -> nth i a 0 < nth j a 0.
Proof.
  induction 1 as [|x a Hs IH Hall]; intros i j Hij Hj; simpl in Hj.
  - lia.
  - destruct j as [|j]; [lia|]. destruct i as [|i]; simpl.
    + rewrite Forall_forall in Hall. apply Hall, nth_In. lia.
    + apply IH; lia.
Qed.

(** The binary search keeps its window invariant: everything left of the
    answer is at most [x], everything from the answer on is above [x]. *)
Lemma bisect_loop_spec (a : list Z) (x : Z) (lo hi : nat) :
  (forall i j, (i < j)%nat -> (j < List.length a)%nat -> nth i a 0 < nth j a 0) ->
  (lo <= hi)%nat -> (hi <= List.length a)%nat ->
  (forall j, (j < lo)%nat -> nth j a 0 <= x) ->
  (forall j, (hi <= j)%nat -> (j < List.length a)%nat -> x < nth j a 0) ->
  let r := bisect_loop a x lo hi in
  (lo <= r <= hi)%nat /\
  (forall j, (j < r)%nat -> nth j a 0 <= x) /\
  (forall j, (r <= j)%nat -> (j < List.length a)%nat -> x < nth j a 0).
Proof.
  intros Hasc. funelim (bisect_loop a x lo hi); intros Hle Hhi Hlow Hhigh.
  - pose proof (midpoint_bounds lo hi l) as Hmid.
    destruct (x <? nth (midpoint lo hi) a 0) eqn:Hcmp.
    + apply Z.ltb_lt in Hcmp.
      destruct (H Hasc) as (Hr & Hl & Hh); try lia; auto.
      * intros j Hj Hlen.
        destruct (Nat.eq_dec j (midpoint lo hi)) as [-> | Hne]; [exact Hcmp|].
        specialize (Hasc (midpoint lo hi) j). lia.
      * repeat split; try lia; auto.
    + apply Z.ltb_ge in Hcmp.
      destruct (H0 Hasc) as (Hr & Hl & Hh); try lia; auto.
      * intros j Hj.
        destruct (Nat.eq_dec j (midpoint lo hi)) as [-> | Hne]; [exact Hcmp|].
        specialize (Hasc j (midpoint lo hi)). lia.
      * repeat split; try lia; auto.
  - repeat split; try lia; auto.
    intros j Hj Hlen. apply Hhigh; lia.
Qed.

Lemma clamp_spec (text : string) (offset : Z) :
  clamp text offset = Z.max 0 (Z.min offset (str_len text)).
Proof.
  unfold clamp, str_len.
  destruct (offset <? 0) eqn:H1; [apply Z.ltb_lt in H1 | apply Z.ltb_ge in H1];
    match goal with |- context [?a >? ?b] => destruct (a >? b) eqn:H2 end;
    rewrite ?Z.gtb_ltb in H2;
    [apply Z.ltb_lt in H2 | apply Z.ltb_ge in H2 | apply Z.ltb_lt in H2 | apply Z.ltb_ge in H2];
    lia.
Qed.

(** [find] always returns: the line of the greatest line start at most the
    clamped offset, and the 1-based column from that start. *)
Lemma find_spec (text : string) (offset : Z) :
  let c := Z.max 0 (Z.min offset (str_len text)) in
  exists line start,
    find text offset = Ok (line, c - start + 1) /\
    1 <= line /\
    nth_error (line_starts text) (Z.to_nat (line - 1)) = Some start /\
    start <= c /\
    (forall s, In s (line_starts text) -> s <= c -> s <= start).
Proof.
  intros c.
  pose proof (line_starts_sorted text) as Hsorted.
  pose proof (sorted_nth _ Hsorted) as Hasc.
  set (a := line_starts text) in *.
  assert (Hc : 0 <= c) by (subst c; lia).
  destruct (bisect_loop_spec a c 0 (List.length a) Hasc)
    as (Hr & Hlow & Hhigh); try lia.
  fold (bisect_right a c) in *.
  set (r := bisect_right a c) in *.
  assert (Hpos : (1 <= r)%nat).
  { destruct r as [|r']; [|lia].
    specialize (Hhigh 0%nat). subst a. unfold line_starts in Hhigh.
    simpl in Hhigh. lia. }
  assert (Hidx : Z.to_nat (Z.of_nat r - 1) = (r - 1)%nat) by lia.
  destruct (nth_error a (r - 1)) as [start|] eqn:Hnth.
  2:{ apply nth_error_None in Hnth. lia. }
  exists (Z.of_nat r), start.
  assert (Hstart : nth (r - 1) a 0 = start) by (now apply nth_error_nth).
  repeat split.
  - unfold find.
    rewrite clamp_spec. fold c. fold a. fold r.
    unfold py_index.
    replace (Z.of_nat r - 1 <? 0) with false by (symmetry; apply Z.ltb_ge; lia).
    replace (Z.of_nat r - 1 <? 0) with false by (symmetry; apply Z.ltb_ge; lia).
    rewrite Hidx, Hnth. reflexivity.
  - lia.
  - rewrite Hidx. exact Hnth.
  - rewrite <- Hstart. apply Hlow. lia.
  - intros s Hin Hs.
    apply In_nth with (d := 0) in Hin. destruct Hin as (j & Hj & <-).
    destruct (Nat.lt_ge_cases j r) as [Hlt | Hge].
    + rewrite <- Hstart.
      destruct (Nat.eq_dec j (r - 1)) as [-> | Hne]; [lia|].
      specialize (Hasc j (r - 1)%nat). lia.
    + specialize (Hhigh j Hge Hj). lia.
Qed.

End LineColumnFinderFacts.

(** C9. For every text and every integer offset, [find] clamps the
    offset into [0, len(text)] and returns the 1-based pair
    [(line, column)]: [line] indexes the greatest line start that is at
    most the clamped offset, and [column] is the clamped offset minus
    that line start plus one. *)
Theorem find_clamps_and_locates (text : string) (offset : Z) :
  let c := Z.max 0 (Z.min offset (str_len text)) in
  exists line start,
    LineColumnFinder.find text offset = Ok (line, c - start + 1) /\
    1 <= line /\
    nth_error (LineColumnFinder.line_starts text) (Z.to_nat (line - 1)) = Some start /\
    start <= c /\
    (forall s, In s (LineColumnFinder.line_starts text) -> s <= c -> s <= start).
Proof.
  exact (LineColumnFinderFacts.find_spec text offset).
Qed.

(** ** Lexer *)

Module StatefulLexerFacts.
Import StatefulLexer.

Lemma selected_step (text : string) (pos : nat) (seen : list compiled_spec)
    (spec : compiled_spec) (best : option candidate) :
  selected text pos seen best ->
  selected text pos (seen ++ [spec])
    (match spec_regex spec text pos with
     | Some n =>
         let value := slice text pos n in
         let c := mkCand value (pos + n) (spec_action spec) (spec_token spec) in
         match best with
         | None => Some c
         | Some b => if str_len value >? str_len (cand_value b) then Some c else best
         end
     | None => best
     end).
Proof.
  intros Hbest.
  assert (Hlast : nth_error (seen ++ [spec]) (List.length seen) = Some spec).
  { rewrite nth_error_app2 by lia. now rewrite Nat.sub_diag. }
  assert (Hcases : forall j spec', nth_error (seen ++ [spec]) j = Some spec' ->
            (j < List.length seen)%nat /\ nth_error seen j = Some spec' \/
            j = List.length seen /\ spec' = spec).
  { intros j spec' Hj. destruct (Nat.lt_ge_cases j (List.length seen)) as [Hlt | Hge].
    - left. split; [exact Hlt|]. now rewrite nth_error_app1 in Hj.
    - right. rewrite nth_error_app2 in Hj by exact Hge.
      destruct (j - List.length seen)%nat as [|k] eqn:Hk; simpl in Hj.
      + split; [lia | congruence].
      + destruct k; discriminate. }
  destruct (spec_regex spec text pos) as [n|] eqn:Hre.
  - destruct best as [b|]; cbv zeta.
    + destruct Hbest as (i & sb & nb & Hi & Hsb & -> & Hmax). simpl cand_value.
      assert (Hilt : (i < List.length seen)%nat) by (apply nth_error_Some; congruence).
      destruct (str_len (slice text pos n) >? str_len (slice text pos nb)) eqn:Hcmp.
      * rewrite Z.gtb_ltb in Hcmp. apply Z.ltb_lt in Hcmp.
        exists (List.length seen), spec, n. repeat split; auto.
        -- destruct (Hcases _ _ H) as [[Hj Hj'] | [-> ->]].
           ++ specialize (Hmax _ _ _ Hj' H0). lia.
           ++ rewrite Hre in H0. injection H0 as <-. lia.
        -- intros Heq. destruct (Hcases _ _ H) as [[Hj Hj'] | [-> ->]]; [|lia].
           specialize (Hmax _ _ _ Hj' H0). lia.
      * rewrite Z.gtb_ltb in Hcmp. apply Z.ltb_ge in Hcmp.
        exists i, sb, nb. repeat split; auto.
        -- now rewrite nth_error_app1.
        -- destruct (Hcases _ _ H) as [[Hj Hj'] | [-> ->]].
           ++ now apply (Hmax _ _ _ Hj' H0).
           ++ rewrite Hre in H0. injection H0 as <-. exact Hcmp.
        -- intros Heq. destruct (Hcases _ _ H) as [[Hj Hj'] | [-> ->]]; [|lia].
           now apply (Hmax _ _ _ Hj' H0).
    + exists (List.length seen), spec, n. repeat split; auto.
      * destruct (Hcases _ _ H) as [[Hj Hj'] | [-> ->]].
        -- apply nth_error_In in Hj'. rewrite (Hbest _ Hj') in H0. discriminate.
        -- rewrite Hre in H0. injection H0 as <-. lia.
      * intros _. destruct (Hcases _ _ H) as [[Hj Hj'] | [-> ->]]; [|lia].
        apply nth_error_In in Hj'. rewrite (Hbest _ Hj') in H0. discriminate.
  - destruct best as [b|].
    + destruct Hbest as (i & sb & nb & Hi & Hsb & -> & Hmax).
      assert (Hilt : (i < List.length seen)%nat) by (apply nth_error_Some; congruence).
      exists i, sb, nb. repeat split; auto.
      * now rewrite nth_error_app1.
      * destruct (Hcases _ _ H) as [[Hj Hj'] | [-> ->]].
        -- now apply (Hmax _ _ _ Hj' H0).
        -- congruence.
      * intros Heq. destruct (Hcases _ _ H) as [[Hj Hj'] | [-> ->]]; [|lia].
        now apply (Hmax _ _ _ Hj' H0).
    + intros s Hin. apply in_app_or in Hin. destruct Hin as [Hin | [<- | []]]; auto.
Qed.

Lemma select_from_selected (text : string) (pos : nat) (rest : list compiled_spec) :
  forall seen best,
    selected text pos seen best ->
    selected text pos (seen ++ rest) (select_from rest text pos best).
Proof.
  induction rest as [|spec rest IH]; intros seen best Hbest; simpl.
  - now rewrite app_nil_r.
  - replace (seen ++ spec :: rest)%list with ((seen ++ [spec]) ++ rest)%list
      by (now rewrite <- app_assoc).
    apply IH. now apply selected_step.
Qed.

End StatefulLexerFacts.

(** C4. At every position the lexer tries every token spec's regex
    anchored there and keeps the longest match; among matches of equal
    length the spec declared first is kept. *)
Theorem select_longest_then_earliest (lx : StatefulLexer.t) (text : string) (pos : nat) :
  selected text pos (StatefulLexer.compiled_specs lx)
    (StatefulLexer.select (StatefulLexer.compiled_specs lx) text pos).
Proof.
  unfold StatefulLexer.select.
  apply (StatefulLexerFacts.select_from_selected text pos (StatefulLexer.compiled_specs lx) [] None).
  intros spec [].
Qed.

Module IndentFacts.
Import StatefulLexer.

Lemma pop_dedents_run (indent_level line : Z) (popped : list Z) :
  forall w rest tokens,
    Forall (fun p => indent_level < p) popped ->
    w <= indent_level ->
    pop_dedents indent_level line (popped ++ w :: rest) tokens =
    Ok (w :: rest, (tokens ++ repeat (DEDENT line) (List.length popped))%list).
Proof.
  induction popped as [|p popped IH]; intros w rest tokens Hall Hw; simpl.
  - replace (indent_level <? w) with false by (symmetry; apply Z.ltb_ge; lia).
    now rewrite app_nil_r.
  - inversion Hall as [|? ? Hp Hall']; subst.
    replace (indent_level <? p) with true by (symmetry; apply Z.ltb_lt; lia).
    rewrite IH by assumption. now rewrite <- app_assoc.
Qed.

Lemma final_dedents_run (line_num : Z) (stack : list Z) :
  forall tokens,
    final_dedents line_num stack tokens =
    (tokens ++ repeat (DEDENT line_num) (List.length stack - 1))%list.
Proof.
  induction stack as [|w stack IH]; intros tokens.
  - simpl. now rewrite app_nil_r.
  - destruct stack as [|w' stack].
    + simpl. now rewrite app_nil_r.
    + change (final_dedents line_num (w :: w' :: stack) tokens)
        with (final_dedents line_num (w' :: stack) (tokens ++ [DEDENT line_num])%list).
      rewrite IH. simpl. rewrite Nat.sub_0_r, <- app_assoc. reflexivity.
Qed.

(** More fuel never changes an answer. *)
Lemma loop_more_fuel (lx : t) (text : string) (fuel : nat) :
  forall st r k, loop fuel lx text st = Some r -> loop (fuel + k) lx text st = Some r.
Proof.
  induction fuel as [|fuel IH]; intros st r k H.
  - simpl in H. destruct (st_pos st <? String.length text)%nat eqn:Hpos; [discriminate|].
    destruct k; simpl; now rewrite Hpos.
  - simpl in *. destruct (st_pos st <? String.length text)%nat; [|exact H].
    destruct (step lx text st); [now apply IH | exact H].
Qed.

Lemma tokenize_more_fuel (lx : t) (text : string) (fuel k : nat) (r : outcome (list Token)) :
  tokenize fuel lx text = Some r -> tokenize (fuel + k) lx text = Some r.
Proof.
  unfold tokenize. intros H.
  destruct (loop fuel lx (expandtabs (tab_width lx) text) init) as [o|] eqn:Hloop;
    [|discriminate].
  now rewrite (loop_more_fuel _ _ _ _ _ k Hloop).
Qed.

End IndentFacts.

(** C5. The indent stack starts as [[0]].  On a [handle_indent] match of
    width [len(value) - 1]: a width above the top is pushed and one INDENT
    is emitted; a width below the top pops, with one DEDENT per popped
    level, down to the first level that is not above the width, and the
    match fails with an indentation error when that level differs from the
    width.  At the end of input one DEDENT is emitted for every level still
    above the bottom of the stack.  On the text ["a\n  b\n  c\n"] the
    tokens are [a], INDENT, [b], [c], DEDENT. *)
Theorem indent_stack_discipline :
  StatefulLexer.st_stack StatefulLexer.init = [0] /\
  (forall value line_num w rest tokens,
     w < str_len value - 1 ->
     StatefulLexer.handle_indent value line_num (w :: rest) tokens =
     Ok (str_len value - 1 :: w :: rest,
         (tokens ++ [StatefulLexer.INDENT (line_num + 1)])%list)) /\
  (forall value line_num popped w rest tokens,
     Forall (fun p => str_len value - 1 < p) popped ->
     w = str_len value - 1 ->
     StatefulLexer.handle_indent value line_num (popped ++ w :: rest) tokens =
     Ok (w :: rest,
         (tokens ++ repeat (StatefulLexer.DEDENT (line_num + 1)) (List.length popped))%list)) /\
  (forall value line_num p popped w rest tokens,
     Forall (fun p => str_len value - 1 < p) (p :: popped) ->
     w < str_len value - 1 ->
     StatefulLexer.handle_indent value line_num (p :: popped ++ w :: rest) tokens =
     Raise (IndentationError ("Indentation error at L" ++ str_of_Z (line_num + 1)))) /\
  (forall fuel lx text st,
     StatefulLexer.loop fuel lx (expandtabs (StatefulLexer.tab_width lx) text)
       StatefulLexer.init = Some (Ok st) ->
     StatefulLexer.handles_indentation lx = true ->
     StatefulLexer.tokenize fuel lx text =
     Some (Ok (StatefulLexer.st_tokens st ++
               repeat (StatefulLexer.DEDENT (StatefulLexer.st_line_num st))
                 (List.length (StatefulLexer.st_stack st) - 1))%list)) /\
  (forall k,
     StatefulLexer.tokenize (6 + k) indent_lexer indent_text =
     Some (Ok [mkToken (Some "NAME") "a" 1 1;
               StatefulLexer.INDENT 2;
               mkToken (Some "NAME") "b" 2 3;
               mkToken (Some "NAME") "c" 3 3;
               StatefulLexer.DEDENT 4])).
Proof.
  split; [reflexivity|].
  split.
  { intros value line_num w rest tokens Hw.
    unfold StatefulLexer.handle_indent, StatefulLexer.push_indent.
    remember (str_len value - 1) as lvl. simpl.
    rewrite (proj2 (Z.gtb_gt lvl w)) by lia. simpl.
    rewrite Z.ltb_irrefl. simpl. now rewrite Z.eqb_refl. }
  split.
  { intros value line_num popped w rest tokens Hall ->.
    unfold StatefulLexer.handle_indent, StatefulLexer.push_indent.
    remember (str_len value - 1) as lvl.
    destruct popped as [|p popped].
    - simpl. rewrite Z.gtb_ltb, Z.ltb_irrefl. simpl.
      rewrite Z.ltb_irrefl. simpl. rewrite Z.eqb_refl. simpl. now rewrite app_nil_r.
    - inversion Hall as [|? ? Hp Hall' Heq]; clear Heq. simpl StatefulLexer.top. simpl bind at 1.
      rewrite Z.gtb_ltb, (proj2 (Z.ltb_ge p lvl)) by lia.
      simpl bind at 1. cbn [fst snd].
      change (p :: popped ++ lvl :: rest)%list with ((p :: popped) ++ lvl :: rest)%list.
      rewrite IndentFacts.pop_dedents_run by (assumption || lia).
      simpl. rewrite ?(proj2 (Z.ltb_lt lvl p)) by lia. simpl.
      rewrite Z.eqb_refl. simpl. now rewrite <- ?app_assoc. }
  split.
  { intros value line_num p popped w rest tokens Hall Hw.
    unfold StatefulLexer.handle_indent, StatefulLexer.push_indent.
    remember (str_len value - 1) as lvl.
    inversion Hall as [|? ? Hp Hall' Heq]; clear Heq. simpl StatefulLexer.top. simpl bind at 1.
    rewrite Z.gtb_ltb, (proj2 (Z.ltb_ge p lvl)) by lia.
    simpl bind at 1. cbn [fst snd].
    change (p :: popped ++ w :: rest)%list with ((p :: popped) ++ w :: rest)%list.
    rewrite IndentFacts.pop_dedents_run by (assumption || lia).
    simpl. rewrite ?(proj2 (Z.ltb_lt lvl p)) by lia. simpl.
    rewrite (proj2 (Z.eqb_neq lvl w)) by lia. reflexivity. }
  split.
  { intros fuel lx text st Hloop Hind. unfold StatefulLexer.tokenize.
    rewrite Hloop, Hind, IndentFacts.final_dedents_run. reflexivity. }
  intros k. apply IndentFacts.tokenize_more_fuel. vm_compute. reflexivity.
Qed.

(** ** Grammar-to-string transpiler *)

Lemma with_entry_get {A : Type} (k : string) (f : value -> A) (default : A) (d : dict) :
  with_entry k f default d =
  match dict_get k d with
  | Some v => f v
  | None => default
  end.
Proof.
  induction d as [|[k' v] d IH]; simpl; [reflexivity|].
  destruct (String.eqb k' k); [reflexivity | exact IH].
Qed.

Lemma just_a_name (a : dict) :
  (len (keys a) =? 1) && mem "name" (keys a) = true <-> keys a = ["name"].
Proof.
  unfold len. split.
  - intros H. apply andb_true_iff in H. destruct H as [Hlen Hmem].
    apply Z.eqb_eq in Hlen.
    destruct (keys a) as [|k [|k' ks]]; simpl in Hlen; try lia.
    unfold mem in Hmem. cbn [existsb] in Hmem. rewrite orb_false_r in Hmem.
    apply String.eqb_eq in Hmem. now subst.
  - intros ->. reflexivity.
Qed.

(** C6 (as amended). A rule reference [{rule: X}] is rendered as [X]
    when the node has no [ast] block or an [ast] block whose only key is
    [name]; with any other [ast] block, the empty one included, it is
    rendered as [(X ("")?)]. *)
Theorem transpile_rule_reference (d : dict) (X : string) (is_token_grammar : bool) :
  dict_has "subgrammar" d = false ->
  found_keys d = ["rule"] ->
  dict_get "rule" d = Some (VStr X) ->
  (dict_get "ast" d = None -> transpile_rule (VDict d) is_token_grammar = Ok X) /\
  (forall a, dict_get "ast" d = Some (VDict a) -> keys a = ["name"] ->
     transpile_rule (VDict d) is_token_grammar = Ok X) /\
  (forall a, dict_get "ast" d = Some (VDict a) -> keys a <> ["name"] ->
     transpile_rule (VDict d) is_token_grammar = Ok (guarded_reference X)).
Proof.
  intros Hsub Hkeys Hrule.
  assert (Hgo : transpile_rule (VDict d) is_token_grammar = transpile_reference d X).
  { simpl. rewrite Hsub, Hkeys, with_entry_get, Hrule. reflexivity. }
  rewrite Hgo. unfold transpile_reference.
  assert (Hhas : forall v, dict_get "ast" d = Some v -> dict_has "ast" d = true).
  { intros v. clear. induction d as [|[k w] d IH]; simpl; [discriminate|].
    destruct (String.eqb k "ast"); [reflexivity | exact IH]. }
  assert (Hnot : dict_get "ast" d = None -> dict_has "ast" d = false).
  { clear. induction d as [|[k w] d IH]; simpl; [reflexivity|].
    destruct (String.eqb k "ast"); [discriminate | exact IH]. }
  repeat split.
  - intros Hast. rewrite Hast. simpl. now rewrite (Hnot Hast).
  - intros a Hast Ha. rewrite Hast. simpl.
    rewrite (proj2 (just_a_name a) Ha), andb_false_r. reflexivity.
  - intros a Hast Ha. rewrite Hast. simpl. rewrite (Hhas _ Hast).
    destruct ((len (keys a) =? 1) && mem "name" (keys a)) eqn:Hjust.
    + apply just_a_name in Hjust. contradiction.
    + reflexivity.
Qed.

(** The amended C6 on [{rule: X, ast: {tag: t}}], [{rule: X, ast: {name: n}}]
    and [{rule: X}]. *)
Lemma transpile_rule_reference_witness :
  transpile_rule (VDict [("rule", VStr "X")]) false = Ok "X" /\
  transpile_rule (VDict [("rule", VStr "X"); ("ast", VDict [("name", VStr "n")])]) false = Ok "X" /\
  transpile_rule (VDict [("rule", VStr "X"); ("ast", VDict [("tag", VStr "t")])]) false =
    Ok (guarded_reference "X").
Proof.
  split; [|split].
  - apply (transpile_rule_reference [("rule", VStr "X")] "X" false); reflexivity.
  - apply (transpile_rule_reference
             [("rule", VStr "X"); ("ast", VDict [("name", VStr "n")])] "X" false
             eq_refl eq_refl eq_refl) with (a := [("name", VStr "n")]); reflexivity.
  - apply (transpile_rule_reference
             [("rule", VStr "X"); ("ast", VDict [("tag", VStr "t")])] "X" false
             eq_refl eq_refl eq_refl) with (a := [("tag", VStr "t")]);
      [reflexivity | discriminate].
Defined.

(** C6 as stated fails: with an [ast] block that has a key other than
    [name] the output is [(X ("")?)], not [(X (""))?]; and with an empty
    [ast] block, which has no key other than [name], the output is not [X]. *)
Lemma transpile_rule_reference_counterexample :
  transpile_rule (VDict [("rule", VStr "X"); ("ast", VDict [("tag", VStr "t")])]) false
    <> Ok ("(X (" ++ dquote ++ dquote ++ "))?") /\
  transpile_rule (VDict [("rule", VStr "X"); ("ast", VDict [])]) false <> Ok "X".
Proof.
  split; vm_compute; discriminate.
Qed.

Lemma traverse_raise {A B : Type} (f : A -> outcome B) (l : list A) (x : A) :
  In x l -> (exists e, f x = Raise e) -> exists e, traverse f l = Raise e.
Proof.
  induction l as [|a l IH]; intros Hin Hx; [contradiction|].
  simpl. destruct (f a) as [b|e] eqn:Hfa; simpl; [|now exists e].
  destruct Hin as [-> | Hin].
  - destruct Hx as [e He]. congruence.
  - destruct (IH Hin Hx) as [e He]. rewrite He. simpl. now exists e.
Qed.

Lemma dict_get_has (k : string) (d : dict) (v : value) :
  dict_get k d = Some v -> dict_has k d = true.
Proof.
  induction d as [|[k' w] d IH]; simpl; [discriminate|].
  destruct (String.eqb k' k); [reflexivity | exact IH].
Qed.

Lemma dict_get_none_has (k : string) (d : dict) :
  dict_get k d = None -> dict_has k d = false.
Proof.
  induction d as [|[k' w] d IH]; simpl; [reflexivity|].
  destruct (String.eqb k' k); [discriminate | exact IH].
Qed.

Lemma dict_get_In (k : string) (d : dict) (v : value) :
  dict_get k d = Some v -> In (k, v) d.
Proof.
  induction d as [|[k' w] d IH]; cbn [dict_get]; [discriminate|].
  destruct (String.eqb k' k) eqn:Heq.
  - apply String.eqb_eq in Heq. subst. intros [= ->]. now left.
  - intros H. right. now apply IH.
Qed.

Lemma dict_has_get_none (k : string) (d : dict) :
  dict_has k d = false -> dict_get k d = None.
Proof.
  intros H. destruct (dict_get k d) as [v|] eqn:Hget; [|reflexivity].
  apply dict_get_has in Hget. congruence.
Qed.

Lemma dict_has_In (k : string) (d : dict) : dict_has k d = true <-> In k (keys d).
Proof.
  unfold dict_has, keys. rewrite existsb_exists. split.
  - intros ([k' v] & Hin & Heq). apply String.eqb_eq in Heq. simpl in Heq. subst.
    now apply (in_map fst) in Hin.
  - intros Hin. apply in_map_iff in Hin. destruct Hin as (e & <- & Hin).
    exists e. split; [exact Hin | apply String.eqb_refl].
Qed.

Lemma mem_In (k : string) (l : list string) : mem k l = true <-> In k l.
Proof.
  unfold mem. rewrite existsb_exists. split.
  - intros (x & Hin & Heq). apply String.eqb_eq in Heq. now subst.
  - intros Hin. exists k. split; [exact Hin | apply String.eqb_refl].
Qed.

(** With a single grammar key [k], no other grammar key is present. *)
Lemma single_key_others (d : dict) (k k' : string) :
  found_keys d = [k] -> mem k' rule_keys = true -> k' <> k -> dict_has k' d = false.
Proof.
  intros Hkeys Hmem Hne. destruct (dict_has k' d) eqn:Hhas; [|reflexivity].
  apply dict_has_In in Hhas.
  assert (Hin : In k' (found_keys d)).
  { unfold found_keys. apply filter_In. split; assumption. }
  rewrite Hkeys in Hin. destruct Hin as [-> | []]. contradiction.
Qed.

Lemma single_key_present (d : dict) (k : string) : found_keys d = [k] -> dict_has k d = true.
Proof.
  intros Hkeys. apply dict_has_In.
  assert (Hin : In k (found_keys d)) by (rewrite Hkeys; now left).
  unfold found_keys in Hin. now apply filter_In in Hin.
Qed.

Lemma transpile_rule_empty_choice (v : value) (is_token_grammar : bool) :
  has_empty_choice v -> exists e, transpile_rule v is_token_grammar = Raise e.
Proof.
  induction 1 as [d Hsub Hkeys Hget
                 | d k parts part Hsub Hkeys Hk Hget Hin Hpart IH
                 | d k body Hsub Hkeys Hk Hget Hbody IH].
  - simpl. rewrite Hsub, Hkeys, with_entry_get, Hget. simpl. eauto.
  - simpl. rewrite Hsub, Hkeys, with_entry_get, Hget.
    destruct (traverse_raise (fun p => transpile_rule p is_token_grammar) parts part Hin IH)
      as [e He].
    destruct parts as [|p ps]; [contradiction|].
    destruct Hk as [-> | ->]; cbn -[traverse]; rewrite He; cbn; eauto.
  - simpl. rewrite Hsub, Hkeys, with_entry_get, Hget.
    destruct IH as [e He].
    simpl in Hk.
    destruct Hk as [<- | [<- | [<- | [<- | [<- | []]]]]]; simpl; rewrite He; simpl; eauto.
Qed.

Lemma traverse_typed {A : Type} (f : A -> outcome string) (l : list A) :
  Forall (fun x => text_or_value_error (f x)) l ->
  (exists ss, traverse f l = Ok ss) \/ (exists msg, traverse f l = Raise (ValueError msg)).
Proof.
  induction 1 as [|x l Hx Hl IH]; cbn [traverse]; [left; eauto|].
  destruct Hx as [[s ->] | [msg ->]]; cbn [bind]; [|right; eauto].
  destruct IH as [[ss ->] | [msg ->]]; cbn [bind]; [left | right]; eauto.
Qed.

(** On a grammar that follows the schema, the transpiler returns PEG text
    or raises [ValueError], nothing else. *)
Lemma typed_transpiles (is_token_grammar : bool) (v : value) :
  schema_typed v = true -> text_or_value_error (transpile_rule v is_token_grammar).
Proof.
  enough (Hboth : (schema_typed v = true ->
                   text_or_value_error (transpile_rule v is_token_grammar)) /\
                  match v with
                  | VList l =>
                      Forall (fun x => schema_typed x = true ->
                                       text_or_value_error (transpile_rule x is_token_grammar)) l
                  | _ => True
                  end) by apply Hboth.
  induction v as [| | | | |l IH|d IH] using value_nested_ind;
    (split; [|try exact I]); try (intros _; right; cbn; eauto; fail).
  { apply Forall_forall. intros x Hx. rewrite Forall_forall in IH. now apply IH. }
  intros Htyped. cbn [schema_typed] in Htyped. rewrite forallb_forall in Htyped.
  rewrite Forall_forall in IH.
  cbn [transpile_rule].
  destruct (dict_has "subgrammar" d); [left; eauto|].
  destruct (found_keys d) as [|k [|k' ks]] eqn:Hkeys; try (right; eauto; fail).
  rewrite with_entry_get.
  pose proof (single_key_present d k Hkeys) as Hhas.
  destruct (dict_get k d) as [x|] eqn:Hget;
    [|apply dict_get_none_has in Hget; congruence].
  apply dict_get_In in Hget.
  pose proof Htyped as Hall.
  specialize (Htyped _ Hget). specialize (IH _ Hget). cbn [snd] in IH.
  destruct IH as [IHx IHl].
  assert (Hmem : In k rule_keys).
  { assert (Hin : In k (found_keys d)) by (rewrite Hkeys; now left).
    unfold found_keys in Hin. apply filter_In in Hin. now apply mem_In. }
  assert (Hinner : forall op_text : string -> string,
            schema_typed x = true ->
            text_or_value_error
              (inner <- transpile_rule x is_token_grammar ;; Ok (op_text inner))).
  { intros op_text Hx. destruct (IHx Hx) as [[s ->] | [msg ->]]; cbn [bind];
      [left | right]; eauto. }
  assert (Hparts : forall k0, k0 = "choice" \/ k0 = "sequence" ->
            match x with VList l => forallb schema_typed l | _ => false end = true ->
            text_or_value_error
              (if negb (truthy x) then
                 if String.eqb k0 "sequence" then Ok no_op
                 else Raise (ValueError "Choice cannot be empty")
               else
                 parts <-
                   match x with
                   | VList l => traverse (fun part => transpile_rule part is_token_grammar) l
                   | VStr _ | VDict _ => Raise (ValueError "Rule definition must be a dictionary")
                   | _ => Raise TypeError
                   end ;;
                 let joiner := if String.eqb k0 "choice" then " / " else " " in
                 let joined_parts := join joiner parts in
                 if String.eqb k0 "sequence" && (len parts =? 1)
                 then Ok ("(" ++ joined_parts ++ " " ++ no_op ++ ")")
                 else Ok ("(" ++ joined_parts ++ ")"))).
  { intros k0 Hk0 Hx. destruct x as [| | | | |l|]; try discriminate.
    destruct (truthy (VList l)); cbn [negb].
    - rewrite forallb_forall in Hx.
      destruct (traverse_typed (fun part => transpile_rule part is_token_grammar) l)
        as [[ss ->] | [msg ->]]; cbn [bind].
      + apply Forall_forall. intros y Hy. rewrite Forall_forall in IHl. auto.
      + cbv zeta. destruct (_ && _); left; eauto.
      + right; eauto.
    - destruct (String.eqb k0 "sequence"); [left | right]; eauto. }
  cbn [rule_keys In] in Hmem.
  destruct Hmem as [<- | [<- | [<- | [<- | [<- | [<- | [<- | [<- | [<- | [<- | [<- | []]]]]]]]]]]];
    cbn -[transpile_rule traverse truthy no_op] in Htyped |- *.
  - destruct x; try discriminate. destruct is_token_grammar; cbn; [right | left]; eauto.
  - destruct x; try discriminate. destruct is_token_grammar; cbn; [right | left]; eauto.
  - destruct x; try discriminate. cbn [as_str bind]. unfold transpile_reference.
    destruct (dict_get "ast" d) as [a|] eqn:Hast.
    + apply dict_get_In in Hast. specialize (Hall _ Hast). cbn in Hall.
      destruct a; try discriminate. cbn [bind]. destruct (_ && _); left; eauto.
    + cbn [bind]. destruct (_ && _); left; eauto.
  - now apply (Hparts "choice"); [left|].
  - now apply (Hparts "sequence"); [right|].
  - now apply (Hinner (fun inner => "(" ++ inner ++ ")" ++ "*")).
  - now apply (Hinner (fun inner => "(" ++ inner ++ ")" ++ "+")).
  - now apply (Hinner (fun inner => "(" ++ inner ++ ")" ++ "?")).
  - destruct x; try discriminate. left. cbn [as_str]. eauto.
  - now apply (Hinner (fun inner => "&" ++ "(" ++ inner ++ ")")).
  - now apply (Hinner (fun inner => "!" ++ "(" ++ inner ++ ")")).
Qed.

(** X30. An empty [choice] that the transpiler meets is rejected: the
    node [{choice: []}] raises the [ValueError] "Choice cannot be empty";
    any rule definition in which the transpiler meets such a node raises,
    and so does [transpile_grammar] on any grammar with such a rule, so
    that no PEG text is produced; on a grammar that follows the schema the
    exception is a [ValueError]. *)
Theorem empty_choice_rejected :
  (forall d is_token_grammar,
     dict_has "subgrammar" d = false ->
     found_keys d = ["choice"] ->
     dict_get "choice" d = Some (VList []) ->
     transpile_rule (VDict d) is_token_grammar = Raise (ValueError "Choice cannot be empty")) /\
  (forall v is_token_grammar,
     has_empty_choice v ->
     (exists e, transpile_rule v is_token_grammar = Raise e) /\
     (schema_typed v = true ->
      exists msg, transpile_rule v is_token_grammar = Raise (ValueError msg))) /\
  (forall grammar_dict rules name body,
     dict_get "rules" grammar_dict = Some (VDict rules) ->
     In (name, body) rules ->
     has_empty_choice body ->
     (exists e, transpile_grammar grammar_dict = Raise e) /\
     (forallb (fun entry => schema_typed (snd entry)) rules = true ->
      exists msg, transpile_grammar grammar_dict = Raise (ValueError msg))) /\
  transpile_grammar empty_choice_grammar = Raise (ValueError "Choice cannot be empty").
Proof.
  split; [|split; [|split]].
  - intros d tok Hsub Hkeys Hget.
    cbn [transpile_rule]. rewrite Hsub, Hkeys, with_entry_get, Hget. reflexivity.
  - intros v tok Hv.
    destruct (transpile_rule_empty_choice v tok Hv) as [e He].
    split; [eauto|]. intros Htyped.
    destruct (typed_transpiles tok v Htyped) as [[s Hs] | [msg Hmsg]]; [congruence | eauto].
  - intros g rules name body Hrules Hin Hbody.
    unfold transpile_grammar. rewrite (dict_get_has _ _ _ Hrules), Hrules.
    cbv zeta. cbn [negb bind].
    set (line := fun entry : string * value =>
                   rhs <- transpile_rule (snd entry) (dict_has "lexer" g) ;;
                   Ok (fst entry ++ " = " ++ rhs)).
    destruct (traverse_raise line rules (name, body) Hin) as [e He].
    { destruct (transpile_rule_empty_choice body (dict_has "lexer" g) Hbody) as [e He].
      exists e. unfold line. cbn [snd]. now rewrite He. }
    rewrite He. cbn [bind]. split; [eauto|].
    intros Htyped. rewrite forallb_forall in Htyped.
    destruct (traverse_typed line rules) as [[ss Hss] | [msg Hmsg]].
    + apply Forall_forall. intros entry Hentry. unfold line.
      destruct (typed_transpiles (dict_has "lexer" g) (snd entry) (Htyped _ Hentry))
        as [[s ->] | [msg ->]]; cbn [bind]; [left | right]; eauto.
    + congruence.
    + exists msg. congruence.
  - reflexivity.
Qed.

(** C8, of which the code falls short.  The grammar
    [{start_rule: a, rules: {a: {sequence: [{literal: "x", ast: {tag: lit}}]},
                             a__1: {choice: []}}}]
    has a rule that is an empty [choice], and the transpiler rejects it as
    it stands.  Grammar construction normalises it first, and the
    normaliser stores the rule it hoists out of [a] under the name [a__1],
    where the user's rule is: the empty [choice] is gone, the lint passes
    and the transpiler returns the PEG text that is compiled. *)
Theorem empty_choice_overwritten :
  has_empty_choice (VDict [("choice", VList [])]) /\
  transpile_grammar overwritten_grammar = Raise (ValueError "Choice cannot be empty") /\
  _normalize_grammar 3 overwritten_grammar = Some (Ok overwritten_normalized) /\
  _lint_grammar (fun refs => refs) 5 overwritten_normalized (VList [VStr "a"]) = Some (Ok tt) /\
  transpile_grammar overwritten_normalized =
    Ok ("a = (a__1 " ++ no_op ++ ")" ++ newline_str ++
        "a__1 = (" ++ dquote ++ "x" ++ dquote ++ " " ++ no_op ++ ")").
Proof.
  split; [now apply empty_choice_here|].
  repeat (split; [vm_compute; reflexivity|]). vm_compute. reflexivity.
Qed.

(** ** Always-empty lint *)

Lemma lookahead_def_always_empty (grammar_dict : dict)
    (is_rule : value -> memo -> fueled (bool * memo)) (d : dict) (m : memo) :
  found_keys d = ["positive_lookahead"] \/ found_keys d = ["negative_lookahead"] ->
  dict_get "ast" d = None ->
  _is_def_always_empty grammar_dict is_rule (VDict d) m = ret (true, m).
Proof.
  intros Hkeys Hast.
  assert (Hothers : dict_has "rule" d = false /\ dict_has "token" d = false /\
                    dict_has "literal" d = false /\ dict_has "regex" d = false).
  { destruct Hkeys as [Hk | Hk];
      repeat split; apply (single_key_others d _ _ Hk); (reflexivity || discriminate). }
  destruct Hothers as (Hrule & Htoken & Hlit & Hre).
  assert (Hla : dict_has "positive_lookahead" d || dict_has "negative_lookahead" d = true).
  { destruct Hkeys as [Hk | Hk]; rewrite (single_key_present d _ Hk);
      [reflexivity | apply orb_true_r]. }
  cbn [_is_def_always_empty]. unfold py_get at 1. rewrite Hast.
  cbn [lift fbind py_get dict_get truthy py_in dict_has existsb].
  rewrite Hrule.
  destruct (dict_get "lexer" grammar_dict) as [lexer|];
    rewrite Htoken, andb_false_r, Hlit, Hre; cbn [orb truthy]; rewrite Hla; reflexivity.
Qed.

Lemma all_lookaheads_empty (grammar_dict : dict)
    (is_rule : value -> memo -> fueled (bool * memo)) (parts : list value) (m : memo) :
  Forall plain_lookahead parts ->
  any_named parts = Ok false /\
  all_with (_is_def_always_empty grammar_dict is_rule) parts m = ret (true, m).
Proof.
  induction 1 as [|part parts (d & -> & Hkeys & Hast) Hall [IHnamed IHall]]; [now split|].
  split.
  - cbn [any_named is_dict]. unfold py_get; rewrite Hast. cbn [bind py_in dict_has existsb].
    exact IHnamed.
  - cbn [all_with]. rewrite lookahead_def_always_empty by assumption.
    cbn [ret fbind fst snd]. exact IHall.
Qed.

Lemma lookahead_sequence_rule_empty (fuel : nat) (grammar_dict rules body : dict)
    (name : string) (parts : list value) (m : memo) :
  dict_get "rules" grammar_dict = Some (VDict rules) ->
  dict_get name rules = Some (VDict body) ->
  found_keys body = ["sequence"] ->
  dict_get "ast" body = None ->
  dict_get "sequence" body = Some (VList parts) ->
  Forall plain_lookahead parts ->
  memo_get name m = None ->
  _is_rule_always_empty (S fuel) grammar_dict (VStr name) m =
  ret (true, memo_set name true (memo_set name false m)).
Proof.
  intros Hrules Hname Hkeys Hast Hseq Hparts Hmemo.
  assert (Hothers : dict_has "rule" body = false /\ dict_has "token" body = false /\
                    dict_has "literal" body = false /\ dict_has "regex" body = false /\
                    dict_has "positive_lookahead" body = false /\
                    dict_has "negative_lookahead" body = false /\
                    dict_has "choice" body = false).
  { repeat split; apply (single_key_others body _ _ Hkeys); (reflexivity || discriminate). }
  destruct Hothers as (Hrule & Htoken & Hlit & Hre & Hpos & Hneg & Hchoice).
  destruct (all_lookaheads_empty grammar_dict (_is_rule_always_empty fuel grammar_dict)
              parts (memo_set name false m) Hparts) as [Hnamed Hall].
  cbn [_is_rule_always_empty]. rewrite Hmemo.
  unfold py_getitem at 1. rewrite Hrules. cbn [lift fbind py_in].
  rewrite (dict_get_has _ _ _ Hname). cbn [negb].
  unfold py_getitem. rewrite Hname. cbn [lift fbind].
  cbn [_is_def_always_empty]. unfold py_get at 1. rewrite Hast.
  cbn [lift fbind py_get dict_get truthy py_in dict_has existsb].
  rewrite Hrule.
  destruct (dict_get "lexer" grammar_dict) as [lexer|];
    rewrite Htoken, andb_false_r, Hlit, Hre; cbn [orb truthy]; rewrite Hpos, Hneg, Hchoice;
    cbn [orb]; rewrite (single_key_present _ _ Hkeys), with_entry_get, Hseq, Hnamed;
    cbn [lift fbind]; rewrite Hall; reflexivity.
Qed.

Lemma memo_get_set_same (k : string) (b : bool) (m : memo) :
  memo_get k (memo_set k b m) = Some b.
Proof.
  induction m as [|[k' b'] m IH]; cbn [memo_set memo_get].
  - now rewrite String.eqb_refl.
  - destruct (String.eqb k' k) eqn:Heq; cbn [memo_get].
    + now rewrite String.eqb_refl.
    + now rewrite Heq.
Qed.

Lemma memo_get_set_other (k k' : string) (b : bool) (m : memo) :
  k' <> k -> memo_get k (memo_set k' b m) = memo_get k m.
Proof.
  intros Hne. induction m as [|[k0 b0] m IH]; cbn [memo_set memo_get].
  - now rewrite (proj2 (String.eqb_neq k' k) Hne).
  - destruct (String.eqb k0 k') eqn:Heq; cbn [memo_get].
    + apply String.eqb_eq in Heq. subst k0.
      now rewrite (proj2 (String.eqb_neq k' k) Hne).
    + now rewrite IH.
Qed.

Lemma fbind_lift {A B : Type} (m : outcome A) (k : A -> fueled B) :
  fbind (lift m) k = match m with Ok a => k a | Raise e => Some (Raise e) end.
Proof. now destruct m. Qed.

Section LookaheadRule.

(** A grammar with a rule [name] whose body is a sequence of lookaheads. *)
Variables (grammar_dict rules body : dict) (name : string) (parts : list value).
Hypothesis Hrules : dict_get "rules" grammar_dict = Some (VDict rules).
Hypothesis Hname : dict_get name rules = Some (VDict body).
Hypothesis Hkeys : found_keys body = ["sequence"].
Hypothesis Hast : dict_get "ast" body = None.
Hypothesis Hseq : dict_get "sequence" body = Some (VList parts).
Hypothesis Hparts : Forall plain_lookahead parts.

Lemma all_with_keeps (f : value -> memo -> fueled (bool * memo)) (l : list value) :
  Forall (keeps_memo name f) l ->
  forall m res m', never_cleared name m -> all_with f l m = Some (Ok (res, m')) -> never_cleared name m'.
Proof.
  induction 1 as [|x l Hx Hl IH]; intros m res m' Hm H; cbn [all_with] in H.
  - injection H as <- <-. exact Hm.
  - destruct (f x m) as [[[r m1]|e]|] eqn:Hfx; cbn [fbind] in H; try discriminate.
    specialize (Hx _ _ _ Hm Hfx). cbn [fst snd] in H. destruct r.
    + now apply (IH _ _ _ Hx H).
    + injection H as <- <-. exact Hx.
Qed.

Lemma def_keeps (is_rule : value -> memo -> fueled (bool * memo)) :
  (forall r, keeps_memo name is_rule r) ->
  forall rule_def, keeps_memo name (_is_def_always_empty grammar_dict is_rule) rule_def.
Proof.
  intros Hrule rule_def.
  enough (Hboth : keeps_memo name (_is_def_always_empty grammar_dict is_rule) rule_def /\
                  match rule_def with
                  | VList l => Forall (keeps_memo name (_is_def_always_empty grammar_dict is_rule)) l
                  | _ => True
                  end) by apply Hboth.
  induction rule_def as [| | | | |l IH|d IH] using value_nested_ind;
    (split; [|try exact I]);
    try (intros m res m' Hm H; cbn [_is_def_always_empty] in H;
         injection H as <- <-; exact Hm).
  { apply Forall_forall. intros x Hx. rewrite Forall_forall in IH. now apply IH. }
  intros m res m' Hm H; cbn [_is_def_always_empty] in H.
  rewrite Forall_forall in IH.
  assert (Hsub : forall k v, dict_get k d = Some v ->
            keeps_memo name (_is_def_always_empty grammar_dict is_rule) v).
  { intros k v Hget. apply (IH (k, v)). now apply dict_get_In. }
  assert (Hall : forall k l, dict_get k d = Some (VList l) ->
            Forall (keeps_memo name (_is_def_always_empty grammar_dict is_rule)) l).
  { intros k l Hget. apply (IH (k, VList l)). now apply dict_get_In. }
  rewrite ?fbind_lift in H.
  destruct (py_get (VDict d) "ast" (VDict [])) as [ast_config|]; [|discriminate].
  rewrite ?fbind_lift in H.
  destruct (py_get ast_config "discard" VNone) as [discard|]; [|discriminate].
  destruct (truthy discard); [injection H as <- <-; exact Hm|].
  rewrite ?fbind_lift in H.
  destruct (py_in "structure" ast_config) as [[|]|]; try discriminate;
    [injection H as <- <-; exact Hm|].
  destruct (dict_has "rule" d).
  { rewrite with_entry_get in H. destruct (dict_get "rule" d) as [r|].
    - now apply (Hrule r m res m').
    - injection H as <- <-. exact Hm. }
  rewrite ?fbind_lift in H.
  destruct (py_get (VDict grammar_dict) "lexer" VNone) as [lexer|]; [|discriminate].
  destruct (truthy lexer && dict_has "token" d).
  { rewrite ?fbind_lift in H.
    destruct (py_getitem (VDict d) "token") as [token_type|]; [|discriminate].
    rewrite ?fbind_lift in H.
    destruct (py_get lexer "tokens" (VList [])) as [tokens|]; [|discriminate].
    rewrite ?fbind_lift in H.
    destruct (py_iter tokens) as [specs|]; [|discriminate].
    rewrite ?fbind_lift in H.
    destruct (token_spec_empty token_type specs); [|discriminate].
    injection H as <- <-. exact Hm. }
  rewrite ?fbind_lift in H.
  destruct (py_get ast_config "leaf" VNone) as [leaf|]; [|discriminate].
  destruct (dict_has "literal" d || dict_has "regex" d || truthy leaf);
    [injection H as <- <-; exact Hm|].
  destruct (dict_has "positive_lookahead" d || dict_has "negative_lookahead" d);
    [injection H as <- <-; exact Hm|].
  destruct (dict_has "choice" d).
  { rewrite with_entry_get in H. destruct (dict_get "choice" d) as [alts|] eqn:Hget;
      [|injection H as <- <-; exact Hm].
    destruct alts; try discriminate; try (injection H as <- <-; exact Hm).
    now apply (all_with_keeps _ _ (Hall _ _ Hget) m res m'). }
  destruct (dict_has "sequence" d).
  { rewrite with_entry_get in H. destruct (dict_get "sequence" d) as [sq|] eqn:Hget;
      [|injection H as <- <-; exact Hm].
    destruct sq; try discriminate; try (injection H as <- <-; exact Hm).
    rewrite ?fbind_lift in H. destruct (any_named l) as [[|]|]; try discriminate;
      [injection H as <- <-; exact Hm|].
    now apply (all_with_keeps _ _ (Hall _ _ Hget) m res m'). }
  destruct (dict_has "one_or_more" d).
  { rewrite with_entry_get in H. destruct (dict_get "one_or_more" d) as [inner|] eqn:Hget;
      [|injection H as <- <-; exact Hm].
    now apply (Hsub _ _ Hget m res m'). }
  destruct (dict_has "zero_or_more" d).
  { rewrite with_entry_get in H. destruct (dict_get "zero_or_more" d) as [inner|] eqn:Hget;
      [|injection H as <- <-; exact Hm].
    now apply (Hsub _ _ Hget m res m'). }
  destruct (dict_has "optional" d).
  { rewrite with_entry_get in H. destruct (dict_get "optional" d) as [inner|] eqn:Hget;
      [|injection H as <- <-; exact Hm].
    now apply (Hsub _ _ Hget m res m'). }
  injection H as <- <-. exact Hm.
Qed.

Lemma rule_keeps (fuel : nat) :
  forall r m res m',
    never_cleared name m ->
    _is_rule_always_empty fuel grammar_dict r m = Some (Ok (res, m')) ->
    never_cleared name m' /\ (r = VStr name -> res = true).
Proof.
  induction fuel as [|fuel IH]; intros r m res m' Hm H;
    (destruct r as [| | | |n|l|d];
     try (cbn in H; injection H as <- <-; split; [exact Hm | discriminate]);
     try (cbn in H; discriminate)).
  - (* no fuel: only a memoized verdict or an unknown rule answers *)
    cbn [_is_rule_always_empty] in H.
    destruct (memo_get n m) as [verdict|] eqn:Hmg.
    + injection H as <- <-. split; [exact Hm|].
      intros [= ->]. destruct verdict; [reflexivity | contradiction].
    + rewrite !fbind_lift in H. unfold py_getitem in H. rewrite Hrules in H.
      cbn [py_in] in H. destruct (dict_has n rules) eqn:Hhas; cbn [negb] in H; [discriminate|].
      injection H as <- <-. split; [exact Hm|].
      intros [= ->]. rewrite (dict_get_has _ _ _ Hname) in Hhas. discriminate.
  - destruct (string_dec n name) as [-> | Hne].
    + destruct (memo_get name m) as [verdict|] eqn:Hmg.
      * cbn [_is_rule_always_empty] in H. rewrite Hmg in H. injection H as <- <-.
        split; [exact Hm|]. intros _. destruct verdict; [reflexivity | contradiction].
      * rewrite (lookahead_sequence_rule_empty fuel grammar_dict rules body name parts m)
          in H by assumption.
        injection H as <- <-. split; [|reflexivity].
        unfold never_cleared. rewrite memo_get_set_same. discriminate.
    + split; [|intros [= ->]; contradiction].
      cbn [_is_rule_always_empty] in H.
      destruct (memo_get n m) as [verdict|]; [injection H as <- <-; exact Hm|].
      rewrite !fbind_lift in H. unfold py_getitem at 1 in H. rewrite Hrules in H.
      cbn [py_in] in H. destruct (dict_has n rules); cbn [negb] in H;
        [|injection H as <- <-; exact Hm].
      rewrite ?fbind_lift in H.
      destruct (py_getitem (VDict rules) n) as [rule_def|]; [|discriminate].
      destruct (_is_def_always_empty grammar_dict (_is_rule_always_empty fuel grammar_dict)
                  rule_def (memo_set n false m)) as [[[r1 m2]|]|] eqn:Hdef;
        cbn [fbind] in H; try discriminate.
      injection H as <- <-. cbn [fst snd].
      unfold never_cleared. rewrite memo_get_set_other by exact Hne.
      apply (def_keeps (_is_rule_always_empty fuel grammar_dict)
               (fun r m0 res0 m0' Hm0 H0 => proj1 (IH r m0 res0 m0' Hm0 H0))
               rule_def (memo_set n false m) r1 m2); [|exact Hdef].
      unfold never_cleared. now rewrite memo_get_set_other by exact Hne.
Qed.

(** Wherever the rule stands among the rules, the lint collects it. *)
Lemma collect_reports (fuel : nat) (some_rules : dict) :
  forall m names,
    never_cleared name m ->
    In (name, VDict body) some_rules ->
    collect_empty (S fuel) grammar_dict some_rules m = Some (Ok names) ->
    In name names.
Proof.
  induction some_rules as [|[n rd] rest IH]; intros m names Hm Hin H; [contradiction|].
  cbn [collect_empty] in H. rewrite ?fbind_lift in H.
  destruct Hin as [[= -> ->] | Hin].
  - unfold py_get at 1 in H. rewrite Hast in H.
    cbn [py_get dict_get truthy py_in] in H.
    rewrite (single_key_others body _ "positive_lookahead" Hkeys eq_refl) in H by discriminate.
    rewrite (single_key_others body _ "negative_lookahead" Hkeys eq_refl) in H by discriminate.
    destruct (_is_rule_always_empty (S fuel) grammar_dict (VStr name) m)
      as [[[res m1]|]|] eqn:Hr; cbn [fbind] in H; try discriminate.
    destruct (rule_keeps _ _ _ _ _ Hm Hr) as [_ Hres]. rewrite (Hres eq_refl) in H.
    cbn [fst snd] in H.
    destruct (collect_empty (S fuel) grammar_dict rest m1) as [[others|]|];
      cbn [fbind ret] in H; try discriminate.
    injection H as <-. now left.
  - destruct (py_get rd "ast" (VDict [])) as [a|]; cbn [fbind lift] in H; [|discriminate].
    destruct (py_get a "discard" VNone) as [discard|]; cbn [fbind lift] in H; [|discriminate].
    destruct (truthy discard); [now apply (IH m)|].
    destruct (py_in "positive_lookahead" rd) as [positive|]; cbn [fbind lift] in H;
      [|discriminate].
    destruct (if positive then Ok true else py_in "negative_lookahead" rd) as [[|]|];
      cbn [fbind lift] in H; try discriminate; [now apply (IH m)|].
    destruct (_is_rule_always_empty (S fuel) grammar_dict (VStr n) m)
      as [[[res m1]|]|] eqn:Hr; cbn [fbind] in H; try discriminate.
    destruct (rule_keeps _ _ _ _ _ Hm Hr) as [Hm1 _]. cbn [fst snd] in H.
    destruct (collect_empty (S fuel) grammar_dict rest m1) as [[others|]|] eqn:Hrest;
      cbn [fbind ret] in H; try discriminate.
    injection H as <-. specialize (IH m1 others Hm1 Hin Hrest).
    destruct res; [now right | exact IH].
Qed.

End LookaheadRule.

(** C7 as stated fails: the lookahead node [{positive_lookahead: {literal: "a"}}]
    is classified empty, and the lint reports the rule [main] whose body
    is a sequence of two lookaheads. *)
Lemma lookahead_classified_empty_counterexample :
  _is_def_always_empty lookahead_grammar (_is_rule_always_empty 0 lookahead_grammar)
    lookahead_node [] = ret (true, []) /\
  _check_for_always_empty_rules 1 lookahead_grammar =
  Some (Raise (ValueError
    ("The following rules will always produce an empty AST node, which may be unintentional. "
     ++ "If this is intended, add `ast: { discard: true }` to the rule definition. "
     ++ "Rules: main"))).
Proof.
  split; vm_compute; reflexivity.
Qed.

(** ** AST builder *)

Lemma py_index_0 {A : Type} (a : A) (l : list A) : py_index (a :: l) 0 = Ok a.
Proof. reflexivity. Qed.

Lemma py_index_1 {A : Type} (a b : A) (l : list A) : py_index (a :: b :: l) 1 = Ok b.
Proof. reflexivity. Qed.

Lemma fold_groups_nested (groups : list value) (pairs : list (dict * value)) :
  Forall2 group_of groups pairs ->
  Forall (fun p => positioned (fst p)) pairs ->
  forall lhs, fold_groups lhs groups = Ok (left_nested lhs pairs).
Proof.
  induction 1 as [|group [op rhs] groups pairs (items & -> & Hclean) Hrest IH];
    intros Hpos lhs; [reflexivity|].
  inversion Hpos as [|? ? [Hline Hcol] Hpos']; subst.
  cbn [fst snd] in *.
  cbn [fold_groups py_iter bind]. rewrite Hclean.
  rewrite py_index_0, py_index_1. cbn [bind].
  unfold binary_op, py_getitem.
  destruct (dict_get "line" op) as [l|] eqn:Hl; [|contradiction].
  destruct (dict_get "col" op) as [c|] eqn:Hc; [|contradiction].
  cbn [bind left_nested]. rewrite Hl, Hc. apply IH. exact Hpos'.
Qed.

Lemma left_associative_op_nested (V1 : value) (groups : list value)
    (pairs : list (dict * value)) :
  Forall2 group_of groups pairs ->
  Forall (fun p => positioned (fst p)) pairs ->
  left_associative_op [V1; VList groups] = Ok (left_nested V1 pairs).
Proof.
  intros Hgroups Hpos. unfold left_associative_op.
  rewrite py_index_0, py_index_1. cbn [bind].
  change (len [V1; VList groups] <? 2) with false. cbn [py_iter bind].
  now apply fold_groups_nested.
Qed.

(** C3 (as amended). For a rule with [structure: "left_associative_op"]
    that is not discarded, is not a leaf rule and is not promoted, and
    whose surviving visited children are an operand [V1] followed by a
    list of [[O_i, V_(i+1)]] groups, the AST builder returns the
    left-nested fold [((V1 O1 V2) O2 V3) ...] of [binary_op] nodes, each
    with the [line] and [col] of its operator node. *)
Theorem left_associative_fold (number_of : string -> option value)
    (self : AstBuilderVisitor) (node : Node) (rule_name : string)
    (rule_def ast_config : dict) (visited_children : list value)
    (V1 : value) (groups : list value) (pairs : list (dict * value)) :
  dict_get "structure" ast_config = Some (VStr "left_associative_op") ->
  directive_off "discard" ast_config ->
  directive_off "leaf" ast_config ->
  directive_off "promote" ast_config ->
  has_tokens self = true \/ dict_has "literal" rule_def || dict_has "regex" rule_def = false ->
  is_wrapped_leaf (VDict rule_def) = Ok false ->
  drop_none visited_children = [V1; VList groups] ->
  Forall2 group_of groups pairs ->
  Forall (fun p => positioned (fst p)) pairs ->
  visit_rule number_of self node rule_name rule_def ast_config visited_children =
  Ok (left_nested V1 pairs).
Proof.
  intros Hstructure Hdiscard Hleaf Hpromote Hbare Hwrapped Hchildren Hgroups Hpos.
  unfold visit_rule.
  unfold directive_off in Hdiscard, Hleaf, Hpromote.
  rewrite Hdiscard, Hleaf, Hpromote, Hstructure, Hwrapped, Hchildren.
  assert (Hnot : negb (has_tokens self) && (dict_has "literal" rule_def || dict_has "regex" rule_def)
                 = false).
  { destruct Hbare as [-> | ->]; [reflexivity | apply andb_false_r]. }
  rewrite Hnot. cbn [bind]. rewrite String.eqb_refl.
  now apply left_associative_op_nested.
Qed.

(** C3 on the calculator's [8 - 2 - 1]: the operators at columns 3 and 7
    give [((8 - 2) - 1)]. *)
Lemma left_associative_fold_witness :
  visit_rule (fun _ => None) sample_visitor sample_node "expression" expression_rule
    [("structure", VStr "left_associative_op")] sample_visited =
  Ok (left_nested (VDict (leaf "number" "8" 1)) sample_groups).
Proof.
  apply (left_associative_fold (fun _ => None) sample_visitor sample_node "expression"
           expression_rule [("structure", VStr "left_associative_op")] sample_visited
           (VDict (leaf "number" "8" 1))
           [VList [VNone; VDict (leaf "add_op" "-" 3); VNone; VDict (leaf "number" "2" 5)];
            VList [VNone; VDict (leaf "add_op" "-" 7); VNone; VDict (leaf "number" "1" 9)]]
           sample_groups); try reflexivity.
  - right. reflexivity.
  - repeat constructor; eexists; split; reflexivity.
  - repeat constructor; discriminate.
Defined.

(** C3 as stated fails: [discard] and [leaf] are looked at before
    [structure].  With [discard: true] next to
    [structure: "left_associative_op"] the rule [expression], on the
    visited children of [8 - 2 - 1], returns [None], and with [leaf: true]
    it returns one leaf node over the whole text; neither is the fold, and
    the lint's check of the directives accepts both rules. *)
Lemma left_associative_fold_counterexample :
  (dict_get "structure" discarding_ast = Some (VStr "left_associative_op") /\
   visit_rule (fun _ => None) (visitor_with discarding_ast) sample_node "expression"
     (expression_with discarding_ast) discarding_ast sample_visited = Ok VNone /\
   generic_visit (fun _ => None) (visitor_with discarding_ast) 0 sample_node sample_visited
   = Ok (VNone, 0%nat) /\
   left_nested (VDict (leaf "number" "8" 1)) sample_groups <> VNone /\
   check_directives [("expression", VDict (expression_with discarding_ast))] = Ok tt) /\
  (dict_get "structure" leaf_ast = Some (VStr "left_associative_op") /\
   visit_rule (fun _ => None) (visitor_with leaf_ast) sample_node "expression"
     (expression_with leaf_ast) leaf_ast sample_visited
   = Ok (VDict (leaf "expression" "8 - 2 - 1" 1)) /\
   generic_visit (fun _ => None) (visitor_with leaf_ast) 0 sample_node sample_visited
   = Ok (VDict (leaf "expression" "8 - 2 - 1" 1), 0%nat) /\
   left_nested (VDict (leaf "number" "8" 1)) sample_groups
   <> VDict (leaf "expression" "8 - 2 - 1" 1) /\
   check_directives [("expression", VDict (expression_with leaf_ast))] = Ok tt).
Proof.
  split; (split; [reflexivity|]); (split; [vm_compute; reflexivity|]);
    (split; [vm_compute; reflexivity|]); (split; [|vm_compute; reflexivity]);
    vm_compute; discriminate.
Qed.

Lemma dict_get_set_same (k : string) (v : value) (d : dict) :
  dict_get k (dict_set k v d) = Some v.
Proof.
  induction d as [|[k' w] d IH]; cbn [dict_set dict_get].
  - now rewrite String.eqb_refl.
  - destruct (String.eqb k' k) eqn:Heq; cbn [dict_get].
    + now rewrite String.eqb_refl.
    + now rewrite Heq.
Qed.

Lemma dict_get_set_other (k k' : string) (v : value) (d : dict) :
  k' <> k -> dict_get k (dict_set k' v d) = dict_get k d.
Proof.
  intros Hne. induction d as [|[k0 w] d IH]; cbn [dict_set dict_get].
  - now rewrite (proj2 (String.eqb_neq k' k) Hne).
  - destruct (String.eqb k0 k') eqn:Heq; cbn [dict_get].
    + apply String.eqb_eq in Heq. subst k0.
      now rewrite (proj2 (String.eqb_neq k' k) Hne).
    + now rewrite IH.
Qed.

(** Once the children are used up, a name that is bound to [[]] stays
    bound to [[]]. *)
Lemma name_children_keeps_empty (children : list value) (n : string) (parts : list dict) :
  forall i acc,
    Forall named_ok parts ->
    (List.length children <= i)%nat ->
    dict_get n acc = Some (VList []) ->
    exists named,
      name_children parts i children acc = Ok named /\ dict_get n named = Some (VList []).
Proof.
  induction parts as [|part parts IH]; intros i acc Hok Hlen Hacc.
  - exists acc. now split.
  - inversion Hok as [|? ? Hpart Hok']; subst. unfold named_ok in Hpart.
    cbn [name_children].
    destruct (dict_get "ast" part) as [a|] eqn:Hast.
    + rewrite (dict_get_has _ _ _ Hast).
      unfold py_getitem at 1. rewrite Hast. cbn [bind].
      destruct a as [| | | | |?|a]; try contradiction. cbn [py_in].
      destruct (dict_get "name" a) as [name|] eqn:Hname.
      * rewrite (dict_get_has _ _ _ Hname).
        unfold py_getitem. rewrite Hast. cbn [bind]. rewrite Hname. cbn [bind].
        destruct name as [| | | |child_name| |]; try contradiction. cbn [as_str bind].
        rewrite (proj2 (nth_error_None children i) Hlen).
        apply IH; [exact Hok' | lia |].
        destruct (String.eqb child_name n) eqn:Heq.
        -- apply String.eqb_eq in Heq. subst. apply dict_get_set_same.
        -- apply String.eqb_neq in Heq. now rewrite dict_get_set_other.
      * rewrite (dict_get_none_has _ _ Hname). apply IH; [exact Hok' | lia | exact Hacc].
    + rewrite (dict_get_none_has _ _ Hast). cbn [bind].
      apply IH; [exact Hok' | lia | exact Hacc].
Qed.

(** The part at index [j] of [parts], when named [n] and beyond the last
    child, binds [n] to [[]]. *)
Lemma name_children_binds_empty (children : list value) (n : string) (parts : list dict) :
  forall i j acc part a,
    Forall named_ok parts ->
    nth_error parts j = Some part ->
    dict_get "ast" part = Some (VDict a) ->
    dict_get "name" a = Some (VStr n) ->
    (List.length children <= i + j)%nat ->
    exists named,
      name_children parts i children acc = Ok named /\ dict_get n named = Some (VList []).
Proof.
  induction parts as [|p parts IH]; intros i j acc part a Hok Hnth Hast Hname Hlen.
  - destruct j; discriminate.
  - inversion Hok as [|? ? Hp Hok']; subst.
    destruct j as [|j].
    + injection Hnth as ->. cbn [name_children].
      rewrite (dict_get_has _ _ _ Hast).
      unfold py_getitem. rewrite Hast. cbn [bind py_in].
      rewrite (dict_get_has _ _ _ Hname), Hname. cbn [bind as_str].
      rewrite (proj2 (nth_error_None children i)) by lia.
      apply name_children_keeps_empty; [exact Hok' | lia | apply dict_get_set_same].
    + cbn [nth_error] in Hnth. unfold named_ok in Hp. cbn [name_children].
      destruct (dict_get "ast" p) as [pa|] eqn:Hpast.
      * rewrite (dict_get_has _ _ _ Hpast).
        unfold py_getitem at 1. rewrite Hpast. cbn [bind].
        destruct pa as [| | | | |?|pa]; try contradiction. cbn [py_in].
        destruct (dict_get "name" pa) as [name|] eqn:Hpname.
        -- rewrite (dict_get_has _ _ _ Hpname).
           unfold py_getitem. rewrite Hpast. cbn [bind]. rewrite Hpname. cbn [bind].
           destruct name as [| | | |child_name| |]; try contradiction. cbn [as_str bind].
           apply (IH (S i) j _ part a); auto. lia.
        -- rewrite (dict_get_none_has _ _ Hpname). apply (IH (S i) j _ part a); auto. lia.
      * rewrite (dict_get_none_has _ _ Hpast). cbn [bind].
        apply (IH (S i) j _ part a); auto. lia.
Qed.

(** C10. In default node creation for a sequence rule, when the [i]-th
    non-lookahead, non-discarded part carries [ast.name] and there is no
    [i]-th surviving child, the node has a [children] mapping in which
    that name is present and bound to the empty list. *)
Theorem unmatched_named_child_is_empty_list (grammar_rules : dict) (rule_name : string)
    (rule_def ast_config : dict) (node_text : string) (line col : value)
    (children : list value) (items : list value) (parts : list dict)
    (i : nat) (part a : dict) (name : string) :
  dict_get "sequence" rule_def = Some (VList items) ->
  child_producing_parts grammar_rules items = Ok parts ->
  Forall named_ok parts ->
  nth_error parts i = Some part ->
  dict_get "ast" part = Some (VDict a) ->
  dict_get "name" a = Some (VStr name) ->
  (List.length children <= i)%nat ->
  exists node named,
    default_node grammar_rules rule_name (VDict rule_def) (VDict ast_config)
      node_text line col children = Ok (VDict node) /\
    dict_get "children" node = Some (VDict named) /\
    dict_get name named = Some (VList []).
Proof.
  intros Hseq Hparts Hok Hnth Hast Hname Hlen.
  destruct (name_children_binds_empty children name parts 0 i [] part a)
    as (named & Hnamed & Hget); auto.
  unfold default_node, py_get. cbn [bind]. rewrite Hseq. cbn [py_iter bind].
  rewrite Hparts. cbn [bind]. rewrite Hnamed. cbn [bind].
  destruct named as [|entry named]; [discriminate|].
  eexists. exists (entry :: named). split; [reflexivity|].
  split; [apply dict_get_set_same | exact Hget].
Qed.

(** C10 on a [clone] rule whose optional destination did not match: one
    surviving child, and the second named part, [dest], is bound to [[]]. *)
Lemma unmatched_named_child_witness :
  exists node named,
    default_node [] "clone" (VDict clone_rule) (VDict []) "CLONE /repo" (VInt 1) (VInt 1)
      [VDict (leaf "path" "/repo" 7)] = Ok (VDict node) /\
    dict_get "children" node = Some (VDict named) /\
    dict_get "dest" named = Some (VList []).
Proof.
  apply (unmatched_named_child_is_empty_list [] "clone" clone_rule [] "CLONE /repo"
           (VInt 1) (VInt 1) [VDict (leaf "path" "/repo" 7)]
           [VDict [("rule", VStr "path"); ("ast", VDict [("name", VStr "repo")])];
            VDict [("optional", VDict [("rule", VStr "path")]);
                   ("ast", VDict [("name", VStr "dest")])]]
           clone_parts 1
           [("optional", VDict [("rule", VStr "path")]); ("ast", VDict [("name", VStr "dest")])]
           [("name", VStr "dest")] "dest"); try reflexivity.
  repeat constructor.
Defined.

(** ** Parser core *)

Lemma token_string_raises (tokens : list Token) (e : exn) :
  token_string tokens = Raise e -> e = TypeError.
Proof.
  unfold token_string.
  set (f := fun t => match tok_type t with Some s => Ok s | None => Raise TypeError end).
  assert (H : forall l e, traverse f l = Raise e -> e = TypeError).
  { induction l as [|t l IH]; intros e0 He; cbn [traverse] in He; [discriminate|].
    unfold f at 1 in He. destruct (tok_type t); cbn [bind] in He; [|congruence].
    destruct (traverse f l) as [ss|e1] eqn:Hl; cbn [bind] in He; [discriminate|].
    injection He as <-. now apply IH. }
  intros He. destruct (traverse f tokens) as [ss|e1] eqn:Hl; cbn [bind] in He; [discriminate|].
  injection He as <-. now apply (H tokens).
Qed.

Lemma find_returns (text : string) (offset : Z) :
  exists p, LineColumnFinder.find text offset = Ok p.
Proof.
  destruct (LineColumnFinderFacts.find_spec text offset) as (line & start & Hfind & _).
  eauto.
Qed.

Lemma on_parse_error_answers (matcher_message : exn -> string) (config : grammar_config)
    (text : string) (tokens : option (list Token)) (e : exn) (incomplete : bool) (pos : Z)
    (exprs : list peg_expr) :
  answers (on_parse_error matcher_message config text tokens e incomplete pos exprs).
Proof.
  unfold on_parse_error. destruct (cfg_is_token_grammar config).
  - destruct tokens as [ts|]; [|cbn [answers]; eauto].
    destruct (token_string ts) as [joined|e'] eqn:Hjoin; cbn [bind].
    + destruct (nth_error ts _); cbn [answers]; eauto.
    + apply token_string_raises in Hjoin. now subst.
  - destruct (find_returns text pos) as [p ->]. cbn [bind].
    destruct incomplete; cbn [answers]; eauto.
Qed.

(** The [except] clause answers each exception it names with an error
    dictionary, or fails on a token without a type, and lets every other
    exception through. *)
Lemma on_exception_answers (matcher_message : exn -> string) (config : grammar_config)
    (text : string) (tokens : option (list Token)) (e : exn) :
  answers (on_exception matcher_message config text tokens e).
Proof.
  destruct e; cbn [on_exception]; try reflexivity;
    try apply on_parse_error_answers; cbn [answers]; eauto.
Qed.

Lemma answers_settled (r : outcome value) : answers r -> settled r.
Proof.
  destruct r as [v|e]; cbn [answers settled]; [now right | auto].
Qed.

Lemma guarded_settled {A : Type} (matcher_message : exn -> string) (config : grammar_config)
    (text : string) (tokens : option (list Token)) (m : outcome A) (k : A -> outcome value) :
  (forall a, settled (k a)) ->
  settled (guarded matcher_message config text tokens m k).
Proof.
  intros Hk. destruct m as [a|e]; cbn [guarded]; [apply Hk | apply answers_settled, on_exception_answers].
Qed.

Lemma parse_internal_settled (number_of : string -> option value)
    (matcher_message : exn -> string) (fuel : nat) (text : string) (config : grammar_config)
    (start_rule : option string) :
  match _parse_internal number_of matcher_message fuel text config start_rule with
  | None => StatefulLexer.tokenize fuel (cfg_lexer config) text = None
  | Some r => settled r
  end.
Proof.
  unfold _parse_internal.
  destruct (cfg_is_token_grammar config).
  - destruct (StatefulLexer.tokenize fuel (cfg_lexer config) text) as [toks|];
      cbn [fbind ret lift]; [|reflexivity].
    repeat (apply guarded_settled; intros). left. eauto.
  - cbn [lift]. repeat (apply guarded_settled; intros). left. eauto.
Qed.



(** ** Cleanup pass *)

Lemma untagged_not_internal (d : dict) :
  dict_has "tag" d = false -> has_internal_tag (VDict d) = Ok false.
Proof.
  intros H. cbn [has_internal_tag]. now rewrite (dict_has_get_none _ _ H).
Qed.

(** What the list branch keeps: the cleaned form of an item without an
    internal tag. *)
Lemma clean_items_kept (clean : value -> outcome value) (l : list value) :
  forall l', clean_items clean l = Ok l' ->
  forall c, In c l' ->
  exists item, In item l /\ has_internal_tag item = Ok false /\ clean item = Ok c.
Proof.
  induction l as [|item rest IH]; intros l' H c Hin; cbn [clean_items] in H.
  - injection H as <-. contradiction.
  - destruct (has_internal_tag item) as [[|]|] eqn:Hint; cbn [bind] in H; [| |discriminate].
    + destruct (IH _ H _ Hin) as (x & Hx & Hrest). exists x. split; [now right | exact Hrest].
    + destruct (clean item) as [cleaned|] eqn:Hclean; cbn [bind] in H; [|discriminate].
      destruct (clean_items clean rest) as [others|] eqn:Hothers; cbn [bind] in H;
        [|discriminate].
      injection H as <-. destruct Hin as [<- | Hin].
      * exists item. repeat split; auto. now left.
      * destruct (IH _ eq_refl _ Hin) as (x & Hx & Hrest).
        exists x. split; [now right | exact Hrest].
Qed.

Lemma clean_entries_kept (clean : value -> outcome value) (d : dict) :
  forall d', clean_entries clean d = Ok d' ->
  forall k c, In (k, c) d' ->
  exists v, In (k, v) d /\ has_internal_tag v = Ok false /\ clean v = Ok c.
Proof.
  induction d as [|[key v] rest IH]; intros d' H k c Hin; cbn [clean_entries] in H.
  - injection H as <-. contradiction.
  - destruct (has_internal_tag v) as [[|]|] eqn:Hint; cbn [bind] in H; [| |discriminate].
    + destruct (IH _ H _ _ Hin) as (x & Hx & Hrest). exists x. split; [now right | exact Hrest].
    + destruct (clean v) as [cleaned|] eqn:Hclean; cbn [bind] in H; [|discriminate].
      destruct (clean_entries clean rest) as [others|] eqn:Hothers; cbn [bind] in H;
        [|discriminate].
      injection H as <-. destruct Hin as [[= <- <-] | Hin].
      * exists v. repeat split; auto. now left.
      * destruct (IH _ eq_refl _ _ Hin) as (x & Hx & Hrest).
        exists x. split; [now right | exact Hrest].
Qed.

Lemma clean_entries_keys (clean : value -> outcome value) (k : string) (d : dict) :
  forall d', clean_entries clean d = Ok d' -> dict_has k d = false -> dict_has k d' = false.
Proof.
  intros d' H Hk. destruct (dict_has k d') eqn:Hhas; [|reflexivity].
  apply dict_has_In in Hhas. apply in_map_iff in Hhas. destruct Hhas as ([k' c] & Hfst & Hin).
  cbn [fst] in Hfst. subst k'.
  destruct (clean_entries_kept clean d d' H k c Hin) as (v & Hv & _).
  assert (Hd : dict_has k d = true).
  { apply dict_has_In. apply in_map_iff. now exists (k, v). }
  congruence.
Qed.

Lemma dict_has_set_other (k k' : string) (v : value) (d : dict) :
  k' <> k -> dict_has k (dict_set k' v d) = dict_has k d.
Proof.
  intros Hne. destruct (dict_get k d) as [w|] eqn:Hget.
  - rewrite (dict_get_has _ _ _ Hget). apply dict_get_has with (v := w).
    now rewrite dict_get_set_other.
  - rewrite (dict_get_none_has _ _ Hget). apply dict_get_none_has.
    now rewrite dict_get_set_other.
Qed.

(** Cleaning a value does not change whether its own tag is internal. *)
Lemma cleanup_keeps_tag (v r : value) :
  _cleanup_ast v = Ok r -> has_internal_tag r = has_internal_tag v.
Proof.
  destruct v as [| | | | |l|d]; cbn [_cleanup_ast]; try (intros [= <-]; reflexivity).
  - destruct (clean_items _cleanup_ast l); cbn [bind]; [|discriminate].
    intros [= <-]. reflexivity.
  - destruct (dict_has "tag" d) eqn:Htag.
    + rewrite with_entry_get. destruct (dict_get "children" d) as [c|]; [|now intros [= <-]].
      destruct (_cleanup_ast c) as [cleaned|]; cbn [bind]; [|discriminate].
      intros [= <-]. cbn [has_internal_tag].
      now rewrite dict_get_set_other by discriminate.
    + destruct (clean_entries _cleanup_ast d) as [d'|] eqn:Hd; cbn [bind]; [|discriminate].
      intros [= <-].
      rewrite (untagged_not_internal d Htag).
      apply untagged_not_internal. now apply (clean_entries_keys _ _ _ _ Hd).
Qed.

(** C1, of which the code falls short.  The grammar whose rule [expr]
    folds inline leaf operands is normalised into [hoisted_grammar] and
    passes the lint; on the text [1+2] [parse] then succeeds with a
    [binary_op] whose [left] and [right] nodes are tagged [expr__1] and
    [expr__2], and on the text [1] it succeeds with a root tagged
    [expr__1]: [_cleanup_ast] tests neither the tag of the node it is
    called on nor what is under [op], [left] and [right].  A named child
    called [tag] makes the mapping of the children pass for a node, which
    is returned as it is: on [aa] the two nodes tagged [wrap__1] stay in
    the result. *)
Theorem cleanup_leaves_internal_tags :
  (_normalize_grammar 3 inline_grammar = Some (Ok hoisted_grammar) /\
   _lint_grammar (fun refs => refs) 8 hoisted_grammar (VList [VStr "expr"]) = Some (Ok tt) /\
   _parse_internal (fun _ => None) (fun _ => "") 0 "1+2" hoisted_config None =
     Some (Ok (success
       (VDict [("tag", VStr "binary_op");
               ("op", VDict [("tag", VStr "op"); ("text", VStr "+");
                             ("line", VInt 1); ("col", VInt 2)]);
               ("left", VDict (leaf "expr__1" "1" 1));
               ("right", VDict (leaf "expr__2" "2" 3));
               ("line", VInt 1); ("col", VInt 2)]))) /\
   _parse_internal (fun _ => None) (fun _ => "") 0 "1" hoisted_config None =
     Some (Ok (success (VDict (leaf "expr__1" "1" 1)))) /\
   has_internal_tag (VDict (leaf "expr__1" "1" 1)) = Ok true /\
   has_internal_tag (VDict (leaf "expr__2" "2" 3)) = Ok true) /\
  (_normalize_grammar 3 named_tag_grammar = Some (Ok named_tag_hoisted) /\
   _lint_grammar (fun refs => refs) 8 named_tag_hoisted (VList [VStr "wrap"]) = Some (Ok tt) /\
   _parse_internal (fun _ => None) (fun _ => "") 0 "aa" named_tag_config None =
     Some (Ok (success
       (VDict [("tag", VStr "wrap"); ("text", VStr "aa"); ("line", VInt 1); ("col", VInt 1);
               ("children",
                VDict [("tag", VList [VDict (leaf "wrap__1" "a" 1);
                                      VDict (leaf "wrap__1" "a" 2)])])]))) /\
   has_internal_tag (VDict (leaf "wrap__1" "a" 1)) = Ok true).
Proof.
  split; repeat (split; [vm_compute; reflexivity|]); vm_compute; reflexivity.
Qed.

(** ** The position finder in closed form *)

Module LineCountFacts.
Import LineColumnFinder.

Lemma count_newlines_nonneg (s : string) : 0 <= count_newlines s.
Proof.
  induction s as [|c s IH]; simpl; [lia|]. destruct (Ascii.eqb c newline); lia.
Qed.

Lemma rfind_newline_lower (s : string) : -1 <= rfind_newline s.
Proof.
  induction s as [|c s IH]; simpl; [lia|].
  destruct (0 <=? rfind_newline s) eqn:H; [apply Z.leb_le in H; lia|].
  destruct (Ascii.eqb c newline); lia.
Qed.

(** A newline occurs exactly when [rfind] finds one. *)
Lemma rfind_newline_count (s : string) : 0 <= rfind_newline s <-> 0 < count_newlines s.
Proof.
  induction s as [|c s IH]; simpl; [lia|].
  pose proof (count_newlines_nonneg s) as Hnn.
  destruct (0 <=? rfind_newline s) eqn:H; [apply Z.leb_le in H | apply Z.leb_gt in H];
    destruct (Ascii.eqb c newline); lia.
Qed.

Lemma filter_none {A : Type} (f : A -> bool) (l : list A) :
  (forall x, In x l -> f x = false) -> filter f l = [].
Proof.
  induction l as [|x l IH]; intros H; simpl; [reflexivity|].
  rewrite (H x (or_introl eq_refl)). apply IH. intros y Hy. apply H. now right.
Qed.

(** In a strictly ascending list, the index of the greatest element that
    is at most [c] is the number of elements that are at most [c], less one. *)
Lemma count_le_sorted (a : list Z) :
  StronglySorted Z.lt a ->
  forall j start c,
    nth_error a j = Some start -> start <= c ->
    (forall s, In s a -> s <= c -> s <= start) ->
    List.length (filter (fun s => s <=? c) a) = S j.
Proof.
  induction 1 as [|x a Hs IH Hall]; intros j start c Hnth Hle Hmax.
  - destruct j; discriminate.
  - rewrite Forall_forall in Hall. destruct j as [|j]; simpl in Hnth.
    + injection Hnth as ->. simpl.
      replace (start <=? c) with true by (symmetry; apply Z.leb_le; lia).
      simpl. f_equal.
      assert (Hnone : filter (fun s => s <=? c) a = []).
      { apply filter_none. intros s Hin.
        apply Z.leb_gt. specialize (Hall s Hin).
        destruct (Z.le_gt_cases s c) as [Hsc|]; [|lia].
        specialize (Hmax s (or_intror Hin) Hsc). lia. }
      now rewrite Hnone.
    + assert (Hx : x < start) by (apply Hall; eapply nth_error_In; eauto).
      simpl. replace (x <=? c) with true by (symmetry; apply Z.leb_le; lia).
      simpl. f_equal. apply (IH j start c Hnth Hle).
      intros s Hin Hsc. apply Hmax; [now right | exact Hsc].
Qed.

(** The line starts among the first [n] characters are as many as the
    newlines among them. *)
Lemma count_le_scan (text : string) :
  forall i n,
    Z.of_nat (List.length (filter (fun s => s <=? i + Z.of_nat n) (scan i text))) =
    count_newlines (String.substring 0 n text).
Proof.
  induction text as [|c rest IH]; intros i n.
  - destruct n; reflexivity.
  - destruct n as [|n].
    + simpl String.substring. simpl count_newlines.
      assert (Hnone : filter (fun s => s <=? i + Z.of_nat 0) (scan i (String c rest)) = []).
      { apply filter_none. intros s Hin.
        apply LineColumnFinderFacts.scan_above in Hin. apply Z.leb_gt. lia. }
      now rewrite Hnone.
    + simpl String.substring. simpl count_newlines. simpl scan.
      replace (i + Z.of_nat (S n)) with (i + 1 + Z.of_nat n) by lia.
      destruct (Ascii.eqb c newline).
      * simpl filter.
        replace (i + 1 <=? i + 1 + Z.of_nat n) with true by (symmetry; apply Z.leb_le; lia).
        simpl List.length. rewrite Nat2Z.inj_succ, IH. lia.
      * rewrite IH. lia.
Qed.

(** The greatest line start among the first [n] characters follows the
    last newline among them. *)
Lemma last_start_scan (text : string) :
  forall i n,
    let r := rfind_newline (String.substring 0 n text) in
    (0 <= r -> In (i + r + 1) (scan i text) /\ r + 1 <= Z.of_nat n) /\
    (forall s, In s (scan i text) -> s <= i + Z.of_nat n -> 0 <= r /\ s <= i + r + 1).
Proof.
  induction text as [|c rest IH]; intros i n.
  - destruct n; simpl; (split; [lia | intros s []]).
  - destruct n as [|n].
    + simpl String.substring. simpl rfind_newline. split; [lia|].
      intros s Hin Hs. apply LineColumnFinderFacts.scan_above in Hin. lia.
    + simpl String.substring. simpl rfind_newline. simpl scan.
      destruct (IH (i + 1) n) as [Hfound Hmax].
      set (r := rfind_newline (String.substring 0 n rest)) in *.
      destruct (0 <=? r) eqn:Hr; [apply Z.leb_le in Hr | apply Z.leb_gt in Hr].
      * split.
        -- intros _. destruct (Hfound Hr) as [Hin Hn]. split; [|lia].
           replace (i + (r + 1) + 1) with (i + 1 + r + 1) by lia.
           destruct (Ascii.eqb c newline); [now right | exact Hin].
        -- intros s Hin Hs. split; [lia|].
           destruct (Ascii.eqb c newline).
           ++ destruct Hin as [<- | Hin]; [lia|].
              destruct (Hmax s Hin) as [_ H]; lia.
           ++ destruct (Hmax s Hin) as [_ H]; lia.
      * destruct (Ascii.eqb c newline) eqn:Hc.
        -- split.
           ++ intros _. split; [|lia]. left. lia.
           ++ intros s [<- | Hin] Hs; [lia|].
              destruct (Hmax s Hin) as [H _]; lia.
        -- split; [lia|].
           intros s Hin Hs. destruct (Hmax s Hin) as [H _]; lia.
Qed.

(** [find] in closed form, for an offset that is already in range. *)
Lemma find_closed_form (text : string) (n : nat) :
  (n <= String.length text)%nat ->
  find text (Z.of_nat n) =
  Ok (1 + count_newlines (take_str n text),
      Z.of_nat n - rfind_newline (take_str n text)).
Proof.
  intros Hn.
  destruct (LineColumnFinderFacts.find_spec text (Z.of_nat n))
    as (line & start & Hfind & Hline & Hnth & Hle & Hmax).
  assert (Hc : Z.max 0 (Z.min (Z.of_nat n) (str_len text)) = Z.of_nat n)
    by (unfold str_len; lia).
  rewrite Hc in *. rewrite Hfind. unfold take_str.
  pose proof (count_le_sorted _ (LineColumnFinderFacts.line_starts_sorted text)
                _ _ _ Hnth Hle Hmax) as Hcount.
  unfold line_starts in Hcount. simpl filter in Hcount.
  replace (0 <=? Z.of_nat n) with true in Hcount by (symmetry; apply Z.leb_le; lia).
  simpl List.length in Hcount. injection Hcount as Hcount.
  pose proof (count_le_scan text 0 n) as Hscan. simpl in Hscan.
  rewrite Hcount in Hscan.
  pose proof (rfind_newline_lower (String.substring 0 n text)) as Hlow.
  destruct (last_start_scan text 0 n) as [Hfound Hlast]. cbv zeta in Hfound, Hlast.
  set (r := rfind_newline (String.substring 0 n text)) in *.
  assert (Hin : In start (line_starts text)) by (eapply nth_error_In; eauto).
  assert (Hstart : start = r + 1).
  { destruct (Z.le_gt_cases 0 r) as [Hr | Hr].
    - destruct (Hfound Hr) as [Hr_in Hr_n]. simpl in Hr_in.
      assert (Hup : r + 1 <= start)
        by (apply Hmax; [right; exact Hr_in | lia]).
      destruct Hin as [<- | Hin]; [lia|].
      destruct (Hlast start Hin) as [_ H]; lia.
    - destruct Hin as [<- | Hin]; [lia|].
      destruct (Hlast start Hin) as [H _]; lia. }
  f_equal. f_equal; lia.
Qed.

End LineCountFacts.

(** X1. For every text and every integer offset, [find] returns one plus
    the number of newlines before the clamped offset as the line, and the
    distance from the last of those newlines (from the start of the text
    when there is none, counting from one) as the column. *)
Theorem find_counts_newlines (text : string) (offset : Z) :
  let c := Z.max 0 (Z.min offset (str_len text)) in
  let before := take_str (Z.to_nat c) text in
  LineColumnFinder.find text offset =
  Ok (1 + count_newlines before, c - rfind_newline before).
Proof.
  intros c before.
  assert (Hc : (Z.to_nat c <= String.length text)%nat) by (unfold str_len in c; lia).
  pose proof (LineCountFacts.find_closed_form text (Z.to_nat c) Hc) as H.
  replace (Z.of_nat (Z.to_nat c)) with c in H by lia.
  fold before in H. rewrite <- H.
  unfold LineColumnFinder.find.
  rewrite !LineColumnFinderFacts.clamp_spec. fold c.
  replace (Z.max 0 (Z.min c (str_len text))) with c by (unfold str_len in *; lia).
  reflexivity.
Qed.
(** ** Runs of the lexer *)

Module LexerRunFacts.
Import StatefulLexer.

(** The candidate that [select] keeps is the match of one of the specs. *)
Lemma select_shape (specs : list compiled_spec) (text : string) (pos : nat) (m : candidate) :
  select specs text pos = Some m ->
  exists spec n,
    In spec specs /\ spec_regex spec text pos = Some n /\
    m = mkCand (slice text pos n) (pos + n) (spec_action spec) (spec_token spec).
Proof.
  intros H.
  pose proof (StatefulLexerFacts.select_from_selected text pos specs [] None) as Hsel.
  simpl in Hsel. fold (select specs text pos) in Hsel. rewrite H in Hsel.
  destruct Hsel as (i & spec & n & Hi & Hre & Hm & _); [intros spec []|].
  exists spec, n. repeat split; auto. eapply nth_error_In; eauto.
Qed.

(** What an iteration that does not raise leaves in the state. *)
Lemma step_inv (lx : t) (text : string) (st st' : state) :
  step lx text st = Ok st' ->
  exists m stack tokens,
    select (compiled_specs lx) text (st_pos st) = Some m /\
    (if is_handle_indent (cand_action m) then
       handle_indent (cand_value m) (st_line_num st) (st_stack st) (st_tokens st)
     else if negb (is_skip (cand_action m)) then
       Ok (st_stack st,
           (st_tokens st ++ [mkToken (cand_token m) (cand_value m) (st_line_num st)
                               (Z.of_nat (st_pos st) - st_line_start st + 1)])%list)
     else Ok (st_stack st, st_tokens st)) = Ok (stack, tokens) /\
    st' = mkState tokens stack
            (if count_newlines (cand_value m) >? 0
             then st_line_num st + count_newlines (cand_value m) else st_line_num st)
            (if count_newlines (cand_value m) >? 0
             then Z.of_nat (st_pos st) + rfind_newline (cand_value m) + 1
             else st_line_start st)
            (cand_end m).
Proof.
  unfold step. intros H.
  destruct (select (compiled_specs lx) text (st_pos st)) as [m|]; [|discriminate].
  cbv zeta in H.
  match type of H with
  | bind ?b _ = _ => destruct b as [[stack tokens]|e] eqn:Hb; [|discriminate]
  end.
  simpl in H. injection H as <-. exists m, stack, tokens. auto.
Qed.

Lemma substring_split (text : string) :
  forall pos n,
    take_str (pos + n) text = take_str pos text ++ slice text pos n.
Proof.
  unfold take_str, slice.
  induction text as [|c rest IH]; intros pos n.
  - destruct pos, n; reflexivity.
  - destruct pos as [|pos].
    + reflexivity.
    + simpl. now rewrite IH.
Qed.

Lemma take_str_all (text : string) :
  forall n, (String.length text <= n)%nat -> take_str n text = text.
Proof.
  unfold take_str. induction text as [|c rest IH]; intros n Hn.
  - destruct n; reflexivity.
  - destruct n as [|n]; simpl in *; [lia|]. now rewrite IH by lia.
Qed.

Lemma take_str_length (text : string) :
  forall n, (n <= String.length text)%nat -> String.length (take_str n text) = n.
Proof.
  unfold take_str. induction text as [|c rest IH]; intros n Hn.
  - destruct n; simpl in *; [reflexivity | lia].
  - destruct n as [|n]; simpl in *; [reflexivity|]. now rewrite IH by lia.
Qed.

Lemma count_newlines_app (a b : string) :
  count_newlines (a ++ b) = count_newlines a + count_newlines b.
Proof.
  induction a as [|c a IH]; simpl; [reflexivity|]. rewrite IH. lia.
Qed.

Lemma rfind_newline_app (a b : string) :
  rfind_newline (a ++ b) =
  if 0 <=? rfind_newline b then str_len a + rfind_newline b else rfind_newline a.
Proof.
  unfold str_len.
  induction a as [|c a IH].
  - simpl. pose proof (LineCountFacts.rfind_newline_lower b).
    destruct (0 <=? rfind_newline b) eqn:H'; [reflexivity|].
    apply Z.leb_gt in H'. lia.
  - change ((String c a) ++ b) with (String c (a ++ b)).
    cbn [rfind_newline String.length]. rewrite IH.
    pose proof (LineCountFacts.rfind_newline_lower a).
    destruct (0 <=? rfind_newline b) eqn:Hb.
    + apply Z.leb_le in Hb.
      replace (0 <=? Z.of_nat (String.length a) + rfind_newline b) with true
        by (symmetry; apply Z.leb_le; lia).
      lia.
    + reflexivity.
Qed.

(** The line counters of a reached state describe the text before its
    position. *)
Lemma position_invariant (lx : t) (text : string) (st : state) :
  reached lx text st ->
  st_line_num st = 1 + count_newlines (take_str (st_pos st) text) /\
  st_line_start st = rfind_newline (take_str (st_pos st) text) + 1.
Proof.
  induction 1 as [|st st' Hreached [IHnum IHstart] Hpos Hstep].
  - destruct text; split; reflexivity.
  - apply step_inv in Hstep. destruct Hstep as (m & stack & tokens & Hsel & _ & ->).
    apply select_shape in Hsel. destruct Hsel as (spec & n & _ & _ & ->).
    cbn [st_line_num st_line_start st_pos cand_value cand_end].
    rewrite substring_split, count_newlines_app, rfind_newline_app.
    unfold str_len. rewrite take_str_length by lia.
    pose proof (LineCountFacts.rfind_newline_count (slice text (st_pos st) n)) as Hiff.
    pose proof (LineCountFacts.count_newlines_nonneg (slice text (st_pos st) n)) as Hnn.
    rewrite Z.gtb_ltb.
    destruct (0 <? count_newlines (slice text (st_pos st) n)) eqn:Hc;
      [apply Z.ltb_lt in Hc | apply Z.ltb_ge in Hc].
    + replace (0 <=? rfind_newline (slice text (st_pos st) n)) with true
        by (symmetry; apply Z.leb_le; lia).
      split; lia.
    + replace (0 <=? rfind_newline (slice text (st_pos st) n)) with false
        by (symmetry; apply Z.leb_gt; lia).
      split; lia.
Qed.

(** The loop only passes through reached states and ends at or after the
    end of the text. *)
Lemma loop_reached (lx : t) (text : string) (fuel : nat) :
  forall st st',
    reached lx text st -> loop fuel lx text st = Some (Ok st') ->
    reached lx text st' /\ (String.length text <= st_pos st')%nat.
Proof.
  induction fuel as [|fuel IH]; intros st st' Hst H; simpl in H;
    destruct (st_pos st <? String.length text)%nat eqn:Hpos;
    try discriminate;
    try (injection H as <-; apply Nat.ltb_ge in Hpos; now split).
  apply Nat.ltb_lt in Hpos.
  destruct (step lx text st) as [st1|e] eqn:Hstep; [|discriminate].
  apply (IH st1 st'); [|exact H]. now apply (reached_step lx text st st1).
Qed.

(** From the initial state the loop runs out of fuel or goes on from any
    given reached state. *)
Lemma loop_through (lx : t) (text : string) (st : state) :
  reached lx text st ->
  forall fuel, loop fuel lx text init = None \/
               exists fuel', loop fuel lx text init = loop fuel' lx text st.
Proof.
  induction 1 as [|st st' Hreached IH Hpos Hstep]; intros fuel.
  - right. now exists fuel.
  - destruct (IH fuel) as [Hnone | [fuel' Heq]]; [now left|].
    destruct fuel' as [|fuel']; rewrite Heq; simpl;
      apply Nat.ltb_lt in Hpos; rewrite Hpos.
    + now left.
    + rewrite Hstep. right. now exists fuel'.
Qed.

Lemma count_type_app (ty : string) (a b : list Token) :
  count_type ty (a ++ b) = (count_type ty a + count_type ty b)%nat.
Proof.
  unfold count_type. now rewrite filter_app, length_app.
Qed.

Lemma pop_dedents_balance (indent_level line : Z) (stack : list Z) :
  forall tokens stack' tokens',
    pop_dedents indent_level line stack tokens = Ok (stack', tokens') ->
    count_type "INDENT" tokens' = count_type "INDENT" tokens /\
    (count_type "DEDENT" tokens' + List.length stack' =
     count_type "DEDENT" tokens + List.length stack)%nat.
Proof.
  induction stack as [|w stack IH]; intros tokens stack' tokens' H; simpl in H.
  - discriminate.
  - destruct (indent_level <? w).
    + apply IH in H. rewrite !count_type_app in H. simpl in *.
      change (count_type "INDENT" [DEDENT line]) with 0%nat in H.
      change (count_type "DEDENT" [DEDENT line]) with 1%nat in H. lia.
    + injection H as <- <-. split; reflexivity.
Qed.

Lemma handle_indent_balance (value : string) (line_num : Z) (stack : list Z)
    (tokens : list Token) (stack' : list Z) (tokens' : list Token) :
  handle_indent value line_num stack tokens = Ok (stack', tokens') ->
  stack' <> [] /\
  (count_type "INDENT" tokens' + List.length stack + count_type "DEDENT" tokens =
   count_type "INDENT" tokens + List.length stack' + count_type "DEDENT" tokens')%nat.
Proof.
  unfold handle_indent. intros H.
  remember (str_len value - 1) as lvl.
  destruct (push_indent lvl (line_num + 1) stack tokens) as [[s1 t1]|] eqn:Hpush;
    [|discriminate].
  cbn [bind fst snd] in H.
  destruct (pop_dedents lvl (line_num + 1) s1 t1) as [[s2 t2]|] eqn:Hpop; [|discriminate].
  cbn [bind fst snd] in H.
  destruct s2 as [|w s2]; [discriminate|]. cbn [top bind] in H.
  destruct (negb (lvl =? w)); [discriminate|]. injection H as <- <-.
  apply pop_dedents_balance in Hpop. destruct Hpop as [HpI HpD].
  split; [discriminate|].
  unfold push_indent in Hpush. destruct stack as [|w0 stack]; [discriminate|].
  cbn [top bind] in Hpush.
  destruct (lvl >? w0); injection Hpush as <- <-.
  - rewrite !count_type_app in *.
    change (count_type "INDENT" [INDENT (line_num + 1)]) with 1%nat in *.
    change (count_type "DEDENT" [INDENT (line_num + 1)]) with 0%nat in *.
    simpl List.length in *. lia.
  - simpl List.length in *. lia.
Qed.

Lemma action_of_spec (lx : t) (text : string) (pos : nat) (m : candidate) :
  select (compiled_specs lx) text pos = Some m ->
  exists spec, In spec (compiled_specs lx) /\
               cand_action m = spec_action spec /\ cand_token m = spec_token spec.
Proof.
  intros H. apply select_shape in H. destruct H as (spec & n & Hin & _ & ->).
  exists spec. auto.
Qed.

(** INDENT tokens and open levels: the stack is one longer than the
    INDENTs not yet closed by a DEDENT. *)
Lemma balance_invariant (lx : t) (text : string) (st : state) :
  (forall spec, In spec (compiled_specs lx) ->
     spec_token spec <> Some "INDENT" /\ spec_token spec <> Some "DEDENT") ->
  reached lx text st ->
  st_stack st <> [] /\
  (count_type "INDENT" (st_tokens st) + 1 =
   count_type "DEDENT" (st_tokens st) + List.length (st_stack st))%nat /\
  (handles_indentation lx = false -> st_stack st = [0]).
Proof.
  intros Hnames. induction 1 as [|st st' Hreached (IHne & IHbal & IHflat) Hpos Hstep].
  - split; [discriminate|]. split; [reflexivity | intros _; reflexivity].
  - apply step_inv in Hstep. destruct Hstep as (m & stack & tokens & Hsel & Hbranch & ->).
    cbn [st_stack st_tokens].
    destruct (action_of_spec _ _ _ _ Hsel) as (spec & Hin & Hact & Htok).
    destruct (is_handle_indent (cand_action m)) eqn:Hhi.
    + apply handle_indent_balance in Hbranch. destruct Hbranch as (Hne & H1).
      split; [exact Hne|]. split; [lia|].
      intros Hno. exfalso. unfold handles_indentation in Hno.
      apply Bool.not_true_iff_false in Hno. apply Hno.
      apply existsb_exists. exists spec. split; [exact Hin | now rewrite <- Hact].
    + destruct (negb (is_skip (cand_action m))); injection Hbranch as <- <-.
      * split; [exact IHne|]. split; [|exact IHflat].
        rewrite !count_type_app.
        destruct (Hnames spec Hin) as [HnI HnD]. rewrite <- Htok in HnI, HnD.
        assert (HI : count_type "INDENT"
                       [mkToken (cand_token m) (cand_value m) (st_line_num st)
                          (Z.of_nat (st_pos st) - st_line_start st + 1)] = 0%nat).
        { unfold count_type. cbn [filter tok_type].
          destruct (cand_token m) as [s|]; [|reflexivity].
          destruct (String.eqb s "INDENT") eqn:E; [|reflexivity].
          apply String.eqb_eq in E. congruence. }
        assert (HD : count_type "DEDENT"
                       [mkToken (cand_token m) (cand_value m) (st_line_num st)
                          (Z.of_nat (st_pos st) - st_line_start st + 1)] = 0%nat).
        { unfold count_type. cbn [filter tok_type].
          destruct (cand_token m) as [s|]; [|reflexivity].
          destruct (String.eqb s "DEDENT") eqn:E; [|reflexivity].
          apply String.eqb_eq in E. congruence. }
        rewrite HI, HD. lia.
      * repeat split; assumption.
Qed.

Lemma append_assoc (a b c : string) : (a ++ b) ++ c = a ++ (b ++ c).
Proof. induction a as [|x a IH]; simpl; [reflexivity | now rewrite IH]. Qed.

Lemma text_of_app (a b : list Token) : text_of (a ++ b) = text_of a ++ text_of b.
Proof.
  induction a as [|t a IH]; simpl; [reflexivity|].
  rewrite IH. now rewrite append_assoc.
Qed.

Lemma append_empty_r (s : string) : s ++ "" = s.
Proof. induction s as [|c s IH]; simpl; [reflexivity | now rewrite IH]. Qed.

(** With no spec that skips or handles indentation, the tokens spell the
    text before the position. *)
Lemma cover_invariant (lx : t) (text : string) (st : state) :
  (forall spec, In spec (compiled_specs lx) ->
     is_skip (spec_action spec) = false /\ is_handle_indent (spec_action spec) = false) ->
  reached lx text st ->
  text_of (st_tokens st) = take_str (st_pos st) text.
Proof.
  intros Hplain. induction 1 as [|st st' Hreached IH Hpos Hstep].
  - destruct text; reflexivity.
  - apply step_inv in Hstep. destruct Hstep as (m & stack & tokens & Hsel & Hbranch & ->).
    cbn [st_tokens st_pos].
    destruct (action_of_spec _ _ _ _ Hsel) as (spec & Hin & Hact & _).
    destruct (Hplain spec Hin) as [Hskip Hhi]. rewrite <- Hact in Hskip, Hhi.
    rewrite Hhi, Hskip in Hbranch. cbn [negb] in Hbranch. injection Hbranch as <- <-.
    apply select_shape in Hsel. destruct Hsel as (spec' & n & _ & _ & ->).
    cbn [cand_value cand_end].
    rewrite text_of_app, IH, substring_split. cbn [text_of tok_value].
    now rewrite append_empty_r.
Qed.

(** With matches that are never empty, one unit of fuel per remaining
    character is enough. *)
Lemma loop_terminates (lx : t) (text : string) :
  (forall spec, In spec (compiled_specs lx) ->
     forall pos n, spec_regex spec text pos = Some n -> (0 < n)%nat) ->
  forall fuel st,
    (String.length text <= st_pos st + fuel)%nat ->
    exists r, loop fuel lx text st = Some r.
Proof.
  intros Hnonempty. induction fuel as [|fuel IH]; intros st Hfuel; simpl;
    destruct (st_pos st <? String.length text)%nat eqn:Hpos;
    try (eexists; reflexivity).
  - apply Nat.ltb_lt in Hpos. lia.
  - destruct (step lx text st) as [st1|e] eqn:Hstep; [|eexists; reflexivity].
    apply IH. apply step_inv in Hstep.
    destruct Hstep as (m & stack & tokens & Hsel & _ & ->). cbn [st_pos].
    apply select_shape in Hsel. destruct Hsel as (spec & n & Hin & Hre & ->).
    cbn [cand_end]. specialize (Hnonempty spec Hin _ _ Hre). lia.
Qed.

(** A state whose selected match is empty and is not an indentation
    match is never left. *)
Lemma loop_stuck (lx : t) (text : string) (pos : nat) (m : candidate) :
  (pos < String.length text)%nat ->
  select (compiled_specs lx) text pos = Some m ->
  cand_end m = pos ->
  is_handle_indent (cand_action m) = false ->
  forall fuel st, st_pos st = pos -> loop fuel lx text st = None.
Proof.
  intros Hpos Hsel Hend Hhi. induction fuel as [|fuel IH]; intros st Hst; simpl;
    rewrite Hst; apply Nat.ltb_lt in Hpos; rewrite Hpos; [reflexivity|].
  unfold step. rewrite Hst, Hsel. cbv zeta. rewrite Hhi.
  destruct (negb (is_skip (cand_action m))); cbn [bind fst snd]; apply IH;
    cbn [st_pos]; exact Hend.
Qed.

End LexerRunFacts.

(** X2. Every ordinary token (its spec neither skips nor handles
    indentation) carries the line and column that the position finder
    reports for the offset at which it was matched. *)
Theorem token_position_is_found (lx : StatefulLexer.t) (text : string)
    (st : StatefulLexer.state) (m : StatefulLexer.candidate) :
  reached lx text st ->
  (StatefulLexer.st_pos st < String.length text)%nat ->
  StatefulLexer.select (StatefulLexer.compiled_specs lx) text (StatefulLexer.st_pos st) = Some m ->
  StatefulLexer.is_handle_indent (StatefulLexer.cand_action m) = false ->
  StatefulLexer.is_skip (StatefulLexer.cand_action m) = false ->
  exists st' tok,
    StatefulLexer.step lx text st = Ok st' /\
    StatefulLexer.st_tokens st' = (StatefulLexer.st_tokens st ++ [tok])%list /\
    tok_type tok = StatefulLexer.cand_token m /\
    tok_value tok = StatefulLexer.cand_value m /\
    LineColumnFinder.find text (Z.of_nat (StatefulLexer.st_pos st)) =
    Ok (tok_line tok, tok_col tok).
Proof.
  intros Hreached Hpos Hsel Hhi Hskip.
  destruct (LexerRunFacts.position_invariant lx text st Hreached) as [Hnum Hstart].
  unfold StatefulLexer.step. rewrite Hsel. cbv zeta. rewrite Hhi, Hskip.
  cbn [negb bind fst snd].
  eexists. eexists. split; [reflexivity|]. cbn [StatefulLexer.st_tokens].
  split; [reflexivity|]. cbn [tok_type tok_value tok_line tok_col].
  repeat split.
  rewrite LineCountFacts.find_closed_form by lia.
  rewrite Hnum, Hstart. f_equal. f_equal. lia.
Qed.

Lemma token_position_is_found_witness :
  exists st' tok,
    StatefulLexer.step indent_lexer indent_text StatefulLexer.init = Ok st' /\
    StatefulLexer.st_tokens st' = (StatefulLexer.st_tokens StatefulLexer.init ++ [tok])%list /\
    tok_type tok = Some "NAME" /\
    tok_value tok = "a" /\
    LineColumnFinder.find indent_text 0 = Ok (tok_line tok, tok_col tok).
Proof.
  apply (token_position_is_found indent_lexer indent_text StatefulLexer.init
           (StatefulLexer.mkCand "a" 1 None (Some "NAME"))).
  - constructor.
  - vm_compute. lia.
  - reflexivity.
  - reflexivity.
  - reflexivity.
Defined.

(** X3. When no spec can match the empty string, [tokenize] returns or
    raises after at most one iteration per character of the tab-expanded
    text. *)
Theorem tokenize_terminates (lx : StatefulLexer.t) (text : string) :
  (forall spec, In spec (StatefulLexer.compiled_specs lx) ->
     forall t pos n, spec_regex spec t pos = Some n -> (0 < n)%nat) ->
  exists r,
    StatefulLexer.tokenize
      (String.length (expandtabs (StatefulLexer.tab_width lx) text)) lx text = Some r.
Proof.
  intros Hnonempty. unfold StatefulLexer.tokenize.
  destruct (LexerRunFacts.loop_terminates lx (expandtabs (StatefulLexer.tab_width lx) text))
    with (fuel := String.length (expandtabs (StatefulLexer.tab_width lx) text))
         (st := StatefulLexer.init) as [r Hr].
  - intros spec Hin pos n. apply (Hnonempty spec Hin).
  - simpl. lia.
  - rewrite Hr. destruct r as [st|e]; [|eexists; reflexivity].
    destruct (StatefulLexer.handles_indentation lx); eexists; reflexivity.
Qed.

Lemma tokenize_terminates_witness :
  exists r,
    StatefulLexer.tokenize
      (String.length (expandtabs (StatefulLexer.tab_width indent_lexer) indent_text))
      indent_lexer indent_text = Some r.
Proof.
  apply (tokenize_terminates indent_lexer indent_text).
  intros spec [<- | [<- | []]] t pos n; cbn [spec_regex].
  - unfold re_identifier. destruct (span is_lower (drop_str pos t)); [discriminate|].
    intros H. injection H as <-. lia.
  - unfold re_newline_indent. destruct (drop_str pos t) as [|c rest]; [discriminate|].
    destruct (Ascii.eqb c newline); [|discriminate].
    intros H. injection H as <-. lia.
Defined.

(** X4. When the loop reaches a position before the end of the text at
    which the selected match is empty and is not an indentation match,
    [tokenize] never returns, whatever the fuel: the position does not
    advance. *)
Theorem empty_match_never_returns (lx : StatefulLexer.t) (text : string)
    (st : StatefulLexer.state) (m : StatefulLexer.candidate) (fuel : nat) :
  let expanded := expandtabs (StatefulLexer.tab_width lx) text in
  reached lx expanded st ->
  (StatefulLexer.st_pos st < String.length expanded)%nat ->
  StatefulLexer.select (StatefulLexer.compiled_specs lx) expanded (StatefulLexer.st_pos st)
    = Some m ->
  StatefulLexer.cand_end m = StatefulLexer.st_pos st ->
  StatefulLexer.is_handle_indent (StatefulLexer.cand_action m) = false ->
  StatefulLexer.tokenize fuel lx text = None.
Proof.
  intros expanded Hreached Hpos Hsel Hend Hhi.
  unfold StatefulLexer.tokenize. fold expanded.
  destruct (LexerRunFacts.loop_through lx expanded st Hreached fuel) as [-> | [fuel' ->]];
    [reflexivity|].
  now rewrite (LexerRunFacts.loop_stuck lx expanded _ m Hpos Hsel Hend Hhi fuel' st eq_refl).
Qed.

Lemma empty_match_never_returns_witness :
  StatefulLexer.tokenize 1000 empty_match_lexer "b" = None.
Proof.
  apply (empty_match_never_returns empty_match_lexer "b" StatefulLexer.init
           (StatefulLexer.mkCand "" 0 None (Some "A")) 1000).
  - constructor.
  - vm_compute. lia.
  - reflexivity.
  - reflexivity.
  - reflexivity.
Defined.

(** X5. When no spec names its token INDENT or DEDENT, every token list
    that [tokenize] returns has as many DEDENT tokens as INDENT tokens. *)
Theorem indents_are_closed (lx : StatefulLexer.t) (text : string) (fuel : nat)
    (tokens : list Token) :
  (forall spec, In spec (StatefulLexer.compiled_specs lx) ->
     spec_token spec <> Some "INDENT" /\ spec_token spec <> Some "DEDENT") ->
  StatefulLexer.tokenize fuel lx text = Some (Ok tokens) ->
  count_type "INDENT" tokens = count_type "DEDENT" tokens.
Proof.
  intros Hnames. unfold StatefulLexer.tokenize.
  destruct (StatefulLexer.loop fuel lx (expandtabs (StatefulLexer.tab_width lx) text)
              StatefulLexer.init) as [[st|e]|] eqn:Hloop; try discriminate.
  apply LexerRunFacts.loop_reached in Hloop; [|constructor].
  destruct Hloop as [Hreached _].
  destruct (LexerRunFacts.balance_invariant lx _ st Hnames Hreached) as (Hne & Hbal & Hflat).
  destruct (StatefulLexer.handles_indentation lx) eqn:Hhi; intros H; injection H as <-.
  - rewrite IndentFacts.final_dedents_run, !LexerRunFacts.count_type_app.
    assert (HI : forall n line, count_type "INDENT" (repeat (StatefulLexer.DEDENT line) n) = 0%nat)
      by (intros n line; induction n; [reflexivity | exact IHn]).
    assert (HD : forall n line, count_type "DEDENT" (repeat (StatefulLexer.DEDENT line) n) = n)
      by (intros n line; induction n as [|n IHn]; [reflexivity|];
          change (count_type "DEDENT" (repeat (StatefulLexer.DEDENT line) (S n)))
            with (S (count_type "DEDENT" (repeat (StatefulLexer.DEDENT line) n)));
          now rewrite IHn).
    rewrite HI, HD.
    destruct (StatefulLexer.st_stack st) as [|w stack]; [now contradiction Hne|].
    simpl List.length in *. lia.
  - rewrite (Hflat eq_refl) in Hbal. simpl in Hbal. lia.
Qed.

Lemma indents_are_closed_witness :
  exists tokens,
    StatefulLexer.tokenize 10 indent_lexer indent_text = Some (Ok tokens) /\
    count_type "INDENT" tokens = count_type "DEDENT" tokens.
Proof.
  eexists. split; [vm_compute; reflexivity|].
  apply (indents_are_closed indent_lexer indent_text 10).
  - intros spec [<- | [<- | []]]; split; discriminate.
  - vm_compute. reflexivity.
Defined.

(** X6. When no spec skips or handles indentation, the values of the
    returned tokens, one after the other, are the tab-expanded text. *)
Theorem tokens_spell_the_text (lx : StatefulLexer.t) (text : string) (fuel : nat)
    (tokens : list Token) :
  (forall spec, In spec (StatefulLexer.compiled_specs lx) ->
     StatefulLexer.is_skip (spec_action spec) = false /\
     StatefulLexer.is_handle_indent (spec_action spec) = false) ->
  StatefulLexer.tokenize fuel lx text = Some (Ok tokens) ->
  text_of tokens = expandtabs (StatefulLexer.tab_width lx) text.
Proof.
  intros Hplain. unfold StatefulLexer.tokenize.
  destruct (StatefulLexer.loop fuel lx (expandtabs (StatefulLexer.tab_width lx) text)
              StatefulLexer.init) as [[st|e]|] eqn:Hloop; try discriminate.
  apply LexerRunFacts.loop_reached in Hloop; [|constructor].
  destruct Hloop as [Hreached Hend].
  pose proof (LexerRunFacts.cover_invariant lx _ st Hplain Hreached) as Hcover.
  rewrite LexerRunFacts.take_str_all in Hcover by exact Hend.
  assert (Hno : StatefulLexer.handles_indentation lx = false).
  { unfold StatefulLexer.handles_indentation.
    apply Bool.not_true_iff_false. intros H. apply existsb_exists in H.
    destruct H as (spec & Hin & Hspec). destruct (Hplain spec Hin) as [_ H']. congruence. }
  rewrite Hno. intros H. injection H as <-. exact Hcover.
Qed.

Lemma tokens_spell_the_text_witness :
  exists tokens,
    StatefulLexer.tokenize 5 (StatefulLexer.mkLexer [mkSpec re_identifier None (Some "NAME")] 8) "ab"
      = Some (Ok tokens) /\
    text_of tokens = "ab".
Proof.
  eexists. split; [vm_compute; reflexivity|].
  apply (tokens_spell_the_text
           (StatefulLexer.mkLexer [mkSpec re_identifier None (Some "NAME")] 8) "ab" 5).
  - intros spec [<- | []]; split; reflexivity.
  - vm_compute. reflexivity.
Defined.

(** ** The always-empty lint terminates *)

Module AlwaysEmptyProgress.

Lemma memo_grows_refl (m : memo) : memo_grows m m.
Proof. intros k H. exact H. Qed.

Lemma memo_grows_trans (a b c : memo) : memo_grows a b -> memo_grows b c -> memo_grows a c.
Proof. intros Hab Hbc k H. apply Hbc, Hab, H. Qed.

Lemma memo_grows_set (name : string) (b : bool) (m : memo) : memo_grows m (memo_set name b m).
Proof.
  intros k H. destruct (string_dec name k) as [-> | Hne].
  - rewrite memo_get_set_same. discriminate.
  - now rewrite memo_get_set_other.
Qed.

Lemma no_verdict_mono (ks : list string) (m m' : memo) :
  memo_grows m m' ->
  (List.length (filter (no_verdict m') ks) <= List.length (filter (no_verdict m) ks))%nat.
Proof.
  intros Hgrows. induction ks as [|k ks IH]; cbn [filter]; [lia|].
  destruct (no_verdict m' k) eqn:Hm', (no_verdict m k) eqn:Hm; cbn [List.length]; try lia.
  exfalso. unfold no_verdict in Hm, Hm'. specialize (Hgrows k).
  destruct (memo_get k m) as [v|]; [|discriminate].
  destruct (memo_get k m') as [v'|]; [discriminate|].
  apply Hgrows; [discriminate | reflexivity].
Qed.

Lemma unvisited_mono (rules : dict) (m m' : memo) :
  memo_grows m m' -> (unvisited rules m' <= unvisited rules m)%nat.
Proof. apply no_verdict_mono. Qed.

(** Entering a rule that has no verdict yet leaves fewer rules without one. *)
Lemma unvisited_set (rules : dict) (name : string) (b : bool) (m : memo) :
  dict_has name rules = true ->
  memo_get name m = None ->
  (unvisited rules (memo_set name b m) < unvisited rules m)%nat.
Proof.
  intros Hhas Hnone. apply dict_has_In in Hhas. unfold unvisited.
  induction (keys rules) as [|k ks IH]; [contradiction|].
  pose proof (no_verdict_mono ks m (memo_set name b m) (memo_grows_set name b m)) as Hle.
  cbn [filter]. destruct (string_dec k name) as [-> | Hne].
  - assert (Hnow : no_verdict (memo_set name b m) name = false)
      by (unfold no_verdict; now rewrite memo_get_set_same).
    assert (Hwas : no_verdict m name = true) by (unfold no_verdict; now rewrite Hnone).
    rewrite Hnow, Hwas. cbn [List.length]. lia.
  - assert (Hsame : no_verdict (memo_set name b m) k = no_verdict m k).
    { unfold no_verdict. now rewrite memo_get_set_other by congruence. }
    rewrite Hsame.
    destruct Hhas as [Heq | Hin]; [congruence|]. specialize (IH Hin).
    destruct (no_verdict m k); cbn [List.length]; lia.
Qed.

Lemma unvisited_le (rules : dict) (m : memo) : (unvisited rules m <= List.length rules)%nat.
Proof.
  unfold unvisited, keys.
  rewrite <- (length_map fst rules). apply filter_length_le.
Qed.

Ltac answered :=
  eexists; split;
  [reflexivity
  | let Heq := fresh in
    intros ? ? Heq;
    first [discriminate Heq | injection Heq as <- <-; apply memo_grows_refl]].

Section Progress.

Variables (grammar_dict rules : dict) (bound : nat).
Hypothesis Hrules : dict_get "rules" grammar_dict = Some (VDict rules).

Let within (m : memo) : Prop := (unvisited rules m <= bound)%nat.

Lemma all_with_answers (f : value -> memo -> fueled (bool * memo)) (l : list value) :
  Forall (fun x => forall m, within m -> answers_keeping f x m) l ->
  forall m, within m -> answers_keeping (all_with f) l m.
Proof.
  unfold answers_keeping.
  induction 1 as [|x l Hx Hl IH]; intros m Hm; cbn [all_with].
  - answered.
  - destruct (Hx m Hm) as (r & Hr & Hgrows). rewrite Hr.
    destruct r as [[b m1]|e]; cbn [fbind fst snd].
    + specialize (Hgrows b m1 eq_refl).
      destruct b.
      * destruct (IH m1) as (r' & Hr' & Hgrows').
        { unfold within in *. pose proof (unvisited_mono rules m m1 Hgrows). lia. }
        exists r'. split; [exact Hr'|].
        intros b' m' ->. eapply memo_grows_trans; [exact Hgrows | now apply (Hgrows' b')].
      * eexists. split; [reflexivity|]. intros b' m' [= <- <-]. exact Hgrows.
    + eexists. split; [reflexivity|]. intros; discriminate.
Qed.

Lemma def_answers (is_rule : value -> memo -> fueled (bool * memo)) :
  (forall x m, within m -> answers_keeping is_rule x m) ->
  forall rule_def m,
    within m -> answers_keeping (_is_def_always_empty grammar_dict is_rule) rule_def m.
Proof.
  intros Hrule rule_def.
  set (P := fun v => forall m, within m ->
                answers_keeping (_is_def_always_empty grammar_dict is_rule) v m).
  enough (Hboth : P rule_def /\
                  match rule_def with
                  | VList l => Forall P l
                  | _ => True
                  end) by apply Hboth.
  induction rule_def as [| | | | |l IH|d IH] using value_nested_ind;
    (split; [|try exact I]);
    try (intros m Hm; unfold answers_keeping; cbn [_is_def_always_empty]; answered).
  { apply Forall_forall. intros x Hx. rewrite Forall_forall in IH. now apply IH. }
  intros m Hm. unfold answers_keeping. cbn [_is_def_always_empty].
  rewrite Forall_forall in IH.
  assert (Hsub : forall k v, dict_get k d = Some v -> P v).
  { intros k v Hget. apply (IH (k, v)). now apply dict_get_In. }
  assert (Hall : forall k l, dict_get k d = Some (VList l) -> Forall P l).
  { intros k l Hget. apply (IH (k, VList l)). now apply dict_get_In. }
  destruct (py_get (VDict d) "ast" (VDict [])) as [ast_config|]; cbn [fbind lift];
    [|answered].
  destruct (py_get ast_config "discard" VNone) as [discard|]; cbn [fbind lift]; [|answered].
  destruct (truthy discard); [answered|].
  destruct (py_in "structure" ast_config) as [[|]|]; cbn [fbind lift]; try answered.
  destruct (dict_has "rule" d).
  { rewrite with_entry_get. destruct (dict_get "rule" d) as [r|]; [|answered].
    apply (Hrule r m Hm). }
  destruct (py_get (VDict grammar_dict) "lexer" VNone) as [lexer|]; cbn [fbind lift];
    [|answered].
  destruct (truthy lexer && dict_has "token" d).
  { destruct (py_getitem (VDict d) "token") as [token_type|]; cbn [fbind lift]; [|answered].
    destruct (py_get lexer "tokens" (VList [])) as [tokens|]; cbn [fbind lift]; [|answered].
    destruct (py_iter tokens) as [specs|]; cbn [fbind lift]; [|answered].
    destruct (token_spec_empty token_type specs); cbn [fbind lift]; answered. }
  destruct (py_get ast_config "leaf" VNone) as [leaf|]; cbn [fbind lift]; [|answered].
  destruct (dict_has "literal" d || dict_has "regex" d || truthy leaf); [answered|].
  destruct (dict_has "positive_lookahead" d || dict_has "negative_lookahead" d); [answered|].
  destruct (dict_has "choice" d).
  { rewrite with_entry_get. destruct (dict_get "choice" d) as [alts|] eqn:Hget; [|answered].
    destruct alts; try answered.
    apply (all_with_answers _ _ (Hall _ _ Hget) m Hm). }
  destruct (dict_has "sequence" d).
  { rewrite with_entry_get. destruct (dict_get "sequence" d) as [sq|] eqn:Hget; [|answered].
    destruct sq; try answered.
    destruct (any_named l) as [[|]|]; cbn [fbind lift]; try answered.
    apply (all_with_answers _ _ (Hall _ _ Hget) m Hm). }
  destruct (dict_has "one_or_more" d).
  { rewrite with_entry_get. destruct (dict_get "one_or_more" d) as [inner|] eqn:Hget;
      [|answered].
    apply (Hsub _ _ Hget m Hm). }
  destruct (dict_has "zero_or_more" d).
  { rewrite with_entry_get. destruct (dict_get "zero_or_more" d) as [inner|] eqn:Hget;
      [|answered].
    apply (Hsub _ _ Hget m Hm). }
  destruct (dict_has "optional" d).
  { rewrite with_entry_get. destruct (dict_get "optional" d) as [inner|] eqn:Hget;
      [|answered].
    apply (Hsub _ _ Hget m Hm). }
  answered.
Qed.

End Progress.

(** With one unit of fuel for every rule that has no verdict yet, the
    classification of a rule answers. *)
Lemma rule_answers (grammar_dict rules : dict) :
  dict_get "rules" grammar_dict = Some (VDict rules) ->
  forall fuel x m,
    (unvisited rules m <= fuel)%nat ->
    answers_keeping (_is_rule_always_empty fuel grammar_dict) x m.
Proof.
  intros Hrules. induction fuel as [|fuel IH]; intros x m Hm; unfold answers_keeping;
    (destruct x as [| | | |name|l|d]; try (cbn [_is_rule_always_empty]; answered));
    cbn [_is_rule_always_empty];
    (destruct (memo_get name m) as [verdict|] eqn:Hmg; [answered|]);
    unfold py_getitem at 1; rewrite Hrules; cbn [fbind lift py_in];
    (destruct (dict_has name rules) eqn:Hhas; cbn [negb]; [|answered]).
  - pose proof (unvisited_set rules name false m Hhas Hmg). lia.
  - destruct (py_getitem (VDict rules) name) as [rule_def|]; cbn [fbind lift]; [|answered].
    destruct (def_answers grammar_dict rules fuel (_is_rule_always_empty fuel grammar_dict)
                IH rule_def (memo_set name false m)) as (r & Hr & Hgrows).
    { pose proof (unvisited_set rules name false m Hhas Hmg). lia. }
    rewrite Hr. destruct r as [[b m2]|e]; cbn [fbind fst snd].
    + eexists. split; [reflexivity|]. intros b' m' [= <- <-].
      eapply memo_grows_trans; [apply memo_grows_set|].
      eapply memo_grows_trans; [apply (Hgrows b m2 eq_refl)|]. apply memo_grows_set.
    + eexists. split; [reflexivity|]. intros; discriminate.
Qed.

Lemma collect_answers (grammar_dict rules : dict) (fuel : nat) :
  dict_get "rules" grammar_dict = Some (VDict rules) ->
  forall some_rules m,
    (unvisited rules m <= fuel)%nat ->
    exists r, collect_empty fuel grammar_dict some_rules m = Some r.
Proof.
  intros Hrules. induction some_rules as [|[n rd] rest IH]; intros m Hm; cbn [collect_empty].
  - eexists. reflexivity.
  - destruct (py_get rd "ast" (VDict [])) as [a|]; cbn [fbind lift]; [|eexists; reflexivity].
    destruct (py_get a "discard" VNone) as [discard|]; cbn [fbind lift];
      [|eexists; reflexivity].
    destruct (truthy discard); [now apply IH|].
    destruct (py_in "positive_lookahead" rd) as [positive|]; cbn [fbind lift];
      [|eexists; reflexivity].
    destruct (if positive then Ok true else py_in "negative_lookahead" rd) as [[|]|];
      cbn [fbind lift]; [now apply IH | | eexists; reflexivity].
    destruct (rule_answers grammar_dict rules Hrules fuel (VStr n) m Hm) as (r & Hr & Hgrows).
    rewrite Hr. destruct r as [[b m1]|e]; cbn [fbind fst snd]; [|eexists; reflexivity].
    destruct (IH m1) as [r' Hr'].
    { pose proof (unvisited_mono rules m m1 (Hgrows b m1 eq_refl)). lia. }
    rewrite Hr'. destruct r'; cbn [fbind ret]; eexists; reflexivity.
Qed.

End AlwaysEmptyProgress.

(** ** The report of the always-empty lint *)

Lemma insert_sorted_In (x y : string) (l : list string) :
  In x (insert_sorted y l) <-> x = y \/ In x l.
Proof.
  induction l as [|z l IH]; cbn [insert_sorted].
  - cbn [In]. intuition.
  - destruct (String.leb y z); cbn [In]; [intuition|]. rewrite IH. intuition.
Qed.

Lemma sorted_In (x : string) (l : list string) : In x (sorted l) <-> In x l.
Proof.
  unfold sorted. induction l as [|y l IH]; cbn [fold_right]; [reflexivity|].
  rewrite insert_sorted_In, IH. cbn [In]. intuition.
Qed.

(** C7 (as amended). A lookahead node is a base case of the always-empty
    classification and is classified empty.  A rule whose body is a
    sequence of lookaheads only is therefore classified always-empty, and
    the lint reports it: with one unit of fuel for every rule the lint
    ends, and it ends in its [ValueError] with the rule among the sorted
    names of the message, unless the scan of the rules has raised an
    exception of its own, which is then what the lint raises.  Only a rule
    whose body is itself a lookahead is left out of the report. *)
Theorem lookahead_classified_empty :
  (forall grammar_dict is_rule d m,
     found_keys d = ["positive_lookahead"] \/ found_keys d = ["negative_lookahead"] ->
     dict_get "ast" d = None ->
     _is_def_always_empty grammar_dict is_rule (VDict d) m = ret (true, m)) /\
  (forall fuel grammar_dict rules body name parts m,
     dict_get "rules" grammar_dict = Some (VDict rules) ->
     dict_get name rules = Some (VDict body) ->
     found_keys body = ["sequence"] ->
     dict_get "ast" body = None ->
     dict_get "sequence" body = Some (VList parts) ->
     Forall plain_lookahead parts ->
     memo_get name m = None ->
     _is_rule_always_empty (S fuel) grammar_dict (VStr name) m =
     ret (true, memo_set name true (memo_set name false m))) /\
  (forall grammar_dict rules body name parts spare,
     dict_get "rules" grammar_dict = Some (VDict rules) ->
     dict_get name rules = Some (VDict body) ->
     found_keys body = ["sequence"] ->
     dict_get "ast" body = None ->
     dict_get "sequence" body = Some (VList parts) ->
     Forall plain_lookahead parts ->
     let fuel := (rule_count grammar_dict + spare)%nat in
     (exists names,
        collect_empty fuel grammar_dict rules [] = Some (Ok names) /\
        In name (sorted names) /\
        _check_for_always_empty_rules fuel grammar_dict =
        Some (Raise (always_empty_report names))) \/
     (exists e,
        collect_empty fuel grammar_dict rules [] = Some (Raise e) /\
        _check_for_always_empty_rules fuel grammar_dict = Some (Raise e))) /\
  (forall fuel grammar_dict rest d name m,
     found_keys d = ["positive_lookahead"] \/ found_keys d = ["negative_lookahead"] ->
     dict_get "ast" d = None ->
     collect_empty fuel grammar_dict ((name, VDict d) :: rest) m =
     collect_empty fuel grammar_dict rest m).
Proof.
  split; [|split; [|split]].
  - intros. now apply lookahead_def_always_empty.
  - intros. now apply lookahead_sequence_rule_empty with (rules := rules) (body := body) (parts := parts).
  - intros g rules body name parts spare Hrules Hname Hkeys Hast Hseq Hparts fuel.
    assert (Hcount : rule_count g = List.length rules).
    { unfold rule_count. now rewrite Hrules. }
    assert (Hpos : exists n, fuel = S n).
    { subst fuel. rewrite Hcount. apply dict_get_In in Hname.
      destruct rules; [contradiction|]. cbn [List.length]. eexists. reflexivity. }
    destruct Hpos as [n Hn].
    destruct (AlwaysEmptyProgress.collect_answers g rules fuel Hrules rules []) as [r Hr].
    { pose proof (AlwaysEmptyProgress.unvisited_le rules []). subst fuel. lia. }
    unfold _check_for_always_empty_rules, py_getitem. rewrite Hrules. cbn [lift fbind].
    rewrite Hr. destruct r as [names|e]; cbn [fbind].
    + left. exists names. split; [reflexivity|].
      assert (Hin : In name names).
      { rewrite Hn in Hr.
        eapply (collect_reports g rules body name parts); eauto.
        - unfold never_cleared. discriminate.
        - now apply dict_get_In. }
      split; [now apply sorted_In|].
      destruct names; [contradiction | reflexivity].
    + right. exists e. split; reflexivity.
  - intros fuel g rest d name m Hkeys Hast.
    cbn [collect_empty]. unfold py_get at 1. rewrite Hast.
    cbn [lift fbind py_get dict_get truthy py_in].
    destruct Hkeys as [Hk | Hk].
    + rewrite (single_key_present _ _ Hk). reflexivity.
    + rewrite (single_key_others d _ "positive_lookahead" Hk eq_refl) by discriminate.
      cbn [lift fbind]. rewrite (single_key_present _ _ Hk). reflexivity.
Qed.

(** On the grammar whose rule [main] is a sequence of two lookaheads the
    scan raises nothing, and the lint names [main]. *)
Lemma lookahead_classified_empty_witness :
  exists names,
    collect_empty 1 lookahead_grammar
      [("main", VDict [("sequence",
          VList [lookahead_node;
                 VDict [("negative_lookahead", VDict [("literal", VStr "b")])]])])] []
    = Some (Ok names) /\
    In "main" (sorted names) /\
    _check_for_always_empty_rules 1 lookahead_grammar = Some (Raise (always_empty_report names)).
Proof.
  destruct lookahead_classified_empty as (_ & _ & Hreport & _).
  destruct (Hreport lookahead_grammar
              [("main", VDict [("sequence",
                  VList [lookahead_node;
                         VDict [("negative_lookahead", VDict [("literal", VStr "b")])]])])]
              [("sequence",
                  VList [lookahead_node;
                         VDict [("negative_lookahead", VDict [("literal", VStr "b")])]])]
              "main"
              [lookahead_node; VDict [("negative_lookahead", VDict [("literal", VStr "b")])]]
              0%nat eq_refl eq_refl eq_refl eq_refl eq_refl)
    as [Hnames | (e & Hraise & _)].
  - apply Forall_cons; [|apply Forall_cons; [|apply Forall_nil]];
      eexists; (split; [reflexivity|]); (split; [|reflexivity]);
      [now left | now right].
  - exact Hnames.
  - vm_compute in Hraise. discriminate Hraise.
Defined.

(** X7. The always-empty lint terminates on every grammar, also when
    rules refer to each other in a cycle: the memo entry written before a
    rule is entered stops the recursion, so that entering each rule once,
    one unit of fuel per rule, is enough for the lint to return or raise. *)
Theorem always_empty_lint_terminates (grammar_dict : dict) (spare : nat) :
  exists r, _check_for_always_empty_rules (rule_count grammar_dict + spare) grammar_dict = Some r.
Proof.
  unfold _check_for_always_empty_rules, rule_count, py_getitem.
  destruct (dict_get "rules" grammar_dict) as [rules|] eqn:Hrules; cbn [fbind lift];
    [|eexists; reflexivity].
  destruct rules as [| | | | | |rs]; try (eexists; reflexivity).
  destruct (AlwaysEmptyProgress.collect_answers grammar_dict rs (List.length rs + spare)
              Hrules rs []) as [r Hr].
  { pose proof (AlwaysEmptyProgress.unvisited_le rs []). lia. }
  rewrite Hr. destruct r as [names|e]; cbn [fbind]; [|eexists; reflexivity].
  destruct names; eexists; reflexivity.
Qed.
(** ** Cleaning twice *)

Lemma dict_set_twice (k : string) (v : value) (d : dict) :
  dict_set k v (dict_set k v d) = dict_set k v d.
Proof.
  induction d as [|[k' w] d IH]; cbn [dict_set].
  - now rewrite String.eqb_refl.
  - destruct (String.eqb k' k) eqn:Heq; cbn [dict_set].
    + now rewrite String.eqb_refl.
    + now rewrite Heq, IH.
Qed.

Lemma clean_items_fixed (l : list value) :
  Forall (fun x => forall r, _cleanup_ast x = Ok r -> _cleanup_ast r = Ok r) l ->
  forall l', clean_items _cleanup_ast l = Ok l' -> clean_items _cleanup_ast l' = Ok l'.
Proof.
  induction 1 as [|item rest Hitem Hrest IH]; intros l' H; cbn [clean_items] in H.
  - injection H as <-. reflexivity.
  - destruct (has_internal_tag item) as [[|]|] eqn:Hint; cbn [bind] in H; [| |discriminate].
    + now apply IH.
    + destruct (_cleanup_ast item) as [cleaned|] eqn:Hclean; cbn [bind] in H; [|discriminate].
      destruct (clean_items _cleanup_ast rest) as [others|] eqn:Hothers; cbn [bind] in H;
        [|discriminate].
      injection H as <-. cbn [clean_items].
      rewrite (cleanup_keeps_tag _ _ Hclean), Hint. cbn [bind].
      rewrite (Hitem _ eq_refl). cbn [bind]. now rewrite (IH _ eq_refl).
Qed.

Lemma clean_entries_fixed (d : dict) :
  Forall (fun e => forall r, _cleanup_ast (snd e) = Ok r -> _cleanup_ast r = Ok r) d ->
  forall d', clean_entries _cleanup_ast d = Ok d' -> clean_entries _cleanup_ast d' = Ok d'.
Proof.
  induction 1 as [|[key v] rest Hv Hrest IH]; intros d' H; cbn [clean_entries] in H.
  - injection H as <-. reflexivity.
  - cbn [snd] in Hv.
    destruct (has_internal_tag v) as [[|]|] eqn:Hint; cbn [bind] in H; [| |discriminate].
    + now apply IH.
    + destruct (_cleanup_ast v) as [cleaned|] eqn:Hclean; cbn [bind] in H; [|discriminate].
      destruct (clean_entries _cleanup_ast rest) as [others|] eqn:Hothers; cbn [bind] in H;
        [|discriminate].
      injection H as <-. cbn [clean_entries].
      rewrite (cleanup_keeps_tag _ _ Hclean), Hint. cbn [bind].
      rewrite (Hv _ eq_refl). cbn [bind]. now rewrite (IH _ eq_refl).
Qed.

(** X8. The cleanup pass is idempotent: cleaning an AST that came out of
    the cleanup pass returns it unchanged. *)
Theorem cleanup_is_idempotent (v r : value) :
  _cleanup_ast v = Ok r -> _cleanup_ast r = Ok r.
Proof.
  revert r.
  induction v as [| | | | |l IH|d IH] using value_nested_ind; intros r Hr;
    cbn [_cleanup_ast] in Hr; try (injection Hr as <-; reflexivity).
  - destruct (clean_items _cleanup_ast l) as [l'|] eqn:Hl; cbn [bind] in Hr; [|discriminate].
    injection Hr as <-. cbn [_cleanup_ast].
    now rewrite (clean_items_fixed l IH l' Hl).
  - destruct (dict_has "tag" d) eqn:Htag.
    + rewrite with_entry_get in Hr.
      destruct (dict_get "children" d) as [c|] eqn:Hc.
      * destruct (_cleanup_ast c) as [cleaned|] eqn:Hclean; cbn [bind] in Hr; [|discriminate].
        injection Hr as <-. cbn [_cleanup_ast].
        rewrite dict_has_set_other by discriminate. rewrite Htag.
        rewrite with_entry_get, dict_get_set_same.
        rewrite Forall_forall in IH.
        rewrite (IH ("children", c) (dict_get_In _ _ _ Hc) cleaned Hclean). cbn [bind].
        now rewrite dict_set_twice.
      * injection Hr as <-. cbn [_cleanup_ast]. now rewrite Htag, with_entry_get, Hc.
    + destruct (clean_entries _cleanup_ast d) as [d'|] eqn:Hd; cbn [bind] in Hr; [|discriminate].
      injection Hr as <-. cbn [_cleanup_ast].
      rewrite (clean_entries_keys _ _ _ _ Hd Htag).
      now rewrite (clean_entries_fixed d IH d' Hd).
Qed.

Lemma cleanup_is_idempotent_witness :
  exists r, _cleanup_ast sample_block = Ok r /\ _cleanup_ast r = Ok r.
Proof.
  eexists. split; [reflexivity|].
  apply (cleanup_is_idempotent sample_block). reflexivity.
Defined.

(** ** The flattening loop *)

Lemma flatten_app (a b : list value) : flatten_all (a ++ b) = (flatten_all a ++ flatten_all b)%list.
Proof. unfold flatten_all. now rewrite map_app, concat_app. Qed.

Lemma flatten_stack_spec (stack flat_list : list value) :
  flatten_stack stack flat_list = (flat_list ++ flatten_all stack)%list.
Proof.
  funelim (flatten_stack stack flat_list); simp flatten_stack;
    try (rewrite H; clear H);
    unfold flatten_all; cbn [map List.concat flatten List.app];
    rewrite <- ?app_assoc; cbn [List.app]; rewrite ?app_nil_r; try reflexivity.
  fold (flatten_all l). fold (flatten_all rest). fold (flatten_all (l ++ rest)).
  now rewrite flatten_app.
Qed.

Lemma flatten_is_flat (v : value) :
  Forall (fun x => is_list x = false /\ is_none x = false) (flatten v).
Proof.
  induction v as [| | | | |l IH|d IH] using value_nested_ind; cbn [flatten];
    try (constructor; [split; reflexivity | constructor]); try constructor.
  induction IH as [|x l Hx Hl IHl]; cbn [map List.concat]; [constructor|].
  apply Forall_app. split; assumption.
Qed.

(** X9. The explicit-stack loop that flattens the children of a promoted
    or default node returns them in depth-first, left-to-right order, with
    every nested list spliced in and every [None] dropped: it computes the
    recursive flattening, and no element of its result is a list or
    [None]. *)
Theorem flatten_stack_is_flat (children : list value) :
  flatten_stack children [] = flatten_all children /\
  Forall (fun x => is_list x = false /\ is_none x = false) (flatten_stack children []).
Proof.
  rewrite flatten_stack_spec. cbn [List.app]. split; [reflexivity|].
  unfold flatten_all. induction children as [|v rest IH]; cbn [map List.concat]; [constructor|].
  apply Forall_app. split; [apply flatten_is_flat | exact IH].
Qed.

(** ** Fall-forward selection *)

Lemma py_index_nth {A : Type} (l : list A) (i : nat) :
  py_index l (Z.of_nat i) =
  match nth_error l i with
  | Some a => Ok a
  | None => Raise IndexError
  end.
Proof.
  unfold py_index.
  replace (Z.of_nat i <? 0) with false by (symmetry; apply Z.ltb_ge; lia).
  replace (Z.of_nat i <? 0) with false by (symmetry; apply Z.ltb_ge; lia).
  now rewrite Nat2Z.id.
Qed.

Lemma scan_forward_finds (l : list value) :
  forall (n i : nat),
    (i + n = List.length l)%nat ->
    scan_forward (VList l) (Z.of_nat i) n =
    Ok (match find (fun c => negb (is_placeholder c)) (skipn i l) with
        | Some c => c
        | None => VNone
        end).
Proof.
  induction n as [|n IH]; intros i Hlen; cbn [scan_forward].
  - rewrite skipn_all2 by lia. reflexivity.
  - cbn [py_getitem_int]. rewrite py_index_nth.
    destruct (nth_error l i) as [c|] eqn:Hnth.
    2:{ apply nth_error_None in Hnth. lia. }
    cbn [bind].
    assert (Hskip : skipn i l = c :: skipn (S i) l).
    { clear IH Hlen. revert i Hnth. induction l as [|x l IHl]; intros i Hnth.
      - destruct i; discriminate.
      - destruct i as [|i]; cbn in *; [congruence | now apply IHl]. }
    rewrite Hskip. cbn [find].
    destruct (negb (is_placeholder c)); [reflexivity|].
    replace (Z.of_nat i + 1) with (Z.of_nat (S i)) by lia.
    apply IH. lia.
Qed.

(** X10. In a [structure] with [map_children], the child bound to a name
    with a non-negative [from_child: i] is the first visited child at
    index [i] or later that is neither [None] nor an empty list; when
    there is none, the name is left unbound. *)
Theorem map_children_falls_forward (name : string) (mapping : dict) (i : Z)
    (rest : dict) (child_nodes : list value) (acc : dict) :
  0 <= i ->
  dict_get "from_child" mapping = Some (VInt i) ->
  map_children ((name, VDict mapping) :: rest) (VList child_nodes) acc =
  map_children rest (VList child_nodes)
    (match find (fun c => negb (is_placeholder c)) (skipn (Z.to_nat i) child_nodes) with
     | Some c => dict_set name c acc
     | None => acc
     end).
Proof.
  intros Hi Hget. cbn [map_children py_getitem py_len as_int]. rewrite Hget. cbn [bind as_int].
  assert (Hscan : scan_forward (VList child_nodes) i (Z.to_nat (len child_nodes - i)) =
                  Ok (match find (fun c => negb (is_placeholder c))
                              (skipn (Z.to_nat i) child_nodes) with
                      | Some c => c
                      | None => VNone
                      end)).
  { unfold len. destruct (Z_lt_le_dec (Z.of_nat (List.length child_nodes)) i) as [Hout | Hin].
    - replace (Z.to_nat (Z.of_nat (List.length child_nodes) - i)) with 0%nat by lia.
      cbn [scan_forward]. rewrite skipn_all2 by lia. reflexivity.
    - rewrite <- (Z2Nat.id i) at 1 by exact Hi.
      apply scan_forward_finds. lia. }
  rewrite Hscan. cbn [bind].
  destruct (find (fun c => negb (is_placeholder c)) (skipn (Z.to_nat i) child_nodes))
    as [c|] eqn:Hfind.
  - apply find_some in Hfind. destruct Hfind as [_ Hreal]. now rewrite Hreal.
  - reflexivity.
Qed.

Lemma map_children_falls_forward_witness :
  map_children [("value", VDict [("from_child", VInt 1)])]
    (VList [VStr "a"; VNone; VList []; VStr "b"]) [] = Ok [("value", VStr "b")].
Proof.
  rewrite (map_children_falls_forward "value" [("from_child", VInt 1)] 1 []
             [VStr "a"; VNone; VList []; VStr "b"] []); [reflexivity | lia | reflexivity].
Defined.

(** ** Exceptions of the visitor *)

Lemma visit_raises_wrapped (number_of : string -> option value) (self : AstBuilderVisitor)
    (node : Node) :
  forall token_idx e,
    visit number_of self node token_idx = Raise e -> exists cause, e = VisitationError cause.
Proof.
  induction node as [name kind txt pos kids IH] using Node_nested_ind.
  intros token_idx e H. cbn [visit] in H.
  match type of H with
  | bind ?m _ = _ => destruct m as [r|e'] eqn:Hkids
  end; cbn [bind] in H.
  - unfold wrap_visitation in H.
    destruct (generic_visit number_of self (snd r) (mkNode name kind txt pos kids) (fst r))
      as [a|[]]; try discriminate; injection H as <-; eauto.
  - injection H as <-. clear - IH Hkids.
    revert token_idx Hkids. induction IH as [|kid rest Hkid Hrest IHrest]; intros idx Hkids.
    + discriminate.
    + destruct (visit number_of self kid idx) as [r1|e1] eqn:Hv; cbn [bind] in Hkids.
      * match type of Hkids with
        | bind ?m _ = _ => destruct m as [rs|e2] eqn:Hrs
        end; cbn [bind] in Hkids; [discriminate|].
        injection Hkids as <-. now apply (IHrest (snd r1)).
      * injection Hkids as <-. now apply (Hkid idx).
Qed.

(** X11. An exception raised while the AST is built reaches the caller
    of [parse]: on a grammar without a lexer, when the matcher returns a
    tree and the visitor raises on it, [parse] raises that exception, a
    [VisitationError], instead of returning an error result. *)
Theorem visitor_errors_propagate (number_of : string -> option value)
    (matcher_message : exn -> string) (fuel : nat) (text : string) (config : grammar_config)
    (start_rule : string) (visitor : AstBuilderVisitor) (tree : Node) (e : exn) :
  cfg_is_token_grammar config = false ->
  new_visitor (cfg_grammar_dict config) text None = Ok visitor ->
  grammar_parse config start_rule text = Ok tree ->
  visit number_of visitor tree 0 = Raise e ->
  _parse_internal number_of matcher_message fuel text config (Some start_rule) =
    Some (Raise e) /\
  exists cause, e = VisitationError cause.
Proof.
  intros Htoken Hvisitor Htree Hvisit.
  destruct (visit_raises_wrapped number_of visitor tree 0 e Hvisit) as [cause ->].
  split; [|eauto].
  unfold _parse_internal. rewrite Htoken, Hvisitor. cbn [guarded lift].
  rewrite Htree. cbn [guarded]. rewrite Hvisit. reflexivity.
Qed.

Lemma visitor_errors_propagate_witness :
  _parse_internal (fun _ => None) (fun _ => "") 0 "x" number_leaf_config (Some "n") =
    Some (Raise (VisitationError (ValueError "could not convert string to float"))) /\
  exists cause,
    VisitationError (ValueError "could not convert string to float") = VisitationError cause.
Proof.
  apply (visitor_errors_propagate (fun _ => None) (fun _ => "") 0 "x" number_leaf_config "n"
           (mkVisitor number_leaf_grammar
              [("n", VDict [("regex", VStr "x"); ("ast", VDict [("type", VStr "number")])])]
              "x" None [])
           (mkNode "n" Regex "x" 0 [])); reflexivity.
Defined.

(** ** [validate] *)

(** X12. [validate] never fails on the lookups in the result of [parse]:
    whenever [parse] returns, [validate] returns [(True, 'success')] when the
    result is a success and [(False, message)] with the message of the
    error result otherwise. *)
Theorem validate_follows_parse (number_of : string -> option value)
    (matcher_message : exn -> string) (fuel : nat) (text : string) (config : grammar_config)
    (result : value) :
  _parse_internal number_of matcher_message fuel text config None = Some (Ok result) ->
  (exists ast, result = success ast /\
     validate number_of matcher_message fuel text config = Some (Ok (true, VStr "success"))) \/
  (exists message, result = error message /\
     validate number_of matcher_message fuel text config = Some (Ok (false, VStr message))).
Proof.
  intros H.
  pose proof (parse_internal_settled number_of matcher_message fuel text config None) as Hs.
  unfold validate. rewrite H in *. cbn [fbind settled] in *.
  destruct Hs as [[ast ->] | [message ->]]; [left; exists ast | right; exists message];
    (split; [reflexivity|]); reflexivity.
Qed.

Lemma validate_follows_parse_witness :
  (exists ast, error "Syntax error at L1:C1 near 'x...'" = success ast /\
     validate (fun _ => None) (fun _ => "") 0 "x" hoisted_config =
       Some (Ok (true, VStr "success"))) \/
  (exists message, error "Syntax error at L1:C1 near 'x...'" = error message /\
     validate (fun _ => None) (fun _ => "") 0 "x" hoisted_config =
       Some (Ok (false, VStr message))).
Proof.
  apply (validate_follows_parse (fun _ => None) (fun _ => "") 0 "x" hoisted_config).
  reflexivity.
Defined.

(** ** Literals under a lexer *)

Lemma transpile_rule_text_match (v : value) :
  has_text_match v -> exists e, transpile_rule v true = Raise e.
Proof.
  induction 1 as [d k Hsub Hkeys Hk
                 | d k parts part Hsub Hkeys Hk Hget Hin Hpart IH
                 | d k body Hsub Hkeys Hk Hget Hbody IH].
  - cbn [transpile_rule]. rewrite Hsub, Hkeys, with_entry_get.
    pose proof (single_key_present d k Hkeys) as Hhas.
    destruct (dict_get k d) as [x|] eqn:Hget;
      [|apply dict_get_none_has in Hget; congruence].
    destruct Hk as [-> | ->]; cbn; eauto.
  - simpl. rewrite Hsub, Hkeys, with_entry_get, Hget.
    destruct (traverse_raise (fun p => transpile_rule p true) parts part Hin IH)
      as [e He].
    destruct parts as [|p ps]; [contradiction|].
    destruct Hk as [-> | ->]; cbn -[traverse]; rewrite He; cbn; eauto.
  - simpl. rewrite Hsub, Hkeys, with_entry_get, Hget.
    destruct IH as [e He].
    simpl in Hk.
    destruct Hk as [<- | [<- | [<- | [<- | [<- | []]]]]]; simpl; rewrite He; simpl; eauto.
Qed.

(** X13. When the grammar has a lexer, a [literal] or [regex] node is
    rejected with a [ValueError] that names [token] as the replacement,
    any rule definition that contains such a node (among the parts of a
    [choice] or [sequence], or under a quantifier or lookahead) raises,
    and so does [transpile_grammar]: no PEG text is produced. *)
Theorem text_match_rejected_under_lexer :
  (forall d k x,
     dict_has "subgrammar" d = false -> found_keys d = [k] ->
     k = "literal" \/ k = "regex" -> dict_get k d = Some x ->
     transpile_rule (VDict d) true = Raise (ValueError (not_supported k))) /\
  (forall v, has_text_match v -> exists e, transpile_rule v true = Raise e) /\
  (forall grammar_dict rules name rule_def,
     dict_has "lexer" grammar_dict = true ->
     dict_get "rules" grammar_dict = Some (VDict rules) ->
     In (name, rule_def) rules ->
     has_text_match rule_def ->
     exists e, transpile_grammar grammar_dict = Raise e) /\
  transpile_grammar literal_under_lexer = Raise (ValueError (not_supported "literal")).
Proof.
  split; [|split; [|split]].
  - intros d k x Hsub Hkeys Hk Hget.
    cbn [transpile_rule]. rewrite Hsub, Hkeys, with_entry_get, Hget.
    destruct Hk as [-> | ->]; reflexivity.
  - exact transpile_rule_text_match.
  - intros g rules name rule_def Hlexer Hrules Hin Hmatch.
    unfold transpile_grammar. rewrite (dict_get_has _ _ _ Hrules), Hlexer, Hrules.
    cbn [negb bind].
    destruct (traverse_raise
                (fun entry => rhs <- transpile_rule (snd entry) true ;;
                              Ok (fst entry ++ " = " ++ rhs))
                rules (name, rule_def) Hin) as [e He].
    { destruct (transpile_rule_text_match rule_def Hmatch) as [e He].
      exists e. cbn [snd]. now rewrite He. }
    rewrite He. cbn [bind]. eauto.
  - reflexivity.
Qed.

(** ** The unreachable-rules lint *)

Module ReachFacts.

Lemma dedup_In (x : string) (l : list string) : In x (dedup l) <-> In x l.
Proof.
  induction l as [|y l IH]; cbn [dedup]; [tauto|].
  cbn [In]. rewrite filter_In, IH. split.
  - intros [H | [H _]]; auto.
  - intros [H | H]; [now left|].
    destruct (String.eqb y x) eqn:Heq.
    + apply String.eqb_eq in Heq. now left.
    + right. split; [exact H | reflexivity].
Qed.

Lemma dedup_NoDup (l : list string) : NoDup (dedup l).
Proof.
  induction l as [|y l IH]; cbn [dedup]; constructor.
  - rewrite filter_In. intros [_ H]. now rewrite String.eqb_refl in H.
  - now apply NoDup_filter.
Qed.

(** [find_references] raises nothing but [TypeError]. *)
Lemma find_references_raises (v : value) (e : exn) :
  find_references v = Raise e -> e = TypeError.
Proof.
  revert e. induction v as [| | | | |l IH|d IH] using value_nested_ind; intros e;
    cbn [find_references]; try discriminate.
  - induction IH as [|x l Hx _ IHl]; cbn [references_of_items]; [discriminate|].
    destruct (find_references x) as [found|e'] eqn:Hfound; cbn [bind].
    + destruct (references_of_items find_references l) as [others|e'']; cbn [bind];
        [discriminate|].
      intros [= <-]. now apply IHl.
    + intros [= <-]. now apply Hx.
  - assert (Hin : forall e', references_of_values find_references d = Raise e' ->
                             e' = TypeError).
    { induction IH as [|[k x] d' Hx _ IHd]; cbn [references_of_values]; [discriminate|].
      intros e'. cbn [snd] in Hx.
      destruct (find_references x) as [found|e''] eqn:Hfound; cbn [bind].
      - destruct (references_of_values find_references d') as [others|e3]; cbn [bind];
          [discriminate|].
        intros [= <-]. now apply IHd.
      - intros [= <-]. now apply Hx. }
    destruct (dict_get "rule" d) as [ref|]; [destruct (hashable ref)|]; cbn [bind];
      try (now intros [= <-]).
    all: destruct (references_of_values find_references d) as [inner|e']; cbn [bind];
      [discriminate | intros [= <-]; now apply Hin].
Qed.

Lemma pending_le (rules : dict) (name : string) (reachable : list string) :
  (pending rules (name :: reachable) <= pending rules reachable)%nat.
Proof.
  unfold pending, list_sum.
  induction rules as [|[k def] rs IH]; cbn [map fold_right fst snd]; [lia|].
  assert (Hterm : ((if mem k (name :: reachable) then O else reference_count def)
                   <= (if mem k reachable then O else reference_count def))%nat).
  { unfold mem. cbn [existsb]. destruct (String.eqb k name); cbn [orb]; [lia|].
    destruct (existsb (String.eqb k) reachable); lia. }
  lia.
Qed.

Section Loop.

Variable iteration : list value -> list value.
Hypothesis Hiter : set_iteration iteration.
Variable rules : dict.
Variable roots : list value.

Lemma initial_invariant : reach_invariant rules roots roots [].
Proof.
  repeat split.
  - destruct H.
  - destruct H.
  - intros v Hv. now apply reach_root.
  - intros v Hv. now left.
  - intros s def refs t [].
Qed.

Lemma skip_invariant (name : string) (queue : list value) (reachable : list string) :
  mem name reachable = true ->
  reach_invariant rules roots (VStr name :: queue) reachable ->
  reach_invariant rules roots queue reachable.
Proof.
  intros Hmem (I1 & I2 & I3 & I4). apply mem_In in Hmem. repeat split.
  - now apply I1.
  - now apply I1.
  - intros v Hv. apply I2. now right.
  - intros v Hv. destruct (I3 v Hv) as [[<- | Hq] | Hr]; [right; now exists name | now left | now right].
  - intros s def refs t Hs Hget Hrefs Ht.
    destruct (I4 s def refs t Hs Hget Hrefs Ht) as [[[= <-] | Hq] | Hr];
      [now right | now left | now right].
Qed.

Lemma visit_invariant (name : string) (queue : list value) (reachable : list string)
    (rule_definition : value) (references : list value) :
  dict_get name rules = Some rule_definition ->
  find_references rule_definition = Ok references ->
  reach_invariant rules roots (VStr name :: queue) reachable ->
  reach_invariant rules roots
    (queue ++ filter (fun ref => negb (in_set ref (name :: reachable))) (iteration references))
    (name :: reachable).
Proof.
  intros Hget Hrefs (I1 & I2 & I3 & I4).
  destruct (Hiter references) as (Hfrom & Hstr & _).
  assert (Hname : reachable_from rules roots (VStr name)) by (apply I2; now left).
  split; [|split; [|split]].
  - intros s [<- | Hs]; [|now apply I1].
    split; [exact Hname | now apply dict_get_has in Hget].
  - intros v Hv. apply in_app_or in Hv. destruct Hv as [Hv | Hv].
    + apply I2. now right.
    + apply filter_In in Hv. destruct Hv as [Hv _].
      apply (reach_reference rules roots name rule_definition references v Hname Hget Hrefs).
      now apply Hfrom.
  - intros v Hv. destruct (I3 v Hv) as [[<- | Hq] | (s & -> & Hs)].
    + right. exists name. split; [reflexivity | now left].
    + left. apply in_or_app. now left.
    + right. exists s. split; [reflexivity | now right].
  - intros s def refs t [<- | Hs] Hget' Hrefs' Ht.
    + rewrite Hget in Hget'. injection Hget' as <-.
      rewrite Hrefs in Hrefs'. injection Hrefs' as <-.
      destruct (mem t (name :: reachable)) eqn:Hmem.
      * right. now apply mem_In.
      * left. apply in_or_app. right. apply filter_In. split; [now apply Hstr|].
        cbn [in_set]. now rewrite Hmem.
    + destruct (I4 s def refs t Hs Hget' Hrefs' Ht) as [[[= <-] | Hq] | Hr].
      * right. now left.
      * left. apply in_or_app. now left.
      * right. now right.
Qed.

Lemma reach_loop_invariant (fuel : nat) :
  forall queue reachable final,
    reach_invariant rules roots queue reachable ->
    reach_loop iteration fuel rules queue reachable = Some (Ok (Some final)) ->
    reach_invariant rules roots [] final.
Proof.
  induction fuel as [|fuel IH]; intros queue reachable final Hinv;
    (destruct queue as [|current queue]; cbn [reach_loop];
     [intros [= <-]; exact Hinv|]); [discriminate|].
  destruct current as [| | | |name| |]; try discriminate.
  destruct (mem name reachable) eqn:Hmem.
  - apply IH. now apply (skip_invariant name).
  - destruct (dict_get name rules) as [def|] eqn:Hget; [|discriminate].
    destruct (find_references def) as [refs|e] eqn:Hrefs; [|discriminate].
    cbn [lift fbind]. apply IH. now apply visit_invariant with (rule_definition := def).
Qed.

Lemma finished_closed (final : list string) :
  reach_invariant rules roots [] final ->
  forall v, reachable_from rules roots v -> forall s, v = VStr s -> In s final.
Proof.
  intros (_ & _ & I3 & I4) v Hv.
  induction Hv as [v Hroot | name def refs ref _ IH Hget Hrefs Hin]; intros s ->.
  - destruct (I3 _ Hroot) as [[] | (s' & [= <-] & Hs)]. exact Hs.
  - destruct (I4 name def refs s (IH name eq_refl) Hget Hrefs Hin) as [[] | H]. exact H.
Qed.

(** A loop that ends has found exactly the rules that can be come to, and
    all of them are defined. *)
Lemma reach_loop_exact (fuel : nat) (final : list string) :
  reach_loop iteration fuel rules roots [] = Some (Ok (Some final)) ->
  forall s, reachable_from rules roots (VStr s) <-> In s final.
Proof.
  intros Hloop s.
  pose proof (reach_loop_invariant fuel roots [] final initial_invariant Hloop) as Hinv.
  split.
  - intros Hs. now apply (finished_closed final Hinv (VStr s)).
  - intros Hs. now apply (proj1 Hinv).
Qed.

Lemma reach_loop_defined (fuel : nat) (final : list string) :
  reach_loop iteration fuel rules roots [] = Some (Ok (Some final)) ->
  forall s, reachable_from rules roots (VStr s) -> dict_has s rules = true.
Proof.
  intros Hloop s Hs.
  pose proof (reach_loop_invariant fuel roots [] final initial_invariant Hloop) as Hinv.
  apply (proj1 Hinv). now apply (finished_closed final Hinv (VStr s)).
Qed.

Lemma reach_loop_raises (fuel : nat) :
  forall queue reachable e,
    reach_loop iteration fuel rules queue reachable = Some (Raise e) -> e = TypeError.
Proof.
  induction fuel as [|fuel IH]; intros queue reachable e;
    (destruct queue as [|current queue]; cbn [reach_loop]; [discriminate|]); [discriminate|].
  destruct current as [| | | |name|l|d]; try discriminate;
    try (now intros [= <-]).
  destruct (mem name reachable); [apply IH|].
  destruct (dict_get name rules) as [def|]; [|discriminate].
  destruct (find_references def) as [refs|e'] eqn:Hrefs; cbn [lift fbind].
  - apply IH.
  - intros [= <-]. now apply find_references_raises in Hrefs.
Qed.

End Loop.

Lemma pending_visit (rules : dict) (name : string) (reachable : list string)
    (rule_definition : value) :
  dict_get name rules = Some rule_definition ->
  mem name reachable = false ->
  (pending rules (name :: reachable) + reference_count rule_definition
   <= pending rules reachable)%nat.
Proof.
  intros Hget Hmem. unfold pending, list_sum.
  induction rules as [|[k def] rs IH]; [discriminate|].
  cbn [map fold_right fst snd]. cbn [dict_get] in Hget.
  destruct (String.eqb k name) eqn:Heq.
  - injection Hget as ->. apply String.eqb_eq in Heq. subst k.
    rewrite Hmem.
    replace (mem name (name :: reachable)) with true
      by (unfold mem; cbn [existsb]; now rewrite String.eqb_refl).
    pose proof (pending_le rs name reachable) as Hle. unfold pending, list_sum in Hle. lia.
  - specialize (IH Hget).
    assert (Hsame : mem k (name :: reachable) = mem k reachable).
    { unfold mem. cbn [existsb]. now rewrite Heq. }
    rewrite Hsame. lia.
Qed.

(** The loop ends within as many iterations as the queue is long plus the
    number of references of the rules that are not yet in the set. *)
Lemma reach_loop_terminates (iteration : list value -> list value) (rules : dict) :
  set_iteration iteration ->
  forall fuel queue reachable,
    (List.length queue + pending rules reachable <= fuel)%nat ->
    exists r, reach_loop iteration fuel rules queue reachable = Some r.
Proof.
  intros Hiter fuel. induction fuel as [|fuel IH]; intros queue reachable Hfuel;
    (destruct queue as [|current queue]; cbn [reach_loop]; [now eexists|]);
    cbn [List.length] in Hfuel; [lia|].
  destruct current as [| | | |name|l|d]; try (now eexists).
  destruct (mem name reachable) eqn:Hmem; [apply IH; lia|].
  destruct (dict_get name rules) as [def|] eqn:Hget; [|now eexists].
  pose proof (pending_visit rules name reachable def Hget Hmem) as Hvisit.
  unfold reference_count in Hvisit.
  destruct (find_references def) as [refs|e] eqn:Hrefs; cbn [lift fbind]; [|now eexists].
  apply IH. rewrite length_app.
  destruct (Hiter refs) as (_ & _ & Hlen).
  pose proof (filter_length_le (fun ref => negb (in_set ref (name :: reachable)))
                (iteration refs)) as Hfilter.
  lia.
Qed.

End ReachFacts.

(** X14. When [_check_for_unreachable_rules] raises its [ValueError], the
    message lists, sorted and joined by commas, exactly the defined rules
    without a double underscore in their name that cannot be come to from
    the start rule and the external references, each of them once. *)
Theorem unreachable_report_is_exact (iteration : list value -> list value) (fuel : nat)
    (grammar_dict : dict) (external_refs : value) (msg : string) :
  set_iteration iteration ->
  _check_for_unreachable_rules iteration fuel grammar_dict external_refs
    = Some (Raise (ValueError msg)) ->
  exists rules start_rule unreachable,
    dict_get "rules" grammar_dict = Some (VDict rules) /\
    start_rule_of grammar_dict = VStr start_rule /\
    unreachable <> [] /\ NoDup unreachable /\
    msg = "Unreachable rules detected: " ++ join ", " (sorted unreachable) /\
    forall rule, In rule unreachable <->
      dict_has rule rules = true /\ contains "__" rule = false /\
      ~ reachable_from rules (VStr start_rule :: external_list external_refs) (VStr rule).
Proof.
  intros Hiter. unfold _check_for_unreachable_rules, py_getitem.
  destruct (dict_get "rules" grammar_dict) as [[| | | | | |rules]|] eqn:Hrules;
    cbn [lift fbind]; try discriminate.
  destruct (start_rule_of grammar_dict) as [| | | |start_rule| |] eqn:Hstart; try discriminate.
  destruct (negb (mem start_rule (keys rules))); [discriminate|].
  assert (Hext : forall refs,
            (if is_none external_refs then VList [] else external_refs) = VList refs ->
            external_list external_refs = refs).
  { destruct external_refs; cbn [is_none external_list]; congruence. }
  destruct (if is_none external_refs then VList [] else external_refs)
    as [| | | | |refs|]; try discriminate.
  rewrite (Hext refs eq_refl).
  destruct (reach_loop iteration fuel rules (VStr start_rule :: refs) [])
    as [[[final|]|e]|] eqn:Hloop; cbn [fbind]; try discriminate.
  2: { apply ReachFacts.reach_loop_raises in Hloop. subst e. discriminate. }
  destruct (unreachable_rules rules final) as [|first others] eqn:Hun; [discriminate|].
  intros [= <-]. exists rules, start_rule, (first :: others).
  split; [reflexivity|]. split; [reflexivity|]. split; [discriminate|].
  split; [rewrite <- Hun; apply NoDup_filter, ReachFacts.dedup_NoDup|].
  split; [reflexivity|].
  intros rule. rewrite <- Hun. unfold unreachable_rules.
  rewrite filter_In, ReachFacts.dedup_In, <- dict_has_In, andb_true_iff, !negb_true_iff.
  pose proof (ReachFacts.reach_loop_exact iteration Hiter rules _ fuel final Hloop rule)
    as Hexact.
  pose proof (mem_In rule final) as Hmem.
  destruct (mem rule final).
  - split; [intros (_ & [=] & _)|].
    intros (_ & _ & Hnot). exfalso. apply Hnot, Hexact, Hmem. reflexivity.
  - split.
    + intros (Hdef & _ & Hname). repeat split; try assumption.
      intros Hreach. apply Hexact, Hmem in Hreach. discriminate.
    + intros (Hdef & Hname & _). repeat split; assumption.
Qed.

Lemma unreachable_report_is_exact_witness :
  exists rules start_rule unreachable,
    dict_get "rules" island_grammar = Some (VDict rules) /\
    start_rule_of island_grammar = VStr start_rule /\
    unreachable <> [] /\ NoDup unreachable /\
    "Unreachable rules detected: b"
      = "Unreachable rules detected: " ++ join ", " (sorted unreachable) /\
    forall rule, In rule unreachable <->
      dict_has rule rules = true /\ contains "__" rule = false /\
      ~ reachable_from rules (VStr start_rule :: external_list VNone) (VStr rule).
Proof.
  apply (unreachable_report_is_exact (fun added => added) 5 island_grammar VNone).
  - intros added. repeat split; auto.
  - vm_compute. reflexivity.
Defined.

(** X15. When the start rule or an external reference leads to a name
    that is no rule of the grammar, [_check_for_unreachable_rules]
    reports nothing, whatever else cannot be come to: it returns, or
    stops with the [TypeError] of an unhashable reference. *)
Theorem dangling_reference_silences_report (iteration : list value -> list value)
    (fuel : nat) (grammar_dict : dict) (external_refs : value) (rules : dict)
    (start_rule name : string) :
  set_iteration iteration ->
  dict_get "rules" grammar_dict = Some (VDict rules) ->
  start_rule_of grammar_dict = VStr start_rule ->
  reachable_from rules (VStr start_rule :: external_list external_refs) (VStr name) ->
  dict_has name rules = false ->
  let r := _check_for_unreachable_rules iteration fuel grammar_dict external_refs in
  r = None \/ r = Some (Ok tt) \/ r = Some (Raise TypeError).
Proof.
  intros Hiter Hrules Hstart Hreach Hname.
  unfold _check_for_unreachable_rules, py_getitem. rewrite Hrules, Hstart. cbn [lift fbind].
  destruct (negb (mem start_rule (keys rules))); [right; now left|].
  assert (Hext : forall refs,
            (if is_none external_refs then VList [] else external_refs) = VList refs ->
            external_list external_refs = refs).
  { destruct external_refs; cbn [is_none external_list]; congruence. }
  destruct (if is_none external_refs then VList [] else external_refs)
    as [| | | | |refs|]; try (right; now right).
  rewrite (Hext refs eq_refl) in Hreach.
  destruct (reach_loop iteration fuel rules (VStr start_rule :: refs) [])
    as [[[final|]|e]|] eqn:Hloop; cbn [fbind].
  - apply (ReachFacts.reach_loop_defined iteration Hiter rules _ fuel final Hloop) in Hreach.
    congruence.
  - right. now left.
  - apply ReachFacts.reach_loop_raises in Hloop. subst e. right. now right.
  - now left.
Qed.

Lemma dangling_reference_silences_report_witness :
  let r := _check_for_unreachable_rules (fun added => added) 5 dangling_grammar VNone in
  r = None \/ r = Some (Ok tt) \/ r = Some (Raise TypeError).
Proof.
  apply (dangling_reference_silences_report (fun added => added) 5 dangling_grammar VNone
           [("a", VDict [("rule", VStr "missing")]); ("b", VDict [("literal", VStr "y")])]
           "a" "missing").
  - intros added. repeat split; auto.
  - reflexivity.
  - reflexivity.
  - apply (reach_reference _ _ "a" (VDict [("rule", VStr "missing")]) [VStr "missing"]).
    + apply reach_root. now left.
    + reflexivity.
    + reflexivity.
    + now left.
  - reflexivity.
Defined.

(** X16. [_check_for_unreachable_rules] ends within one iteration for the
    start rule, one for each external reference and one for each
    reference in the definitions of the rules. *)
Theorem unreachable_check_terminates (iteration : list value -> list value)
    (grammar_dict : dict) (external_refs : value) (rules : dict) (spare : nat) :
  set_iteration iteration ->
  dict_get "rules" grammar_dict = Some (VDict rules) ->
  exists r,
    _check_for_unreachable_rules iteration
      (1 + List.length (external_list external_refs) + total_references rules + spare)
      grammar_dict external_refs = Some r.
Proof.
  intros Hiter Hrules.
  unfold _check_for_unreachable_rules, py_getitem. rewrite Hrules. cbn [lift fbind].
  destruct (start_rule_of grammar_dict) as [| | | |start_rule| |]; try (now eexists).
  destruct (negb (mem start_rule (keys rules))); [now eexists|].
  assert (Hext : forall refs,
            (if is_none external_refs then VList [] else external_refs) = VList refs ->
            external_list external_refs = refs).
  { destruct external_refs; cbn [is_none external_list]; congruence. }
  destruct (if is_none external_refs then VList [] else external_refs)
    as [| | | | |refs|]; try (now eexists).
  rewrite (Hext refs eq_refl).
  destruct (ReachFacts.reach_loop_terminates iteration rules Hiter
              (1 + List.length refs + total_references rules + spare)
              (VStr start_rule :: refs) []) as [[[final|]|e] Hloop].
  { cbn [List.length]. unfold pending, total_references. cbn [mem existsb]. lia. }
  all: rewrite Hloop; cbn [fbind]; try (now eexists).
  destruct (unreachable_rules rules final); now eexists.
Qed.

Lemma unreachable_check_terminates_witness :
  exists r,
    _check_for_unreachable_rules (fun added => added)
      (1 + List.length (external_list VNone)
       + total_references [("a", VDict [("rule", VStr "missing")]);
                           ("b", VDict [("literal", VStr "y")])] + 0)
      dangling_grammar VNone = Some r.
Proof.
  apply (unreachable_check_terminates (fun added => added) dangling_grammar VNone).
  - intros added. repeat split; auto.
  - reflexivity.
Defined.

(** The loop over the rules does not come to its end when one of them has
    a truthy [promote] beside a [structure] or a truthy [discard]. *)
Lemma check_directives_conflict (items : dict) (name : string) (rule_def ast_config : dict)
    (promote : value) :
  In (name, VDict rule_def) items ->
  dict_get "ast" rule_def = Some (VDict ast_config) ->
  dict_get "promote" ast_config = Some promote ->
  truthy promote = true ->
  dict_has "structure" ast_config = true \/
  (exists discard, dict_get "discard" ast_config = Some discard /\ truthy discard = true) ->
  exists e, check_directives items = Raise e.
Proof.
  intros Hin Hast Hpromote Htruthy Hother.
  induction items as [|[k v] items IH]; [destruct Hin|].
  cbn [check_directives].
  destruct Hin as [[= -> ->] | Hin].
  - cbn [py_get bind]. rewrite Hast, Hpromote, Htruthy. cbn [andb].
    destruct (dict_has "structure" ast_config) eqn:Hstructure; [now eexists|].
    destruct Hother as [[=] | (discard & -> & ->)]. now eexists.
  - destruct (py_get v "ast" (VDict [])) as [[| | | | | |a]|e]; cbn [bind];
      try (now apply IH); try (now eexists).
    destruct (truthy match dict_get "promote" a with Some p => p | None => VBool false end
              && dict_has "structure" a); [now eexists|].
    destruct (truthy match dict_get "promote" a with Some p => p | None => VBool false end
              && truthy match dict_get "discard" a with Some p => p | None => VBool false end);
      [now eexists | now apply IH].
Qed.

(** X17. A grammar in which the [ast] block of some rule has a truthy
    [promote] beside a [structure] key or a truthy [discard] does not
    pass [_lint_grammar]: the call raises, whatever the other checks
    find. *)
Theorem conflicting_directives_fail_lint (iteration : list value -> list value) (fuel : nat)
    (grammar_dict : dict) (external_refs : value) (rules : dict) (name : string)
    (rule_def ast_config : dict) (promote : value) :
  dict_get "rules" grammar_dict = Some (VDict rules) ->
  In (name, VDict rule_def) rules ->
  dict_get "ast" rule_def = Some (VDict ast_config) ->
  dict_get "promote" ast_config = Some promote ->
  truthy promote = true ->
  dict_has "structure" ast_config = true \/
  (exists discard, dict_get "discard" ast_config = Some discard /\ truthy discard = true) ->
  _lint_grammar iteration fuel grammar_dict external_refs = None \/
  exists e, _lint_grammar iteration fuel grammar_dict external_refs = Some (Raise e).
Proof.
  intros Hrules Hin Hast Hpromote Htruthy Hother. unfold _lint_grammar.
  destruct (_check_for_unreachable_rules iteration fuel grammar_dict _) as [[[]|e]|];
    cbn [fbind]; [|right; now eexists|now left].
  destruct (_check_for_always_empty_rules fuel grammar_dict) as [[[]|e]|];
    cbn [fbind]; [|right; now eexists|now left].
  cbn [py_get lift fbind]. rewrite Hrules.
  destruct (check_directives_conflict rules name rule_def ast_config promote
              Hin Hast Hpromote Htruthy Hother) as [e ->].
  right. now eexists.
Qed.

Lemma conflicting_directives_fail_lint_witness :
  _lint_grammar (fun added => added) 5 conflict_grammar VNone = None \/
  exists e, _lint_grammar (fun added => added) 5 conflict_grammar VNone = Some (Raise e).
Proof.
  apply (conflicting_directives_fail_lint (fun added => added) 5 conflict_grammar VNone
           [("a", VDict [("literal", VStr "x");
                         ("ast", VDict [("promote", VBool true);
                                        ("structure", VStr "left_associative_op")])])]
           "a"
           [("literal", VStr "x");
            ("ast", VDict [("promote", VBool true); ("structure", VStr "left_associative_op")])]
           [("promote", VBool true); ("structure", VStr "left_associative_op")]
           (VBool true)).
  - reflexivity.
  - now left.
  - reflexivity.
  - reflexivity.
  - reflexivity.
  - left. reflexivity.
Defined.
(** ** The leaf and subgrammar lint *)

(** The walk of the lint and the walk of the dependency scan come to the
    same directives. *)
Lemma no_directive_no_dependency (node : value) :
  has_subgrammar_directive node = false -> _get_subgrammar_dependencies node = [].
Proof.
  induction node as [| | | | |l IH|d IH] using value_nested_ind;
    cbn [has_subgrammar_directive _get_subgrammar_dependencies]; try reflexivity.
  - induction IH as [|x l Hx _ IHl]; [reflexivity|].
    intros H. apply orb_false_iff in H. destruct H as [Hhead Hrest].
    now rewrite (Hx Hhead), (IHl Hrest).
  - intros H. apply orb_false_iff in H. destruct H as [-> Hentries].
    induction IH as [|[k x] d' Hx _ IHd]; [reflexivity|].
    apply orb_false_iff in Hentries. destruct Hentries as [Hhead Hrest].
    cbn [snd] in Hx. rewrite (IHd Hrest).
    destruct (negb (String.eqb k "ast")); [|reflexivity].
    cbn [andb] in Hhead. now rewrite (Hx Hhead).
Qed.

Lemma leaf_conflicts_clear (items : dict) (name : string) (rule_def : value)
    (ast_config : dict) (leaf : value) :
  leaf_conflicts items = Ok tt ->
  In (name, rule_def) items ->
  py_get rule_def "ast" (VDict []) = Ok (VDict ast_config) ->
  dict_get "leaf" ast_config = Some leaf ->
  truthy leaf = true ->
  has_subgrammar_directive rule_def = false.
Proof.
  intros Hok Hin Hast Hleaf Htruthy.
  induction items as [|[k v] items IH]; [destruct Hin|].
  cbn [leaf_conflicts] in Hok.
  destruct Hin as [[= -> ->] | Hin].
  - rewrite Hast in Hok. cbn [bind] in Hok. rewrite Hleaf, Htruthy in Hok. cbn [andb] in Hok.
    destruct (has_subgrammar_directive rule_def); [discriminate | reflexivity].
  - destruct (py_get v "ast" (VDict [])) as [[| | | | | |a]|e]; cbn [bind] in Hok;
      try discriminate; try (now apply IH).
    destruct (truthy match dict_get "leaf" a with Some l => l | None => VBool false end
              && has_subgrammar_directive v); [discriminate | now apply IH].
Qed.

(** X18. After [_lint_leaf_subgrammar_conflict] has returned, the
    dependency scan [_get_subgrammar_dependencies] finds no subgrammar in
    any rule whose [ast] block has a truthy [leaf]. *)
Theorem leaf_rules_have_no_dependencies (grammar_dict rules : dict) (name : string)
    (rule_def : value) (ast_config : dict) (leaf : value) :
  _lint_leaf_subgrammar_conflict grammar_dict = Ok tt ->
  dict_get "rules" grammar_dict = Some (VDict rules) ->
  In (name, rule_def) rules ->
  py_get rule_def "ast" (VDict []) = Ok (VDict ast_config) ->
  dict_get "leaf" ast_config = Some leaf ->
  truthy leaf = true ->
  _get_subgrammar_dependencies rule_def = [].
Proof.
  intros Hok Hrules Hin Hast Hleaf Htruthy.
  unfold _lint_leaf_subgrammar_conflict in Hok. cbn [py_get bind] in Hok.
  rewrite Hrules in Hok.
  apply no_directive_no_dependency.
  now apply (leaf_conflicts_clear rules name rule_def ast_config leaf).
Qed.

Lemma leaf_rules_have_no_dependencies_witness :
  _get_subgrammar_dependencies
    (VDict [("regex", VStr "[a-z]+"); ("ast", VDict [("leaf", VBool true)])]) = [].
Proof.
  apply (leaf_rules_have_no_dependencies leaf_grammar
           [("word", VDict [("regex", VStr "[a-z]+"); ("ast", VDict [("leaf", VBool true)])])]
           "word" _ [("leaf", VBool true)] (VBool true)).
  - reflexivity.
  - reflexivity.
  - now left.
  - reflexivity.
  - reflexivity.
  - reflexivity.
Defined.
(** ** The state paths of the transpiler *)

Module PathFacts.

Import Transpiler.

Lemma split_nonempty (sep : ascii) (s : string) : split sep s <> [].
Proof.
  destruct s as [|c rest]; cbn [split]; [discriminate|].
  destruct (Ascii.eqb c sep); [discriminate|].
  destruct (split sep rest); discriminate.
Qed.

(** What a successful lookup of one entry says. *)
Lemma getitem_ok (h : store) (x : stored) (key : string) (y : stored) :
  getitem h x key = Ok y ->
  exists a o, x = SRef a /\ nth_error h a = Some o /\ field_get key o = Some y.
Proof.
  unfold getitem. destruct x as [| | | | | |a]; try discriminate.
  destruct (nth_error h a) as [o|] eqn:Ha; [|discriminate].
  destruct (field_get key o) as [y'|] eqn:Hget; [|discriminate].
  intros [= <-]. now exists a, o.
Qed.

Lemma getitem_raises (h : store) (x : stored) (key : string) (e : exn) :
  getitem h x key = Raise e -> e = TypeError \/ e = KeyError key.
Proof.
  unfold getitem. destruct x as [| | | | | |a]; try (intros [= <-]; now left).
  destruct (nth_error h a) as [o|]; [|intros [= <-]; now left].
  destruct (field_get key o); [discriminate|]. intros [= <-]. now right.
Qed.

(** A lookup raises nothing but [KeyError] and [TypeError]. *)
Lemma reduce_getitem_raises (h : store) (keys : list string) :
  forall x e, reduce_getitem h keys x = Raise e -> e = TypeError \/ exists k, e = KeyError k.
Proof.
  induction keys as [|key rest IH]; intros x e; cbn [reduce_getitem]; [discriminate|].
  destruct (getitem h x key) as [y|e'] eqn:Hget; cbn [bind]; [apply IH|].
  intros [= <-]. destruct (getitem_raises _ _ _ _ Hget) as [-> | ->]; [now left|].
  right. now eexists.
Qed.

Lemma get_path_caught (path : string) (h : store) (state : nat) :
  _get_path path h state = Ok (or_none (reduce_getitem h (split dot path) (SRef state))).
Proof.
  unfold _get_path.
  destruct (reduce_getitem h (split dot path) (SRef state)) as [v|e] eqn:Hget; [reflexivity|].
  apply reduce_getitem_raises in Hget. now destruct Hget as [-> | [k ->]].
Qed.

Lemma reduce_getitem_app (h : store) (before : list string) :
  forall after x,
    reduce_getitem h (before ++ after)%list x
    = (y <- reduce_getitem h before x ;; reduce_getitem h after y).
Proof.
  induction before as [|key rest IH]; intros after x; cbn [List.app reduce_getitem bind];
    [reflexivity|].
  destruct (getitem h x key) as [y|e]; cbn [bind]; [apply IH | reflexivity].
Qed.

Lemma descend_app (before : list string) :
  forall after h x,
    descend h x (before ++ after)%list
    = match descend h x before with
      | (h', Ok y) => descend h' y after
      | (h', Raise e) => (h', Raise e)
      end.
Proof.
  induction before as [|key rest IH]; intros after h x; cbn [List.app descend]; [reflexivity|].
  destruct (setdefault h x key) as [h' [y|e]]; [apply IH | reflexivity].
Qed.

(** *** Objects in the store *)

Lemma nth_error_put_same (a : nat) (o : object) :
  forall h o0, nth_error h a = Some o0 -> nth_error (put a o h) a = Some o.
Proof.
  induction a as [|a IH]; intros [|first rest] o0; cbn [nth_error put]; try discriminate.
  - reflexivity.
  - apply IH.
Qed.

Lemma nth_error_put_other (a b : nat) (o : object) :
  forall h, a <> b -> nth_error (put a o h) b = nth_error h b.
Proof.
  revert b. induction a as [|a IH]; intros b [|first rest] Hne; cbn [put]; try reflexivity.
  - destruct b; [congruence | reflexivity].
  - destruct b; [reflexivity|]. cbn [nth_error]. apply IH. congruence.
Qed.

Lemma length_put (a : nat) (o : object) : forall h, List.length (put a o h) = List.length h.
Proof.
  induction a as [|a IH]; intros [|first rest]; cbn [put List.length]; try reflexivity.
  now rewrite IH.
Qed.

Lemma field_get_set_same (k : string) (v : stored) (o : object) :
  field_get k (field_set k v o) = Some v.
Proof.
  induction o as [|[k' w] o IH]; cbn [field_set field_get].
  - now rewrite String.eqb_refl.
  - destruct (String.eqb k' k) eqn:Heq; cbn [field_get].
    + now rewrite String.eqb_refl.
    + now rewrite Heq.
Qed.

Lemma field_get_set_other (k k' : string) (v : stored) (o : object) :
  k' <> k -> field_get k (field_set k' v o) = field_get k o.
Proof.
  intros Hne. induction o as [|[k0 w] o IH]; cbn [field_set field_get].
  - now rewrite (proj2 (String.eqb_neq k' k) Hne).
  - destruct (String.eqb k0 k') eqn:Heq; cbn [field_get].
    + apply String.eqb_eq in Heq. subst k0.
      now rewrite (proj2 (String.eqb_neq k' k) Hne).
    + now rewrite IH.
Qed.

(** The lookups in a store with one entry written and objects added at
    its end. *)
Lemma getitem_written (h more : store) (a : nat) (o : object) (key : string) (v : stored) :
  nth_error h a = Some o ->
  getitem (put a (field_set key v o) h ++ more)%list (SRef a) key = Ok v.
Proof.
  intros Ha. cbn [getitem].
  rewrite nth_error_app1
    by (rewrite length_put; apply nth_error_Some; congruence).
  rewrite (nth_error_put_same _ _ _ _ Ha). now rewrite field_get_set_same.
Qed.

Lemma getitem_beside (h more : store) (a c : nat) (o : object) (key k : string) (v : stored) :
  nth_error h a = Some o ->
  (c < List.length h)%nat ->
  (c, k) <> (a, key) ->
  getitem (put a (field_set key v o) h ++ more)%list (SRef c) k = getitem h (SRef c) k.
Proof.
  intros Ha Hc Hne. cbn [getitem].
  rewrite nth_error_app1 by now rewrite length_put.
  destruct (Nat.eq_dec a c) as [<- | Hac].
  - rewrite (nth_error_put_same _ _ _ _ Ha), Ha.
    rewrite field_get_set_other; [reflexivity|]. congruence.
  - now rewrite nth_error_put_other.
Qed.

(** *** Stores that agree off the written entries *)

Lemma same_lookup_refl (r : outcome stored) : same_lookup r r.
Proof. now left. Qed.

Lemma same_lookup_trans (r1 r2 r3 : outcome stored) :
  same_lookup r1 r2 -> same_lookup r2 r3 -> same_lookup r1 r3.
Proof.
  intros [-> | [[e1 ->] [e2 ->]]] [<- | [[e2' H2] [e3 ->]]].
  - now left.
  - right. split; eauto.
  - right. split; eauto.
  - right. split; eauto.
Qed.

Lemma agree_refl (written : list (nat * string)) (h : store) : agree_off written h h.
Proof. intros a k _. apply same_lookup_refl. Qed.

Lemma agree_trans (w1 w2 : list (nat * string)) (h h0 h1 : store) :
  agree_off w1 h h0 -> agree_off w2 h0 h1 -> agree_off (w1 ++ w2)%list h h1.
Proof.
  intros H1 H2 a k Hnot. apply same_lookup_trans with (r2 := getitem h0 (SRef a) k).
  - apply H1. intros Hin. apply Hnot, in_or_app. now left.
  - apply H2. intros Hin. apply Hnot, in_or_app. now right.
Qed.

Lemma written_agree (h more : store) (a : nat) (o : object) (key : string) (v : stored) :
  nth_error h a = Some o ->
  Forall (fun new => new = []) more ->
  agree_off [(a, key)] h (put a (field_set key v o) h ++ more)%list.
Proof.
  intros Ha Hmore c k Hnot.
  destruct (Nat.lt_ge_cases c (List.length h)) as [Hc | Hc].
  - left. symmetry. apply getitem_beside; auto. intros Heq. apply Hnot. left. now symmetry.
  - right. split.
    + cbn [getitem]. rewrite (proj2 (nth_error_None h c) Hc). eauto.
    + cbn [getitem]. rewrite nth_error_app2 by now rewrite length_put.
      destruct (nth_error more (c - List.length (put a (field_set key v o) h))) as [new|] eqn:Hnew;
        [|eauto].
      apply nth_error_In in Hnew. rewrite Forall_forall in Hmore.
      rewrite (Hmore _ Hnew). cbn [field_get]. eauto.
Qed.

Lemma setitem_agree (h h' : store) (a : nat) (key : string) (v : stored) (r : outcome unit) :
  setitem h (SRef a) key v = (h', r) -> agree_off [(a, key)] h h'.
Proof.
  cbn [setitem]. destruct (nth_error h a) as [o|] eqn:Ha; intros [= <- <-].
  - rewrite <- (app_nil_r (put a (field_set key v o) h)).
    apply written_agree; [exact Ha | constructor].
  - apply agree_refl.
Qed.

(** A lookup that looks at no written entry gives the same in both
    stores. *)
Lemma read_agree (written : list (nat * string)) (h h' : store) (keys : list string) :
  agree_off written h h' ->
  forall x,
    (forall w, In w (steps h keys x) -> ~ In w written) ->
    or_none (reduce_getitem h' keys x) = or_none (reduce_getitem h keys x).
Proof.
  intros Hagree. induction keys as [|key rest IH]; intros x Hsteps; [reflexivity|].
  cbn [reduce_getitem].
  destruct x as [| | | | | |a]; try reflexivity.
  cbn [steps] in Hsteps.
  destruct (Hagree a key (Hsteps _ (or_introl eq_refl))) as [Heq | [[e He] [e' He']]].
  - rewrite <- Heq. destruct (getitem h (SRef a) key) as [y|e]; cbn [bind]; [|reflexivity].
    apply IH. intros w Hw. apply Hsteps. now right.
  - now rewrite He, He'.
Qed.

(** *** The loop of [_set_path] *)

Lemma setdefault_ok (h h' : store) (x : stored) (key : string) (y : stored) :
  setdefault h x key = (h', Ok y) ->
  exists a o, x = SRef a /\ nth_error h a = Some o /\
    ((field_get key o = Some y /\ h' = h) \/
     (field_get key o = None /\ y = SRef (List.length h) /\
      h' = (put a (field_set key (SRef (List.length h)) o) h ++ [[]])%list)).
Proof.
  unfold setdefault. destruct x as [| | | | | |a]; try discriminate.
  destruct (nth_error h a) as [o|] eqn:Ha; [|discriminate].
  destruct (field_get key o) as [y'|] eqn:Hget; intros [= <- <-]; exists a, o;
    (split; [reflexivity|]); (split; [exact Ha|]); [left | right]; auto.
Qed.

Lemma setdefault_raise (h h' : store) (x : stored) (key : string) (e : exn) :
  setdefault h x key = (h', Raise e) -> h' = h /\ e = AttributeError.
Proof.
  unfold setdefault. destruct x as [| | | | | |a]; try (intros [= <- <-]; now split).
  destruct (nth_error h a) as [o|]; [|intros [= <- <-]; now split].
  destruct (field_get key o); discriminate.
Qed.

Lemma extends_refl (h : store) : extends h h.
Proof. intros x k y H. exact H. Qed.

Lemma extends_trans (h h0 h1 : store) : extends h h0 -> extends h0 h1 -> extends h h1.
Proof. intros H1 H2 x k y H. apply H2, H1, H. Qed.

Lemma setdefault_extends (h h' : store) (x : stored) (key : string) (r : outcome stored) :
  setdefault h x key = (h', r) -> extends h h'.
Proof.
  destruct r as [y|e]; intros Hset.
  - destruct (setdefault_ok _ _ _ _ _ Hset) as (a & o & -> & Ha & [[_ ->] | (Hnone & _ & ->)]);
      [apply extends_refl|].
    intros x k z Hz. destruct (getitem_ok _ _ _ _ Hz) as (c & oc & -> & Hc & Hget).
    rewrite getitem_beside; auto.
    + apply nth_error_Some. congruence.
    + intros [= -> ->]. congruence.
  - destruct (setdefault_raise _ _ _ _ _ Hset) as [-> _]. apply extends_refl.
Qed.

Lemma setdefault_reads (h h' : store) (x : stored) (key : string) (y : stored) :
  setdefault h x key = (h', Ok y) -> getitem h' x key = Ok y.
Proof.
  intros Hset.
  destruct (setdefault_ok _ _ _ _ _ Hset) as (a & o & -> & Ha & [[Hget ->] | (_ & -> & ->)]).
  - cbn [getitem]. now rewrite Ha, Hget.
  - now apply getitem_written.
Qed.

Lemma setdefault_agree (h h' : store) (a : nat) (key : string) (r : outcome stored) :
  setdefault h (SRef a) key = (h', r) ->
  agree_off match getitem h (SRef a) key with
            | Ok _ => []
            | Raise _ => [(a, key)]
            end h h'.
Proof.
  cbn [setdefault getitem]. destruct (nth_error h a) as [o|] eqn:Ha.
  - destruct (field_get key o) as [y|]; intros [= <- <-]; [apply agree_refl|].
    apply written_agree; [exact Ha | repeat constructor].
  - intros [= <- <-]. apply agree_refl.
Qed.

Lemma descend_extends (keys : list string) :
  forall h x h' r, descend h x keys = (h', r) -> extends h h'.
Proof.
  induction keys as [|key rest IH]; intros h x h' r; cbn [descend].
  - intros [= <- _]. apply extends_refl.
  - destruct (setdefault h x key) as [h0 [y|e]] eqn:Hset.
    + intros Hrest. eapply extends_trans; [exact (setdefault_extends _ _ _ _ _ Hset)|].
      exact (IH _ _ _ _ Hrest).
    + intros [= <- _]. exact (setdefault_extends _ _ _ _ _ Hset).
Qed.

(** After the loop the keys lead to the dictionary it ends in. *)
Lemma descend_reads (keys : list string) :
  forall h x h' y, descend h x keys = (h', Ok y) -> reduce_getitem h' keys x = Ok y.
Proof.
  induction keys as [|key rest IH]; intros h x h' y; cbn [descend reduce_getitem].
  - now intros [= _ <-].
  - destruct (setdefault h x key) as [h0 [y0|e]] eqn:Hset; [|discriminate].
    intros Hrest.
    rewrite (descend_extends _ _ _ _ _ Hrest _ _ _ (setdefault_reads _ _ _ _ _ Hset)).
    cbn [bind]. exact (IH _ _ _ _ Hrest).
Qed.

(** Where every key is there, the loop writes nothing. *)
Lemma descend_existing (keys : list string) :
  forall h x y, reduce_getitem h keys x = Ok y -> descend h x keys = (h, Ok y).
Proof.
  induction keys as [|key rest IH]; intros h x y; cbn [descend reduce_getitem].
  - now intros [= <-].
  - destruct (getitem h x key) as [y0|e] eqn:Hget; cbn [bind]; [|discriminate].
    destruct (getitem_ok _ _ _ _ Hget) as (a & o & -> & Ha & Hfield).
    cbn [setdefault]. rewrite Ha, Hfield. apply IH.
Qed.

Lemma descend_agree (keys : list string) :
  forall h x h' r, descend h x keys = (h', r) -> agree_off (created h x keys) h h'.
Proof.
  induction keys as [|key rest IH]; intros h x h' r; cbn [descend].
  - intros [= <- _]. apply agree_refl.
  - destruct (setdefault h x key) as [h0 [y|e]] eqn:Hset.
    + intros Hrest.
      destruct (setdefault_ok _ _ _ _ _ Hset) as (a & o & -> & _).
      cbn [created]. rewrite Hset.
      eapply agree_trans; [exact (setdefault_agree _ _ _ _ _ Hset) | exact (IH _ _ _ _ Hrest)].
    + intros [= <- _]. destruct (setdefault_raise _ _ _ _ _ Hset) as [-> _].
      apply agree_refl.
Qed.

(** Where a key is missing, the loop ends in a dictionary that is newer
    than every dictionary the keys pass through. *)
Lemma descend_fresh (keys : list string) :
  forall h x h' y,
    descend h x keys = (h', Ok y) ->
    (forall y', reduce_getitem h keys x <> Ok y') ->
    exists b, y = SRef b /\ (List.length h <= b)%nat /\
              forall c k, In (c, k) (steps h' keys x) -> (c < b)%nat.
Proof.
  induction keys as [|key rest IH]; intros h x h' y Hloop Hmissing.
  - now destruct (Hmissing x).
  - cbn [descend] in Hloop.
    destruct (setdefault h x key) as [h0 [y0|e]] eqn:Hset; [|discriminate].
    pose proof (descend_extends _ _ _ _ _ Hloop _ _ _ (setdefault_reads _ _ _ _ _ Hset))
      as Hread.
    destruct (setdefault_ok _ _ _ _ _ Hset) as (a & o & -> & Ha & [[Hget ->] | (Hnone & -> & ->)]).
    + assert (Hrest : forall y', reduce_getitem h rest y0 <> Ok y').
      { intros y' Hy'. apply (Hmissing y'). cbn [reduce_getitem getitem].
        now rewrite Ha, Hget. }
      destruct (IH _ _ _ _ Hloop Hrest) as (b & -> & Hb & Hsteps).
      exists b. split; [reflexivity|]. split; [exact Hb|].
      intros c k. cbn [steps]. rewrite Hread. intros [[= <- <-] | Hin].
      * assert (a < List.length h)%nat by (apply nth_error_Some; congruence). lia.
      * now apply (Hsteps c k).
    + assert (Ha' : (a < List.length h)%nat) by (apply nth_error_Some; congruence).
      destruct rest as [|key' rest].
      * cbn [descend] in Hloop. injection Hloop as <- <-.
        exists (List.length h). split; [reflexivity|]. split; [lia|].
        intros c k. cbn [steps]. rewrite Hread. cbn [steps]. intros [[= <- <-] | []]. exact Ha'.
      * destruct (IH _ _ _ _ Hloop) as (b & -> & Hb & Hsteps).
        { intros y'. cbn [reduce_getitem getitem].
          rewrite nth_error_app2 by (rewrite length_put; lia).
          rewrite length_put, Nat.sub_diag. cbn [nth_error field_get bind]. discriminate. }
        rewrite length_app, length_put in Hb. cbn [List.length] in Hb.
        exists b. split; [reflexivity|]. split; [lia|].
        intros c k. remember (key' :: rest) as keys'. cbn [steps]. rewrite Hread.
        intros [[= <- <-] | Hin]; [lia|]. now apply (Hsteps c k).
Qed.

End PathFacts.

(** X19. After [_set_path(path, value)] has returned, [_get_path(path)]
    returns [value], unless the path comes back to the dictionary that
    receives the assignment: if the keys before the last lead, in the
    state before the call, to a dictionary, that dictionary is not one
    at which the lookup of these keys looks under the last key. *)
Theorem set_path_then_get_path (path : string) (v : stored) (h h' : store) (state : nat) :
  Transpiler._set_path path v h state = (h', Ok tt) ->
  (forall a,
     reduce_getitem h (removelast (split dot path)) (SRef state) = Ok (SRef a) ->
     ~ In (a, last (split dot path) EmptyString)
          (steps h (removelast (split dot path)) (SRef state))) ->
  Transpiler._get_path path h' state = Ok v.
Proof.
  unfold Transpiler._set_path. intros Hset Hapart.
  set (keys := split dot path) in *.
  destruct (Transpiler.descend h (SRef state) (removelast keys)) as [h1 [d|e]] eqn:Hloop;
    [|discriminate].
  assert (Htarget : exists a o, d = SRef a /\ nth_error h1 a = Some o /\
                                h' = put a (field_set (last keys EmptyString) v o) h1).
  { unfold setitem in Hset. destruct d as [| | | | | |a]; try discriminate.
    destruct (nth_error h1 a) as [o|] eqn:Ha; [|discriminate].
    injection Hset as <-. now exists a, o. }
  destruct Htarget as (a & o & -> & Ha & Hh').
  pose proof (PathFacts.descend_reads _ _ _ _ _ Hloop) as Hread.
  assert (Hpast : ~ In (a, last keys EmptyString) (steps h1 (removelast keys) (SRef state))).
  { destruct (reduce_getitem h (removelast keys) (SRef state)) as [y'|e] eqn:Hbefore.
    - rewrite (PathFacts.descend_existing _ _ _ _ Hbefore) in Hloop.
      injection Hloop as <- ->. now apply Hapart.
    - destruct (PathFacts.descend_fresh _ _ _ _ _ Hloop) as (b & [= <-] & _ & Hsteps).
      { rewrite Hbefore. discriminate. }
      intros Hin. apply Hsteps in Hin. lia. }
  assert (Hagree : agree_off [(a, last keys EmptyString)] h1 h').
  { apply (PathFacts.setitem_agree h1 h' a _ v (Ok tt)). cbn [setitem]. now rewrite Ha, Hh'. }
  pose proof (PathFacts.read_agree _ _ _ (removelast keys) Hagree (SRef state)) as Hsame.
  rewrite Hread in Hsame. cbn [or_none] in Hsame.
  assert (Hafter : reduce_getitem h' (removelast keys) (SRef state) = Ok (SRef a)).
  { destruct (reduce_getitem h' (removelast keys) (SRef state)) as [y|e];
      cbn [or_none] in Hsame.
    - now rewrite Hsame by (intros w Hw [<- | []]; exact (Hpast Hw)).
    - discriminate Hsame. intros w Hw [<- | []]. exact (Hpast Hw). }
  assert (Hkeys : keys = (removelast keys ++ [last keys EmptyString])%list)
    by apply (app_removelast_last EmptyString (PathFacts.split_nonempty dot path)).
  rewrite PathFacts.get_path_caught. fold keys. rewrite Hkeys.
  rewrite PathFacts.reduce_getitem_app, Hafter. cbn [bind reduce_getitem].
  rewrite Hh'. rewrite <- (app_nil_r (put a _ h1)).
  now rewrite (PathFacts.getitem_written h1 [] a o _ v Ha).
Qed.

Lemma set_path_then_get_path_witness :
  exists h',
    Transpiler._set_path "p.x.y" (SInt 2) shared_store 0 = (h', Ok tt) /\
    Transpiler._get_path "p.x.y" h' 0 = Ok (SInt 2).
Proof.
  eexists. split; [vm_compute; reflexivity|].
  apply (set_path_then_get_path "p.x.y" (SInt 2) shared_store _ 0).
  - vm_compute. reflexivity.
  - intros a. vm_compute. intros [= <-] [H | [H | []]]; discriminate H.
Defined.

(** X20. [_set_path(path, value)], whether it returns or raises, leaves
    [_get_path(other)] as it was when the lookup of [other] looks at none
    of the entries that the call assigns: the entry of the last key in
    the dictionary that the path leads to, and the entries under which
    the call stores a new dictionary.  The entries are those of the
    dictionary objects: a dictionary that is also stored elsewhere is
    the same dictionary there. *)
Theorem set_path_keeps_other_paths (path other : string) (v : stored) (h h' : store)
    (state : nat) (r : outcome unit) :
  Transpiler._set_path path v h state = (h', r) ->
  (forall w, In w (assigned path h state) ->
             ~ In w (steps h (split dot other) (SRef state))) ->
  Transpiler._get_path other h' state = Transpiler._get_path other h state.
Proof.
  intros Hset Hapart.
  assert (Hagree : agree_off (assigned path h state) h h').
  { unfold Transpiler._set_path in Hset. unfold assigned.
    destruct (Transpiler.descend h (SRef state) (removelast (split dot path)))
      as [h1 [d|e]] eqn:Hloop.
    - pose proof (PathFacts.descend_agree _ _ _ _ _ Hloop) as Hcreated.
      destruct d as [| | | | | |a];
        try (injection Hset as <- _; rewrite app_nil_r; exact Hcreated).
      eapply PathFacts.agree_trans; [exact Hcreated|].
      exact (PathFacts.setitem_agree _ _ _ _ _ _ Hset).
    - injection Hset as <- _. rewrite app_nil_r.
      exact (PathFacts.descend_agree _ _ _ _ _ Hloop). }
  rewrite !PathFacts.get_path_caught. f_equal.
  apply (PathFacts.read_agree _ _ _ _ Hagree).
  intros w Hsteps Hassigned. exact (Hapart w Hassigned Hsteps).
Qed.

Lemma set_path_keeps_other_paths_witness :
  exists h',
    Transpiler._set_path "p.x.y" (SInt 2) shared_store 0 = (h', Ok tt) /\
    Transpiler._get_path "p.x" h' 0 = Transpiler._get_path "p.x" shared_store 0.
Proof.
  eexists. split; [vm_compute; reflexivity|].
  apply (set_path_keeps_other_paths "p.x.y" "p.x" (SInt 2) shared_store _ 0 (Ok tt)).
  - vm_compute. reflexivity.
  - intros w. vm_compute. intros [<- | []] [H | [H | []]]; discriminate H.
Defined.

(** X21. [_set_path] raises [TypeError] or [AttributeError], and writes
    nothing, when a proper prefix of the keys of its path leads to an
    object that is no dictionary. *)
Theorem set_path_through_value_raises (path : string) (before more : list string)
    (key : string) (v x : stored) (h : store) (state : nat) :
  split dot path = (before ++ key :: more)%list ->
  reduce_getitem h before (SRef state) = Ok x ->
  is_dictionary x = false ->
  Transpiler._set_path path v h state = (h, Raise TypeError) \/
  Transpiler._set_path path v h state = (h, Raise AttributeError).
Proof.
  intros Hpath Hget Hx. unfold Transpiler._set_path. rewrite Hpath.
  rewrite removelast_app by discriminate.
  rewrite PathFacts.descend_app, (PathFacts.descend_existing _ _ _ _ Hget).
  destruct more as [|key' more].
  - left. cbn [removelast Transpiler.descend].
    destruct x; try discriminate; reflexivity.
  - right. change (removelast (key :: key' :: more)) with (key :: removelast (key' :: more)).
    cbn [Transpiler.descend]. destruct x; try discriminate; reflexivity.
Qed.

Lemma set_path_through_value_raises_witness :
  Transpiler._set_path "scope.depth" (SInt 2) [[("scope", SStr "global")]] 0
  = ([[("scope", SStr "global")]], Raise TypeError) \/
  Transpiler._set_path "scope.depth" (SInt 2) [[("scope", SStr "global")]] 0
  = ([[("scope", SStr "global")]], Raise AttributeError).
Proof.
  apply (set_path_through_value_raises "scope.depth" ["scope"] [] "depth" (SInt 2)
           (SStr "global")).
  - vm_compute. reflexivity.
  - reflexivity.
  - reflexivity.
Defined.

(** A dictionary stored under two paths is one object: what is written
    into it through [p.x] is found through [q], and the lookup of [q.y]
    looks at the entry that the call assigns. *)
Lemma shared_dictionary_is_one_object :
  exists h',
    Transpiler._set_path "p.x.y" (SStr "used") shared_store 0 = (h', Ok tt) /\
    Transpiler._get_path "q.y" shared_store 0 = Ok SNone /\
    Transpiler._get_path "q.y" h' 0 = Ok (SStr "used") /\
    In (1%nat, "y") (assigned "p.x.y" shared_store 0) /\
    In (1%nat, "y") (steps shared_store (split dot "q.y") (SRef 0)).
Proof.
  eexists. split; [vm_compute; reflexivity|].
  split; [vm_compute; reflexivity|]. split; [vm_compute; reflexivity|].
  split; vm_compute; auto.
Qed.

(** A dictionary [D] of the configuration that is stored at [p.x] and
    then at [p.x.y] holds itself.  [_set_path("p.x.y.y", "used")] then
    returns, and [_get_path("p.x.y.y")] gives [None]: the path comes back
    to [D] under the key [y], which is the entry that the call assigns. *)
Lemma dictionary_that_holds_itself :
  exists h h',
    then_set "p.x" (SRef 1) 0 (fun h0 => Transpiler._set_path "p.x.y" (SRef 1) h0 0) [[]; []]
    = (h, Ok tt) /\
    Transpiler._set_path "p.x.y.y" (SStr "used") h 0 = (h', Ok tt) /\
    Transpiler._get_path "p.x.y.y" h' 0 = Ok SNone /\
    reduce_getitem h (removelast (split dot "p.x.y.y")) (SRef 0) = Ok (SRef 1) /\
    In (1%nat, "y") (steps h (removelast (split dot "p.x.y.y")) (SRef 0)).
Proof.
  eexists. eexists. split; [vm_compute; reflexivity|].
  split; [vm_compute; reflexivity|]. split; [vm_compute; reflexivity|].
  split; [vm_compute; reflexivity|]. vm_compute. auto.
Qed.

(** ** Grammar normalisation *)

Module NormalizeFacts.

Lemma not_inline_true (v : value) :
  not_inline v = true -> is_inline_def_with_ast v = Ok false.
Proof.
  unfold not_inline. destruct (is_inline_def_with_ast v) as [[|]|e]; congruence.
Qed.

Lemma dict_has_keys (k : string) (d : dict) :
  dict_has k d = existsb (fun key => String.eqb key k) (keys d).
Proof.
  unfold dict_has, keys. induction d as [|[k' v] d IH]; cbn [existsb map fst]; [reflexivity|].
  now rewrite IH.
Qed.

(** The verdict on a dictionary depends on its keys and on its [ast]
    block only. *)
Lemma inline_same (d d' : dict) :
  keys d' = keys d -> dict_get "ast" d' = dict_get "ast" d ->
  is_inline_def_with_ast (VDict d') = is_inline_def_with_ast (VDict d).
Proof.
  intros Hkeys Hast. cbn [is_inline_def_with_ast]. rewrite Hast.
  destruct (dict_get "ast" d) as [[| | | | | |ast]|]; try reflexivity.
  rewrite !(dict_has_keys "rule"), Hkeys.
  assert (Hany : existsb (fun key => dict_has key d') inline_rule_keys
                 = existsb (fun key => dict_has key d) inline_rule_keys).
  { induction inline_rule_keys as [|key others IH]; [reflexivity|].
    cbn [existsb]. now rewrite IH, !(dict_has_keys key), Hkeys. }
  now rewrite Hany.
Qed.

Lemma skipped_not_ast (key : string) : skipped key = false -> String.eqb key "ast" = false.
Proof. unfold skipped. now intros H%orb_false_iff. Qed.

Lemma walk_entries_keys (walk : value -> walk_state -> outcome (value * walk_state))
    (base_name : string) (d : dict) :
  forall st r, walk_entries walk base_name d st = Ok r ->
    keys (fst r) = keys d /\ dict_get "ast" (fst r) = dict_get "ast" d.
Proof.
  induction d as [|[key value] d IH]; intros st r; cbn [walk_entries].
  - intros [= <-]. now split.
  - destruct (skipped key) eqn:Hskip.
    + destruct (walk_entries walk base_name d st) as [r2|e] eqn:Hrest; cbn [bind];
        [|discriminate].
      intros [= <-]. destruct (IH st r2 Hrest) as [Hkeys Hast].
      cbn [fst keys map dict_get]. unfold keys in Hkeys. rewrite Hkeys, Hast. now split.
    + destruct (is_inline_def_with_ast value) as [inline|e]; cbn [bind]; [|discriminate].
      destruct (if inline then hoist value base_name st else walk value st) as [r1|e];
        cbn [bind]; [|discriminate].
      destruct (walk_entries walk base_name d (snd r1)) as [r2|e] eqn:Hrest; cbn [bind];
        [|discriminate].
      intros [= <-]. destruct (IH _ r2 Hrest) as [Hkeys Hast].
      cbn [fst keys map dict_get]. unfold keys in Hkeys.
      rewrite Hkeys, Hast, (skipped_not_ast key Hskip). now split.
Qed.

(** The walk does not change what [is_inline_def_with_ast] says of the
    node. *)
Lemma walker_keeps_inline (base_name : string) (node : value) (st : walk_state)
    (r : value * walk_state) :
  walker base_name node st = Ok r ->
  is_inline_def_with_ast (fst r) = is_inline_def_with_ast node.
Proof.
  destruct node as [| | | | |l|d]; cbn [walker]; try (now intros [= <-]).
  - destruct (walk_items (walker base_name) base_name l st) as [r'|e]; cbn [bind];
      [|discriminate].
    now intros [= <-].
  - destruct (walk_entries (walker base_name) base_name d st) as [r'|e] eqn:Hwalk;
      cbn [bind]; [|discriminate].
    intros [= <-]. cbn [fst]. destruct (walk_entries_keys _ _ _ _ _ Hwalk) as [Hkeys Hast].
    now apply inline_same.
Qed.

Lemma hoist_reference (item : value) (base_name : string) (st : walk_state)
    (r : value * walk_state) :
  hoist item base_name st = Ok r ->
  fst r = VDict [("rule", VStr (base_name ++ "__" ++ str_of_Z (ws_counter st + 1)))].
Proof.
  unfold hoist. destruct item as [| | | | | |entries]; try discriminate.
  destruct (py_getitem (VDict entries) "ast") as [ast_config|e]; cbn [bind]; [|discriminate].
  now intros [= <-].
Qed.

(** A normalized node is walked without any change. *)
Lemma walker_settled (base_name : string) (node : value) :
  normalized node = true -> forall st, walker base_name node st = Ok (node, st).
Proof.
  induction node as [| | | | |l IH|d IH] using value_nested_ind; cbn [normalized walker];
    try reflexivity; intros Hnormal st.
  - assert (Hitems : walk_items (walker base_name) base_name l st = Ok (l, st)).
    { revert st. induction IH as [|x l Hx _ IHl]; intros st; cbn [walk_items]; [reflexivity|].
      cbn [forallb] in Hnormal.
      apply andb_prop in Hnormal. destruct Hnormal as [Hhead Hrest].
      apply andb_prop in Hhead. destruct Hhead as [Hinline Hx'].
      rewrite (not_inline_true x Hinline). cbn [bind].
      rewrite (Hx Hx' st). cbn [bind fst snd]. now rewrite (IHl Hrest st). }
    now rewrite Hitems.
  - assert (Hentries : walk_entries (walker base_name) base_name d st = Ok (d, st)).
    { revert st. induction IH as [|[key x] d Hx _ IHd]; intros st; cbn [walk_entries];
        [reflexivity|].
      cbn [forallb fst snd] in Hnormal. cbn [snd] in Hx.
      apply andb_prop in Hnormal. destruct Hnormal as [Hhead Hrest].
      destruct (skipped key); [now rewrite (IHd Hrest st)|].
      cbn [orb] in Hhead. apply andb_prop in Hhead. destruct Hhead as [Hinline Hx'].
      rewrite (not_inline_true x Hinline). cbn [bind].
      rewrite (Hx Hx' st). cbn [bind fst snd]. now rewrite (IHd Hrest st). }
    now rewrite Hentries.
Qed.

(** What a walk leaves is normalized. *)
Lemma walker_settles (base_name : string) (node : value) :
  forall st r, walker base_name node st = Ok r -> normalized (fst r) = true.
Proof.
  induction node as [| | | | |l IH|d IH] using value_nested_ind; cbn [walker];
    try (now intros st r [= <-]); intros st r.
  - destruct (walk_items (walker base_name) base_name l st) as [r'|e] eqn:Hwalk;
      cbn [bind]; [|discriminate].
    intros [= <-]. cbn [fst normalized]. revert st r' Hwalk.
    induction IH as [|x l Hx _ IHl]; intros st r'; cbn [walk_items].
    + now intros [= <-].
    + destruct (is_inline_def_with_ast x) as [inline|e] eqn:Hinline; cbn [bind];
        [|discriminate].
      destruct (if inline then hoist x base_name st else walker base_name x st)
        as [r1|e] eqn:Hhead; cbn [bind]; [|discriminate].
      destruct (walk_items (walker base_name) base_name l (snd r1)) as [r2|e] eqn:Hrest;
        cbn [bind]; [|discriminate].
      intros [= <-]. cbn [fst forallb]. rewrite (IHl _ _ Hrest), andb_true_r.
      destruct inline.
      * now rewrite (hoist_reference _ _ _ _ Hhead).
      * unfold not_inline. rewrite (walker_keeps_inline _ _ _ _ Hhead), Hinline.
        now rewrite (Hx _ _ Hhead).
  - destruct (walk_entries (walker base_name) base_name d st) as [r'|e] eqn:Hwalk;
      cbn [bind]; [|discriminate].
    intros [= <-]. cbn [fst normalized]. revert st r' Hwalk.
    induction IH as [|[key x] d Hx _ IHd]; intros st r'; cbn [walk_entries].
    + now intros [= <-].
    + cbn [snd] in Hx. destruct (skipped key) eqn:Hskip.
      * destruct (walk_entries (walker base_name) base_name d st) as [r2|e] eqn:Hrest;
          cbn [bind]; [|discriminate].
        intros [= <-]. cbn [fst snd forallb]. now rewrite Hskip, (IHd _ _ Hrest).
      * destruct (is_inline_def_with_ast x) as [inline|e] eqn:Hinline; cbn [bind];
          [|discriminate].
        destruct (if inline then hoist x base_name st else walker base_name x st)
          as [r1|e] eqn:Hhead; cbn [bind]; [|discriminate].
        destruct (walk_entries (walker base_name) base_name d (snd r1)) as [r2|e] eqn:Hrest;
          cbn [bind]; [|discriminate].
        intros [= <-]. cbn [fst snd forallb]. rewrite Hskip, (IHd _ _ Hrest), andb_true_r.
        cbn [orb]. destruct inline.
        -- now rewrite (hoist_reference _ _ _ _ Hhead).
        -- unfold not_inline. rewrite (walker_keeps_inline _ _ _ _ Hhead), Hinline.
           now rewrite (Hx _ _ Hhead).
Qed.

Lemma dict_set_present (k : string) (v : value) (d : dict) :
  dict_get k d = Some v -> dict_set k v d = d.
Proof.
  induction d as [|[k' w] d IH]; cbn [dict_get dict_set]; [discriminate|].
  destruct (String.eqb k' k) eqn:Heq.
  - intros [= ->]. apply String.eqb_eq in Heq. now subst.
  - intros H. now rewrite (IH H).
Qed.

Lemma process_settled (rules : dict) :
  forall rules_to_process processed_rules,
    (forall name rule_def, In (name, rule_def) rules_to_process ->
       dict_get name rules = Some rule_def /\ normalized rule_def = true) ->
    process_rules rules_to_process rules processed_rules []
    = Ok (rules, (rev (keys rules_to_process) ++ processed_rules)%list, []).
Proof.
  induction rules_to_process as [|[name rule_def] rest IH]; intros processed_rules Hall;
    cbn [process_rules]; [reflexivity|].
  destruct (Hall name rule_def (or_introl eq_refl)) as [Hget Hnormal].
  rewrite (walker_settled name rule_def Hnormal). cbn [bind fst snd ws_rules ws_assigned mem existsb].
  rewrite (dict_set_present _ _ _ Hget).
  rewrite IH by (intros n r Hin; apply Hall; now right).
  cbn [keys map fst rev]. unfold keys. now rewrite <- app_assoc.
Qed.

Lemma NoDup_get (d : dict) (k : string) (v : value) :
  NoDup (keys d) -> In (k, v) d -> dict_get k d = Some v.
Proof.
  induction d as [|[k' w] d IH]; [intros _ []|].
  cbn [keys map fst dict_get]. intros Hnodup Hin.
  apply NoDup_cons_iff in Hnodup. destruct Hnodup as [Hfresh Hnodup].
  destruct Hin as [[= -> ->] | Hin]; [now rewrite String.eqb_refl|].
  destruct (String.eqb k' k) eqn:Heq; [|now apply IH].
  apply String.eqb_eq in Heq. subst k'. exfalso. apply Hfresh.
  now apply (in_map fst) in Hin.
Qed.

Lemma all_processed (rules : dict) (processed_rules : list string) :
  (forall name, In name (keys rules) -> In name processed_rules) ->
  filter (fun entry => negb (mem (fst entry) processed_rules)) rules = [].
Proof.
  intros Hall. induction rules as [|[name rule_def] rules IH]; [reflexivity|].
  cbn [filter fst].
  rewrite (proj2 (mem_In name processed_rules)) by (apply Hall; now left).
  cbn [negb]. apply IH. intros n Hn. apply Hall. now right.
Qed.

Lemma str_of_Z_inj (a b : Z) : str_of_Z a = str_of_Z b -> a = b.
Proof.
  unfold str_of_Z. intros H.
  assert (Hnil : forall z, Z.to_int z <> Decimal.Pos Decimal.Nil /\
                           Z.to_int z <> Decimal.Neg Decimal.Nil).
  { intros z. split; intros Hz; pose proof (f_equal Z.of_int Hz) as Hz';
      rewrite DecimalZ.of_to in Hz'; cbn in Hz'; subst z; vm_compute in Hz; discriminate Hz. }
  apply DecimalZ.to_int_inj.
  pose proof (DecimalString.NilZero.isi (Z.to_int a) (proj1 (Hnil a)) (proj2 (Hnil a))) as Ha.
  pose proof (DecimalString.NilZero.isi (Z.to_int b) (proj1 (Hnil b)) (proj2 (Hnil b))) as Hb.
  rewrite H in Ha. congruence.
Qed.

Lemma append_cancel (prefix a b : string) : prefix ++ a = prefix ++ b -> a = b.
Proof.
  induction prefix as [|c prefix IH]; cbn [String.append]; [auto|].
  intros [= H]. now apply IH.
Qed.

Lemma hoisted_name_inj (base_name : string) (a b : Z) :
  hoisted_name base_name a = hoisted_name base_name b -> a = b.
Proof.
  unfold hoisted_name. intros H. apply append_cancel in H.
  apply (append_cancel "__") in H. now apply str_of_Z_inj.
Qed.

Lemma dict_del_has (k : string) (d : dict) : dict_has k (dict_del k d) = false.
Proof.
  unfold dict_has, dict_del. induction d as [|[k' v] d IH]; [reflexivity|].
  cbn [filter fst]. destruct (String.eqb k' k) eqn:Heq; cbn [negb]; [exact IH|].
  cbn [existsb fst]. now rewrite Heq.
Qed.

Lemma effect_refl (base_name : string) (st : walk_state) : walk_effect base_name st st.
Proof.
  split; [lia|]. split; [intros name _; reflexivity | intros k Hk; lia].
Qed.

Lemma effect_trans (base_name : string) (a b c : walk_state) :
  walk_effect base_name a b -> walk_effect base_name b c -> walk_effect base_name a c.
Proof.
  intros (Hle1 & Hkeep1 & Hnew1) (Hle2 & Hkeep2 & Hnew2). split; [lia|]. split.
  - intros name Hname. rewrite Hkeep2, Hkeep1; [reflexivity| |];
      intros k Hk; apply Hname; lia.
  - intros k Hk. destruct (Z_le_gt_dec k (ws_counter b)) as [Hlow | Hhigh].
    + destruct (Hnew1 k ltac:(lia)) as (rule_def & Hget & Hshape).
      exists rule_def. split; [|exact Hshape].
      rewrite Hkeep2; [exact Hget|].
      intros k' Hk' Heq. apply hoisted_name_inj in Heq. lia.
    + apply Hnew2. lia.
Qed.

Lemma hoist_effect (item : value) (base_name : string) (st : walk_state)
    (r : value * walk_state) :
  hoist item base_name st = Ok r -> walk_effect base_name st (snd r).
Proof.
  unfold hoist. destruct item as [| | | | | |entries]; try discriminate.
  destruct (py_getitem (VDict entries) "ast") as [ast_config|e]; cbn [bind]; [|discriminate].
  intros [= <-]. unfold walk_effect. cbn [snd ws_counter ws_rules].
  change (base_name ++ String "_" (String "_" (str_of_Z (ws_counter st + 1))))
    with (hoisted_name base_name (ws_counter st + 1)).
  split; [lia|]. split.
  - intros name Hname. apply dict_get_set_other.
    intros Heq. apply (Hname (ws_counter st + 1)); [lia|]. now rewrite <- Heq.
  - intros k Hk. assert (k = ws_counter st + 1) as -> by lia.
    eexists. split; [apply dict_get_set_same|].
    exists ast_config, (dict_del "ast" entries). split; [reflexivity | apply dict_del_has].
Qed.

Lemma walker_effect (base_name : string) (node : value) :
  forall st r, walker base_name node st = Ok r -> walk_effect base_name st (snd r).
Proof.
  induction node as [| | | | |l IH|d IH] using value_nested_ind; cbn [walker];
    try (intros st r [= <-]; apply effect_refl); intros st r.
  - destruct (walk_items (walker base_name) base_name l st) as [r'|e] eqn:Hwalk;
      cbn [bind]; [|discriminate].
    intros [= <-]. cbn [snd]. revert st r' Hwalk.
    induction IH as [|x l Hx _ IHl]; intros st r'; cbn [walk_items].
    + intros [= <-]. apply effect_refl.
    + destruct (is_inline_def_with_ast x) as [inline|e]; cbn [bind]; [|discriminate].
      destruct (if inline then hoist x base_name st else walker base_name x st)
        as [r1|e] eqn:Hhead; cbn [bind]; [|discriminate].
      destruct (walk_items (walker base_name) base_name l (snd r1)) as [r2|e] eqn:Hrest;
        cbn [bind]; [|discriminate].
      intros [= <-]. cbn [snd]. apply (effect_trans _ _ (snd r1)); [|now apply IHl].
      destruct inline; [now apply (hoist_effect x) | now apply Hx].
  - destruct (walk_entries (walker base_name) base_name d st) as [r'|e] eqn:Hwalk;
      cbn [bind]; [|discriminate].
    intros [= <-]. cbn [snd]. revert st r' Hwalk.
    induction IH as [|[key x] d Hx _ IHd]; intros st r'; cbn [walk_entries].
    + intros [= <-]. apply effect_refl.
    + cbn [snd] in Hx. destruct (skipped key).
      * destruct (walk_entries (walker base_name) base_name d st) as [r2|e] eqn:Hrest;
          cbn [bind]; [|discriminate].
        intros [= <-]. cbn [snd]. now apply IHd.
      * destruct (is_inline_def_with_ast x) as [inline|e]; cbn [bind]; [|discriminate].
        destruct (if inline then hoist x base_name st else walker base_name x st)
          as [r1|e] eqn:Hhead; cbn [bind]; [|discriminate].
        destruct (walk_entries (walker base_name) base_name d (snd r1)) as [r2|e] eqn:Hrest;
          cbn [bind]; [|discriminate].
        intros [= <-]. cbn [snd]. apply (effect_trans _ _ (snd r1)); [|now apply IHd].
        destruct inline; [now apply (hoist_effect x) | now apply Hx].
Qed.

Lemma max_in {A : Type} (f : A -> nat) (l : list A) (x : A) :
  In x l -> (f x <= list_max (map f l))%nat.
Proof.
  induction l as [|y l IH]; [intros []|]. cbn [map list_max fold_right].
  intros [<- | Hin]; [lia|]. specialize (IH Hin). unfold list_max in IH. lia.
Qed.

Lemma nesting_del_ast (entries : dict) :
  nesting (VDict (dict_del "ast" entries)) = nesting (VDict entries).
Proof.
  cbn [nesting]. unfold dict_del, list_max.
  induction entries as [|[key v] entries IH]; [reflexivity|].
  cbn [filter fst map fold_right snd]. destruct (String.eqb key "ast") eqn:Heq; cbn [negb].
  - rewrite IH. unfold skipped. rewrite Heq. reflexivity.
  - cbn [map fold_right fst snd]. now rewrite IH.
Qed.

Lemma dict_set_In (k : string) (v : value) (d : dict) (e : string * value) :
  In e (dict_set k v d) -> e = (k, v) \/ In e d.
Proof.
  induction d as [|[k' w] d IH]; cbn [dict_set].
  - intros [<- | []]. now left.
  - destruct (String.eqb k' k).
    + intros [<- | Hin]; [now left | right; now right].
    + intros [<- | Hin]; [right; now left|].
      destruct (IH Hin) as [-> | Hd]; [now left | right; now right].
Qed.

Lemma hoisted_nesting (ast_config : value) (entries : dict) :
  nesting (VDict [("ast", ast_config); ("sequence", VList [VDict (dict_del "ast" entries)])])
  = nesting (VDict entries).
Proof.
  rewrite <- (nesting_del_ast entries).
  assert (Hplain : hoistable (VDict (dict_del "ast" entries)) = false).
  { unfold hoistable. cbn [is_inline_def_with_ast].
    now rewrite (dict_has_get_none _ _ (dict_del_has "ast" entries)). }
  change (nesting (VDict [("ast", ast_config);
                          ("sequence", VList [VDict (dict_del "ast" entries)])]))
    with (Nat.max 0 (Nat.max (0 + Nat.max ((if hoistable (VDict (dict_del "ast" entries))
                                             then 1 else 0)
                                            + nesting (VDict (dict_del "ast" entries))) 0) 0)).
  rewrite Hplain. lia.
Qed.

Lemma hoist_new_rules (item : value) (base_name : string) (st : walk_state)
    (r : value * walk_state) :
  hoist item base_name st = Ok r ->
  forall e, In e (ws_rules (snd r)) ->
    In e (ws_rules st) \/ nesting (snd e) = nesting item.
Proof.
  unfold hoist. destruct item as [| | | | | |entries]; try discriminate.
  destruct (py_getitem (VDict entries) "ast") as [ast_config|err]; cbn [bind]; [|discriminate].
  intros [= <-] e. cbn [snd ws_rules]. intros Hin.
  apply dict_set_In in Hin. destruct Hin as [-> | Hin]; [|now left].
  right. cbn [snd]. apply hoisted_nesting.
Qed.

Lemma hoistable_inline (v : value) :
  is_inline_def_with_ast v = Ok true -> hoistable v = true.
Proof. unfold hoistable. now intros ->. Qed.

(** The rules that a walk stores are nested less deeply than the node
    that is walked. *)
Lemma walker_new_rules (base_name : string) (node : value) :
  forall st r, walker base_name node st = Ok r ->
    forall e, In e (ws_rules (snd r)) ->
      In e (ws_rules st) \/ (S (nesting (snd e)) <= nesting node)%nat.
Proof.
  induction node as [| | | | |l IH|d IH] using value_nested_ind; cbn [walker];
    try (intros st r [= <-] e He; now left); intros st r.
  - destruct (walk_items (walker base_name) base_name l st) as [r'|err] eqn:Hwalk;
      cbn [bind]; [|discriminate].
    intros [= <-]. cbn [snd nesting]. revert st r' Hwalk.
    induction IH as [|x l Hx _ IHl]; intros st r'; cbn [walk_items].
    + intros [= <-] e He. now left.
    + destruct (is_inline_def_with_ast x) as [inline|err] eqn:Hinline; cbn [bind];
        [|discriminate].
      destruct (if inline then hoist x base_name st else walker base_name x st)
        as [r1|err] eqn:Hhead; cbn [bind]; [|discriminate].
      destruct (walk_items (walker base_name) base_name l (snd r1)) as [r2|err] eqn:Hrest;
        cbn [bind]; [|discriminate].
      intros [= <-] e He. cbn [snd] in He. cbn [map list_max fold_right].
      destruct (IHl _ _ Hrest e He) as [Hmid | Hdeep];
        [|right; unfold list_max in Hdeep; lia].
      destruct inline.
      * destruct (hoist_new_rules _ _ _ _ Hhead e Hmid) as [Hold | Hsame]; [now left|].
        right. rewrite (hoistable_inline x Hinline). lia.
      * destruct (Hx _ _ Hhead e Hmid) as [Hold | Hdeep]; [now left|].
        right. lia.
  - destruct (walk_entries (walker base_name) base_name d st) as [r'|err] eqn:Hwalk;
      cbn [bind]; [|discriminate].
    intros [= <-]. cbn [snd nesting]. revert st r' Hwalk.
    induction IH as [|[key x] d Hx _ IHd]; intros st r'; cbn [walk_entries].
    + intros [= <-] e He. now left.
    + cbn [snd] in Hx. cbn [map list_max fold_right fst snd].
      destruct (skipped key).
      * destruct (walk_entries (walker base_name) base_name d st) as [r2|err] eqn:Hrest;
          cbn [bind]; [|discriminate].
        intros [= <-] e He. cbn [snd] in He.
        destruct (IHd _ _ Hrest e He) as [Hold | Hdeep]; [now left|].
        right. unfold list_max in Hdeep. lia.
      * destruct (is_inline_def_with_ast x) as [inline|err] eqn:Hinline; cbn [bind];
          [|discriminate].
        destruct (if inline then hoist x base_name st else walker base_name x st)
          as [r1|err] eqn:Hhead; cbn [bind]; [|discriminate].
        destruct (walk_entries (walker base_name) base_name d (snd r1)) as [r2|err] eqn:Hrest;
          cbn [bind]; [|discriminate].
        intros [= <-] e He. cbn [snd] in He.
        destruct (IHd _ _ Hrest e He) as [Hmid | Hdeep];
          [|right; unfold list_max in Hdeep; lia].
        destruct inline.
        -- destruct (hoist_new_rules _ _ _ _ Hhead e Hmid) as [Hold | Hsame]; [now left|].
           right. rewrite (hoistable_inline x Hinline). lia.
        -- destruct (Hx _ _ Hhead e Hmid) as [Hold | Hdeep]; [now left|].
           right. lia.
Qed.

(** One pass of the loop over the rules: the names of the pass are
    processed, and a rule that is new is nested less deeply than one of
    the rules of the pass. *)
Lemma process_new_rules (rules_to_process : dict) :
  forall rules processed_rules assigned r,
    process_rules rules_to_process rules processed_rules assigned = Ok r ->
    (forall name, In name (snd (fst r)) <->
                  In name (keys rules_to_process) \/ In name processed_rules) /\
    (forall e, In e (fst (fst r)) ->
       In e rules \/ In (fst e) (keys rules_to_process) \/
       exists entry, In entry rules_to_process /\
                     (S (nesting (snd e)) <= nesting (snd entry))%nat).
Proof.
  induction rules_to_process as [|[name rule_def] rest IH];
    intros rules processed_rules assigned r; cbn [process_rules].
  - intros [= <-]. cbn [fst snd keys map In]. split; [tauto | now left].
  - destruct (walker name rule_def (mkWalk 0 rules assigned)) as [r1|err] eqn:Hwalk;
      cbn [bind]; [|discriminate].
    intros Hrest. destruct (IH _ _ _ _ Hrest) as [Hprocessed Hrules]. split.
    + intros n. rewrite Hprocessed. cbn [keys map fst In]. tauto.
    + intros e He. cbn [keys map fst In].
      destruct (Hrules e He) as [Hmid | [Hkey | (entry & Hentry & Hdeep)]].
      * assert (Hwalked : e = (name, fst r1) \/ In e (ws_rules (snd r1))).
        { destruct (mem name assigned); [now right | now apply dict_set_In]. }
        destruct Hwalked as [-> | Hwalked]; [right; left; now left|].
        destruct (walker_new_rules _ _ _ _ Hwalk e Hwalked) as [Hold | Hdeep];
          [now left|].
        right. right. exists (name, rule_def). split; [now left | exact Hdeep].
      * right. left. now right.
      * right. right. exists entry. split; [now right | exact Hdeep].
Qed.

(** The loop of [_normalize_grammar] ends within as many passes as the
    fuel, when the rules that are not yet processed are nested less
    deeply than that. *)
Lemma normalize_loop_terminates (fuel : nat) :
  forall rules_map processed_rules,
    (forall e, In e rules_map -> mem (fst e) processed_rules = false ->
               (S (nesting (snd e)) <= fuel)%nat) ->
    exists r, normalize_loop fuel rules_map processed_rules = Some r.
Proof.
  induction fuel as [|fuel IH]; intros rules_map processed_rules Hbound.
  - assert (Hnone : filter (fun entry => negb (mem (fst entry) processed_rules)) rules_map
                    = []).
    { destruct (filter _ rules_map) as [|e rest] eqn:Hfilter; [reflexivity|].
      assert (He : In e (filter (fun entry => negb (mem (fst entry) processed_rules))
                           rules_map)) by (rewrite Hfilter; now left).
      apply filter_In in He. destruct He as [Hin Hnew]. apply negb_true_iff in Hnew.
      specialize (Hbound e Hin Hnew). lia. }
    cbn [normalize_loop]. rewrite Hnone. now eexists.
  - cbn [normalize_loop].
    destruct (filter (fun entry => negb (mem (fst entry) processed_rules)) rules_map)
      as [|first others] eqn:Hfilter; [now eexists|].
    rewrite <- Hfilter.
    destruct (process_rules (filter (fun entry => negb (mem (fst entry) processed_rules))
                               rules_map) rules_map processed_rules [])
      as [r|err] eqn:Hpass; cbn [lift fbind]; [|now eexists].
    destruct (process_new_rules _ _ _ _ _ Hpass) as [Hprocessed Hrules].
    apply IH. intros e He Hnew.
    assert (Hnot : ~ In (fst e) (snd (fst r))).
    { intros Hin. apply mem_In in Hin. congruence. }
    rewrite Hprocessed in Hnot.
    destruct (Hrules e He) as [Hold | [Hkey | (entry & Hentry & Hdeep)]].
    + exfalso. apply Hnot.
      destruct (mem (fst e) processed_rules) eqn:Hmem; [right; now apply mem_In|].
      left. apply (in_map fst). apply filter_In. split; [exact Hold | now rewrite Hmem].
    + exfalso. apply Hnot. now left.
    + apply filter_In in Hentry. destruct Hentry as [Hin Hentry].
      apply negb_true_iff in Hentry. specialize (Hbound entry Hin Hentry). lia.
Qed.

End NormalizeFacts.

(** X22. [_normalize_grammar] returns a grammar as it is when none of its
    rules holds an inline definition that [is_inline_def_with_ast]
    accepts: one pass over the rules is enough, and nothing is moved. *)
Theorem normalize_keeps_settled_grammar (fuel : nat) (grammar_dict rules : dict) :
  dict_get "rules" grammar_dict = Some (VDict rules) ->
  NoDup (keys rules) ->
  (forall name rule_def, In (name, rule_def) rules -> normalized rule_def = true) ->
  _normalize_grammar (S fuel) grammar_dict = Some (Ok grammar_dict).
Proof.
  intros Hrules Hnodup Hnormal. unfold _normalize_grammar. rewrite Hrules.
  assert (Hloop : normalize_loop (S fuel) rules [] = Some (Ok rules)).
  { cbn [normalize_loop mem existsb negb].
    assert (Hall : filter (fun _ : string * value => true) rules = rules).
    { clear. induction rules as [|e rules IH]; [reflexivity|]. cbn [filter]. now rewrite IH. }
    rewrite Hall. destruct rules as [|first others] eqn:Hshape; [reflexivity|].
    rewrite <- Hshape in *. clear Hshape.
    rewrite NormalizeFacts.process_settled.
    2: { intros name rule_def Hin. split; [now apply NormalizeFacts.NoDup_get|].
         now apply (Hnormal name). }
    cbn [lift fbind fst snd].
    destruct fuel; cbn [normalize_loop];
      rewrite NormalizeFacts.all_processed; try reflexivity;
      intros name Hin; apply in_or_app; left; now apply in_rev in Hin. }
  rewrite Hloop. cbn [fbind ret].
  now rewrite (NormalizeFacts.dict_set_present _ _ _ Hrules).
Qed.

Lemma normalize_keeps_settled_grammar_witness :
  _normalize_grammar 1 settled_grammar = Some (Ok settled_grammar).
Proof.
  apply (normalize_keeps_settled_grammar 0 settled_grammar
           [("a", VDict [("sequence", VList [VDict [("rule", VStr "b")];
                                             VDict [("rule", VStr "b");
                                                    ("ast", VDict [("name", VStr "x")])]])]);
            ("b", VDict [("regex", VStr "[0-9]+"); ("ast", VDict [("leaf", VBool true)])])]).
  - reflexivity.
  - repeat constructor; cbn; intuition discriminate.
  - intros name rule_def [[= <- <-] | [[= <- <-] | []]]; reflexivity.
Defined.

(** X23. What [walker] leaves of a node holds no inline definition that
    [is_inline_def_with_ast] accepts, at any place that the walk looks
    at: each one has been replaced by a reference. *)
Theorem walker_leaves_no_inline_definition (base_name : string) (node node' : value)
    (st st' : walk_state) :
  walker base_name node st = Ok (node', st') -> normalized node' = true.
Proof.
  intros Hwalk. exact (NormalizeFacts.walker_settles base_name node st _ Hwalk).
Qed.

Lemma walker_leaves_no_inline_definition_witness :
  normalized (VDict [("sequence", VList [VDict [("rule", VStr "expr__1")];
                                      VDict [("rule", VStr "rest")]])]) = true.
Proof.
  apply (walker_leaves_no_inline_definition "expr" inline_rule _ (mkWalk 0 [] [])
           (mkWalk 1
              [("expr__1",
                VDict [("ast", VDict [("tag", VStr "number"); ("leaf", VBool true)]);
                       ("sequence", VList [VDict [("regex", VStr "[0-9]+")]])])]
              ["expr__1"])).
  vm_compute. reflexivity.
Defined.

(** X24. A walk with the base name [base_name] stores rules under the
    names [base_name__k] only, one for every value [k] that the counter
    takes, and leaves every other rule as it was.  Each stored rule is
    the [ast] block of an inline definition over a sequence of that
    definition without its [ast] block. *)
Theorem walker_stores_hoisted_rules (base_name : string) (node node' : value)
    (st st' : walk_state) :
  walker base_name node st = Ok (node', st') ->
  ws_counter st <= ws_counter st' /\
  (forall name,
     (forall k, ws_counter st < k <= ws_counter st' -> name <> hoisted_name base_name k) ->
     dict_get name (ws_rules st') = dict_get name (ws_rules st)) /\
  (forall k, ws_counter st < k <= ws_counter st' ->
     exists rule_def,
       dict_get (hoisted_name base_name k) (ws_rules st') = Some rule_def /\
       hoisted_rule rule_def).
Proof.
  intros Hwalk. exact (NormalizeFacts.walker_effect base_name node st _ Hwalk).
Qed.

Lemma walker_stores_hoisted_rules_witness :
  let st := mkWalk 0 [] [] in
  let st' := mkWalk 1
               [("expr__1",
                 VDict [("ast", VDict [("tag", VStr "number"); ("leaf", VBool true)]);
                        ("sequence", VList [VDict [("regex", VStr "[0-9]+")]])])]
               ["expr__1"] in
  ws_counter st <= ws_counter st' /\
  (forall name,
     (forall k, ws_counter st < k <= ws_counter st' -> name <> hoisted_name "expr" k) ->
     dict_get name (ws_rules st') = dict_get name (ws_rules st)) /\
  (forall k, ws_counter st < k <= ws_counter st' ->
     exists rule_def,
       dict_get (hoisted_name "expr" k) (ws_rules st') = Some rule_def /\
       hoisted_rule rule_def).
Proof.
  apply (walker_stores_hoisted_rules "expr" inline_rule
           (VDict [("sequence", VList [VDict [("rule", VStr "expr__1")];
                                       VDict [("rule", VStr "rest")]])])).
  vm_compute. reflexivity.
Defined.

(** X25. [_normalize_grammar] ends: its loop makes at most one pass more
    than the definitions that it moves are nested deep in the rules. *)
Theorem normalize_terminates (grammar_dict : dict) (spare : nat) :
  exists r,
    _normalize_grammar
      (S (match dict_get "rules" grammar_dict with
          | Some (VDict rules) => max_nesting rules
          | _ => O
          end) + spare) grammar_dict = Some r.
Proof.
  unfold _normalize_grammar.
  destruct (dict_get "rules" grammar_dict) as [[| | | | | |rules]|]; try (now eexists).
  destruct (NormalizeFacts.normalize_loop_terminates (S (max_nesting rules) + spare) rules [])
    as [[rules'|err] Hloop].
  - intros e He _. pose proof (NormalizeFacts.max_in (fun entry => nesting (snd entry)) rules e He).
    unfold max_nesting. lia.
  - rewrite Hloop. now eexists.
  - rewrite Hloop. now eexists.
Qed.

(** ** The token cursor of the visitor *)

Lemma generic_visit_cursor (number_of : string -> option value) (self : AstBuilderVisitor)
    (token_idx : nat) (node : Node) (visited_children : list value) (r : value * nat) :
  generic_visit number_of self token_idx node visited_children = Ok r ->
  snd r = advance (List.length (tokens_of self))
            (if has_tokens self && mem (expr_name node) (token_rule_names self) then 1 else 0)
            token_idx.
Proof.
  unfold generic_visit, advance. fold (tokens_of self).
  destruct (has_tokens self && mem (expr_name node) (token_rule_names self)).
  - destruct (nth_error (tokens_of self) token_idx) as [token|] eqn:Hnth.
    + destruct (visit_token number_of self token) as [v|e]; cbn [bind]; [|discriminate].
      intros [= <-]. cbn [snd].
      assert (token_idx < List.length (tokens_of self))%nat
        by (apply nth_error_Some; congruence).
      lia.
    + intros [= <-]. cbn [snd]. apply nth_error_None in Hnth. lia.
  - assert (Hsame : forall m : outcome value,
              (v <- m ;; Ok (v, token_idx)) = Ok r -> snd r = token_idx).
    { intros [v|e]; cbn [bind]; [now intros [= <-] | discriminate]. }
    intros H. rewrite Nat.add_0_r.
    replace (Nat.max token_idx (Nat.min token_idx (List.length (tokens_of self))))
      with token_idx by lia.
    destruct (negb (dict_has (expr_name node) (grammar_rules self))); [now apply Hsame in H|].
    destruct (py_get _ "ast" (VDict [])) as [ast_config|e]; cbn [bind] in H; [|discriminate].
    destruct (match dict_get (expr_name node) (grammar_rules self) with
              | Some r0 => r0
              | None => VDict []
              end) as [| | | | | |rule_def]; try discriminate.
    destruct ast_config as [| | | | | |ast_config]; try discriminate.
    now apply Hsame in H.
Qed.

Lemma advance_twice (n a b token_idx : nat) :
  advance n b (advance n a token_idx) = advance n (a + b) token_idx.
Proof. unfold advance. lia. Qed.

(** X26. The visitor takes the tokens in order: a visit moves the cursor
    [token_idx] forward by one for every node of the tree whose rule name
    is a token type, children before their parent, and never beyond the
    end of the token list. *)
Theorem visit_takes_tokens_in_order (number_of : string -> option value)
    (self : AstBuilderVisitor) (node : Node) :
  forall (token_idx : nat) (r : value * nat),
    visit number_of self node token_idx = Ok r ->
    snd r = advance (List.length (tokens_of self)) (token_nodes self node) token_idx.
Proof.
  induction node as [name kind txt pos kids IH] using Node_nested_ind.
  intros token_idx r H. cbn [visit] in H.
  match type of H with
  | bind ?m _ = _ => destruct m as [rs|e] eqn:Hkids
  end; cbn [bind] in H; [|discriminate].
  assert (Hrs : snd rs = advance (List.length (tokens_of self))
                           (list_sum (map (token_nodes self) kids)) token_idx).
  { clear H. revert token_idx rs Hkids.
    induction IH as [|kid rest Hkid _ IHrest]; intros idx rs Hkids.
    - injection Hkids as <-. unfold advance. cbn [snd map list_sum fold_right]. lia.
    - destruct (visit number_of self kid idx) as [r1|e1] eqn:Hv; cbn [bind] in Hkids;
        [|discriminate].
      match type of Hkids with
      | bind ?m _ = _ => destruct m as [rs'|e2] eqn:Hrest
      end; cbn [bind] in Hkids; [|discriminate].
      injection Hkids as <-. cbn [snd].
      rewrite (IHrest _ _ Hrest), (Hkid _ _ Hv), advance_twice.
      reflexivity. }
  unfold wrap_visitation in H.
  destruct (generic_visit number_of self (snd rs) (mkNode name kind txt pos kids) (fst rs))
    as [r'|e] eqn:Hnode; [|destruct e; discriminate].
  injection H as <-.
  rewrite (generic_visit_cursor _ _ _ _ _ _ Hnode), Hrs, advance_twice.
  cbn [token_nodes expr_name]. f_equal. lia.
Qed.

Lemma visit_takes_tokens_in_order_witness :
  exists r,
    visit (fun _ => None) pair_visitor pair_tree 0 = Ok r /\
    snd r = advance (List.length (tokens_of pair_visitor))
              (token_nodes pair_visitor pair_tree) 0.
Proof.
  eexists. split; [vm_compute; reflexivity|].
  apply (visit_takes_tokens_in_order (fun _ => None) pair_visitor pair_tree 0).
  vm_compute. reflexivity.
Defined.

(** ** The rules of a normalized grammar *)

Module HoistedNames.

Lemma underscore_inside (x y : string) : has_underscore (x ++ String "_" y) = true.
Proof.
  induction x as [|c x IH]; [reflexivity|].
  change (String c x ++ String "_" y) with (String c (x ++ String "_" y)).
  cbn [has_underscore]. rewrite IH. apply orb_true_r.
Qed.

Lemma uint_no_underscore (d : Decimal.uint) :
  has_underscore (DecimalString.NilEmpty.string_of_uint d) = false.
Proof. induction d; cbn [DecimalString.NilEmpty.string_of_uint has_underscore]; auto. Qed.

Lemma str_of_Z_no_underscore (z : Z) : has_underscore (str_of_Z z) = false.
Proof.
  unfold str_of_Z, DecimalString.NilZero.string_of_int, DecimalString.NilZero.string_of_uint.
  destruct (Z.to_int z) as [d|d]; destruct d; try reflexivity;
    cbn [has_underscore]; try apply uint_no_underscore;
    cbn [DecimalString.NilEmpty.string_of_uint has_underscore]; apply uint_no_underscore.
Qed.

Lemma double_underscore_inside (x y : string) : contains "__" (x ++ "__" ++ y) = true.
Proof.
  induction x as [|c x IH]; [destruct y; reflexivity|].
  change (String c x ++ "__" ++ y) with (String c (x ++ "__" ++ y)).
  cbn [contains]. rewrite IH. apply orb_true_r.
Qed.

(** A string ends in one way only with a double underscore before a
    part without underscores. *)
Lemma split_unique (a : string) :
  forall b s t, has_underscore s = false -> has_underscore t = false ->
    a ++ String "_" (String "_" s) = b ++ String "_" (String "_" t) -> a = b /\ s = t.
Proof.
  induction a as [|c a IH]; intros b s t Hs Ht H.
  - destruct b as [|c' b]; [injection H as H; now split|].
    exfalso. cbn [String.append] in H. injection H as Hc H.
    destruct b as [|c'' b]; cbn [String.append] in H.
    + injection H as H. subst s. cbn [has_underscore] in Hs. discriminate Hs.
    + injection H as Hc' H. subst s. now rewrite underscore_inside in Hs.
  - destruct b as [|c' b].
    + exfalso. cbn [String.append] in H. injection H as Hc H.
      destruct a as [|c'' a]; cbn [String.append] in H.
      * injection H as H. subst t. cbn [has_underscore] in Ht. discriminate Ht.
      * injection H as Hc' H. subst t. now rewrite underscore_inside in Ht.
    + cbn [String.append] in H. injection H as -> H.
      destruct (IH b s t Hs Ht H) as [-> ->]. now split.
Qed.

(** The base name and the counter value can be read off a hoisted name. *)
Lemma hoisted_name_unique (a b : string) (j k : Z) :
  hoisted_name a j = hoisted_name b k -> a = b /\ j = k.
Proof.
  unfold hoisted_name. intros H.
  destruct (split_unique a b (str_of_Z j) (str_of_Z k)
              (str_of_Z_no_underscore j) (str_of_Z_no_underscore k) H) as [-> Heq].
  split; [reflexivity | now apply NormalizeFacts.str_of_Z_inj].
Qed.

Lemma plain_name_not_hoisted (name base_name : string) (k : Z) :
  contains "__" name = false -> name <> hoisted_name base_name k.
Proof.
  intros Hplain ->. unfold hoisted_name in Hplain.
  now rewrite double_underscore_inside in Hplain.
Qed.

End HoistedNames.

Module NormalizedRules.

Lemma dict_has_set (k k' : string) (v : value) (d : dict) :
  dict_has k (dict_set k' v d) = dict_has k d || String.eqb k' k.
Proof.
  unfold dict_has. induction d as [|[k0 w] d IH]; cbn [dict_set existsb fst].
  - now rewrite orb_false_r.
  - destruct (String.eqb k0 k') eqn:Heq; cbn [existsb fst].
    + apply String.eqb_eq in Heq. subst k0.
      destruct (String.eqb k' k); [reflexivity | now rewrite orb_false_r].
    + rewrite IH. now rewrite orb_assoc.
Qed.

Lemma keys_set_NoDup (k : string) (v : value) (d : dict) :
  NoDup (keys d) -> NoDup (keys (dict_set k v d)).
Proof.
  induction d as [|[k0 w] d IH]; cbn [dict_set keys map fst]; intros Hnodup.
  - repeat constructor. intros [].
  - apply NoDup_cons_iff in Hnodup. destruct Hnodup as [Hfresh Hnodup].
    destruct (String.eqb k0 k) eqn:Heq; cbn [map fst].
    + apply String.eqb_eq in Heq. subst k0. now constructor.
    + constructor; [|now apply IH].
      intros Hin. apply dict_has_In in Hin. rewrite dict_has_set in Hin.
      apply orb_true_iff in Hin. destruct Hin as [Hin | Hin].
      * apply Hfresh. now apply dict_has_In.
      * apply String.eqb_eq in Hin. subst k0. now rewrite String.eqb_refl in Heq.
Qed.

Lemma keys_filter_NoDup (f : string * value -> bool) (d : dict) :
  NoDup (keys d) -> NoDup (keys (filter f d)).
Proof.
  induction d as [|e d IH]; cbn [filter keys map]; intros Hnodup; [constructor|].
  apply NoDup_cons_iff in Hnodup. destruct Hnodup as [Hfresh Hnodup].
  destruct (f e); cbn [map]; [|now apply IH].
  constructor; [|now apply IH].
  intros Hin. apply Hfresh. unfold keys in Hin. apply in_map_iff in Hin.
  destruct Hin as (e' & <- & Hin). apply filter_In in Hin. now apply in_map.
Qed.

(** A property of the state that every move of an inline definition
    keeps is kept by the walk. *)
Lemma walker_state_ind (base_name : string) (Q : walk_state -> Prop) :
  (forall item st r, Q st -> hoist item base_name st = Ok r -> Q (snd r)) ->
  forall node st r, walker base_name node st = Ok r -> Q st -> Q (snd r).
Proof.
  intros Hhoist node.
  induction node as [| | | | |l IH|d IH] using value_nested_ind; cbn [walker];
    try (now intros st r [= <-]); intros st r.
  - destruct (walk_items (walker base_name) base_name l st) as [r'|e] eqn:Hwalk;
      cbn [bind]; [|discriminate].
    intros [= <-]. cbn [snd]. revert st r' Hwalk.
    induction IH as [|x l Hx _ IHl]; intros st r'; cbn [walk_items].
    + now intros [= <-].
    + destruct (is_inline_def_with_ast x) as [inline|e]; cbn [bind]; [|discriminate].
      destruct (if inline then hoist x base_name st else walker base_name x st)
        as [r1|e] eqn:Hhead; cbn [bind]; [|discriminate].
      destruct (walk_items (walker base_name) base_name l (snd r1)) as [r2|e] eqn:Hrest;
        cbn [bind]; [|discriminate].
      intros [= <-] HQ. cbn [snd]. apply (IHl _ _ Hrest).
      destruct inline; [now apply (Hhoist x st) | now apply (Hx st)].
  - destruct (walk_entries (walker base_name) base_name d st) as [r'|e] eqn:Hwalk;
      cbn [bind]; [|discriminate].
    intros [= <-]. cbn [snd]. revert st r' Hwalk.
    induction IH as [|[key x] d Hx _ IHd]; intros st r'; cbn [walk_entries].
    + now intros [= <-].
    + cbn [snd] in Hx. destruct (skipped key).
      * destruct (walk_entries (walker base_name) base_name d st) as [r2|e] eqn:Hrest;
          cbn [bind]; [|discriminate].
        intros [= <-] HQ. cbn [snd]. now apply (IHd _ _ Hrest).
      * destruct (is_inline_def_with_ast x) as [inline|e]; cbn [bind]; [|discriminate].
        destruct (if inline then hoist x base_name st else walker base_name x st)
          as [r1|e] eqn:Hhead; cbn [bind]; [|discriminate].
        destruct (walk_entries (walker base_name) base_name d (snd r1)) as [r2|e] eqn:Hrest;
          cbn [bind]; [|discriminate].
        intros [= <-] HQ. cbn [snd]. apply (IHd _ _ Hrest).
        destruct inline; [now apply (Hhoist x st) | now apply (Hx st)].
Qed.

(** What a walk does to the names of the rules. *)
Lemma walker_names (base_name : string) (node : value) (rules : dict)
    (assigned : list string) (r : value * walk_state) :
  walker base_name node (mkWalk 0 rules assigned) = Ok r ->
  NoDup (keys rules) ->
  NoDup (keys (ws_rules (snd r))) /\
  (forall name, dict_has name rules = true -> dict_has name (ws_rules (snd r)) = true) /\
  (forall name, dict_has name (ws_rules (snd r)) = true ->
     dict_has name rules = true \/ exists k, name = hoisted_name base_name k) /\
  (forall name, In name (ws_assigned (snd r)) ->
     In name assigned \/ exists k, name = hoisted_name base_name k).
Proof.
  intros Hwalk Hnodup.
  apply (walker_state_ind base_name
           (fun st =>
              NoDup (keys (ws_rules st)) /\
              (forall name, dict_has name rules = true -> dict_has name (ws_rules st) = true) /\
              (forall name, dict_has name (ws_rules st) = true ->
                 dict_has name rules = true \/ exists k, name = hoisted_name base_name k) /\
              (forall name, In name (ws_assigned st) ->
                 In name assigned \/ exists k, name = hoisted_name base_name k))
           ) with (node := node) (st := mkWalk 0 rules assigned); [|exact Hwalk|].
  - clear. intros item st r (Hnodup & Hgrow & Hnew & Hassigned). unfold hoist.
    destruct item as [| | | | | |entries]; try discriminate.
    destruct (py_getitem (VDict entries) "ast") as [ast_config|e]; cbn [bind]; [|discriminate].
    intros [= <-]. cbn [snd ws_rules ws_assigned].
    change (base_name ++ String "_" (String "_" (str_of_Z (ws_counter st + 1))))
      with (hoisted_name base_name (ws_counter st + 1)).
    split; [now apply keys_set_NoDup|]. split; [|split].
    + intros name Hname. rewrite dict_has_set, (Hgrow name Hname). reflexivity.
    + intros name Hname. rewrite dict_has_set in Hname. apply orb_true_iff in Hname.
      destruct Hname as [Hname | Hname]; [now apply Hnew|].
      apply String.eqb_eq in Hname. subst name. right. now eexists.
    + intros name [<- | Hname]; [right; now eexists | now apply Hassigned].
  - cbn [ws_rules ws_assigned]. split; [exact Hnodup|]. split; [auto|]. split; auto.
Qed.

Lemma process_keeps (rules_to_process : dict) :
  forall rules processed_rules assigned r,
    walk_invariant rules_to_process rules processed_rules assigned ->
    process_rules rules_to_process rules processed_rules assigned = Ok r ->
    pass_invariant (fst (fst r)) (snd (fst r)).
Proof.
  induction rules_to_process as [|[B rule_def] rest IH];
    intros rules processed_rules assigned r Hinv; cbn [process_rules].
  - intros [= <-]. exact (proj1 Hinv).
  - destruct (walker B rule_def (mkWalk 0 rules assigned)) as [r1|e] eqn:Hwalk; cbn [bind];
      [|discriminate].
    apply IH. clear IH r.
    destruct Hinv as ((Hnodup & Hsub & Hnorm & Hbase) & Hrest_nodup & Hrest & Hassigned).
    destruct (Hrest B rule_def (or_introl eq_refl)) as [HBnew HBget].
    assert (Hfresh : forall k, dict_has (hoisted_name B k) rules = false).
    { intros k. destruct (dict_has (hoisted_name B k) rules) eqn:Hhas; [|reflexivity].
      exfalso. apply HBnew. now apply (Hbase B k). }
    assert (Hmem : mem B assigned = false).
    { destruct (mem B assigned) eqn:Hmem; [|reflexivity]. apply mem_In in Hmem.
      exfalso. apply (Hassigned B Hmem). now left. }
    rewrite Hmem.
    destruct (walker_names B rule_def rules assigned r1 Hwalk Hnodup)
      as (Qnodup & Qgrow & Qnew & Qassigned).
    assert (Hkeep : forall name, dict_has name rules = true ->
                      dict_get name (ws_rules (snd r1)) = dict_get name rules).
    { intros name Hname.
      destruct (NormalizeFacts.walker_effect B rule_def _ _ Hwalk) as (_ & Hsame & _).
      apply Hsame. intros k _ ->. now rewrite Hfresh in Hname. }
    cbn [keys map fst] in Hrest_nodup. apply NoDup_cons_iff in Hrest_nodup.
    destruct Hrest_nodup as [HBrest Hrest_nodup].
    split; [split; [|split; [|split]] | split; [|split]].
    + now apply keys_set_NoDup.
    + intros name [<- | Hname]; rewrite dict_has_set.
      * now rewrite String.eqb_refl, orb_true_r.
      * now rewrite (Qgrow name (Hsub name Hname)).
    + intros name d Hget Hname. destruct (String.eqb B name) eqn:Heq.
      * apply String.eqb_eq in Heq. subst name. rewrite dict_get_set_same in Hget.
        injection Hget as <-. exact (NormalizeFacts.walker_settles B rule_def _ _ Hwalk).
      * apply String.eqb_neq in Heq. rewrite dict_get_set_other in Hget by exact Heq.
        destruct Hname as [-> | Hname]; [congruence|].
        rewrite (Hkeep name (Hsub name Hname)) in Hget. now apply (Hnorm name d).
    + intros X k Hhas. rewrite dict_has_set in Hhas. apply orb_true_iff in Hhas.
      destruct Hhas as [Hhas | Hhas].
      * destruct (Qnew _ Hhas) as [Hold | [j Hj]]; [right; now apply (Hbase X k)|].
        apply HoistedNames.hoisted_name_unique in Hj. destruct Hj as [-> _]. now left.
      * apply String.eqb_eq in Hhas. right. apply (Hbase X k). rewrite <- Hhas.
        now apply dict_get_has in HBget.
    + exact Hrest_nodup.
    + intros name d Hin. destruct (Hrest name d (or_intror Hin)) as [Hnew Hget].
      assert (Hne : B <> name).
      { intros ->. apply HBrest. now apply (in_map fst) in Hin. }
      split; [intros [H | H]; [now apply Hne | now apply Hnew]|].
      rewrite dict_get_set_other by exact Hne.
      rewrite (Hkeep name (dict_get_has _ _ _ Hget)). exact Hget.
    + intros name Hname Hin. destruct (Qassigned name Hname) as [Hold | [k ->]].
      * apply (Hassigned name Hold). now right.
      * unfold keys in Hin. apply in_map_iff in Hin. destruct Hin as ([n d] & Hn & Hin).
        cbn [fst] in Hn. subst n. destruct (Hrest _ d (or_intror Hin)) as [_ Hget].
        apply dict_get_has in Hget. now rewrite Hfresh in Hget.
Qed.

Lemma loop_keeps (fuel : nat) :
  forall rules processed_rules rules',
    pass_invariant rules processed_rules ->
    normalize_loop fuel rules processed_rules = Some (Ok rules') ->
    forall name rule_def, dict_get name rules' = Some rule_def -> normalized rule_def = true.
Proof.
  induction fuel as [|fuel IH]; intros rules processed_rules rules' Hinv; cbn [normalize_loop];
    destruct (filter (fun entry => negb (mem (fst entry) processed_rules)) rules)
      as [|first others] eqn:Hfilter; try discriminate.
  1, 2: intros [= <-] name rule_def Hget;
    destruct Hinv as (_ & _ & Hnorm & _); apply (Hnorm name rule_def Hget);
    apply mem_In; destruct (mem name processed_rules) eqn:Hmem; [reflexivity|];
    apply dict_get_In in Hget;
    assert (Hin : In (name, rule_def)
                    (filter (fun entry => negb (mem (fst entry) processed_rules)) rules))
      by (apply filter_In; split; [exact Hget | cbn [fst]; now rewrite Hmem]);
    rewrite Hfilter in Hin; destruct Hin.
  rewrite <- Hfilter.
  destruct (process_rules (filter (fun entry => negb (mem (fst entry) processed_rules)) rules)
              rules processed_rules []) as [r|e] eqn:Hpass; cbn [lift fbind]; [|discriminate].
  apply IH. refine (process_keeps _ _ _ _ r _ Hpass).
  split; [exact Hinv|]. destruct Hinv as (Hnodup & _). split; [|split].
  - now apply keys_filter_NoDup.
  - intros name d Hin. apply filter_In in Hin. destruct Hin as [Hin Hnew].
    cbn [fst] in Hnew. apply negb_true_iff in Hnew. split.
    + intros H. apply mem_In in H. congruence.
    + now apply NormalizeFacts.NoDup_get.
  - intros name [].
Qed.

End NormalizedRules.

(** X27. In the grammar that [_normalize_grammar] returns, no rule holds
    an inline definition that [is_inline_def_with_ast] accepts, at any
    place that the walker looks at, when no rule name of the grammar it
    was given holds a double underscore: every such definition has
    become a rule of its own. *)
Theorem normalize_leaves_no_inline_definition (fuel : nat) (grammar_dict rules : dict)
    (new_grammar : dict) :
  dict_get "rules" grammar_dict = Some (VDict rules) ->
  NoDup (keys rules) ->
  (forall name, In name (keys rules) -> contains "__" name = false) ->
  _normalize_grammar fuel grammar_dict = Some (Ok new_grammar) ->
  exists new_rules,
    dict_get "rules" new_grammar = Some (VDict new_rules) /\
    forall name rule_def,
      dict_get name new_rules = Some rule_def -> normalized rule_def = true.
Proof.
  intros Hrules Hnodup Hplain. unfold _normalize_grammar. rewrite Hrules.
  destruct (normalize_loop fuel rules []) as [[rules'|e]|] eqn:Hloop; cbn [fbind ret];
    try discriminate.
  intros [= <-]. exists rules'. split; [apply dict_get_set_same|].
  apply (NormalizedRules.loop_keeps fuel rules [] rules'); [|exact Hloop].
  split; [exact Hnodup|]. split; [intros name []|]. split; [intros name d _ []|].
  intros base_name k Hhas. exfalso. apply dict_has_In in Hhas.
  exact (HoistedNames.plain_name_not_hoisted _ base_name k (Hplain _ Hhas) eq_refl).
Qed.

Lemma normalize_leaves_no_inline_definition_witness :
  exists new_rules,
    dict_get "rules"
      [("rules",
        VDict [("a", VDict [("sequence", VList [VDict [("rule", VStr "a__1")]])]);
               ("a__1", VDict [("ast", VDict [("tag", VStr "opt")]);
                               ("sequence", VList [VDict [("optional",
                                   VDict [("rule", VStr "a__1__1")])]])]);
               ("a__1__1", VDict [("ast", VDict [("leaf", VBool true)]);
                                  ("sequence", VList [VDict [("regex", VStr "x")]])])])]
    = Some (VDict new_rules) /\
    forall name rule_def,
      dict_get name new_rules = Some rule_def -> normalized rule_def = true.
Proof.
  apply (normalize_leaves_no_inline_definition 3 nested_grammar
           [("a", VDict [("sequence",
               VList [VDict [("optional", VDict [("regex", VStr "x");
                                                 ("ast", VDict [("leaf", VBool true)])]);
                             ("ast", VDict [("tag", VStr "opt")])]])])]).
  - reflexivity.
  - repeat constructor. intros [].
  - intros name [<- | []]. reflexivity.
  - vm_compute. reflexivity.
Defined.


(** ** The order of the tokens *)

Module TokenOrder.
Import StatefulLexer.

Lemma sorted_snoc {A : Type} (R : A -> A -> Prop) (l : list A) (y : A) :
  StronglySorted R l -> Forall (fun x => R x y) l -> StronglySorted R (l ++ [y]).
Proof.
  induction 1 as [|x l Hsorted IH Hx]; intros Hall; cbn [List.app].
  - constructor; constructor.
  - apply Forall_cons_iff in Hall. destruct Hall as [Hxy Hall].
    constructor; [now apply IH|].
    apply Forall_app. split; [exact Hx | now constructor].
Qed.

(** Without indentation handling and without empty matches, the tokens
    of a reached state are in the order of the text and stand before the
    position of the state. *)
Lemma order_invariant (lx : t) (text : string) (st : state) :
  (forall spec, In spec (compiled_specs lx) -> is_handle_indent (spec_action spec) = false) ->
  (forall spec, In spec (compiled_specs lx) ->
     forall t pos n, spec_regex spec t pos = Some n -> (0 < n)%nat) ->
  reached lx text st ->
  StronglySorted stands_before (st_tokens st) /\
  Forall (before_position (st_line_num st) (Z.of_nat (st_pos st) - st_line_start st + 1))
    (st_tokens st).
Proof.
  intros Hplain Hnonempty.
  induction 1 as [|st st' Hreached [IHsorted IHbefore] Hpos Hstep].
  - split; constructor.
  - apply LexerRunFacts.step_inv in Hstep.
    destruct Hstep as (m & stack & tokens & Hsel & Hact & ->).
    apply LexerRunFacts.select_shape in Hsel.
    destruct Hsel as (spec & n & Hin & Hre & ->).
    cbn [cand_action cand_value cand_token cand_end] in *.
    rewrite (Hplain spec Hin) in Hact.
    specialize (Hnonempty spec Hin _ _ _ Hre).
    cbn [st_tokens st_line_num st_line_start st_pos].
    pose proof (LineCountFacts.count_newlines_nonneg (slice text (st_pos st) n)) as Hnn.
    assert (Hold : Forall (before_position
                     (if count_newlines (slice text (st_pos st) n) >? 0
                      then st_line_num st + count_newlines (slice text (st_pos st) n)
                      else st_line_num st)
                     (Z.of_nat (st_pos st + n)
                      - (if count_newlines (slice text (st_pos st) n) >? 0
                         then Z.of_nat (st_pos st)
                              + rfind_newline (slice text (st_pos st) n) + 1
                         else st_line_start st) + 1))
                   (st_tokens st)).
    { apply (Forall_impl _ (P := before_position (st_line_num st)
                                   (Z.of_nat (st_pos st) - st_line_start st + 1)));
        [|exact IHbefore].
      intros a Ha. unfold before_position in *.
      destruct (count_newlines (slice text (st_pos st) n) >? 0) eqn:Hc;
        [apply Z.gtb_lt in Hc | ]; lia. }
    destruct (negb (is_skip (spec_action spec))); injection Hact as <- <-.
    + split.
      * apply sorted_snoc; [exact IHsorted|].
        apply (Forall_impl _ (P := before_position (st_line_num st)
                                     (Z.of_nat (st_pos st) - st_line_start st + 1)));
          [|exact IHbefore].
        intros a Ha. exact Ha.
      * apply Forall_app. split; [exact Hold|]. constructor; [|constructor].
        unfold before_position. cbn [tok_line tok_col].
        destruct (count_newlines (slice text (st_pos st) n) >? 0) eqn:Hc;
          [apply Z.gtb_lt in Hc | ]; lia.
    + split; [exact IHsorted | exact Hold].
Qed.

End TokenOrder.

(** X28. The tokens come in the order of the text: when no spec handles
    indentation and no regex matches the empty string, every token of the
    list that [tokenize] returns stands on a later line than the tokens
    before it, or on the same line in a later column. *)
Theorem tokens_are_in_source_order (lx : StatefulLexer.t) (text : string) (fuel : nat)
    (tokens : list Token) :
  (forall spec, In spec (StatefulLexer.compiled_specs lx) ->
     StatefulLexer.is_handle_indent (spec_action spec) = false) ->
  (forall spec, In spec (StatefulLexer.compiled_specs lx) ->
     forall t pos n, spec_regex spec t pos = Some n -> (0 < n)%nat) ->
  StatefulLexer.tokenize fuel lx text = Some (Ok tokens) ->
  StronglySorted stands_before tokens.
Proof.
  intros Hplain Hnonempty. unfold StatefulLexer.tokenize.
  destruct (StatefulLexer.loop fuel lx (expandtabs (StatefulLexer.tab_width lx) text)
              StatefulLexer.init) as [[st|e]|] eqn:Hloop; try discriminate.
  apply LexerRunFacts.loop_reached in Hloop; [|constructor].
  destruct Hloop as [Hreached _].
  assert (Hno : StatefulLexer.handles_indentation lx = false).
  { unfold StatefulLexer.handles_indentation.
    apply Bool.not_true_iff_false. intros H. apply existsb_exists in H.
    destruct H as (spec & Hin & Hspec). rewrite (Hplain spec Hin) in Hspec. discriminate. }
  rewrite Hno. intros H. injection H as <-.
  exact (proj1 (TokenOrder.order_invariant lx _ st Hplain Hnonempty Hreached)).
Qed.

Lemma tokens_are_in_source_order_witness :
  exists tokens,
    StatefulLexer.tokenize 5 word_lexer "ab cd" = Some (Ok tokens) /\
    StronglySorted stands_before tokens.
Proof.
  eexists. split; [vm_compute; reflexivity|].
  apply (tokens_are_in_source_order word_lexer "ab cd" 5).
  - intros spec [<- | [<- | []]]; reflexivity.
  - intros spec [<- | [<- | []]] t pos n; cbn [spec_regex].
    + unfold re_identifier. destruct (span is_lower (drop_str pos t)); [discriminate|].
      intros H. injection H as <-. lia.
    + unfold re_spaces. destruct (span (Ascii.eqb space) (drop_str pos t)); [discriminate|].
      intros H. injection H as <-. lia.
  - vm_compute. reflexivity.
Defined.


(** The fuel that brings the loop from the initial state to a reached
    state. *)
Lemma loop_from_reached (lx : StatefulLexer.t) (text : string) (st : StatefulLexer.state) :
  reached lx text st ->
  exists spent, forall fuel,
    StatefulLexer.loop (spent + fuel) lx text StatefulLexer.init = StatefulLexer.loop fuel lx text st.
Proof.
  induction 1 as [|st st' Hreached [spent IH] Hpos Hstep].
  - exists 0%nat. reflexivity.
  - exists (S spent). intros fuel.
    replace (S spent + fuel)%nat with (spent + S fuel)%nat by lia.
    rewrite IH. cbn [StatefulLexer.loop].
    now rewrite (proj2 (Nat.ltb_lt _ _) Hpos), Hstep.
Qed.

(** X29. The lexer reports an unexpected character at the position that
    the position finder gives for its offset: when the loop of
    [tokenize] comes to an offset of the tab-expanded text at which no
    spec matches, the call, given the fuel to come that far, raises the
    [SyntaxError] whose message names the line and column of
    [LineColumnFinder.find] and the character at that offset. *)
Theorem syntax_error_position_is_found (lx : StatefulLexer.t) (text : string)
    (st : StatefulLexer.state) :
  let expanded := expandtabs (StatefulLexer.tab_width lx) text in
  reached lx expanded st ->
  (StatefulLexer.st_pos st < String.length expanded)%nat ->
  StatefulLexer.select (StatefulLexer.compiled_specs lx) expanded (StatefulLexer.st_pos st)
    = None ->
  exists line col,
    LineColumnFinder.find expanded (Z.of_nat (StatefulLexer.st_pos st)) = Ok (line, col) /\
    exists enough, forall fuel,
      (enough <= fuel)%nat ->
      StatefulLexer.tokenize fuel lx text
      = Some (Raise (SyntaxError
          ("Unexpected character at L" ++ str_of_Z line ++ ":C" ++ str_of_Z col ++ ": '"
           ++ StatefulLexer.char_at expanded (StatefulLexer.st_pos st) ++ "'"))).
Proof.
  intros expanded Hreached Hpos Hsel.
  destruct (LexerRunFacts.position_invariant lx expanded st Hreached) as [Hnum Hstart].
  eexists. eexists. split; [apply LineCountFacts.find_closed_form; lia|].
  destruct (loop_from_reached lx expanded st Hreached) as [spent Hspent].
  exists (S spent). intros fuel Hfuel.
  unfold StatefulLexer.tokenize. fold expanded.
  replace fuel with (spent + S (fuel - S spent))%nat by lia.
  rewrite Hspent. cbn [StatefulLexer.loop].
  rewrite (proj2 (Nat.ltb_lt _ _) Hpos).
  unfold StatefulLexer.step. rewrite Hsel. rewrite <- Hnum.
  replace (Z.of_nat (StatefulLexer.st_pos st) - StatefulLexer.st_line_start st + 1)
    with (Z.of_nat (StatefulLexer.st_pos st)
          - rfind_newline (take_str (StatefulLexer.st_pos st) expanded)) by lia.
  reflexivity.
Qed.

Lemma syntax_error_position_is_found_witness :
  exists line col,
    LineColumnFinder.find "ab!" 2 = Ok (line, col) /\
    exists enough, forall fuel,
      (enough <= fuel)%nat ->
      StatefulLexer.tokenize fuel word_lexer "ab!"
      = Some (Raise (SyntaxError
          ("Unexpected character at L" ++ str_of_Z line ++ ":C" ++ str_of_Z col ++ ": '"
           ++ StatefulLexer.char_at "ab!" 2 ++ "'"))).
Proof.
  apply (syntax_error_position_is_found word_lexer "ab!"
           (StatefulLexer.mkState [mkToken (Some "NAME") "ab" 1 1] [0] 1 0 2)).
  - apply (reached_step word_lexer _ StatefulLexer.init).
    + constructor.
    + vm_compute. lia.
    + vm_compute. reflexivity.
  - vm_compute. lia.
  - vm_compute. reflexivity.
Defined.
